(** * openbot orchestration core: a shallow embedding

    Classes embedded here (all under [src/orchestration]):
    - the data model of [types.ts]
    - [WorkerRegistry]      (worker-registry.ts)
    - [TaskRouter]          (task-router.ts)
    - [ExponentialBackoff], [withRetry], [calculateTotalBackoffTime]
    - [CircuitBreaker], [CircuitBreakerRegistry]
    - [Orchestrator]        (orchestrator.ts)
    - [WorkerHealthTracker] (the counters and the up-time accounting of the
      health score module; module [Health])

    Conventions.
    - JavaScript numbers that hold counts, loads and millisecond clocks are
      [Z]; fractions ([jitter], [failureThreshold], [Math.random]) are the
      rationals [Q] that the doubles denote. The arithmetic of the backoff
      delays and of the breaker's failure rate is IEEE-754 binary64 ([b64]:
      round to nearest, ties to even, overflow to an infinity, [NaN]); the
      sign of a zero is not kept. The load ratios that the router compares
      are kept as exact quotients ([js_div]); for loads up to 2^26 their
      rounding changes no comparison ([rounded_ratio_order]).
    - A JavaScript [Map] keeps insertion order, which the code observes
      ([getAll], the timeout sweep), so it is an association list with
      unique keys ([jsmap_set] overwrites in place or appends).
    - Task objects are shared by reference between the caller, the queue and
      the active table; they live in a store ([o_heap]) and the collections
      hold references.
    - [Date.now()] and [Math.random()] are inputs of the operation that
      reads them; [randomUUID()] is the allocation counter of the store. *)

From Stdlib Require Import ZArith QArith Qround Qpower String List Lia Lqa.
From stdpp Require Import base list strings sorting.
Import ListNotations.

#[local] Set Warnings "-clear-no-such-hyp".

Local Open Scope string_scope.
Local Open Scope Z_scope.

(** ** JavaScript [Map] as an insertion-ordered association list *)

Section JsMap.
Context {K V : Type} `{EqDecision K}.

Fixpoint jsmap_get (k : K) (m : list (K * V)) : option V :=
  match m with
  | [] => None
  | (k', v) :: m' => if decide (k' = k) then Some v else jsmap_get k m'
  end.

Fixpoint jsmap_set (k : K) (v : V) (m : list (K * V)) : list (K * V) :=
  match m with
  | [] => [(k, v)]
  | (k', v') :: m' =>
      if decide (k' = k) then (k, v) :: m' else (k', v') :: jsmap_set k v m'
  end.

Fixpoint jsmap_delete (k : K) (m : list (K * V)) : list (K * V) :=
  match m with
  | [] => []
  | (k', v') :: m' =>
      if decide (k' = k) then m' else (k', v') :: jsmap_delete k m'
  end.

Definition jsmap_has (k : K) (m : list (K * V)) : bool :=
  match jsmap_get k m with Some _ => true | None => false end.

Definition jsmap_keys (m : list (K * V)) : list K := map fst m.
Definition jsmap_values (m : list (K * V)) : list V := map snd m.
Definition jsmap_size (m : list (K * V)) : Z := Z.of_nat (length m).
End JsMap.

(** ** types.ts *)

Inductive WorkerStatus := online | busy | degraded | offline.
Inductive TaskPriority := low | normal | high | critical.
Inductive TaskStatus := pending | assigned | running | completed | failed | timeout.
Inductive RoutingStrategy := round_robin | least_loaded | capability_match | random.

Definition WorkerStatus_eqb (a b : WorkerStatus) : bool :=
  match a, b with
  | online, online | busy, busy | degraded, degraded | offline, offline => true
  | _, _ => false
  end.

Definition TaskStatus_eqb (a b : TaskStatus) : bool :=
  match a, b with
  | pending, pending | assigned, assigned | running, running
  | completed, completed | failed, failed | timeout, timeout => true
  | _, _ => false
  end.

(** Opaque JSON values ([unknown], [Record<string, unknown>]) are kept as
    their serialisation. *)
Definition Json := string.

Record WorkerInfo := mkWorkerInfo {
  w_id : string;
  w_name : string;
  w_endpoint : string;
  w_status : WorkerStatus;
  w_lastHeartbeat : Z;
  w_capabilities : list string;
  w_currentLoad : Z;
  w_maxLoad : Z;
  w_metadata : option Json
}.

(** [Partial<WorkerInfo>]: [None] is an absent key.  [metadata] is optional
    in [WorkerInfo] itself, so a present key may carry [undefined]. *)
Record WorkerUpdates := mkWorkerUpdates {
  u_id : option string;
  u_name : option string;
  u_endpoint : option string;
  u_status : option WorkerStatus;
  u_lastHeartbeat : option Z;
  u_capabilities : option (list string);
  u_currentLoad : option Z;
  u_maxLoad : option Z;
  u_metadata : option (option Json)
}.

(** [Omit<WorkerInfo, "lastHeartbeat" | "status">] *)
Record WorkerDescriptor := mkWorkerDescriptor {
  d_id : string;
  d_name : string;
  d_endpoint : string;
  d_capabilities : list string;
  d_currentLoad : Z;
  d_maxLoad : Z;
  d_metadata : option (option Json)
}.

Record HeartbeatPayload := mkHeartbeatPayload {
  hb_workerId : string;
  hb_status : WorkerStatus;
  hb_currentLoad : Z;
  hb_maxLoad : Z;
  hb_capabilities : list string
}.

(** Task identifiers: [randomUUID()] is modelled by the allocation counter,
    so the identifier of a task is also its reference in the store. *)
Definition TaskId := nat.

Record Task := mkTask {
  t_id : TaskId;
  t_type : string;
  t_payload : Json;
  t_priority : TaskPriority;
  t_status : TaskStatus;
  t_createdAt : Z;
  t_assignedTo : option string;
  t_assignedAt : option Z;
  t_completedAt : option Z;
  t_result : option Json;
  t_error : option string;
  t_retries : Z;
  t_maxRetries : Z;
  t_timeoutMs : Z
}.

Record TaskResult := mkTaskResult {
  r_taskId : TaskId;
  r_workerId : string;
  r_success : bool;
  r_result : option Json;
  r_error : option string;
  r_durationMs : Z
}.

Record TaskAssignment := mkTaskAssignment {
  a_task : TaskId;
  a_workerId : string
}.

Record OrchestratorConfig := mkConfig {
  routingStrategy : RoutingStrategy;
  heartbeatIntervalMs : Z;
  missedHeartbeatsThreshold : Z;
  defaultTaskTimeoutMs : Z;
  defaultMaxRetries : Z;
  maxQueueSize : Z
}.

(** ** worker-registry.ts *)

Record WorkerRegistry := mkRegistry {
  workers : list (string * WorkerInfo);
  reg_heartbeatIntervalMs : Z;
  reg_missedHeartbeatsThreshold : Z
}.

Definition set_workers (ws : list (string * WorkerInfo)) (r : WorkerRegistry) :=
  {| workers := ws;
     reg_heartbeatIntervalMs := reg_heartbeatIntervalMs r;
     reg_missedHeartbeatsThreshold := reg_missedHeartbeatsThreshold r |}.

(** The object spread [{ ...worker, ...updates }]. *)
Definition spread (w : WorkerInfo) (u : WorkerUpdates) : WorkerInfo :=
  {| w_id := default (w_id w) (u_id u);
     w_name := default (w_name w) (u_name u);
     w_endpoint := default (w_endpoint w) (u_endpoint u);
     w_status := default (w_status w) (u_status u);
     w_lastHeartbeat := default (w_lastHeartbeat w) (u_lastHeartbeat u);
     w_capabilities := default (w_capabilities w) (u_capabilities u);
     w_currentLoad := default (w_currentLoad w) (u_currentLoad u);
     w_maxLoad := default (w_maxLoad w) (u_maxLoad u);
     w_metadata := default (w_metadata w) (u_metadata u) |}.

(** [updateWorker]: [None] stands for the thrown "Worker not found". *)
Definition updateWorker (workerId : string) (u : WorkerUpdates) (r : WorkerRegistry)
  : option (WorkerInfo * WorkerRegistry) :=
  match jsmap_get workerId (workers r) with
  | None => None
  | Some worker =>
      let updated := spread worker u in
      Some (updated, set_workers (jsmap_set workerId updated (workers r)) r)
  end.

Definition descriptor_updates (d : WorkerDescriptor) (now : Z) : WorkerUpdates :=
  {| u_id := Some (d_id d);
     u_name := Some (d_name d);
     u_endpoint := Some (d_endpoint d);
     u_status := Some online;
     u_lastHeartbeat := Some now;
     u_capabilities := Some (d_capabilities d);
     u_currentLoad := Some (d_currentLoad d);
     u_maxLoad := Some (d_maxLoad d);
     u_metadata := d_metadata d |}.

Definition new_worker (d : WorkerDescriptor) (now : Z) : WorkerInfo :=
  {| w_id := d_id d;
     w_name := d_name d;
     w_endpoint := d_endpoint d;
     w_status := online;
     w_lastHeartbeat := now;
     w_capabilities := d_capabilities d;
     w_currentLoad := d_currentLoad d;
     w_maxLoad := d_maxLoad d;
     w_metadata := default None (d_metadata d) |}.

Definition register (now : Z) (d : WorkerDescriptor) (r : WorkerRegistry)
  : WorkerInfo * WorkerRegistry :=
  match jsmap_get (d_id d) (workers r) with
  | Some existing =>
      (* updateWorker, whose own lookup of the same id succeeds *)
      let updated := spread existing (descriptor_updates d now) in
      (updated, set_workers (jsmap_set (d_id d) updated (workers r)) r)
  | None =>
      let newWorker := new_worker d now in
      (newWorker, set_workers (jsmap_set (d_id d) newWorker (workers r)) r)
  end.

Definition unregister (workerId : string) (r : WorkerRegistry) : bool * WorkerRegistry :=
  (jsmap_has workerId (workers r), set_workers (jsmap_delete workerId (workers r)) r).

Definition heartbeat_updates (p : HeartbeatPayload) (now : Z) : WorkerUpdates :=
  {| u_id := None; u_name := None; u_endpoint := None;
     u_status := Some (hb_status p);
     u_lastHeartbeat := Some now;
     u_capabilities := Some (hb_capabilities p);
     u_currentLoad := Some (hb_currentLoad p);
     u_maxLoad := Some (hb_maxLoad p);
     u_metadata := None |}.

Definition heartbeat (now : Z) (p : HeartbeatPayload) (r : WorkerRegistry)
  : option WorkerInfo * WorkerRegistry :=
  match updateWorker (hb_workerId p) (heartbeat_updates p now) r with
  | None => (None, r)
  | Some (w, r') => (Some w, r')
  end.

Definition offline_updates : WorkerUpdates :=
  {| u_id := None; u_name := None; u_endpoint := None;
     u_status := Some offline;
     u_lastHeartbeat := None; u_capabilities := None;
     u_currentLoad := None; u_maxLoad := None; u_metadata := None |}.

(** [checkWorkerHealth]: the loop body only overwrites the entry it visits,
    so iterating the live map is iterating its entries at loop start. *)
Definition checkWorkerHealth (now : Z) (r : WorkerRegistry) : WorkerRegistry :=
  let maxAge := reg_heartbeatIntervalMs r * reg_missedHeartbeatsThreshold r in
  fold_left
    (fun acc e =>
       let '(workerId, worker) := e in
       if WorkerStatus_eqb (w_status worker) offline then acc
       else if maxAge <? now - w_lastHeartbeat worker
            then match updateWorker workerId offline_updates acc with
                 | Some (_, acc') => acc'
                 | None => acc
                 end
            else acc)
    (workers r) r.

Definition get (workerId : string) (r : WorkerRegistry) : option WorkerInfo :=
  jsmap_get workerId (workers r).

Definition getAll (r : WorkerRegistry) : list WorkerInfo := jsmap_values (workers r).

Definition getByStatus (s : WorkerStatus) (r : WorkerRegistry) : list WorkerInfo :=
  List.filter (fun w => WorkerStatus_eqb (w_status w) s) (getAll r).

Definition getAvailable (r : WorkerRegistry) : list WorkerInfo :=
  List.filter
    (fun w => (WorkerStatus_eqb (w_status w) online || WorkerStatus_eqb (w_status w) busy)
              && (w_currentLoad w <? w_maxLoad w))
    (getAll r).

Definition includes (x : string) (l : list string) : bool :=
  existsb (String.eqb x) l.

Definition getByCapability (capability : string) (r : WorkerRegistry) : list WorkerInfo :=
  List.filter
    (fun w => includes capability (w_capabilities w) && WorkerStatus_eqb (w_status w) online)
    (getAll r).

Record RegistryStats := mkRegistryStats {
  rs_total : Z;
  rs_online : Z;
  rs_busy : Z;
  rs_degraded : Z;
  rs_offline : Z;
  rs_totalCapacity : Z;
  rs_currentLoad : Z
}.

Definition count_status (s : WorkerStatus) (ws : list WorkerInfo) : Z :=
  Z.of_nat (length (List.filter (fun w => WorkerStatus_eqb (w_status w) s) ws)).

Definition registry_stats (r : WorkerRegistry) : RegistryStats :=
  let ws := getAll r in
  {| rs_total := Z.of_nat (length ws);
     rs_online := count_status online ws;
     rs_busy := count_status busy ws;
     rs_degraded := count_status degraded ws;
     rs_offline := count_status offline ws;
     rs_totalCapacity := fold_left (fun sum w => sum + w_maxLoad w) ws 0;
     rs_currentLoad := fold_left (fun sum w => sum + w_currentLoad w) ws 0 |}.

(** ** task-router.ts *)

(** A JavaScript number: a finite double, given by the rational it
    denotes, or one of the IEEE specials. *)
Inductive jsnum := Fin (q : Q) | PosInf | NegInf | NaN.

(** The division of two integer loads: one of the IEEE specials when the
    divisor is zero, else the quotient, which is kept exact (the router
    only compares two such quotients). *)
Definition js_div (a b : Z) : jsnum :=
  if b =? 0 then
    if 0 <? a then PosInf else if a <? 0 then NegInf else NaN
  else Fin (inject_Z a / inject_Z b)%Q.

(** [x < y] on JavaScript numbers: false as soon as one side is [NaN]. *)
Definition js_lt (x y : jsnum) : bool :=
  match x, y with
  | NaN, _ | _, NaN => false
  | Fin p, Fin q => if Qlt_le_dec p q then true else false
  | NegInf, NegInf => false
  | NegInf, _ => true
  | Fin _, PosInf => true
  | _, _ => false
  end.

(** *** IEEE-754 binary64 arithmetic

    The arithmetic of the backoff delays and of the breaker's failure rate
    is carried out on doubles. A finite double is the rational it denotes;
    the sign of a zero is not kept. *)

Definition pow2 (e : Z) : Q := (2 ^ e)%Q.

(** The binary exponent of a positive rational: [2^e <= a < 2^(e+1)]. *)
Definition ilog2 (a : Q) : Z :=
  let e0 := Z.log2 (Qnum a) - Z.log2 (Z.pos (Qden a)) in
  if Qle_bool (pow2 e0) a then e0 else e0 - 1.

(** The nearest integer, a tie going to the even one. *)
Definition round_half_even (x : Q) : Z :=
  let f := Qfloor x in
  match (x - inject_Z f ?= 1 # 2)%Q with
  | Lt => f
  | Gt => f + 1
  | Eq => if Z.even f then f else f + 1
  end.

(** The exponent of the unit in the last place of the doubles around a
    positive [a]: 53 significant bits, and [2^-1074] for subnormals. *)
Definition b64_exponent (a : Q) : Z := Z.max (ilog2 a - 52) (-1074).

Definition b64_magnitude (a : Q) : Q :=
  let quantum := pow2 (b64_exponent a) in
  (inject_Z (round_half_even (a / quantum)) * quantum)%Q.

(** The double nearest to a rational (round to nearest, ties to even);
    a magnitude that rounds to [2^1024] or more overflows to an infinity. *)
Definition b64 (x : Q) : jsnum :=
  match (x ?= 0)%Q with
  | Eq => Fin 0
  | Gt => let r := b64_magnitude x in
          if Qle_bool (pow2 1024) r then PosInf else Fin (Qred r)
  | Lt => let r := b64_magnitude (- x) in
          if Qle_bool (pow2 1024) r then NegInf else Fin (Qred (- r))
  end.

(** An integer that a double holds exactly. *)
Definition is_double (z : Z) : Prop := b64 (inject_Z z) = Fin (inject_Z z).

Definition js_neg (x : jsnum) : jsnum :=
  match x with
  | Fin q => Fin (- q)
  | PosInf => NegInf
  | NegInf => PosInf
  | NaN => NaN
  end.

(** [x + y] *)
Definition js_add (x y : jsnum) : jsnum :=
  match x, y with
  | NaN, _ | _, NaN => NaN
  | Fin a, Fin b => b64 (a + b)
  | PosInf, NegInf | NegInf, PosInf => NaN
  | PosInf, _ | _, PosInf => PosInf
  | NegInf, _ | _, NegInf => NegInf
  end.

(** [x - y] *)
Definition js_sub (x y : jsnum) : jsnum := js_add x (js_neg y).

(** [x * y] *)
Definition js_mul (x y : jsnum) : jsnum :=
  match x, y with
  | NaN, _ | _, NaN => NaN
  | Fin a, Fin b => b64 (a * b)
  | Fin a, PosInf | PosInf, Fin a =>
      match (a ?= 0)%Q with Eq => NaN | Gt => PosInf | Lt => NegInf end
  | Fin a, NegInf | NegInf, Fin a =>
      match (a ?= 0)%Q with Eq => NaN | Gt => NegInf | Lt => PosInf end
  | PosInf, PosInf | NegInf, NegInf => PosInf
  | PosInf, NegInf | NegInf, PosInf => NegInf
  end.

(** [x >= y]: false as soon as one side is [NaN]. *)
Definition js_ge (x y : jsnum) : bool :=
  match x, y with
  | NaN, _ | _, NaN => false
  | Fin p, Fin q => Qle_bool q p
  | PosInf, _ => true
  | _, NegInf => true
  | _, _ => false
  end.

(** [Math.min(x, y)] *)
Definition Math_min (x y : jsnum) : jsnum :=
  match x, y with
  | NaN, _ | _, NaN => NaN
  | NegInf, _ | _, NegInf => NegInf
  | PosInf, z | z, PosInf => z
  | Fin a, Fin b => if Qle_bool a b then Fin a else Fin b
  end.

(** [Math.round(x)]: the nearest integer, halves towards plus infinity. *)
Definition Math_round (x : jsnum) : jsnum :=
  match x with
  | Fin q => Fin (inject_Z (Qfloor (q + (1 # 2))))
  | other => other
  end.

(** [Math.pow(2, n)] for an integer [n]. *)
Definition Math_pow2 (n : Z) : jsnum := b64 (pow2 n).

Record TaskRouter := mkRouter {
  strategy : RoutingStrategy;
  roundRobinIndex : nat
}.

Definition loadRatio (w : WorkerInfo) : jsnum := js_div (w_currentLoad w) (w_maxLoad w).

Definition getEligibleWorkers (task : Task) (registry : WorkerRegistry) : list WorkerInfo :=
  let workers := getAvailable registry in
  if String.eqb (t_type task) "" then workers
  else
    let capableWorkers :=
      List.filter
        (fun w => (length (w_capabilities w) =? 0)%nat
                  || includes (t_type task) (w_capabilities w))
        workers in
    if (0 <? length capableWorkers)%nat then capableWorkers else workers.

(** An index into an empty array reads [undefined] ([None]); [x % 0] is
    [NaN], which stores [NaN] in the index. The caller never passes an empty
    array. *)
Definition selectRoundRobin (workers : list WorkerInfo) (rr : nat)
  : option WorkerInfo * nat :=
  (workers !! (rr mod length workers)%nat, ((rr + 1) mod length workers)%nat).

(** [Array.prototype.reduce] without initial value: the first element seeds
    the accumulator; on an empty array it throws ([None]). *)
Definition selectLeastLoaded (workers : list WorkerInfo) : option WorkerInfo :=
  match workers with
  | [] => None
  | w0 :: ws =>
      Some (fold_left
              (fun best worker =>
                 let bestRatio := loadRatio best in
                 let workerRatio := loadRatio worker in
                 if js_lt workerRatio bestRatio then worker else best)
              ws w0)
  end.

Definition selectByCapability (workers : list WorkerInfo) (task : Task) : option WorkerInfo :=
  let exactMatch := List.filter (fun w => includes (t_type task) (w_capabilities w)) workers in
  if (0 <? length exactMatch)%nat then selectLeastLoaded exactMatch
  else selectLeastLoaded workers.

(** [u] is the value returned by [Math.random()]. *)
Definition selectRandom (workers : list WorkerInfo) (u : Q) : option WorkerInfo :=
  let index := Qfloor (u * inject_Z (Z.of_nat (length workers)))%Q in
  if index <? 0 then None else workers !! Z.to_nat index.

Definition selectWorker (rt : TaskRouter) (u : Q) (workers : list WorkerInfo) (task : Task)
  : option WorkerInfo * TaskRouter :=
  if (length workers =? 0)%nat then (None, rt)
  else
    match strategy rt with
    | round_robin =>
        let '(w, rr) := selectRoundRobin workers (roundRobinIndex rt) in
        (w, {| strategy := strategy rt; roundRobinIndex := rr |})
    | least_loaded => (selectLeastLoaded workers, rt)
    | capability_match => (selectByCapability workers task, rt)
    | random => (selectRandom workers u, rt)
    end.

Definition route (rt : TaskRouter) (u : Q) (task : Task) (registry : WorkerRegistry)
  : option TaskAssignment * TaskRouter :=
  let workers := getEligibleWorkers task registry in
  if (length workers =? 0)%nat then (None, rt)
  else
    match selectWorker rt u workers task with
    | (None, rt') => (None, rt')
    | (Some worker, rt') =>
        (Some {| a_task := t_id task; a_workerId := w_id worker |}, rt')
    end.

(** ** ExponentialBackoff *)

(** The delays are configured as integers ([is_double] says that a double
    holds one); [jitter] is the rational that its double denotes. *)
Record ExponentialBackoff := mkBackoff {
  baseDelayMs : Z;
  maxDelayMs : Z;
  jitter : Q;
  maxAttempts : Z;
  attempt : Z
}.

(** [calculateDelay(attempt)] for an integer [attempt]; [u] is the value
    returned by [Math.random()]. *)
Definition calculateDelay (b : ExponentialBackoff) (u : Q) (attempt : Z) : jsnum :=
  let exponentialDelay := js_mul (Fin (inject_Z (baseDelayMs b))) (Math_pow2 attempt) in
  let cappedDelay := Math_min exponentialDelay (Fin (inject_Z (maxDelayMs b))) in
  let jitterRange := js_mul cappedDelay (Fin (jitter b)) in
  let jitterOffset := js_mul (js_sub (js_mul (Fin u) (Fin 2)) (Fin 1)) jitterRange in
  Math_round (js_add cappedDelay jitterOffset).

Definition next (b : ExponentialBackoff) (u : Q) : option jsnum * ExponentialBackoff :=
  if maxAttempts b <=? attempt b then (None, b)
  else
    (Some (calculateDelay b u (attempt b)),
     {| baseDelayMs := baseDelayMs b; maxDelayMs := maxDelayMs b; jitter := jitter b;
        maxAttempts := maxAttempts b; attempt := attempt b + 1 |}).

(** ** CircuitBreaker *)

Inductive CircuitState := closed | open | half_open.

Definition CircuitState_eqb (a b : CircuitState) : bool :=
  match a, b with
  | closed, closed | open, open | half_open, half_open => true
  | _, _ => false
  end.

Record RequestRecord := mkRecord {
  timestamp : Z;
  success : bool
}.

Record CircuitBreaker := mkBreaker {
  state : CircuitState;
  records : list RequestRecord;
  lastFailure : Z;
  halfOpenSuccesses : Z;
  failureThreshold : Q;
  minimumRequests : Z;
  windowMs : Z;
  cooldownMs : Z;
  successThreshold : Z
}.

Definition new_CircuitBreaker (failureThreshold : Q)
    (minimumRequests windowMs cooldownMs successThreshold : Z) : CircuitBreaker :=
  {| state := closed; records := []; lastFailure := 0; halfOpenSuccesses := 0;
     failureThreshold := failureThreshold; minimumRequests := minimumRequests;
     windowMs := windowMs; cooldownMs := cooldownMs;
     successThreshold := successThreshold |}.

Definition cb_with (st : CircuitState) (rs : list RequestRecord) (lf hos : Z)
    (cb : CircuitBreaker) : CircuitBreaker :=
  {| state := st; records := rs; lastFailure := lf; halfOpenSuccesses := hos;
     failureThreshold := failureThreshold cb; minimumRequests := minimumRequests cb;
     windowMs := windowMs cb; cooldownMs := cooldownMs cb;
     successThreshold := successThreshold cb |}.

Definition pruneOldRecords (now : Z) (cb : CircuitBreaker) : CircuitBreaker :=
  let cutoff := now - windowMs cb in
  cb_with (state cb)
    (List.filter (fun r => cutoff <=? timestamp r) (records cb))
    (lastFailure cb) (halfOpenSuccesses cb) cb.

Definition transitionTo (newState : CircuitState) (cb : CircuitBreaker) : CircuitBreaker :=
  if CircuitState_eqb (state cb) newState then cb
  else
    cb_with newState
      (if CircuitState_eqb newState closed then [] else records cb)
      (lastFailure cb)
      (if CircuitState_eqb newState half_open then 0 else halfOpenSuccesses cb)
      cb.

Definition canExecute (now : Z) (cb : CircuitBreaker) : bool * CircuitBreaker :=
  let cb := pruneOldRecords now cb in
  match state cb with
  | closed => (true, cb)
  | open =>
      if cooldownMs cb <=? now - lastFailure cb
      then (true, transitionTo half_open cb)
      else (false, cb)
  | half_open => (true, cb)
  end.

Definition recordSuccess (now : Z) (cb : CircuitBreaker) : CircuitBreaker :=
  let cb := cb_with (state cb) (records cb ++ [mkRecord now true])
                    (lastFailure cb) (halfOpenSuccesses cb) cb in
  match state cb with
  | half_open =>
      let cb := cb_with (state cb) (records cb) (lastFailure cb)
                        (halfOpenSuccesses cb + 1) cb in
      if successThreshold cb <=? halfOpenSuccesses cb
      then transitionTo closed cb else cb
  | _ => cb
  end.

(** [getFailureRate()]; the quotient of the two counts is a double. *)
Definition getFailureRate (now : Z) (cb : CircuitBreaker) : jsnum * CircuitBreaker :=
  let cb := pruneOldRecords now cb in
  if (length (records cb) =? 0)%nat then (Fin 0, cb)
  else
    let failures := length (List.filter (fun r => negb (success r)) (records cb)) in
    (b64 (inject_Z (Z.of_nat failures) / inject_Z (Z.of_nat (length (records cb)))), cb).

Definition evaluateState (now : Z) (cb : CircuitBreaker) : CircuitBreaker :=
  if Z.of_nat (length (records cb)) <? minimumRequests cb then cb
  else
    let '(failureRate, cb) := getFailureRate now cb in
    if js_ge failureRate (Fin (failureThreshold cb))
    then transitionTo open cb else cb.

(** [recordFailure()]. The clock is read three times: [pushed] stamps the
    new sample, [failed] becomes [lastFailure], and [pruned] is read by
    the pruning of [getFailureRate] when a closed breaker is evaluated. *)
Definition recordFailure_reads (pushed failed pruned : Z) (cb : CircuitBreaker)
  : CircuitBreaker :=
  let cb := cb_with (state cb) (records cb ++ [mkRecord pushed false])
                    failed (halfOpenSuccesses cb) cb in
  match state cb with
  | half_open => transitionTo open cb
  | closed => evaluateState pruned cb
  | open => cb
  end.

(** [recordFailure()] within one tick of the clock: the three reads
    return the same time. *)
Definition recordFailure (now : Z) (cb : CircuitBreaker) : CircuitBreaker :=
  recordFailure_reads now now now cb.

Definition getState (cb : CircuitBreaker) : CircuitState := state cb.

(** The three clock reads of one [recordFailure()] call, and a run of
    such calls. *)
Record FailureReads := mkFailureReads {
  fr_pushed : Z;
  fr_failed : Z;
  fr_pruned : Z
}.

Definition recordFailures (reads : list FailureReads) (cb : CircuitBreaker)
  : CircuitBreaker :=
  fold_left (fun cb r => recordFailure_reads (fr_pushed r) (fr_failed r) (fr_pruned r) cb)
            reads cb.

(** ** orchestrator.ts *)

Record TaskSubmission := mkSubmission {
  s_type : string;
  s_payload : Json;
  s_priority : option TaskPriority;
  s_timeoutMs : option Z;
  s_maxRetries : option Z
}.

(** Observer callbacks are recorded as the sequence of their invocations
    (observers are taken not to throw: the orchestrator has no handler
    around them). A task argument is the reference to the task object. *)
Inductive Event :=
| onTaskAssigned (task : TaskId) (workerId : string)
| onTaskCompleted (result : TaskResult)
| onTaskFailed (task : TaskId) (error : string)
| onWorkerOnline (worker : WorkerInfo)
| onWorkerOffline (worker : WorkerInfo).

Record PartialConfig := mkPartialConfig {
  pc_routingStrategy : option RoutingStrategy;
  pc_heartbeatIntervalMs : option Z;
  pc_missedHeartbeatsThreshold : option Z;
  pc_defaultTaskTimeoutMs : option Z;
  pc_defaultMaxRetries : option Z;
  pc_maxQueueSize : option Z
}.

Definition DEFAULT_CONFIG : OrchestratorConfig :=
  {| routingStrategy := least_loaded;
     heartbeatIntervalMs := 30000;
     missedHeartbeatsThreshold := 3;
     defaultTaskTimeoutMs := 60000;
     defaultMaxRetries := 2;
     maxQueueSize := 1000 |}.

Record Orchestrator := mkOrchestrator {
  o_config : OrchestratorConfig;
  o_registry : WorkerRegistry;
  o_router : TaskRouter;
  o_heap : list Task;
  taskQueue : list TaskId;
  activeTasks : list (TaskId * TaskId);
  taskResults : list (TaskId * TaskResult);
  o_events : list Event
}.

Definition new_Orchestrator (config : PartialConfig) : Orchestrator :=
  let cfg :=
    {| routingStrategy := default (routingStrategy DEFAULT_CONFIG) (pc_routingStrategy config);
       heartbeatIntervalMs :=
         default (heartbeatIntervalMs DEFAULT_CONFIG) (pc_heartbeatIntervalMs config);
       missedHeartbeatsThreshold :=
         default (missedHeartbeatsThreshold DEFAULT_CONFIG) (pc_missedHeartbeatsThreshold config);
       defaultTaskTimeoutMs :=
         default (defaultTaskTimeoutMs DEFAULT_CONFIG) (pc_defaultTaskTimeoutMs config);
       defaultMaxRetries := default (defaultMaxRetries DEFAULT_CONFIG) (pc_defaultMaxRetries config);
       maxQueueSize := default (maxQueueSize DEFAULT_CONFIG) (pc_maxQueueSize config) |} in
  {| o_config := cfg;
     o_registry := {| workers := [];
                      reg_heartbeatIntervalMs := heartbeatIntervalMs cfg;
                      reg_missedHeartbeatsThreshold := missedHeartbeatsThreshold cfg |};
     o_router := {| strategy := routingStrategy cfg; roundRobinIndex := 0 |};
     o_heap := [];
     taskQueue := [];
     activeTasks := [];
     taskResults := [];
     o_events := [] |}.

(** Field setters of the orchestrator state. *)
Definition with_registry (r : WorkerRegistry) (o : Orchestrator) : Orchestrator :=
  {| o_config := o_config o; o_registry := r; o_router := o_router o; o_heap := o_heap o;
     taskQueue := taskQueue o; activeTasks := activeTasks o;
     taskResults := taskResults o; o_events := o_events o |}.

Definition with_router (rt : TaskRouter) (o : Orchestrator) : Orchestrator :=
  {| o_config := o_config o; o_registry := o_registry o; o_router := rt; o_heap := o_heap o;
     taskQueue := taskQueue o; activeTasks := activeTasks o;
     taskResults := taskResults o; o_events := o_events o |}.

Definition with_heap (h : list Task) (o : Orchestrator) : Orchestrator :=
  {| o_config := o_config o; o_registry := o_registry o; o_router := o_router o; o_heap := h;
     taskQueue := taskQueue o; activeTasks := activeTasks o;
     taskResults := taskResults o; o_events := o_events o |}.

Definition with_queue (q : list TaskId) (o : Orchestrator) : Orchestrator :=
  {| o_config := o_config o; o_registry := o_registry o; o_router := o_router o;
     o_heap := o_heap o; taskQueue := q; activeTasks := activeTasks o;
     taskResults := taskResults o; o_events := o_events o |}.

Definition with_active (a : list (TaskId * TaskId)) (o : Orchestrator) : Orchestrator :=
  {| o_config := o_config o; o_registry := o_registry o; o_router := o_router o;
     o_heap := o_heap o; taskQueue := taskQueue o; activeTasks := a;
     taskResults := taskResults o; o_events := o_events o |}.

Definition with_results (rs : list (TaskId * TaskResult)) (o : Orchestrator) : Orchestrator :=
  {| o_config := o_config o; o_registry := o_registry o; o_router := o_router o;
     o_heap := o_heap o; taskQueue := taskQueue o; activeTasks := activeTasks o;
     taskResults := rs; o_events := o_events o |}.

Definition emit (e : Event) (o : Orchestrator) : Orchestrator :=
  {| o_config := o_config o; o_registry := o_registry o; o_router := o_router o;
     o_heap := o_heap o; taskQueue := taskQueue o; activeTasks := activeTasks o;
     taskResults := taskResults o; o_events := o_events o ++ [e] |}.

(** Mutation of the task object behind a reference. *)
Definition mutate (ref : TaskId) (f : Task -> Task) (o : Orchestrator) : Orchestrator :=
  match o_heap o !! ref with
  | Some t => with_heap (<[ref := f t]> (o_heap o)) o
  | None => o
  end.

Definition priorityOrder (p : TaskPriority) : Z :=
  match p with critical => 0 | high => 1 | normal => 2 | low => 3 end.

(** The loop of [insertByPriority]: the first index, counted from [i], whose
    entry has a strictly greater rank; [None] when the loop ends without
    [break]. A slot that reads [undefined] is skipped. *)
Fixpoint findInsertIndex (heap : list Task) (taskPriority : Z) (queue : list TaskId) (i : nat)
  : option nat :=
  match queue with
  | [] => None
  | existing :: rest =>
      match heap !! existing with
      | None => findInsertIndex heap taskPriority rest (S i)
      | Some existingTask =>
          if taskPriority <? priorityOrder (t_priority existingTask) then Some i
          else findInsertIndex heap taskPriority rest (S i)
      end
  end.

(** [array.splice(index, 0, x)] *)
Definition splice_insert {A} (index : nat) (x : A) (l : list A) : list A :=
  take index l ++ x :: drop index l.

(** [array.splice(index, 1)] *)
Definition splice_remove {A} (index : nat) (l : list A) : list A :=
  take index l ++ drop (S index) l.

Fixpoint indexOf (x : TaskId) (l : list TaskId) (i : nat) : option nat :=
  match l with
  | [] => None
  | y :: l' => if (y =? x)%nat then Some i else indexOf x l' (S i)
  end.

Definition insertByPriority (ref : TaskId) (o : Orchestrator) : Orchestrator :=
  match o_heap o !! ref with
  | None => o
  | Some task =>
      let taskPriority := priorityOrder (t_priority task) in
      let insertIndex :=
        default (length (taskQueue o))
                (findInsertIndex (o_heap o) taskPriority (taskQueue o) 0) in
      with_queue (splice_insert insertIndex ref (taskQueue o)) o
  end.

(** [submitTask]: [inl] is the thrown "Task queue is full". *)
Definition submitTask (now : Z) (submission : TaskSubmission) (o : Orchestrator)
  : (string + Task) * Orchestrator :=
  if maxQueueSize (o_config o) <=? Z.of_nat (length (taskQueue o))
  then (inl "Task queue is full", o)
  else
    let task :=
      {| t_id := length (o_heap o);
         t_type := s_type submission;
         t_payload := s_payload submission;
         t_priority := default normal (s_priority submission);
         t_status := pending;
         t_createdAt := now;
         t_assignedTo := None;
         t_assignedAt := None;
         t_completedAt := None;
         t_result := None;
         t_error := None;
         t_retries := 0;
         t_maxRetries := default (defaultMaxRetries (o_config o)) (s_maxRetries submission);
         t_timeoutMs := default (defaultTaskTimeoutMs (o_config o)) (s_timeoutMs submission) |} in
    let o := with_heap (o_heap o ++ [task]) o in
    (inr task, insertByPriority (t_id task) o).

Definition set_completed (now : Z) (res : option Json) (t : Task) : Task :=
  {| t_id := t_id t; t_type := t_type t; t_payload := t_payload t;
     t_priority := t_priority t; t_status := completed; t_createdAt := t_createdAt t;
     t_assignedTo := t_assignedTo t; t_assignedAt := t_assignedAt t;
     t_completedAt := Some now; t_result := res; t_error := t_error t;
     t_retries := t_retries t; t_maxRetries := t_maxRetries t;
     t_timeoutMs := t_timeoutMs t |}.

Definition set_retrying (t : Task) : Task :=
  {| t_id := t_id t; t_type := t_type t; t_payload := t_payload t;
     t_priority := t_priority t; t_status := pending; t_createdAt := t_createdAt t;
     t_assignedTo := None; t_assignedAt := None;
     t_completedAt := t_completedAt t; t_result := t_result t; t_error := t_error t;
     t_retries := t_retries t + 1; t_maxRetries := t_maxRetries t;
     t_timeoutMs := t_timeoutMs t |}.

Definition set_failed (now : Z) (err : option string) (t : Task) : Task :=
  {| t_id := t_id t; t_type := t_type t; t_payload := t_payload t;
     t_priority := t_priority t; t_status := failed; t_createdAt := t_createdAt t;
     t_assignedTo := t_assignedTo t; t_assignedAt := t_assignedAt t;
     t_completedAt := Some now; t_result := t_result t; t_error := err;
     t_retries := t_retries t; t_maxRetries := t_maxRetries t;
     t_timeoutMs := t_timeoutMs t |}.

Definition set_assigned (now : Z) (workerId : string) (t : Task) : Task :=
  {| t_id := t_id t; t_type := t_type t; t_payload := t_payload t;
     t_priority := t_priority t; t_status := assigned; t_createdAt := t_createdAt t;
     t_assignedTo := Some workerId; t_assignedAt := Some now;
     t_completedAt := t_completedAt t; t_result := t_result t; t_error := t_error t;
     t_retries := t_retries t; t_maxRetries := t_maxRetries t;
     t_timeoutMs := t_timeoutMs t |}.

Definition reportTaskResult (now : Z) (result : TaskResult) (o : Orchestrator) : Orchestrator :=
  match jsmap_get (r_taskId result) (activeTasks o) with
  | None => o
  | Some ref =>
      let o := with_active (jsmap_delete (r_taskId result) (activeTasks o)) o in
      let o := with_results (jsmap_set (r_taskId result) result (taskResults o)) o in
      match o_heap o !! ref with
      | None => o
      | Some task =>
          if r_success result then
            emit (onTaskCompleted result)
                 (mutate ref (set_completed now (r_result result)) o)
          else if t_retries task <? t_maxRetries task then
            insertByPriority ref (mutate ref set_retrying o)
          else
            emit (onTaskFailed ref (default "Unknown error" (r_error result)))
                 (mutate ref (set_failed now (r_error result)) o)
      end
  end.

(** [getTask]: the active table first, then [taskQueue.find]. *)
Definition getTask (taskId : TaskId) (o : Orchestrator) : option Task :=
  match jsmap_get taskId (activeTasks o) with
  | Some ref => o_heap o !! ref
  | None =>
      List.find (fun t => (t_id t =? taskId)%nat)
                (omap (fun ref => o_heap o !! ref) (taskQueue o))
  end.

Definition getTaskResult (taskId : TaskId) (o : Orchestrator) : option TaskResult :=
  jsmap_get taskId (taskResults o).

Record TaskStats := mkTaskStats {
  queued : Z;
  active : Z;
  st_completed : Z;
  st_failed : Z
}.

Record OrchestratorStats := mkStats {
  st_workers : RegistryStats;
  st_tasks : TaskStats
}.

(** The reducer of [stats]: [acc[t.status] = (acc[t.status] ?? 0) + 1]. *)
Definition bump (acc : TaskStatus -> option Z) (s : TaskStatus) : TaskStatus -> option Z :=
  fun s' => if TaskStatus_eqb s' s then Some (default 0 (acc s) + 1) else acc s'.

Definition queuedByStatus (o : Orchestrator) : TaskStatus -> option Z :=
  fold_left
    (fun acc ref =>
       match o_heap o !! ref with
       | Some t => bump acc (t_status t)
       | None => acc
       end)
    (taskQueue o) (fun _ => None).

Definition stats (o : Orchestrator) : OrchestratorStats :=
  let byStatus := queuedByStatus o in
  {| st_workers := registry_stats (o_registry o);
     st_tasks :=
       {| queued := Z.of_nat (length (taskQueue o));
          active := Z.of_nat (length (activeTasks o));
          st_completed := default 0 (byStatus completed);
          st_failed := default 0 (byStatus failed) |} |}.

(** One iteration of the sweep in [checkTimeouts]; a number is truthy when
    it is not zero. *)
Definition sweep_one (now : Z) (o : Orchestrator) (entry : TaskId * TaskId) : Orchestrator :=
  let '(taskId, ref) := entry in
  match o_heap o !! ref with
  | None => o
  | Some task =>
      match t_assignedAt task with
      | Some at_ =>
          if negb (at_ =? 0) && (t_timeoutMs task <? now - at_) then
            reportTaskResult now
              {| r_taskId := taskId;
                 r_workerId := default "unknown" (t_assignedTo task);
                 r_success := false;
                 r_result := None;
                 r_error := Some "Task timed out";
                 r_durationMs := now - at_ |}
              o
          else o
      | None => o
      end
  end.

(** [checkTimeouts]: the body deletes only the entry being visited and adds
    none, so the live iteration visits exactly the entries present at loop
    start, in insertion order. *)
Definition checkTimeouts (now : Z) (o : Orchestrator) : Orchestrator :=
  fold_left (sweep_one now) (activeTasks o) o.

(** One iteration of the assignment loop of [processQueue]. *)
Definition assign_one (now : Z) (u : Q) (o : Orchestrator) (ref : TaskId) : Orchestrator :=
  match o_heap o !! ref with
  | None => o
  | Some task =>
      match route (o_router o) u task (o_registry o) with
      | (None, rt) => with_router rt o
      | (Some assignment, rt) =>
          let o := with_router rt o in
          let o :=
            match indexOf ref (taskQueue o) 0 with
            | Some index => with_queue (splice_remove index (taskQueue o)) o
            | None => o
            end in
          let o := mutate ref (set_assigned now (a_workerId assignment)) o in
          let o := with_active (jsmap_set (t_id task) ref (activeTasks o)) o in
          emit (onTaskAssigned ref (a_workerId assignment)) o
      end
  end.

Fixpoint assign_loop (now : Z) (rnd : nat -> Q) (i : nat) (pendingTasks : list TaskId)
    (o : Orchestrator) : Orchestrator :=
  match pendingTasks with
  | [] => o
  | ref :: rest => assign_loop now rnd (S i) rest (assign_one now (rnd i) o ref)
  end.

Definition is_pending (o : Orchestrator) (ref : TaskId) : bool :=
  match o_heap o !! ref with
  | Some t => TaskStatus_eqb (t_status t) pending
  | None => false
  end.

(** [processQueue]; [rnd i] is the [Math.random()] value available to the
    [i]-th routing decision of this tick. *)
Definition processQueue (now : Z) (rnd : nat -> Q) (o : Orchestrator) : Orchestrator :=
  let o := checkTimeouts now o in
  let pendingTasks := List.filter (is_pending o) (taskQueue o) in
  assign_loop now rnd 0 pendingTasks o.

Definition registerWorker (now : Z) (d : WorkerDescriptor) (o : Orchestrator)
  : WorkerInfo * Orchestrator :=
  let '(registered, r) := register now d (o_registry o) in
  (registered, emit (onWorkerOnline registered) (with_registry r o)).

Definition unregisterWorker (workerId : string) (o : Orchestrator) : bool * Orchestrator :=
  let worker := get workerId (o_registry o) in
  let '(result, r) := unregister workerId (o_registry o) in
  let o := with_registry r o in
  match result, worker with
  | true, Some w => (result, emit (onWorkerOffline w) o)
  | _, _ => (result, o)
  end.

Definition orchestrator_heartbeat (now : Z) (p : HeartbeatPayload) (o : Orchestrator)
  : option WorkerInfo * Orchestrator :=
  let '(w, r) := heartbeat now p (o_registry o) in
  (w, with_registry r o).

(** ** Operation sequences *)

(** The calls that reach the orchestrator: the HTTP handlers' calls and the
    two timers started by [start]. *)
Inductive Op :=
| OpRegisterWorker (now : Z) (d : WorkerDescriptor)
| OpUnregisterWorker (workerId : string)
| OpHeartbeat (now : Z) (p : HeartbeatPayload)
| OpSubmitTask (now : Z) (s : TaskSubmission)
| OpReportTaskResult (now : Z) (r : TaskResult)
| OpProcessQueue (now : Z) (rnd : nat -> Q)
| OpCheckWorkerHealth (now : Z).

Definition step (o : Orchestrator) (op : Op) : Orchestrator :=
  match op with
  | OpRegisterWorker now d => snd (registerWorker now d o)
  | OpUnregisterWorker workerId => snd (unregisterWorker workerId o)
  | OpHeartbeat now p => snd (orchestrator_heartbeat now p o)
  | OpSubmitTask now s => snd (submitTask now s o)
  | OpReportTaskResult now r => reportTaskResult now r o
  | OpProcessQueue now rnd => processQueue now rnd o
  | OpCheckWorkerHealth now => with_registry (checkWorkerHealth now (o_registry o)) o
  end.

Definition run (o : Orchestrator) (ops : list Op) : Orchestrator :=
  fold_left step ops o.

(** ** Locations of a task, and the end-to-end scenarios *)

Definition in_queue (o : Orchestrator) (id : TaskId) : Prop := In id (taskQueue o).
Definition in_active (o : Orchestrator) (id : TaskId) : Prop :=
  In id (jsmap_keys (activeTasks o)).
Definition in_results (o : Orchestrator) (id : TaskId) : Prop :=
  In id (jsmap_keys (taskResults o)).

(** I1/P1 as the specification words it. *)
Definition exactly_one_location (o : Orchestrator) (id : TaskId) : Prop :=
  (in_queue o id /\ ~ in_active o id /\ ~ in_results o id) \/
  (~ in_queue o id /\ in_active o id /\ ~ in_results o id) \/
  (~ in_queue o id /\ ~ in_active o id /\ in_results o id).

Definition registered (o : Orchestrator) (workerId : string) : Prop :=
  In workerId (jsmap_keys (workers (o_registry o))).

(** P4 for one task, as the specification words it. *)
Definition assignment_consistent (o : Orchestrator) (t : Task) : Prop :=
  t_status t = assigned ->
  exists w at_, t_assignedTo t = Some w /\ t_assignedAt t = Some at_ /\ registered o w.

Definition config_with (timeoutMs maxRetries : Z) : PartialConfig :=
  {| pc_routingStrategy := None; pc_heartbeatIntervalMs := None;
     pc_missedHeartbeatsThreshold := None;
     pc_defaultTaskTimeoutMs := Some timeoutMs;
     pc_defaultMaxRetries := Some maxRetries;
     pc_maxQueueSize := None |}.

Definition worker_w1 (capability : string) : WorkerDescriptor :=
  {| d_id := "w1"; d_name := "W1"; d_endpoint := "h1";
     d_capabilities := [capability]; d_currentLoad := 0; d_maxLoad := 2;
     d_metadata := None |}.

Definition submission (type : string) (p : option TaskPriority) : TaskSubmission :=
  {| s_type := type; s_payload := "{}"; s_priority := p;
     s_timeoutMs := None; s_maxRetries := None |}.

Definition no_random : nat -> Q := fun _ => 0%Q.

(** Scenario 1 (happy path). *)
Definition scenario1 : Orchestrator :=
  run (new_Orchestrator (config_with 5000 0))
      [ OpRegisterWorker 1000 (worker_w1 "chat");
        OpSubmitTask 1001 (submission "chat" None);
        OpProcessQueue 2000 no_random;
        OpReportTaskResult 2042
          {| r_taskId := 0%nat; r_workerId := "w1"; r_success := true;
             r_result := Some "ok"; r_error := None; r_durationMs := 42 |} ].

Definition boom : TaskResult :=
  {| r_taskId := 0%nat; r_workerId := "w1"; r_success := false;
     r_result := None; r_error := Some "boom"; r_durationMs := 10 |}.

(** Scenario 2 (retry then fail), up to the first failure report. *)
Definition scenario2_retrying : Orchestrator :=
  run (new_Orchestrator (config_with 60000 1))
      [ OpRegisterWorker 1000 (worker_w1 "code");
        OpSubmitTask 1001 (submission "code" None);
        OpProcessQueue 2000 no_random;
        OpReportTaskResult 2010 boom ].

Definition scenario2 : Orchestrator :=
  run scenario2_retrying
      [ OpProcessQueue 3000 no_random;
        OpReportTaskResult 3010 boom ].

(** The whole of scenario 2 as one sequence. *)
Definition scenario2_ops : list Op :=
  [ OpRegisterWorker 1000 (worker_w1 "code");
    OpSubmitTask 1001 (submission "code" None);
    OpProcessQueue 2000 no_random;
    OpReportTaskResult 2010 boom;
    OpProcessQueue 3000 no_random;
    OpReportTaskResult 3010 boom ].

(** Scenario 3 (priority order). *)
Definition scenario3 : Orchestrator :=
  run (new_Orchestrator (config_with 60000 2))
      [ OpSubmitTask 1 (submission "t" (Some normal));
        OpSubmitTask 2 (submission "t" (Some high));
        OpSubmitTask 3 (submission "t" (Some normal));
        OpSubmitTask 4 (submission "t" (Some critical)) ].

(** Scenario 5 (timeout path). *)
Definition scenario5 : Orchestrator :=
  run (new_Orchestrator (config_with 100 0))
      [ OpRegisterWorker 1000 (worker_w1 "chat");
        OpSubmitTask 1001 (submission "chat" None);
        OpProcessQueue 2000 no_random;
        OpProcessQueue 3000 no_random ].

(** A worker is unregistered while a task is assigned to it. *)
Definition scenario_unregister : Orchestrator :=
  run (new_Orchestrator (config_with 5000 0))
      [ OpRegisterWorker 1000 (worker_w1 "chat");
        OpSubmitTask 1001 (submission "chat" None);
        OpProcessQueue 2000 no_random;
        OpUnregisterWorker "w1" ].

(** The task of scenario 1 as [submitTask] creates it. *)
Definition chat_task : Task :=
  {| t_id := 0%nat; t_type := "chat"; t_payload := "{}"; t_priority := normal;
     t_status := pending; t_createdAt := 1001; t_assignedTo := None;
     t_assignedAt := None; t_completedAt := None; t_result := None;
     t_error := None; t_retries := 0; t_maxRetries := 0; t_timeoutMs := 5000 |}.

(** Scenario 6: the breaker, with any window. *)
Definition scenario_breaker (windowMs : Z) : CircuitBreaker :=
  new_CircuitBreaker (1 # 2) 4 windowMs 200 2.

(** Priority order on queued tasks: by rank, then by submission order (the
    identifier is the allocation counter). *)
Definition task_before (a b : Task) : Prop :=
  priorityOrder (t_priority a) < priorityOrder (t_priority b) \/
  (priorityOrder (t_priority a) = priorityOrder (t_priority b) /\ (t_id a < t_id b)%nat).

Definition queued_tasks (o : Orchestrator) : list Task :=
  omap (fun ref => o_heap o !! ref) (taskQueue o).

(** Submissions whose retry budget is a count. *)
Definition submission_ok (op : Op) : Prop :=
  match op with
  | OpSubmitTask _ s => match s_maxRetries s with Some m => 0 <= m | None => True end
  | _ => True
  end.

(** What [stats] reads of a worker. *)
Definition stat_view (w : WorkerInfo) : WorkerStatus * Z * Z :=
  (w_status w, w_maxLoad w, w_currentLoad w).

(** [w] with a new heartbeat stamp. *)
Definition stamped (now : Z) (w : WorkerInfo) : WorkerInfo :=
  {| w_id := w_id w; w_name := w_name w; w_endpoint := w_endpoint w;
     w_status := w_status w; w_lastHeartbeat := now;
     w_capabilities := w_capabilities w; w_currentLoad := w_currentLoad w;
     w_maxLoad := w_maxLoad w; w_metadata := w_metadata w |}.

(** ** Invariants of the orchestrator state *)

(** Where a task object is, according to its status. Only the statuses
    [pending], [assigned], [completed] and [failed] are ever written. *)
Definition task_located (o : Orchestrator) (i : TaskId) (t : Task) : Prop :=
  match t_status t with
  | pending => in_queue o i /\ ~ in_active o i
  | assigned =>
      ~ in_queue o i /\ in_active o i /\
      is_Some (t_assignedTo t) /\ is_Some (t_assignedAt t)
  | completed | failed => ~ in_queue o i /\ ~ in_active o i /\ in_results o i
  | running | timeout => False
  end.

Record Inv (o : Orchestrator) : Prop := mkInv {
  inv_queue_nodup : NoDup (taskQueue o);
  inv_active_nodup : NoDup (jsmap_keys (activeTasks o));
  inv_active_ref : forall k r, In (k, r) (activeTasks o) -> k = r;
  inv_queue_live : forall i, in_queue o i -> is_Some (o_heap o !! i);
  inv_active_live : forall i, in_active o i -> is_Some (o_heap o !! i);
  inv_results_live : forall i, in_results o i -> is_Some (o_heap o !! i);
  inv_task : forall i t, o_heap o !! i = Some t -> t_id t = i /\ task_located o i t;
  inv_success : forall i r t,
    jsmap_get i (taskResults o) = Some r -> o_heap o !! i = Some t ->
    r_success r = true -> t_status t = completed
}.

(** The registry keys every worker by its own identifier. *)
Definition RegInv (r : WorkerRegistry) : Prop :=
  forall k w, In (k, w) (workers r) -> w_id w = k.

(** A property of every task object in the store. *)
Definition heap_all (P : Task -> Prop) (o : Orchestrator) : Prop :=
  forall i t, o_heap o !! i = Some t -> P t.

(** I3/P3 on the task store. *)
Definition retry_bound (t : Task) : Prop := 0 <= t_retries t <= t_maxRetries t.

Definition retries_bounded (o : Orchestrator) : Prop := heap_all retry_bound o.

(** P3: within the bound, and exactly at it once failed. *)
Definition retry_policy (t : Task) : Prop :=
  retry_bound t /\ (t_status t = failed -> t_retries t = t_maxRetries t).

(** Queue order on references: both are live and their tasks are in
    [task_before] order. *)
Definition queue_before (heap : list Task) (a b : TaskId) : Prop :=
  exists ta tb, heap !! a = Some ta /\ heap !! b = Some tb /\ task_before ta tb.

Definition rank_at (heap : list Task) (ref : TaskId) : option Z :=
  (fun t => priorityOrder (t_priority t)) <$> heap !! ref.

Definition submit_ops (subs : list (Z * TaskSubmission)) : list Op :=
  map (fun p => OpSubmitTask (fst p) (snd p)) subs.

(** The synthetic result of the timeout sweep for a task. *)
Definition timeout_result (now : Z) (taskId : TaskId) (task : Task) (at_ : Z) : TaskResult :=
  {| r_taskId := taskId;
     r_workerId := default "unknown" (t_assignedTo task);
     r_success := false;
     r_result := None;
     r_error := Some "Task timed out";
     r_durationMs := now - at_ |}.

(** ** ExponentialBackoff: construction, iteration, totals, [withRetry] *)

Definition DEFAULT_BASE_DELAY : Z := 1000.
Definition DEFAULT_MAX_DELAY : Z := 30000.
(** The double written [0.1]. *)
Definition DEFAULT_JITTER : Q := 3602879701896397 # 36028797018963968.
Definition DEFAULT_MAX_ATTEMPTS : Z := 5.

Record BackoffOptions := mkBackoffOptions {
  opt_baseDelayMs : option Z;
  opt_maxDelayMs : option Z;
  opt_jitter : option Q;
  opt_maxAttempts : option Z
}.

Definition new_ExponentialBackoff (options : BackoffOptions) : ExponentialBackoff :=
  {| baseDelayMs := default DEFAULT_BASE_DELAY (opt_baseDelayMs options);
     maxDelayMs := default DEFAULT_MAX_DELAY (opt_maxDelayMs options);
     jitter := default DEFAULT_JITTER (opt_jitter options);
     maxAttempts := default DEFAULT_MAX_ATTEMPTS (opt_maxAttempts options);
     attempt := 0 |}.

Definition getAttempt (b : ExponentialBackoff) : Z := attempt b.

Definition hasMore (b : ExponentialBackoff) : bool := attempt b <? maxAttempts b.

(** [ExponentialBackoff.reset] *)
Definition backoff_reset (b : ExponentialBackoff) : ExponentialBackoff :=
  {| baseDelayMs := baseDelayMs b; maxDelayMs := maxDelayMs b; jitter := jitter b;
     maxAttempts := maxAttempts b; attempt := 0 |}.

(** [k] successive calls of [next()]; the [j]-th call reads [rnd (i + j)]
    from [Math.random()]. *)
Fixpoint next_times (k : nat) (rnd : nat -> Q) (i : nat) (b : ExponentialBackoff)
  : list (option jsnum) * ExponentialBackoff :=
  match k with
  | O => ([], b)
  | S k' =>
      let '(d, b1) := next b (rnd i) in
      let '(ds, b2) := next_times k' rnd (S i) b1 in
      (d :: ds, b2)
  end.

Record BackoffTotals := mkBackoffTotals {
  bt_min : jsnum;
  bt_max : jsnum;
  bt_expected : jsnum
}.

(** [calculateTotalBackoffTime(attempts, options)], for a whole number of
    attempts; [rnd i] is what [Math.random()] returns in iteration [i]. *)
Definition calculateTotalBackoffTime (attempts : Z) (options : BackoffOptions)
    (rnd : nat -> Q) : BackoffTotals :=
  let backoff :=
    new_ExponentialBackoff
      {| opt_baseDelayMs := opt_baseDelayMs options;
         opt_maxDelayMs := opt_maxDelayMs options;
         opt_jitter := Some 0%Q;
         opt_maxAttempts := opt_maxAttempts options |} in
  let total :=
    fold_left (fun total i => js_add total (calculateDelay backoff (rnd i) (Z.of_nat i)))
              (seq 0 (Z.to_nat attempts)) (Fin 0) in
  let jitter := default DEFAULT_JITTER (opt_jitter options) in
  {| bt_min := Math_round (js_mul total (js_sub (Fin 1) (Fin jitter)));
     bt_max := Math_round (js_mul total (js_add (Fin 1) (Fin jitter)));
     bt_expected := total |}.

(** How the promise returned by [withRetry] settles. *)
Inductive Settled (T E : Type) :=
| Resolved (value : T)
| Rejected (error : E).
Arguments Resolved {T E} value.
Arguments Rejected {T E} error.

(** One invocation of the [onRetry] observer. *)
Record RetryNotice (E : Type) := mkRetryNotice {
  rn_attempt : Z;
  rn_delay : jsnum;
  rn_error : E
}.
Arguments mkRetryNotice {E} rn_attempt rn_delay rn_error.
Arguments rn_attempt {E} _.
Arguments rn_delay {E} _.
Arguments rn_error {E} _.

Record RetryRun (T E : Type) := mkRetryRun {
  rr_settled : Settled T E;
  rr_calls : nat;
  rr_notices : list (RetryNotice E)
}.
Arguments mkRetryRun {T E} rr_settled rr_calls rr_notices.
Arguments rr_settled {T E} _.
Arguments rr_calls {T E} _.
Arguments rr_notices {T E} _.

(** The [while (true)] loop of [withRetry]. [fn i] is how the [i]-th
    invocation of the operation settles, [calls] the number of invocations
    so far, [notices] the [onRetry] calls so far. The waits between
    attempts are not modelled. [fuel] bounds the iterations; [None] is
    fuel exhausted. *)
Fixpoint withRetry_loop {T E : Type} (fuel : nat) (fn : nat -> Settled T E)
    (shouldRetry : E -> bool) (rnd : nat -> Q) (calls : nat)
    (backoff : ExponentialBackoff) (notices : list (RetryNotice E))
  : option (RetryRun T E) :=
  match fuel with
  | O => None
  | S fuel' =>
      match fn calls with
      | Resolved v => Some (mkRetryRun (Resolved v) (S calls) notices)
      | Rejected error =>
          if negb (shouldRetry error)
          then Some (mkRetryRun (Rejected error) (S calls) notices)
          else
            match next backoff (rnd calls) with
            | (None, _) => Some (mkRetryRun (Rejected error) (S calls) notices)
            | (Some delay, backoff') =>
                withRetry_loop fuel' fn shouldRetry rnd (S calls) backoff'
                  (notices ++ [mkRetryNotice (getAttempt backoff') delay error])
            end
      end
  end.

(** [withRetry(fn, options)]; [shouldRetry] defaults to [() => true]. *)
Definition withRetry {T E : Type} (fuel : nat) (fn : nat -> Settled T E)
    (options : BackoffOptions) (shouldRetry : option (E -> bool)) (rnd : nat -> Q)
  : option (RetryRun T E) :=
  withRetry_loop fuel fn (default (fun _ => true) shouldRetry) rnd 0
                 (new_ExponentialBackoff options) [].

(** ** CircuitBreaker: statistics, reset, and the registry of breakers *)

Record CircuitStats := mkCircuitStats {
  cs_state : CircuitState;
  cs_failureRate : jsnum;
  cs_totalRequests : Z;
  cs_failures : Z;
  cs_successes : Z
}.

(** [getStats()]. The clock is read twice: [now] by the pruning that
    precedes the two counts, [later] by the pruning of [getFailureRate];
    [totalRequests] is read after the second pruning. *)
Definition getStats (now later : Z) (cb : CircuitBreaker) : CircuitStats * CircuitBreaker :=
  let cb := pruneOldRecords now cb in
  let failures := Z.of_nat (length (List.filter (fun r => negb (success r)) (records cb))) in
  let successes := Z.of_nat (length (List.filter (fun r => success r) (records cb))) in
  let '(failureRate, cb) := getFailureRate later cb in
  ({| cs_state := state cb;
      cs_failureRate := failureRate;
      cs_totalRequests := Z.of_nat (length (records cb));
      cs_failures := failures;
      cs_successes := successes |}, cb).

(** [CircuitBreaker.reset] *)
Definition breaker_reset (cb : CircuitBreaker) : CircuitBreaker :=
  transitionTo closed (cb_with (state cb) [] (lastFailure cb) 0 cb).

Record CircuitBreakerOptions := mkBreakerOptions {
  cbo_failureThreshold : option Q;
  cbo_minimumRequests : option Z;
  cbo_windowMs : option Z;
  cbo_cooldownMs : option Z;
  cbo_successThreshold : option Z
}.

(** [new CircuitBreaker(id, options)] with the constructor's defaults. *)
Definition CircuitBreaker_of_options (options : CircuitBreakerOptions) : CircuitBreaker :=
  new_CircuitBreaker
    (default (1 # 2) (cbo_failureThreshold options))
    (default 5 (cbo_minimumRequests options))
    (default 60000 (cbo_windowMs options))
    (default 30000 (cbo_cooldownMs options))
    (default 3 (cbo_successThreshold options)).

(** The breaker objects are owned by the map; a method call on the breaker
    of a worker is written back under the same key. *)
Record CircuitBreakerRegistry := mkBreakerRegistry {
  breakers : list (string * CircuitBreaker);
  cbr_options : CircuitBreakerOptions
}.

Definition cbr_with (bs : list (string * CircuitBreaker)) (reg : CircuitBreakerRegistry)
  : CircuitBreakerRegistry :=
  {| breakers := bs; cbr_options := cbr_options reg |}.

(** [CircuitBreakerRegistry.get]: get or create. *)
Definition cbr_get (workerId : string) (reg : CircuitBreakerRegistry)
  : CircuitBreaker * CircuitBreakerRegistry :=
  match jsmap_get workerId (breakers reg) with
  | Some breaker => (breaker, reg)
  | None =>
      let breaker := CircuitBreaker_of_options (cbr_options reg) in
      (breaker, cbr_with (jsmap_set workerId breaker (breakers reg)) reg)
  end.

Definition isAvailable (now : Z) (workerId : string) (reg : CircuitBreakerRegistry)
  : bool * CircuitBreakerRegistry :=
  let '(breaker, reg) := cbr_get workerId reg in
  let '(ok, breaker) := canExecute now breaker in
  (ok, cbr_with (jsmap_set workerId breaker (breakers reg)) reg).

Definition cbr_recordSuccess (now : Z) (workerId : string) (reg : CircuitBreakerRegistry)
  : CircuitBreakerRegistry :=
  let '(breaker, reg) := cbr_get workerId reg in
  cbr_with (jsmap_set workerId (recordSuccess now breaker) (breakers reg)) reg.

Definition cbr_recordFailure (now : Z) (workerId : string) (reg : CircuitBreakerRegistry)
  : CircuitBreakerRegistry :=
  let '(breaker, reg) := cbr_get workerId reg in
  cbr_with (jsmap_set workerId (recordFailure now breaker) (breakers reg)) reg.

Definition getOpenCircuits (reg : CircuitBreakerRegistry) : list string :=
  map fst (List.filter (fun e => CircuitState_eqb (getState (snd e)) open) (breakers reg)).

Definition cbr_reset (workerId : string) (reg : CircuitBreakerRegistry)
  : CircuitBreakerRegistry :=
  let '(breaker, reg) := cbr_get workerId reg in
  cbr_with (jsmap_set workerId (breaker_reset breaker) (breakers reg)) reg.

Definition resetAll (reg : CircuitBreakerRegistry) : CircuitBreakerRegistry :=
  cbr_with (map (fun e => (fst e, breaker_reset (snd e))) (breakers reg)) reg.

(** [getAllStats()]: [getStats()] on every breaker in the order of the
    map; the call on the [i]-th breaker reads the clock as [clock i]. *)
Definition getAllStats (clock : nat -> Z * Z) (reg : CircuitBreakerRegistry)
  : list (string * CircuitStats) * CircuitBreakerRegistry :=
  let results :=
    imap (fun i e => (fst e, getStats (fst (clock i)) (snd (clock i)) (snd e)))
         (breakers reg) in
  (map (fun e => (fst e, fst (snd e))) results,
   cbr_with (map (fun e => (fst e, snd (snd e))) results) reg).

(** Calls on a breaker, and calls on the registry of breakers. *)
Inductive BreakerCall :=
| CallCanExecute (now : Z)
| CallRecordSuccess (now : Z)
| CallRecordFailure (now : Z)
| CallReset.

Definition breaker_step (cb : CircuitBreaker) (c : BreakerCall) : CircuitBreaker :=
  match c with
  | CallCanExecute now => snd (canExecute now cb)
  | CallRecordSuccess now => recordSuccess now cb
  | CallRecordFailure now => recordFailure now cb
  | CallReset => breaker_reset cb
  end.

Definition registry_step (reg : CircuitBreakerRegistry) (c : string * BreakerCall)
  : CircuitBreakerRegistry :=
  match snd c with
  | CallCanExecute now => snd (isAvailable now (fst c) reg)
  | CallRecordSuccess now => cbr_recordSuccess now (fst c) reg
  | CallRecordFailure now => cbr_recordFailure now (fst c) reg
  | CallReset => cbr_reset (fst c) reg
  end.

(** The calls made for one worker. *)
Definition calls_for (workerId : string) (calls : list (string * BreakerCall))
  : list BreakerCall :=
  map snd (List.filter (fun c => String.eqb (fst c) workerId) calls).

(** ** TaskRouter: successive routing decisions *)

(** [k] successive [route] calls for the same task on the same registry
    (no [Math.random()] is consumed unless the strategy is random). *)
Fixpoint route_times (k : nat) (rt : TaskRouter) (rnd : nat -> Q) (i : nat) (task : Task)
    (registry : WorkerRegistry) : list (option TaskAssignment) * TaskRouter :=
  match k with
  | O => ([], rt)
  | S k' =>
      let '(a, rt1) := route rt (rnd i) task registry in
      let '(rest, rt2) := route_times k' rt1 rnd (S i) task registry in
      (a :: rest, rt2)
  end.

(** ** WorkerRegistry: well-formed tables and sequences of calls *)

(** Keys are unique (the table is a [Map]) and each record is stored under
    its own identifier. *)
Definition RegWf (r : WorkerRegistry) : Prop :=
  NoDup (jsmap_keys (workers r)) /\ RegInv r.

Definition new_WorkerRegistry (heartbeatIntervalMs missedHeartbeatsThreshold : Z)
  : WorkerRegistry :=
  {| workers := [];
     reg_heartbeatIntervalMs := heartbeatIntervalMs;
     reg_missedHeartbeatsThreshold := missedHeartbeatsThreshold |}.

Inductive RegistryCall :=
| CallRegister (now : Z) (d : WorkerDescriptor)
| CallUnregister (workerId : string)
| CallHeartbeat (now : Z) (p : HeartbeatPayload)
| CallCheckWorkerHealth (now : Z).

Definition worker_registry_step (r : WorkerRegistry) (c : RegistryCall) : WorkerRegistry :=
  match c with
  | CallRegister now d => snd (register now d r)
  | CallUnregister workerId => snd (unregister workerId r)
  | CallHeartbeat now p => snd (heartbeat now p r)
  | CallCheckWorkerHealth now => checkWorkerHealth now r
  end.

(** The age beyond which [checkWorkerHealth] marks a worker offline. *)
Definition maxAge (r : WorkerRegistry) : Z :=
  reg_heartbeatIntervalMs r * reg_missedHeartbeatsThreshold r.

(** What [checkWorkerHealth] leaves of one table entry: a worker that is
    not yet offline and whose last heartbeat is older than [age] gets the
    update [{ status: "offline" }]. *)
Definition health_mark (now age : Z) (e : string * WorkerInfo) : string * WorkerInfo :=
  (fst e,
   if WorkerStatus_eqb (w_status (snd e)) offline then snd e
   else if age <? now - w_lastHeartbeat (snd e) then spread (snd e) offline_updates
        else snd e).

(** The record a heartbeat leaves for worker [w]. *)
Definition after_heartbeat (now : Z) (p : HeartbeatPayload) (w : WorkerInfo) : WorkerInfo :=
  {| w_id := w_id w; w_name := w_name w; w_endpoint := w_endpoint w;
     w_status := hb_status p; w_lastHeartbeat := now;
     w_capabilities := hb_capabilities p; w_currentLoad := hb_currentLoad p;
     w_maxLoad := hb_maxLoad p; w_metadata := w_metadata w |}.

(** The load ratio as a rational, for a worker whose [maxLoad] is not 0. *)
Definition ratio_of (w : WorkerInfo) : Q :=
  (inject_Z (w_currentLoad w) / inject_Z (w_maxLoad w))%Q.

(** The capability test of [getEligibleWorkers]: a wildcard worker (no
    capabilities) or one that lists the task type. *)
Definition accepts (type : string) (w : WorkerInfo) : Prop :=
  w_capabilities w = [] \/ In type (w_capabilities w).

(** The sum of the capped delays [min(maxDelayMs, baseDelayMs * 2^i)] of
    the attempts [i < attempts], as an integer. *)
Definition capped_delays_total (base max attempts : Z) : Z :=
  fold_left (fun total i => total + Z.min max (base * 2 ^ Z.of_nat i))
            (seq 0 (Z.to_nat attempts)) 0.

(** [best] is the first worker of [ws] with the least load ratio. *)
Definition first_least_loaded (ws : list WorkerInfo) (best : WorkerInfo) : Prop :=
  exists i, ws !! i = Some best /\
    (forall w, In w ws -> (ratio_of best <= ratio_of w)%Q) /\
    (forall j w, (j < i)%nat -> ws !! j = Some w -> (ratio_of best < ratio_of w)%Q).


(** ** Orchestrator: views used by the further properties *)

(** A task that is finished: [completed] or [failed]. *)
Definition is_terminal (t : Task) : Prop :=
  t_status t = completed \/ t_status t = failed.

(** A task that is queued or active. *)
Definition is_open (t : Task) : bool :=
  match t_status t with
  | pending | assigned => true
  | _ => false
  end.

(** What [reportTaskResult] leaves of the task it finds active. *)
Definition reported (now : Z) (r : TaskResult) (t : Task) : Task :=
  if r_success r then set_completed now (r_result r) t
  else if t_retries t <? t_maxRetries t then set_retrying t
  else set_failed now (r_error r) t.

(** The rank of [a] is not above the rank of [b]. *)
Definition rank_le (heap : list Task) (a b : TaskId) : Prop :=
  forall ta tb, heap !! a = Some ta -> heap !! b = Some tb ->
    priorityOrder (t_priority ta) <= priorityOrder (t_priority tb).

(** The number of task objects with a given status. *)
Definition count_tasks (s : TaskStatus) (heap : list Task) : Z :=
  Z.of_nat (length (List.filter (fun t => TaskStatus_eqb (t_status t) s) heap)).


(** [t'] is a later state of the task object [t]: what was submitted is
    unchanged and the retry count has not gone down. *)
Definition later_of (t t' : Task) : Prop :=
  t_id t' = t_id t /\ t_type t' = t_type t /\ t_payload t' = t_payload t /\
  t_priority t' = t_priority t /\ t_createdAt t' = t_createdAt t /\
  t_maxRetries t' = t_maxRetries t /\ t_timeoutMs t' = t_timeoutMs t /\
  t_retries t <= t_retries t'.

(** Every task object of [h] is still in [h'], in a later state. *)
Definition heap_extends (h h' : list Task) : Prop :=
  forall i t, h !! i = Some t -> exists t', h' !! i = Some t' /\ later_of t t'.

(** Ranks do not decrease along the queue. *)
Definition RankSorted (o : Orchestrator) : Prop :=
  StronglySorted (rank_le (o_heap o)) (taskQueue o).


(** The notifications of finished tasks among the emitted events. *)
Definition is_completed_event (e : Event) : bool :=
  match e with onTaskCompleted _ => true | _ => false end.

Definition is_failed_event (e : Event) : bool :=
  match e with onTaskFailed _ _ => true | _ => false end.

(** Finished tasks and their notifications correspond. *)
Definition EvInv (o : Orchestrator) : Prop :=
  Z.of_nat (length (List.filter is_completed_event (o_events o)))
    = count_tasks completed (o_heap o) /\
  Z.of_nat (length (List.filter is_failed_event (o_events o)))
    = count_tasks failed (o_heap o) /\
  (forall r, In (onTaskCompleted r) (o_events o) ->
     exists t, o_heap o !! r_taskId r = Some t /\ t_status t = completed) /\
  (forall id err, In (onTaskFailed id err) (o_events o) ->
     exists t, o_heap o !! id = Some t /\ t_status t = failed) /\
  (forall id t, o_heap o !! id = Some t -> t_status t = completed ->
     exists r, In (onTaskCompleted r) (o_events o) /\ r_taskId r = id) /\
  (forall id t, o_heap o !! id = Some t -> t_status t = failed ->
     exists err, In (onTaskFailed id err) (o_events o)).


(** ** WorkerHealthTracker (health score module) *)

Module Health.

Definition DEFAULT_LATENCY_WINDOW : Z := 300000.

Record LatencyRecord := mkLatencyRecord {
  timestamp : Z;
  durationMs : Z
}.

Record HealthMetrics := mkHealthMetrics {
  m_currentLoad : Z;
  m_maxLoad : Z;
  m_successes : Z;
  m_failures : Z;
  m_latencies : list LatencyRecord;
  m_uptimeMs : Z;
  m_totalMs : Z
}.

Record WorkerHealthTracker := mkTracker {
  workerId : string;
  latencyWindowMs : Z;
  successes : Z;
  failures : Z;
  latencies : list LatencyRecord;
  startTime : Z;
  downtime : Z;
  lastDownStart : option Z
}.

(** The constructor; [now] is the [Date.now()] of the [startTime]
    initialiser. *)
Definition new_WorkerHealthTracker (id : string) (window : option Z) (now : Z)
  : WorkerHealthTracker :=
  {| workerId := id;
     latencyWindowMs := default DEFAULT_LATENCY_WINDOW window;
     successes := 0; failures := 0; latencies := [];
     startTime := now; downtime := 0; lastDownStart := None |}.

Definition pruneLatencies (now : Z) (t : WorkerHealthTracker) : WorkerHealthTracker :=
  let cutoff := now - latencyWindowMs t in
  {| workerId := workerId t; latencyWindowMs := latencyWindowMs t;
     successes := successes t; failures := failures t;
     latencies := List.filter (fun l => cutoff <=? timestamp l) (latencies t);
     startTime := startTime t; downtime := downtime t;
     lastDownStart := lastDownStart t |}.

(** [recordSuccess] reads the clock twice: [now] stamps the record and
    [now'] is the time of the pruning. *)
Definition recordSuccess (now now' : Z) (duration : Z) (t : WorkerHealthTracker)
  : WorkerHealthTracker :=
  pruneLatencies now'
    {| workerId := workerId t; latencyWindowMs := latencyWindowMs t;
       successes := successes t + 1; failures := failures t;
       latencies := latencies t ++ [mkLatencyRecord now duration];
       startTime := startTime t; downtime := downtime t;
       lastDownStart := lastDownStart t |}.

Definition recordFailure (t : WorkerHealthTracker) : WorkerHealthTracker :=
  {| workerId := workerId t; latencyWindowMs := latencyWindowMs t;
     successes := successes t; failures := failures t + 1;
     latencies := latencies t;
     startTime := startTime t; downtime := downtime t;
     lastDownStart := lastDownStart t |}.

Definition markDown (now : Z) (t : WorkerHealthTracker) : WorkerHealthTracker :=
  match lastDownStart t with
  | None =>
      {| workerId := workerId t; latencyWindowMs := latencyWindowMs t;
         successes := successes t; failures := failures t; latencies := latencies t;
         startTime := startTime t; downtime := downtime t;
         lastDownStart := Some now |}
  | Some _ => t
  end.

Definition markUp (now : Z) (t : WorkerHealthTracker) : WorkerHealthTracker :=
  match lastDownStart t with
  | Some down =>
      {| workerId := workerId t; latencyWindowMs := latencyWindowMs t;
         successes := successes t; failures := failures t; latencies := latencies t;
         startTime := startTime t; downtime := downtime t + (now - down);
         lastDownStart := None |}
  | None => t
  end.

(** [getMetrics]; [this.lastDownStart ? ... : 0] takes the second branch
    for [null] and for the number 0. *)
Definition getMetrics (now currentLoad maxLoad : Z) (t : WorkerHealthTracker)
  : HealthMetrics :=
  let totalMs := now - startTime t in
  let currentDowntime :=
    match lastDownStart t with
    | Some down => if down =? 0 then 0 else now - down
    | None => 0
    end in
  let uptimeMs := totalMs - downtime t - currentDowntime in
  {| m_currentLoad := currentLoad; m_maxLoad := maxLoad;
     m_successes := successes t; m_failures := failures t;
     m_latencies := latencies t;
     m_uptimeMs := uptimeMs; m_totalMs := totalMs |}.

Definition reset (now : Z) (t : WorkerHealthTracker) : WorkerHealthTracker :=
  {| workerId := workerId t; latencyWindowMs := latencyWindowMs t;
     successes := 0; failures := 0; latencies := [];
     startTime := now; downtime := 0; lastDownStart := None |}.

(** The calls that change a tracker, each with the clock values it reads. *)
Inductive Call :=
| TrackSuccess (now now' duration : Z)
| TrackFailure
| TrackDown (now : Z)
| TrackUp (now : Z)
| TrackReset (now : Z).

Definition step (t : WorkerHealthTracker) (c : Call) : WorkerHealthTracker :=
  match c with
  | TrackSuccess now now' duration => recordSuccess now now' duration t
  | TrackFailure => recordFailure t
  | TrackDown now => markDown now t
  | TrackUp now => markUp now t
  | TrackReset now => reset now t
  end.

(** The clock never runs backwards: the values read by the calls, in
    order, lie between the construction time [t] and [now] and do not
    decrease. *)
Fixpoint clock_monotone (t : Z) (calls : list Call) (now : Z) : Prop :=
  match calls with
  | [] => t <= now
  | TrackSuccess n n' _ :: cs => t <= n /\ n <= n' /\ clock_monotone n' cs now
  | TrackFailure :: cs => clock_monotone t cs now
  | TrackDown n :: cs => t <= n /\ clock_monotone n cs now
  | TrackUp n :: cs => t <= n /\ clock_monotone n cs now
  | TrackReset n :: cs => t <= n /\ clock_monotone n cs now
  end.

(** Down time is accounted inside the life of the tracker, up to the
    clock value [clock]. *)
Definition accounted (clock : Z) (t : WorkerHealthTracker) : Prop :=
  startTime t <= clock /\ 0 <= downtime t /\
  match lastDownStart t with
  | Some down => startTime t <= down <= clock /\ downtime t <= down - startTime t
  | None => downtime t <= clock - startTime t
  end.

End Health.


(** The [onTaskAssigned] notifications for one task. *)
Definition is_assignment_of (id : TaskId) (e : Event) : bool :=
  match e with
  | onTaskAssigned ref _ => (ref =? id)%nat
  | _ => false
  end.

Definition assignments_of (id : TaskId) (events : list Event) : Z :=
  Z.of_nat (length (List.filter (is_assignment_of id) events)).

(** The attempts a task has started: one per retry, and one more unless it
    waits in the queue. *)
Definition attempts_made (t : Task) : Z :=
  t_retries t + (if TaskStatus_eqb (t_status t) pending then 0 else 1).

Definition AsgInv (o : Orchestrator) : Prop :=
  forall id, assignments_of id (o_events o) =
    match o_heap o !! id with
    | Some t => attempts_made t
    | None => 0
    end.




(** [unregisterWorker(w)] was called when the task object [id] already was
    [t] and [w] was registered. *)
Definition unregistered_since (config : PartialConfig) (ops : list Op)
    (id : TaskId) (t : Task) (w : string) : Prop :=
  exists ops1 ops2,
    ops = (ops1 ++ OpUnregisterWorker w :: ops2)%list /\
    o_heap (run (new_Orchestrator config) ops1) !! id = Some t /\
    registered (run (new_Orchestrator config) ops1) w.


(* ================================================================== *)
(** * Properties *)

(** ** The association-list map *)

Section JsMapFacts.
Context {K V : Type} `{EqDecision K}.
Implicit Types (m : list (K * V)) (k : K) (v : V).

Lemma jsmap_get_set_eq k v m : jsmap_get k (jsmap_set k v m) = Some v.
Proof.
  induction m as [|[k' v'] m IH]; simpl.
  - by rewrite decide_True.
  - destruct (decide (k' = k)) as [->|Hne]; simpl.
    + by rewrite decide_True.
    + by rewrite decide_False.
Qed.

Lemma jsmap_get_set_ne k k' v m :
  k <> k' -> jsmap_get k' (jsmap_set k v m) = jsmap_get k' m.
Proof.
  intros Hne. induction m as [|[k0 v0] m IH]; simpl.
  - by rewrite decide_False.
  - destruct (decide (k0 = k)) as [->|Hne0]; simpl.
    + by rewrite !decide_False.
    + destruct (decide (k0 = k')); [done | apply IH].
Qed.

Lemma jsmap_get_Some_In k v m : jsmap_get k m = Some v -> In (k, v) m.
Proof.
  induction m as [|[k' v'] m IH]; simpl; [done|].
  destruct (decide (k' = k)) as [->|Hne]; intros Hg.
  - left. congruence.
  - right. by apply IH.
Qed.

Lemma jsmap_get_None_keys k m : jsmap_get k m = None <-> ~ In k (jsmap_keys m).
Proof.
  induction m as [|[k' v'] m IH]; simpl; [tauto|].
  destruct (decide (k' = k)) as [->|Hne]; [split; [done | tauto]|].
  rewrite IH. tauto.
Qed.

Lemma jsmap_get_Some_keys k v m : jsmap_get k m = Some v -> In k (jsmap_keys m).
Proof.
  intros Hg. destruct (in_dec (fun a b => decide (a = b)) k (jsmap_keys m)) as [|Hn]; [done|].
  apply jsmap_get_None_keys in Hn. congruence.
Qed.

Lemma jsmap_In_get k v m : NoDup (jsmap_keys m) -> In (k, v) m -> jsmap_get k m = Some v.
Proof.
  induction m as [|[k' v'] m IH]; simpl; [done|].
  rewrite NoDup_cons. intros [Hk Hnd] [Heq|Hin].
  - inversion Heq; subst. by rewrite decide_True.
  - destruct (decide (k' = k)) as [->|Hne]; [|by apply IH].
    exfalso. apply Hk. apply list_elem_of_In.
    change k with (fst (k, v)). by apply in_map.
Qed.

Lemma jsmap_keys_set k v m :
  forall x, In x (jsmap_keys (jsmap_set k v m)) <-> x = k \/ In x (jsmap_keys m).
Proof.
  intros x. induction m as [|[k' v'] m IH]; simpl; [naive_solver|].
  destruct (decide (k' = k)) as [->|Hne]; simpl; [naive_solver|].
  rewrite IH. naive_solver.
Qed.

Lemma jsmap_keys_delete k m :
  NoDup (jsmap_keys m) ->
  forall x, In x (jsmap_keys (jsmap_delete k m)) <-> x <> k /\ In x (jsmap_keys m).
Proof.
  intros Hnd x. induction m as [|[k' v'] m IH]; simpl; [naive_solver|].
  simpl in Hnd. apply NoDup_cons in Hnd as [Hk Hnd].
  rewrite list_elem_of_In in Hk.
  destruct (decide (k' = k)) as [->|Hne]; simpl.
  - naive_solver.
  - rewrite (IH Hnd). naive_solver.
Qed.

Lemma jsmap_In_delete k m e : In e (jsmap_delete k m) -> In e m.
Proof.
  induction m as [|[k' v'] m IH]; simpl; [done|].
  destruct (decide (k' = k)); simpl; naive_solver.
Qed.

Lemma jsmap_NoDup_delete k m : NoDup (jsmap_keys m) -> NoDup (jsmap_keys (jsmap_delete k m)).
Proof.
  induction m as [|[k' v'] m IH]; simpl; [done|].
  rewrite NoDup_cons. intros [Hk Hnd].
  destruct (decide (k' = k)); [done|]. simpl. apply NoDup_cons. split; [|by apply IH].
  rewrite list_elem_of_In in *. intros Hin. apply Hk.
  clear -Hin. induction m as [|[k0 v0] m IH]; simpl in *; [done|].
  destruct (decide (k0 = k)); simpl in *; naive_solver.
Qed.

Lemma jsmap_NoDup_set k v m : NoDup (jsmap_keys m) -> NoDup (jsmap_keys (jsmap_set k v m)).
Proof.
  induction m as [|[k' v'] m IH]; simpl.
  - intros _. apply NoDup_singleton.
  - rewrite NoDup_cons. intros [Hk Hnd].
    destruct (decide (k' = k)) as [->|Hne]; simpl.
    + apply NoDup_cons. done.
    + apply NoDup_cons. split; [|by apply IH].
      rewrite list_elem_of_In in *. rewrite jsmap_keys_set. naive_solver.
Qed.

Lemma jsmap_In_set k v m e : In e (jsmap_set k v m) -> e = (k, v) \/ In e m.
Proof.
  induction m as [|[k' v'] m IH]; simpl; [naive_solver|].
  destruct (decide (k' = k)); simpl; naive_solver.
Qed.

Lemma jsmap_get_delete_ne k k' m :
  k <> k' -> jsmap_get k' (jsmap_delete k m) = jsmap_get k' m.
Proof.
  intros Hne. induction m as [|[k0 v0] m IH]; simpl; [done|].
  destruct (decide (k0 = k)) as [->|Hne0]; simpl.
  - by rewrite decide_False.
  - destruct (decide (k0 = k')); [done | apply IH].
Qed.
End JsMapFacts.

(** ** WorkerRegistry *)

Lemma fold_sum_view (f g : WorkerInfo -> Z) (ws ws' : list WorkerInfo) (a : Z) :
  map f ws = map g ws' ->
  fold_left (fun sum w => sum + f w) ws a = fold_left (fun sum w => sum + g w) ws' a.
Proof.
  revert ws' a. induction ws as [|w ws IH]; intros [|w' ws'] a Hm; simpl in *; try done.
  inversion Hm as [[Hw Hws]]. rewrite Hw. by apply IH.
Qed.

Lemma count_status_view s (ws ws' : list WorkerInfo) :
  map w_status ws = map w_status ws' -> count_status s ws = count_status s ws'.
Proof.
  unfold count_status. intros Hm. f_equal.
  revert ws' Hm. induction ws as [|w ws IH]; intros [|w' ws'] Hm; simpl in *; try done.
  inversion Hm as [[Hw Hws]]. rewrite Hw.
  destruct (WorkerStatus_eqb (w_status w') s); simpl; [f_equal|]; by apply IH.
Qed.

Lemma registry_stats_view (r r' : WorkerRegistry) :
  map stat_view (getAll r) = map stat_view (getAll r') ->
  registry_stats r = registry_stats r'.
Proof.
  intros Hv.
  assert (Hst : map w_status (getAll r) = map w_status (getAll r')).
  { apply (f_equal (map (fun v => fst (fst v)))) in Hv. by rewrite !map_map in Hv. }
  assert (Hmx : map w_maxLoad (getAll r) = map w_maxLoad (getAll r')).
  { apply (f_equal (map (fun v => snd (fst v)))) in Hv. by rewrite !map_map in Hv. }
  assert (Hcl : map w_currentLoad (getAll r) = map w_currentLoad (getAll r')).
  { apply (f_equal (map snd)) in Hv. by rewrite !map_map in Hv. }
  unfold registry_stats. f_equal; try by apply count_status_view.
  - f_equal. rewrite <- (length_map w_status (getAll r)), Hst. apply length_map.
  - by apply fold_sum_view.
  - by apply fold_sum_view.
Qed.

Lemma jsmap_set_view (k : string) (w w' : WorkerInfo) (m : list (string * WorkerInfo)) :
  jsmap_get k m = Some w -> stat_view w' = stat_view w ->
  map stat_view (jsmap_values (jsmap_set k w' m)) = map stat_view (jsmap_values m).
Proof.
  intros Hg Hv. induction m as [|[k0 w0] m IH]; simpl in *; [done|].
  destruct (decide (k0 = k)) as [->|Hne]; simpl.
  - inversion Hg; subst. by rewrite Hv.
  - f_equal. by apply IH.
Qed.

Lemma register_lookup now d r :
  get (d_id d) (snd (register now d r)) = Some (fst (register now d r)).
Proof.
  unfold register, get. destruct (jsmap_get (d_id d) (workers r)); simpl;
    apply jsmap_get_set_eq.
Qed.

Lemma register_again now now' d r :
  fst (register now' d (snd (register now d r))) = stamped now' (fst (register now d r)).
Proof.
  pose proof (register_lookup now d r) as Hl. unfold get in Hl.
  unfold register at 1. rewrite Hl.
  unfold register. destruct (jsmap_get (d_id d) (workers r)); simpl;
    unfold spread, stamped, new_worker; simpl; f_equal;
    by destruct (d_metadata d).
Qed.

(** C9. Registering the same descriptor a second time leaves [stats()] as
    it was after the first registration; the worker record is the one of
    the first call with [lastHeartbeat] set to the time of the second call
    (its status is [online]), and no other worker changes. *)
Theorem register_twice_same_stats (r : WorkerRegistry) (d : WorkerDescriptor) (t1 t2 : Z) :
  let r1 := snd (register t1 d r) in
  let w1 := fst (register t1 d r) in
  let r2 := snd (register t2 d r1) in
  let w2 := fst (register t2 d r1) in
  registry_stats r2 = registry_stats r1 /\
  get (d_id d) r1 = Some w1 /\
  get (d_id d) r2 = Some w2 /\
  w2 = stamped t2 w1 /\
  w_status w2 = online /\
  w_lastHeartbeat w2 = t2 /\
  jsmap_keys (workers r2) = jsmap_keys (workers r1) /\
  (forall id, id <> d_id d -> get id r2 = get id r1).
Proof.
  intros r1 w1 r2 w2.
  assert (Hw2 : w2 = stamped t2 w1) by apply register_again.
  assert (Hl1 : get (d_id d) r1 = Some w1) by apply register_lookup.
  assert (Hr2 : workers r2 = jsmap_set (d_id d) w2 (workers r1)).
  { subst r2 w2. unfold register. unfold get in Hl1. rewrite Hl1. simpl.
    f_equal. }
  assert (Hon : w_status w1 = online).
  { subst w1. unfold register. by destruct (jsmap_get (d_id d) (workers r)). }
  split; [|split; [done|split; [apply register_lookup|split; [done|split; [|split; [|split]]]]]].
  - symmetry. apply registry_stats_view. unfold getAll. rewrite Hr2. symmetry.
    eapply jsmap_set_view; [exact Hl1|]. by rewrite Hw2.
  - by rewrite Hw2.
  - by rewrite Hw2.
  - rewrite Hr2. unfold get in Hl1. clear -Hl1.
    induction (workers r1) as [|[k0 w0] m IH]; simpl in *; [done|].
    destruct (decide (k0 = d_id d)) as [->|Hne]; simpl; [done|]. f_equal. by apply IH.
  - intros id Hne. unfold get. rewrite Hr2. by apply jsmap_get_set_ne.
Qed.

(** ** TaskRouter *)

Lemma getAvailable_In (r : WorkerRegistry) (w : WorkerInfo) :
  In w (getAvailable r) ->
  In w (getAll r) /\ (w_status w = online \/ w_status w = busy) /\
  w_currentLoad w < w_maxLoad w.
Proof.
  unfold getAvailable. rewrite filter_In. intros [Hin Hc].
  apply andb_prop in Hc as [Hs Hl]. apply Z.ltb_lt in Hl.
  split; [done|]. split; [|done].
  destruct (w_status w); simpl in Hs; auto; discriminate.
Qed.

Lemma getEligibleWorkers_available (task : Task) (r : WorkerRegistry) (w : WorkerInfo) :
  In w (getEligibleWorkers task r) -> In w (getAvailable r).
Proof.
  unfold getEligibleWorkers. destruct (String.eqb (t_type task) ""); [done|].
  match goal with |- context [(0 <? ?n)%nat] => destruct (0 <? n)%nat end; [|done].
  rewrite filter_In. tauto.
Qed.

Lemma loadRatio_unit_interval (w : WorkerInfo) :
  0 <= w_currentLoad w -> w_currentLoad w < w_maxLoad w ->
  exists q, loadRatio w = Fin q /\ (0 <= q)%Q /\ (q < 1)%Q.
Proof.
  intros H0 Hlt. unfold loadRatio, js_div.
  destruct (Z.eqb_spec (w_maxLoad w) 0) as [Hz|Hnz]; [lia|].
  eexists. split; [reflexivity|].
  assert (Hpos : (0 < inject_Z (w_maxLoad w))%Q).
  { change 0%Q with (inject_Z 0). rewrite <- Zlt_Qlt. lia. }
  split.
  - apply Qle_shift_div_l; [done|]. rewrite Qmult_0_l.
    change 0%Q with (inject_Z 0). rewrite <- Zle_Qle. lia.
  - apply Qlt_shift_div_r; [done|]. rewrite Qmult_1_l. rewrite <- Zlt_Qlt. lia.
Qed.

Lemma least_loaded_fold_In (ws : list WorkerInfo) (w0 : WorkerInfo) :
  In (fold_left
        (fun best worker =>
           let bestRatio := loadRatio best in
           let workerRatio := loadRatio worker in
           if js_lt workerRatio bestRatio then worker else best)
        ws w0)
     (w0 :: ws).
Proof.
  revert w0. induction ws as [|w ws IH]; intros w0; simpl; [auto|].
  match goal with |- context [fold_left ?f ws ?a] => specialize (IH a) end.
  simpl in IH. destruct (js_lt (loadRatio w) (loadRatio w0)); destruct IH; auto.
Qed.

Lemma selectLeastLoaded_In (ws : list WorkerInfo) :
  ws <> [] -> exists w, selectLeastLoaded ws = Some w /\ In w ws.
Proof.
  destruct ws as [|w0 ws]; [done|]. intros _. eexists. split; [reflexivity|].
  apply least_loaded_fold_In.
Qed.

Lemma selectRandom_In (ws : list WorkerInfo) (u : Q) :
  ws <> [] -> (0 <= u)%Q -> (u < 1)%Q ->
  exists w, selectRandom ws u = Some w /\ In w ws.
Proof.
  intros Hne Hu0 Hu1. unfold selectRandom.
  set (n := Z.of_nat (length ws)).
  assert (Hn : 0 < n) by (subst n; destruct ws; [done | simpl; lia]).
  assert (Hnq : (0 < inject_Z n)%Q).
  { change 0%Q with (inject_Z 0). by rewrite <- Zlt_Qlt. }
  set (index := Qfloor (u * inject_Z n)).
  assert (Hlo : 0 <= index).
  { subst index. rewrite <- (Qfloor_Z 0). apply Qfloor_resp_le.
    apply Qmult_le_0_compat; [done | by apply Qlt_le_weak]. }
  assert (Hhi : index < n).
  { rewrite Zlt_Qlt. eapply Qle_lt_trans; [apply Qfloor_le|].
    rewrite <- (Qmult_1_l (inject_Z n)) at 2.
    by apply Qmult_lt_compat_r. }
  destruct (Z.ltb_spec index 0) as [|_]; [lia|].
  destruct (ws !! Z.to_nat index) as [w|] eqn:Hw.
  - exists w. split; [done|]. apply list_elem_of_In. by eapply list_elem_of_lookup_2.
  - apply lookup_ge_None in Hw. subst n. lia.
Qed.

Lemma selectRoundRobin_In (ws : list WorkerInfo) (rr : nat) :
  ws <> [] -> exists w, fst (selectRoundRobin ws rr) = Some w /\ In w ws.
Proof.
  intros Hne. unfold selectRoundRobin. simpl.
  assert (Hlt : (rr mod length ws < length ws)%nat).
  { apply Nat.mod_upper_bound. by destruct ws. }
  destruct (ws !! (rr mod length ws)%nat) as [w|] eqn:Hw.
  - exists w. split; [done|]. apply list_elem_of_In. by eapply list_elem_of_lookup_2.
  - apply lookup_ge_None in Hw. lia.
Qed.

Lemma selectWorker_In (rt : TaskRouter) (u : Q) (ws : list WorkerInfo) (task : Task) :
  ws <> [] -> (strategy rt = random -> (0 <= u)%Q /\ (u < 1)%Q) ->
  exists w, fst (selectWorker rt u ws task) = Some w /\ In w ws.
Proof.
  intros Hne Hu. unfold selectWorker.
  destruct (Nat.eqb_spec (length ws) 0) as [Hl|_]; [by destruct ws|].
  destruct (strategy rt) eqn:Hs.
  - destruct (selectRoundRobin_In ws (roundRobinIndex rt) Hne) as (w & Hw & Hin).
    destruct (selectRoundRobin ws (roundRobinIndex rt)) as [ow rr]. simpl in *. eauto.
  - simpl. by apply selectLeastLoaded_In.
  - simpl. unfold selectByCapability.
    match goal with |- context [(0 <? length ?l)%nat] =>
      destruct (Nat.ltb_spec 0 (length l)) as [Hl|_]; [|by apply selectLeastLoaded_In];
      destruct (selectLeastLoaded_In l) as (w & Hw & Hin)
    end.
    + intros Hnil. rewrite Hnil in Hl. simpl in Hl. lia.
    + exists w. split; [done|]. apply filter_In in Hin. tauto.
  - simpl. destruct Hu as [Hu0 Hu1]; [done|]. by apply selectRandom_In.
Qed.

(** Whenever [route] answers, the worker is one of the eligible workers. *)
Lemma route_Some_eligible (rt : TaskRouter) (u : Q) (task : Task) (r : WorkerRegistry)
    (a : TaskAssignment) :
  fst (route rt u task r) = Some a ->
  a_task a = t_id task /\
  exists w, In w (getEligibleWorkers task r) /\ a_workerId a = w_id w.
Proof.
  unfold route. set (ws := getEligibleWorkers task r).
  destruct (length ws =? 0)%nat; [done|].
  destruct (selectWorker rt u ws task) as [[w|] rt'] eqn:Hsel; [|done].
  simpl. intros [= <-]. split; [done|]. exists w. split; [|done].
  unfold selectWorker in Hsel. destruct (length ws =? 0)%nat; [done|].
  destruct (strategy rt).
  - unfold selectRoundRobin in Hsel. inversion Hsel as [[Hw Hrt]].
    apply list_elem_of_In. by eapply list_elem_of_lookup_2.
  - inversion Hsel as [[Hw Hrt]]. destruct ws as [|w0 ws']; [done|].
    inversion Hw. apply least_loaded_fold_In.
  - inversion Hsel as [[Hw Hrt]]. unfold selectByCapability in Hw.
    match type of Hw with context [(0 <? length ?l)%nat] =>
      destruct (0 <? length l)%nat; [assert (In w l) as Hin|]
    end.
    + destruct (List.filter _ ws) as [|w0 l']; [done|]. inversion Hw.
      apply least_loaded_fold_In.
    + apply filter_In in Hin. tauto.
    + destruct ws as [|w0 ws']; [done|]. inversion Hw. apply least_loaded_fold_In.
  - inversion Hsel as [[Hw Hrt]]. unfold selectRandom in Hw.
    destruct (Qfloor _ <? 0); [done|].
    apply list_elem_of_In. by eapply list_elem_of_lookup_2.
Qed.

(** C10. With non-negative loads, every worker returned by [getAvailable]
    has [currentLoad < maxLoad], hence [maxLoad >= 1], and its load ratio
    is a rational in [0, 1) (no IEEE special from a zero divisor); the
    eligible workers are available ones; and over a non-empty eligible set
    [route] selects one of the eligible workers ([Math.random()] lying in
    [0, 1) for the random strategy). *)
Theorem route_selects_without_division_by_zero
    (rt : TaskRouter) (u : Q) (task : Task) (r : WorkerRegistry)
    (Hload : forall w, In w (getAll r) -> 0 <= w_currentLoad w)
    (Hrandom : strategy rt = random -> (0 <= u)%Q /\ (u < 1)%Q) :
  (forall w, In w (getAvailable r) ->
     w_currentLoad w < w_maxLoad w /\ 1 <= w_maxLoad w /\
     exists q, loadRatio w = Fin q /\ (0 <= q)%Q /\ (q < 1)%Q) /\
  (forall w, In w (getEligibleWorkers task r) -> In w (getAvailable r)) /\
  (getEligibleWorkers task r <> [] ->
     exists w, In w (getEligibleWorkers task r) /\
       fst (route rt u task r) =
         Some {| a_task := t_id task; a_workerId := w_id w |}).
Proof.
  split; [|split].
  - intros w Hw. apply getAvailable_In in Hw as (Hall & _ & Hlt).
    specialize (Hload w Hall). split; [done|]. split; [lia|].
    by apply loadRatio_unit_interval.
  - apply getEligibleWorkers_available.
  - intros Hne. unfold route.
    destruct (Nat.eqb_spec (length (getEligibleWorkers task r)) 0) as [Hl|_].
    { by destruct (getEligibleWorkers task r). }
    destruct (selectWorker_In rt u _ task Hne Hrandom) as (w & Hw & Hin).
    destruct (selectWorker rt u (getEligibleWorkers task r) task) as [ow rt'].
    simpl in Hw. subst ow. simpl. eauto.
Qed.

(** C10 at scenario 1's registry and router. *)
Lemma route_selects_witness :
  exists w, In w (getEligibleWorkers chat_task (o_registry scenario1)) /\ w_id w = "w1".
Proof.
  destruct (route_selects_without_division_by_zero
              (o_router scenario1) 0 chat_task (o_registry scenario1)) as (_ & _ & Hr).
  - intros w Hw. vm_compute in Hw. destruct Hw as [<-|[]]. vm_compute. discriminate.
  - intros Hs. vm_compute in Hs. discriminate.
  - destruct Hr as (w & Hin & Hroute).
    + vm_compute. discriminate.
    + exists w. split; [done|]. vm_compute in Hroute. by inversion Hroute.
Defined.

(** ** IEEE-754 binary64 rounding *)

Lemma pow2_pos (e : Z) : (0 < pow2 e)%Q.
Proof. unfold pow2. by apply Qpower_0_lt. Qed.

Lemma pow2_nonzero (e : Z) : ~ (pow2 e == 0)%Q.
Proof. intros H. pose proof (pow2_pos e) as Hp. rewrite H in Hp. by apply Qlt_irrefl in Hp. Qed.

Lemma pow2_add (a b : Z) : (pow2 (a + b) == pow2 a * pow2 b)%Q.
Proof. unfold pow2. by apply Qpower_plus. Qed.

Lemma pow2_sub (a b : Z) : (pow2 (a - b) == pow2 a / pow2 b)%Q.
Proof.
  unfold Z.sub. rewrite pow2_add. unfold pow2, Qdiv. by rewrite Qpower_opp.
Qed.

Lemma pow2_le (a b : Z) : a <= b -> (pow2 a <= pow2 b)%Q.
Proof. intros H. unfold pow2. by apply Qpower_le_compat_l. Qed.

Lemma pow2_lt (a b : Z) : a < b -> (pow2 a < pow2 b)%Q.
Proof. intros H. unfold pow2. by apply Qpower_lt_compat_l. Qed.

Lemma pow2_Z (n : Z) : 0 <= n -> (pow2 n == inject_Z (2 ^ n))%Q.
Proof. intros H. unfold pow2. by rewrite (Zpower_Qpower 2 n H). Qed.

Lemma pow2_lt_inv (a b : Z) : (pow2 a < pow2 b)%Q -> a < b.
Proof.
  intros H. destruct (Z.lt_ge_cases a b) as [|Hge]; [done|].
  apply pow2_le in Hge. exfalso. by apply (Qlt_not_le _ _ H).
Qed.

Lemma Q_as_quotient (a : Q) : (a == inject_Z (Qnum a) / inject_Z (Z.pos (Qden a)))%Q.
Proof. destruct a as [n d]. simpl. by rewrite Qmake_Qdiv. Qed.

Lemma inject_Z_pos (z : Z) : 0 < z -> (0 < inject_Z z)%Q.
Proof. intros H. unfold Qlt. simpl. lia. Qed.

Lemma ilog2_spec (a : Q) :
  (0 < a)%Q -> (pow2 (ilog2 a) <= a)%Q /\ (a < pow2 (ilog2 a + 1))%Q.
Proof.
  intros Ha.
  assert (Hn : 0 < Qnum a) by (unfold Qlt in Ha; simpl in Ha; lia).
  set (ln := Z.log2 (Qnum a)). set (ld := Z.log2 (Z.pos (Qden a))).
  assert (Hln : 0 <= ln) by apply Z.log2_nonneg.
  assert (Hld : 0 <= ld) by apply Z.log2_nonneg.
  destruct (Z.log2_spec (Qnum a) Hn) as [Hn1 Hn2]. fold ln in Hn1, Hn2.
  destruct (Z.log2_spec (Z.pos (Qden a)) eq_refl) as [Hd1 Hd2]. fold ld in Hd1, Hd2.
  assert (Hlow : (pow2 (ln - ld - 1) < a)%Q).
  { eapply Qlt_le_trans; [|apply Qle_lteq; right; symmetry; apply Q_as_quotient].
    replace (ln - ld - 1) with (ln - (ld + 1)) by lia. rewrite pow2_sub.
    rewrite (pow2_Z ln), (pow2_Z (ld + 1)) by lia.
    apply Qlt_shift_div_l; [by apply inject_Z_pos|].
    unfold Qdiv. rewrite <- Qmult_assoc.
    rewrite (Qmult_comm (/ _)). rewrite Qmult_assoc.
    apply Qlt_shift_div_r; [apply inject_Z_pos; lia|].
    rewrite <- !inject_Z_mult. rewrite <- Zlt_Qlt. nia. }
  assert (Hhigh : (a < pow2 (ln - ld + 1))%Q).
  { eapply Qle_lt_trans; [apply Qle_lteq; right; apply Q_as_quotient|].
    replace (ln - ld + 1) with (ln + 1 - ld) by lia. rewrite pow2_sub.
    rewrite (pow2_Z (ln + 1)), (pow2_Z ld) by lia.
    apply Qlt_shift_div_r; [by apply inject_Z_pos|].
    unfold Qdiv. rewrite <- Qmult_assoc.
    rewrite (Qmult_comm (/ _)). rewrite Qmult_assoc.
    apply Qlt_shift_div_l; [apply inject_Z_pos; lia|].
    rewrite <- !inject_Z_mult. rewrite <- Zlt_Qlt. nia. }
  unfold ilog2. fold ln ld.
  destruct (Qle_bool (pow2 (ln - ld)) a) eqn:Hle.
  - apply Qle_bool_iff in Hle. done.
  - assert (Hlt : (a < pow2 (ln - ld))%Q).
    { apply Qnot_le_lt. intros H. apply Qle_bool_iff in H. congruence. }
    replace (ln - ld - 1 + 1) with (ln - ld) by lia. split; [by apply Qlt_le_weak|done].
Qed.

Lemma ilog2_unique (a : Q) (e : Z) :
  (pow2 e <= a)%Q -> (a < pow2 (e + 1))%Q -> ilog2 a = e.
Proof.
  intros Hlo Hhi.
  assert (Ha : (0 < a)%Q) by (eapply Qlt_le_trans; [apply (pow2_pos e)|done]).
  destruct (ilog2_spec a Ha) as [Hlo' Hhi'].
  assert (H1 : ilog2 a < e + 1).
  { apply pow2_lt_inv. eapply Qle_lt_trans; done. }
  assert (H2 : e < ilog2 a + 1).
  { apply pow2_lt_inv. eapply Qle_lt_trans; done. }
  lia.
Qed.

Lemma ilog2_comp (a a' : Q) : (0 < a)%Q -> (a == a')%Q -> ilog2 a = ilog2 a'.
Proof.
  intros Ha Heq. assert (Ha' : (0 < a')%Q) by by rewrite <- Heq.
  destruct (ilog2_spec a' Ha') as [Hlo Hhi].
  apply ilog2_unique; by rewrite Heq.
Qed.

Lemma ilog2_mono (a a' : Q) : (0 < a)%Q -> (a <= a')%Q -> ilog2 a <= ilog2 a'.
Proof.
  intros Ha Hle. assert (Ha' : (0 < a')%Q) by by eapply Qlt_le_trans.
  destruct (ilog2_spec a Ha) as [Hlo _]. destruct (ilog2_spec a' Ha') as [_ Hhi].
  assert (ilog2 a < ilog2 a' + 1); [|lia].
  apply pow2_lt_inv. eapply Qle_lt_trans; [done|]. by eapply Qle_lt_trans.
Qed.

Lemma ilog2_lt_pow2 (a : Q) (k : Z) : (0 < a)%Q -> (a < pow2 k)%Q -> ilog2 a < k.
Proof.
  intros Ha Hlt. destruct (ilog2_spec a Ha) as [Hlo _].
  apply pow2_lt_inv. by eapply Qle_lt_trans.
Qed.

Lemma round_half_even_le (x : Q) (n : Z) : (x <= inject_Z n)%Q -> round_half_even x <= n.
Proof.
  intros Hle. unfold round_half_even.
  pose proof (Qfloor_le x) as Hf. pose proof (Qlt_floor x) as Hc.
  assert (Hfn : Qfloor x <= n).
  { rewrite <- (Qfloor_Z n). by apply Qfloor_resp_le. }
  destruct (Qcompare_spec (x - inject_Z (Qfloor x)) (1 # 2)) as [Heq|Hlt|Hgt].
  - assert (Qfloor x <> n); [|destruct (Z.even (Qfloor x)); lia].
    intros Hx. rewrite Hx in Heq. lra.
  - done.
  - assert (Qfloor x <> n); [|lia]. intros Hx. rewrite Hx in Hgt. lra.
Qed.

Lemma round_half_even_ge (x : Q) (n : Z) : (inject_Z n <= x)%Q -> n <= round_half_even x.
Proof.
  intros Hle. unfold round_half_even.
  assert (Hfn : n <= Qfloor x).
  { rewrite <- (Qfloor_Z n). by apply Qfloor_resp_le. }
  destruct (x - inject_Z (Qfloor x) ?= 1 # 2)%Q; [destruct (Z.even (Qfloor x))| |]; lia.
Qed.

Lemma round_half_even_Z (x : Q) (n : Z) : (x == inject_Z n)%Q -> round_half_even x = n.
Proof.
  intros Heq. apply Z.le_antisymm.
  - apply round_half_even_le. rewrite Heq. apply Qle_refl.
  - apply round_half_even_ge. rewrite Heq. apply Qle_refl.
Qed.

Lemma round_half_even_comp (x y : Q) : (x == y)%Q -> round_half_even x = round_half_even y.
Proof.
  intros Heq. unfold round_half_even. rewrite (Qfloor_comp x y Heq).
  assert (Hc : ((x - inject_Z (Qfloor y))%Q ?= 1 # 2)%Q = ((y - inject_Z (Qfloor y))%Q ?= 1 # 2)%Q).
  { apply Qcompare_comp; [by rewrite Heq|reflexivity]. }
  by rewrite Hc.
Qed.

Lemma round_half_even_error (x : Q) :
  (inject_Z (round_half_even x) - x <= 1 # 2)%Q /\ (x - inject_Z (round_half_even x) <= 1 # 2)%Q.
Proof.
  unfold round_half_even.
  pose proof (Qfloor_le x) as Hf. pose proof (Qlt_floor x) as Hc.
  rewrite inject_Z_plus in Hc. change (inject_Z 1) with 1%Q in Hc.
  destruct (Qcompare_spec (x - inject_Z (Qfloor x)) (1 # 2)) as [Heq|Hlt|Hgt].
  - destruct (Z.even (Qfloor x)); rewrite ?inject_Z_plus; change (inject_Z 1) with 1%Q; lra.
  - lra.
  - rewrite inject_Z_plus. change (inject_Z 1) with 1%Q. lra.
Qed.

Lemma Qdiv_le_compat (a b c : Q) : (0 < c)%Q -> (a <= b)%Q -> (a / c <= b / c)%Q.
Proof.
  intros Hc Hle. apply Qle_shift_div_l; [done|].
  unfold Qdiv. rewrite <- Qmult_assoc, (Qmult_comm (/ c)), Qmult_inv_r, Qmult_1_r; [done|].
  intros H0. rewrite H0 in Hc. by apply Qlt_irrefl in Hc.
Qed.

Lemma grid_quotient (D : Q) (N k q : Z) :
  (D == inject_Z N * pow2 k)%Q -> q <= k ->
  (D / pow2 q == inject_Z (N * 2 ^ (k - q)))%Q.
Proof.
  intros HD Hq. rewrite HD, inject_Z_mult, <- (pow2_Z (k - q)) by lia.
  rewrite pow2_sub. unfold Qdiv. by rewrite Qmult_assoc.
Qed.

Lemma b64_exponent_comp (a a' : Q) : (0 < a)%Q -> (a == a')%Q -> b64_exponent a = b64_exponent a'.
Proof. intros Ha Heq. unfold b64_exponent. by rewrite (ilog2_comp a a'). Qed.

Lemma b64_magnitude_comp (a a' : Q) :
  (0 < a)%Q -> (a == a')%Q -> (b64_magnitude a == b64_magnitude a')%Q.
Proof.
  intros Ha Heq. unfold b64_magnitude. cbv zeta.
  rewrite <- (b64_exponent_comp a a') by done.
  rewrite (round_half_even_comp (a / pow2 (b64_exponent a)) (a' / pow2 (b64_exponent a)));
    [reflexivity|by apply Qmult_comp].
Qed.

Lemma b64_magnitude_nonneg (a : Q) : (0 < a)%Q -> (0 <= b64_magnitude a)%Q.
Proof.
  intros Ha. unfold b64_magnitude. cbv zeta.
  apply Qmult_le_0_compat; [|apply Qlt_le_weak, pow2_pos].
  change 0%Q with (inject_Z 0). rewrite <- Zle_Qle. apply round_half_even_ge.
  change (inject_Z 0) with 0%Q. apply Qle_shift_div_l; [apply pow2_pos|].
  rewrite Qmult_0_l. by apply Qlt_le_weak.
Qed.

(** Rounding never crosses a number of the grid it rounds to. *)
Lemma b64_magnitude_le (a D : Q) (N k : Z) :
  (0 < a)%Q -> (a <= D)%Q -> (D == inject_Z N * pow2 k)%Q -> b64_exponent a <= k ->
  (b64_magnitude a <= D)%Q.
Proof.
  intros Ha Hle HD Hk. unfold b64_magnitude. cbv zeta.
  set (q := b64_exponent a) in *.
  assert (Hr : round_half_even (a / pow2 q) <= N * 2 ^ (k - q)).
  { apply round_half_even_le. rewrite <- (grid_quotient D N k q) by done.
    apply Qdiv_le_compat; [apply pow2_pos|done]. }
  rewrite Zle_Qle in Hr. rewrite <- (grid_quotient D N k q) in Hr by done.
  apply (Qmult_le_compat_r _ _ (pow2 q)) in Hr; [|apply Qlt_le_weak, pow2_pos].
  eapply Qle_trans; [exact Hr|]. apply Qle_lteq. right.
  unfold Qdiv. rewrite <- Qmult_assoc, (Qmult_comm (/ _)), Qmult_inv_r, Qmult_1_r;
    [reflexivity|apply pow2_nonzero].
Qed.

Lemma b64_magnitude_ge (a D : Q) (N k : Z) :
  (0 < a)%Q -> (D <= a)%Q -> (D == inject_Z N * pow2 k)%Q -> b64_exponent a <= k ->
  (D <= b64_magnitude a)%Q.
Proof.
  intros Ha Hle HD Hk. unfold b64_magnitude. cbv zeta.
  set (q := b64_exponent a) in *.
  assert (Hr : N * 2 ^ (k - q) <= round_half_even (a / pow2 q)).
  { apply round_half_even_ge. rewrite <- (grid_quotient D N k q) by done.
    apply Qdiv_le_compat; [apply pow2_pos|done]. }
  rewrite Zle_Qle in Hr. rewrite <- (grid_quotient D N k q) in Hr by done.
  apply (Qmult_le_compat_r _ _ (pow2 q)) in Hr; [|apply Qlt_le_weak, pow2_pos].
  eapply Qle_trans; [|exact Hr]. apply Qle_lteq. right.
  unfold Qdiv. rewrite <- Qmult_assoc, (Qmult_comm (/ _)), Qmult_inv_r, Qmult_1_r;
    [reflexivity|apply pow2_nonzero].
Qed.

Lemma b64_magnitude_on_grid (a : Q) (N k : Z) :
  (0 < a)%Q -> (a == inject_Z N * pow2 k)%Q -> b64_exponent a <= k ->
  (b64_magnitude a == a)%Q.
Proof.
  intros Ha HD Hk. apply Qle_antisym.
  - by apply (b64_magnitude_le a a N k); [|apply Qle_refl| |].
  - by apply (b64_magnitude_ge a a N k); [|apply Qle_refl| |].
Qed.

(** Numbers with a significand below [2^53] and an exponent of at least
    [-1074] are not changed by rounding. *)
Lemma b64_magnitude_exact (a : Q) (M k : Z) :
  (a == inject_Z M * pow2 k)%Q -> 0 < M < 2 ^ 53 -> -1074 <= k ->
  (b64_magnitude a == a)%Q.
Proof.
  intros Ha HM Hk.
  assert (Hpos : (0 < a)%Q).
  { rewrite Ha. apply Qmult_lt_0_compat; [apply inject_Z_pos; lia|apply pow2_pos]. }
  apply (b64_magnitude_on_grid a M k); [done|done|].
  assert (Hlog : ilog2 a < 53 + k); [|unfold b64_exponent; lia].
  apply ilog2_lt_pow2; [done|]. rewrite Ha, pow2_add, (pow2_Z 53) by lia.
  apply Qmult_lt_r; [apply pow2_pos|]. rewrite <- Zlt_Qlt. lia.
Qed.

Lemma b64_magnitude_le_pow2 (a : Q) (j : Z) :
  (0 < a)%Q -> (a <= pow2 j)%Q -> -1074 <= j -> (b64_magnitude a <= pow2 j)%Q.
Proof.
  intros Ha Hle Hj. apply (b64_magnitude_le a (pow2 j) 1 j); [done|done|by rewrite Qmult_1_l|].
  assert (ilog2 a < j + 1); [|unfold b64_exponent; lia].
  apply ilog2_lt_pow2; [done|]. eapply Qle_lt_trans; [done|]. apply pow2_lt. lia.
Qed.

(** Scaling by a power of two commutes with rounding (above the
    subnormal range). *)
Lemma b64_magnitude_scale (a : Q) (n : Z) :
  (0 < a)%Q -> -1074 <= ilog2 a - 52 -> 0 <= n ->
  (b64_magnitude (a * pow2 n) == b64_magnitude a * pow2 n)%Q.
Proof.
  intros Ha He Hn.
  destruct (ilog2_spec a Ha) as [Hlo Hhi].
  assert (Hlog : ilog2 (a * pow2 n) = ilog2 a + n).
  { apply ilog2_unique.
    - rewrite pow2_add. apply Qmult_le_compat_r; [done|apply Qlt_le_weak, pow2_pos].
    - replace (ilog2 a + n + 1) with (ilog2 a + 1 + n) by lia. rewrite pow2_add.
      apply Qmult_lt_r; [apply pow2_pos|done]. }
  unfold b64_magnitude, b64_exponent. cbv zeta. rewrite Hlog.
  rewrite !Z.max_l by lia.
  replace (ilog2 a + n - 52) with (ilog2 a - 52 + n) by lia.
  rewrite (round_half_even_comp (a * pow2 n / pow2 (ilog2 a - 52 + n))
                                (a / pow2 (ilog2 a - 52))).
  - rewrite pow2_add. by rewrite Qmult_assoc.
  - rewrite pow2_add. unfold Qdiv. rewrite Qinv_mult_distr.
    rewrite <- !Qmult_assoc. apply Qmult_comp; [reflexivity|].
    rewrite (Qmult_comm (/ pow2 (ilog2 a - 52))), Qmult_assoc, Qmult_inv_r, Qmult_1_l;
      [reflexivity|apply pow2_nonzero].
Qed.

Lemma b64_zero (x : Q) : (x == 0)%Q -> b64 x = Fin 0.
Proof.
  intros Hx. unfold b64.
  assert (Hc : (x ?= 0)%Q = Eq) by by apply Qeq_alt.
  by rewrite Hc.
Qed.

Lemma b64_pos (x : Q) :
  (0 < x)%Q ->
  b64 x = if Qle_bool (pow2 1024) (b64_magnitude x) then PosInf
          else Fin (Qred (b64_magnitude x)).
Proof.
  intros Hx. unfold b64.
  assert (Hc : (x ?= 0)%Q = Gt) by by apply Qgt_alt.
  by rewrite Hc.
Qed.

Lemma b64_neg (x : Q) :
  (x < 0)%Q ->
  b64 x = if Qle_bool (pow2 1024) (b64_magnitude (- x)) then NegInf
          else Fin (Qred (- b64_magnitude (- x))).
Proof.
  intros Hx. unfold b64.
  assert (Hc : (x ?= 0)%Q = Lt) by by apply Qlt_alt.
  by rewrite Hc.
Qed.

Lemma Qle_bool_comp (a a' b b' : Q) :
  (a == a')%Q -> (b == b')%Q -> Qle_bool a b = Qle_bool a' b'.
Proof.
  intros Ha Hb. apply eq_true_iff_eq. rewrite !Qle_bool_iff. by rewrite Ha, Hb.
Qed.

Lemma b64_comp (x y : Q) : (x == y)%Q -> b64 x = b64 y.
Proof.
  intros Heq. destruct (Q_dec x 0) as [[Hlt|Hgt]|H0].
  - rewrite (b64_neg x Hlt), (b64_neg y) by by rewrite <- Heq.
    assert (Hm : (b64_magnitude (- x) == b64_magnitude (- y))%Q).
    { apply b64_magnitude_comp; [lra|by rewrite Heq]. }
    rewrite (Qle_bool_comp _ (pow2 1024) _ (b64_magnitude (- y))) by (reflexivity || done).
    destruct (Qle_bool _ _); [done|]. f_equal. apply Qred_complete. by rewrite Hm.
  - rewrite (b64_pos x Hgt), (b64_pos y) by by rewrite <- Heq.
    assert (Hm : (b64_magnitude x == b64_magnitude y)%Q).
    { by apply b64_magnitude_comp. }
    rewrite (Qle_bool_comp _ (pow2 1024) _ (b64_magnitude y)) by (reflexivity || done).
    destruct (Qle_bool _ _); [done|]. f_equal. by apply Qred_complete.
  - rewrite (b64_zero x H0), (b64_zero y); [done|by rewrite <- Heq].
Qed.

Lemma Qred_inject_Z (z : Z) (x : Q) : (x == inject_Z z)%Q -> Qred x = inject_Z z.
Proof.
  intros Hx. rewrite (Qred_complete x (inject_Z z) Hx).
  unfold Qred, inject_Z.
  pose proof (Z.ggcd_gcd z 1) as Hg. pose proof (Z.ggcd_correct_divisors z 1) as Hd.
  destruct (Z.ggcd z 1) as [g [aa bb]]. simpl in Hg. rewrite Z.gcd_1_r in Hg. subst g.
  destruct Hd as [Ha Hb]. by replace aa with z by lia; replace bb with 1 by lia.
Qed.

(** A positive number of the grid, below the overflow threshold, is a
    double. *)
Lemma b64_exact (x : Q) (M k : Z) :
  (x == inject_Z M * pow2 k)%Q -> 0 < M < 2 ^ 53 -> -1074 <= k -> (x < pow2 1024)%Q ->
  b64 x = Fin (Qred x).
Proof.
  intros Hx HM Hk Hmax.
  pose proof (b64_magnitude_exact x M k Hx HM Hk) as Hm.
  assert (Hpos : (0 < x)%Q).
  { rewrite Hx. apply Qmult_lt_0_compat; [apply inject_Z_pos; lia|apply pow2_pos]. }
  rewrite (b64_pos x Hpos).
  destruct (Qle_bool (pow2 1024) (b64_magnitude x)) eqn:Hle.
  - apply Qle_bool_iff in Hle. rewrite Hm in Hle. exfalso. by apply (Qlt_not_le _ _ Hmax).
  - f_equal. by apply Qred_complete.
Qed.

Lemma b64_integer (z : Z) : 0 <= z < 2 ^ 53 -> is_double z.
Proof.
  intros Hz. unfold is_double. destruct (Z.eq_dec z 0) as [->|Hnz]; [done|].
  rewrite (b64_exact (inject_Z z) z 0).
  - f_equal. by apply Qred_inject_Z.
  - unfold pow2. simpl. ring.
  - lia.
  - lia.
  - rewrite (pow2_Z 1024) by lia. rewrite <- Zlt_Qlt.
    assert (2 ^ 53 < 2 ^ 1024) by (by apply Z.pow_lt_mono_r). lia.
Qed.

Lemma b64_magnitude_ge_pow2 (a : Q) (j : Z) :
  (pow2 j <= a)%Q -> -1074 <= j -> (pow2 j <= b64_magnitude a)%Q.
Proof.
  intros Hle Hj.
  assert (Ha : (0 < a)%Q) by (eapply Qlt_le_trans; [apply (pow2_pos j)|done]).
  destruct (ilog2_spec a Ha) as [Hlo Hhi].
  assert (Hje : j <= ilog2 a).
  { assert (j < ilog2 a + 1); [|lia]. apply pow2_lt_inv. by eapply Qle_lt_trans. }
  eapply Qle_trans; [apply (pow2_le j (ilog2 a) Hje)|].
  apply (b64_magnitude_ge a (pow2 (ilog2 a)) (2 ^ (ilog2 a - b64_exponent a)) (b64_exponent a));
    [done|done| |lia].
  rewrite <- pow2_Z by (unfold b64_exponent; lia). rewrite <- pow2_add.
  by replace (ilog2 a - b64_exponent a + b64_exponent a) with (ilog2 a) by lia.
Qed.

(** Below [2^j] in absolute value, the rounded number is finite and
    stays below [2^j]. *)
Lemma b64_bounded (x : Q) (j : Z) :
  (- pow2 j <= x)%Q -> (x <= pow2 j)%Q -> -1074 <= j <= 1023 ->
  exists q, b64 x = Fin q /\ (- pow2 j <= q)%Q /\ (q <= pow2 j)%Q.
Proof.
  intros Hlo Hhi Hj. pose proof (pow2_pos j) as Hp.
  assert (Hmax : (pow2 j < pow2 1024)%Q) by (apply pow2_lt; lia).
  destruct (Q_dec x 0) as [[Hlt|Hgt]|H0].
  - assert (Hm : (b64_magnitude (- x) <= pow2 j)%Q).
    { apply b64_magnitude_le_pow2; [lra|lra|lia]. }
    pose proof (b64_magnitude_nonneg (- x)) as Hnn.
    rewrite (b64_neg x Hlt).
    destruct (Qle_bool (pow2 1024) (b64_magnitude (- x))) eqn:Hle.
    { apply Qle_bool_iff in Hle. lra. }
    eexists. split; [reflexivity|]. rewrite Qred_correct. lra.
  - assert (Hm : (b64_magnitude x <= pow2 j)%Q).
    { apply b64_magnitude_le_pow2; [lra|lra|lia]. }
    pose proof (b64_magnitude_nonneg x) as Hnn.
    rewrite (b64_pos x Hgt).
    destruct (Qle_bool (pow2 1024) (b64_magnitude x)) eqn:Hle.
    { apply Qle_bool_iff in Hle. lra. }
    eexists. split; [reflexivity|]. rewrite Qred_correct. lra.
  - rewrite (b64_zero x H0). exists 0%Q. split; [done|]. lra.
Qed.

Lemma b64_unit_interval (x : Q) :
  (0 <= x)%Q -> (x <= 1)%Q -> exists q, b64 x = Fin q /\ (0 <= q)%Q /\ (q <= 1)%Q.
Proof.
  intros Hlo Hhi. destruct (Q_dec x 0) as [[Hlt|Hgt]|H0].
  - lra.
  - assert (Hm : (b64_magnitude x <= pow2 0)%Q).
    { apply b64_magnitude_le_pow2; [done|done|lia]. }
    pose proof (b64_magnitude_nonneg x Hgt) as Hnn.
    assert (Hmax : (pow2 0 < pow2 1024)%Q) by (apply pow2_lt; lia).
    rewrite (b64_pos x Hgt).
    destruct (Qle_bool (pow2 1024) (b64_magnitude x)) eqn:Hle.
    { apply Qle_bool_iff in Hle. lra. }
    eexists. split; [reflexivity|]. rewrite Qred_correct. by split.
  - rewrite (b64_zero x H0). exists 0%Q. split; [done|]. lra.
Qed.

Lemma is_double_magnitude (z : Z) :
  is_double z -> 0 < z ->
  (b64_magnitude (inject_Z z) == inject_Z z)%Q /\ (inject_Z z < pow2 1024)%Q.
Proof.
  intros Hd Hz. unfold is_double in Hd.
  rewrite (b64_pos (inject_Z z)) in Hd by by apply inject_Z_pos.
  destruct (Qle_bool (pow2 1024) (b64_magnitude (inject_Z z))) eqn:Hle; [done|].
  injection Hd as Hd.
  assert (Hm : (b64_magnitude (inject_Z z) == inject_Z z)%Q).
  { rewrite <- (Qred_correct (b64_magnitude (inject_Z z))). by rewrite Hd. }
  split; [done|]. apply Qnot_le_lt. intros Hge.
  assert (Hfalse : Qle_bool (pow2 1024) (b64_magnitude (inject_Z z)) = true); [|congruence].
  apply Qle_bool_iff. by apply b64_magnitude_ge_pow2.
Qed.

Lemma is_double_below_overflow (z : Z) : is_double z -> z < 2 ^ 1024.
Proof.
  intros Hd. destruct (Z.lt_ge_cases 0 z) as [Hz|Hz].
  - destruct (is_double_magnitude z Hd Hz) as [_ Hlt].
    rewrite (pow2_Z 1024) in Hlt by lia. by rewrite <- Zlt_Qlt in Hlt.
  - assert (0 < 2 ^ 1024) by (by apply Z.pow_pos_nonneg). lia.
Qed.

(** A positive integer double times a power of two is again a double, or
    overflows. *)
Lemma b64_double_scale (z n : Z) :
  is_double z -> 0 < z -> 0 <= n ->
  b64 (inject_Z z * pow2 n) =
    if 2 ^ 1024 <=? z * 2 ^ n then PosInf else Fin (inject_Z (z * 2 ^ n)).
Proof.
  intros Hd Hz Hn. destruct (is_double_magnitude z Hd Hz) as [Hm _].
  assert (Hpos : (0 < inject_Z z * pow2 n)%Q).
  { apply Qmult_lt_0_compat; [by apply inject_Z_pos|apply pow2_pos]. }
  assert (Hlog : 0 <= ilog2 (inject_Z z)).
  { assert (-1 < ilog2 (inject_Z z)); [|lia].
    destruct (ilog2_spec (inject_Z z)) as [_ Hhi]; [by apply inject_Z_pos|].
    assert (H : -1 + 1 < ilog2 (inject_Z z) + 1); [|lia]. apply pow2_lt_inv.
    eapply Qle_lt_trans; [|exact Hhi]. change (pow2 (-1 + 1)) with (inject_Z 1).
    rewrite <- Zle_Qle. lia. }
  assert (Hs : (b64_magnitude (inject_Z z * pow2 n) == inject_Z (z * 2 ^ n))%Q).
  { rewrite b64_magnitude_scale by (done || by apply inject_Z_pos || lia).
    rewrite Hm, inject_Z_mult. by rewrite (pow2_Z n). }
  rewrite (b64_pos _ Hpos).
  rewrite (Qle_bool_comp _ (pow2 1024) _ (inject_Z (z * 2 ^ n))) by (reflexivity || done).
  destruct (Z.leb_spec (2 ^ 1024) (z * 2 ^ n)) as [Hle|Hlt].
  - assert (Hb : Qle_bool (pow2 1024) (inject_Z (z * 2 ^ n)) = true); [|by rewrite Hb].
    apply Qle_bool_iff. rewrite (pow2_Z 1024) by lia. by rewrite <- Zle_Qle.
  - destruct (Qle_bool (pow2 1024) (inject_Z (z * 2 ^ n))) eqn:Hb.
    + apply Qle_bool_iff in Hb. rewrite (pow2_Z 1024) in Hb by lia.
      rewrite <- Zle_Qle in Hb. lia.
    + f_equal. by apply Qred_inject_Z.
Qed.

Lemma Math_pow2_nonneg (n : Z) :
  0 <= n -> Math_pow2 n = if n <? 1024 then Fin (inject_Z (2 ^ n)) else PosInf.
Proof.
  intros Hn. unfold Math_pow2.
  assert (Hm : (b64_magnitude (pow2 n) == pow2 n)%Q).
  { apply (b64_magnitude_exact (pow2 n) 1 n); [by rewrite Qmult_1_l|lia|lia]. }
  rewrite (b64_pos _ (pow2_pos n)).
  rewrite (Qle_bool_comp _ (pow2 1024) _ (pow2 n)) by (reflexivity || done).
  destruct (Z.ltb_spec n 1024) as [Hlt|Hge].
  - destruct (Qle_bool (pow2 1024) (pow2 n)) eqn:Hb.
    + apply Qle_bool_iff in Hb. exfalso. apply (Qlt_not_le _ _ (pow2_lt n 1024 Hlt) Hb).
    + f_equal. apply Qred_inject_Z. rewrite Hm. by apply pow2_Z.
  - assert (Hb : Qle_bool (pow2 1024) (pow2 n) = true); [|by rewrite Hb].
    apply Qle_bool_iff. by apply pow2_le.
Qed.

Lemma Math_round_integer (m : Z) : Math_round (Fin (inject_Z m)) = Fin (inject_Z m).
Proof.
  unfold Math_round. f_equal. f_equal.
  pose proof (Qfloor_le (inject_Z m + (1 # 2))) as Hle.
  pose proof (Qlt_floor (inject_Z m + (1 # 2))) as Hlt.
  set (f := Qfloor (inject_Z m + (1 # 2))) in *.
  unfold Qle, Qlt, Qplus, inject_Z in Hle, Hlt. simpl in Hle, Hlt. lia.
Qed.

(** ** ExponentialBackoff *)

Lemma random_sign_finite (u : Q) :
  (0 <= u)%Q -> (u < 1)%Q -> exists w, js_sub (js_mul (Fin u) (Fin 2)) (Fin 1) = Fin w.
Proof.
  intros Hlo Hhi.
  destruct (b64_bounded (u * 2) 1) as (v & Hv & Hv1 & Hv2).
  { change (pow2 1) with 2%Q. lra. }
  { change (pow2 1) with 2%Q. lra. }
  { lia. }
  change (pow2 1) with 2%Q in Hv1, Hv2.
  destruct (b64_bounded (v + - 1) 2) as (w & Hw & _).
  { change (pow2 2) with 4%Q. lra. }
  { change (pow2 2) with 4%Q. lra. }
  { lia. }
  exists w. unfold js_sub, js_mul, js_neg, js_add. rewrite Hv. exact Hw.
Qed.

(** The last three steps of [calculateDelay] when the capped delay is an
    integer double and the jitter is 0. *)
Lemma calculateDelay_tail (c : Z) (j w : Q) :
  is_double c -> (j == 0)%Q ->
  Math_round (js_add (Fin (inject_Z c)) (js_mul (Fin w) (js_mul (Fin (inject_Z c)) (Fin j))))
  = Fin (inject_Z c).
Proof.
  intros Hc Hj. unfold js_mul at 2. rewrite (b64_zero (inject_Z c * j)) by (rewrite Hj; ring).
  unfold js_mul. rewrite (b64_zero (w * 0)) by ring.
  unfold js_add. rewrite (b64_comp (inject_Z c + 0) (inject_Z c)) by ring.
  rewrite Hc. apply Math_round_integer.
Qed.

Lemma is_double_zero : is_double 0.
Proof. reflexivity. Qed.

Lemma calculateDelay_jitter_free (b : ExponentialBackoff) (u : Q) (n : Z) :
  (jitter b == 0)%Q -> 0 <= n -> 0 <= baseDelayMs b ->
  is_double (baseDelayMs b) -> is_double (maxDelayMs b) ->
  (0 <= u)%Q /\ (u < 1)%Q ->
  calculateDelay b u n =
    if (baseDelayMs b =? 0) && (1024 <=? n) then NaN
    else Fin (inject_Z (Z.min (maxDelayMs b) (baseDelayMs b * 2 ^ n))).
Proof.
  intros Hjitter Hn Hbase Hbase_double Hmax_double Hrandom.
  unfold calculateDelay. cbv zeta. destruct Hrandom as [Hu0 Hu1].
  destruct (random_sign_finite u Hu0 Hu1) as (w & ->).
  set (base := baseDelayMs b) in *. set (max := maxDelayMs b) in *.
  pose proof (is_double_below_overflow max Hmax_double) as Hmax.
  rewrite (Math_pow2_nonneg n Hn).
  destruct (Z.eqb_spec base 0) as [H0|Hnz].
  - rewrite H0. destruct (Z.leb_spec 1024 n) as [Hbig|Hsmall]; cbn [andb].
    + destruct (Z.ltb_spec n 1024); [lia|]. done.
    + destruct (Z.ltb_spec n 1024); [|lia].
      assert (Hexp : js_mul (Fin (inject_Z 0)) (Fin (inject_Z (2 ^ n))) = Fin 0).
      { unfold js_mul. apply b64_zero. ring. }
      rewrite Hexp. clear Hexp. unfold Math_min.
      assert (Hcap : (if Qle_bool 0 (inject_Z max) then Fin 0 else Fin (inject_Z max))
                     = Fin (inject_Z (Z.min max 0))).
      { destruct (Qle_bool 0 (inject_Z max)) eqn:Hle.
        - apply Qle_bool_iff in Hle. change 0%Q with (inject_Z 0) in Hle.
          rewrite <- Zle_Qle in Hle. by rewrite Z.min_r.
        - assert (Hlt : ~ 0 <= max).
          { intros Hm. assert (Qle_bool 0 (inject_Z max) = true); [|congruence].
            apply Qle_bool_iff. change 0%Q with (inject_Z 0). by rewrite <- Zle_Qle. }
          by rewrite Z.min_l by lia. }
      rewrite Hcap. apply calculateDelay_tail; [|done].
      destruct (Z.le_ge_cases max 0); [by rewrite Z.min_l|rewrite Z.min_r by done; reflexivity].
  - cbn [andb]. assert (Hpos : 0 < base) by lia.
    assert (Hexp : js_mul (Fin (inject_Z base))
                     (if n <? 1024 then Fin (inject_Z (2 ^ n)) else PosInf)
                   = if 2 ^ 1024 <=? base * 2 ^ n then PosInf
                     else Fin (inject_Z (base * 2 ^ n))).
    { destruct (Z.ltb_spec n 1024) as [Hlt|Hge].
      - unfold js_mul.
        rewrite (b64_comp _ (inject_Z base * pow2 n)) by by rewrite (pow2_Z n).
        by apply b64_double_scale.
      - unfold js_mul.
        assert (Hc : (inject_Z base ?= 0)%Q = Gt) by by apply Qgt_alt, inject_Z_pos.
        rewrite Hc.
        assert (2 ^ 1024 <= 2 ^ n) by (apply Z.pow_le_mono_r; lia).
        destruct (Z.leb_spec (2 ^ 1024) (base * 2 ^ n)); [done|nia]. }
    rewrite Hexp. clear Hexp.
    destruct (Z.leb_spec (2 ^ 1024) (base * 2 ^ n)) as [Hover|Hfits].
    + unfold Math_min. rewrite Z.min_l by lia. by apply calculateDelay_tail.
    + assert (Hd : is_double (base * 2 ^ n)).
      { unfold is_double.
        rewrite (b64_comp _ (inject_Z base * pow2 n))
          by by rewrite inject_Z_mult, (pow2_Z n).
        rewrite b64_double_scale by done.
        by destruct (Z.leb_spec (2 ^ 1024) (base * 2 ^ n)); [lia|]. }
      unfold Math_min.
      assert (Hcap : (if Qle_bool (inject_Z (base * 2 ^ n)) (inject_Z max)
                      then Fin (inject_Z (base * 2 ^ n)) else Fin (inject_Z max))
                     = Fin (inject_Z (Z.min max (base * 2 ^ n)))).
      { destruct (Qle_bool (inject_Z (base * 2 ^ n)) (inject_Z max)) eqn:Hle.
        - apply Qle_bool_iff in Hle. rewrite <- Zle_Qle in Hle. by rewrite Z.min_r.
        - assert (Hlt : ~ base * 2 ^ n <= max).
          { intros Hm. assert (Qle_bool (inject_Z (base * 2 ^ n)) (inject_Z max) = true);
              [|congruence].
            apply Qle_bool_iff. by rewrite <- Zle_Qle. }
          by rewrite Z.min_l by lia. }
      rewrite Hcap. apply calculateDelay_tail; [|done].
      destruct (Z.le_ge_cases max (base * 2 ^ n));
        [by rewrite Z.min_l|by rewrite Z.min_r].
Qed.




(** ** CircuitBreaker *)

Lemma failure_rate_all_failures (rs : list RequestRecord) :
  rs <> [] -> Forall (fun r => success r = false) rs ->
  (inject_Z (Z.of_nat (length (List.filter (fun r => negb (success r)) rs)))
   / inject_Z (Z.of_nat (length rs)) == 1)%Q.
Proof.
  intros Hne Hall.
  assert (Hf : List.filter (fun r => negb (success r)) rs = rs).
  { clear Hne. induction Hall as [|r rs Hr _ IH]; simpl; [done|]. by rewrite Hr, IH. }
  rewrite Hf. apply Qmult_inv_r.
  change 0%Q with (inject_Z 0). rewrite inject_Z_injective.
  destruct rs; [done | simpl; lia].
Qed.

(** A closed breaker whose window holds only failures opens as soon as the
    sample count reaches [minimumRequests], provided the new sample is
    still inside the window when the records are pruned. *)
Lemma recordFailure_reads_opens (pushed failed pruned : Z) (cb : CircuitBreaker) :
  state cb = closed -> pruned - windowMs cb <= pushed -> (failureThreshold cb <= 1)%Q ->
  Forall (fun r => success r = false) (records cb) ->
  minimumRequests cb <= Z.of_nat (length (records cb)) + 1 ->
  let cb' := recordFailure_reads pushed failed pruned cb in
  state cb' = open /\ lastFailure cb' = failed /\
  halfOpenSuccesses cb' = halfOpenSuccesses cb /\
  failureThreshold cb' = failureThreshold cb /\ minimumRequests cb' = minimumRequests cb /\
  windowMs cb' = windowMs cb /\ cooldownMs cb' = cooldownMs cb /\
  successThreshold cb' = successThreshold cb.
Proof.
  intros Hst Hw Hth Hall Hmin. unfold recordFailure_reads. simpl. rewrite Hst.
  unfold evaluateState. simpl. rewrite length_app. simpl.
  destruct (Z.ltb_spec (Z.of_nat (length (records cb) + 1)) (minimumRequests cb)) as [|_];
    [lia|].
  unfold getFailureRate, pruneOldRecords. simpl.
  set (rs := List.filter _ (records cb ++ _)).
  assert (Hin : In (mkRecord pushed false) rs).
  { subst rs. apply filter_In. split; [apply in_or_app; right; by left|].
    simpl. apply Z.leb_le. lia. }
  assert (Hrs : Forall (fun r => success r = false) rs).
  { subst rs. apply List.Forall_forall. intros r Hr. apply filter_In in Hr as [Hr _].
    apply in_app_or in Hr as [Hr|[<-|[]]]; [|done].
    rewrite List.Forall_forall in Hall. by apply Hall. }
  destruct (Nat.eqb_spec (length rs) 0) as [Hz|_].
  { destruct rs; [done | discriminate]. }
  assert (Hrate : b64 (inject_Z (Z.of_nat (length (List.filter (fun r => negb (success r)) rs)))
                       / inject_Z (Z.of_nat (length rs))) = Fin 1).
  { rewrite (b64_comp _ 1); [done|]. apply failure_rate_all_failures; [|done].
    intros Hnil. by rewrite Hnil in Hin. }
  simpl. rewrite Hrate. cbn [js_ge].
  assert (Hle : Qle_bool (failureThreshold cb) 1 = true) by by apply Qle_bool_iff.
  rewrite Hle. unfold transitionTo. simpl. done.
Qed.

Lemma recordFailure_opens (now : Z) (cb : CircuitBreaker) :
  state cb = closed -> 0 <= windowMs cb -> (failureThreshold cb <= 1)%Q ->
  Forall (fun r => success r = false) (records cb) ->
  minimumRequests cb <= Z.of_nat (length (records cb)) + 1 ->
  let cb' := recordFailure now cb in
  state cb' = open /\ lastFailure cb' = now /\
  halfOpenSuccesses cb' = halfOpenSuccesses cb /\
  failureThreshold cb' = failureThreshold cb /\ minimumRequests cb' = minimumRequests cb /\
  windowMs cb' = windowMs cb /\ cooldownMs cb' = cooldownMs cb /\
  successThreshold cb' = successThreshold cb.
Proof.
  intros Hst Hw Hth Hall Hmin. apply recordFailure_reads_opens; try done. lia.
Qed.

Lemma recordFailure_reads_below_minimum (pushed failed pruned : Z) (cb : CircuitBreaker) :
  state cb = closed ->
  Z.of_nat (length (records cb)) + 1 < minimumRequests cb ->
  recordFailure_reads pushed failed pruned cb =
    cb_with closed (records cb ++ [mkRecord pushed false]) failed (halfOpenSuccesses cb) cb.
Proof.
  intros Hst Hlt. unfold recordFailure_reads. simpl. rewrite Hst.
  unfold evaluateState. simpl. rewrite length_app. simpl.
  destruct (Z.ltb_spec (Z.of_nat (length (records cb) + 1)) (minimumRequests cb)) as [_|];
    [|lia].
  done.
Qed.

Lemma recordFailure_below_minimum (now : Z) (cb : CircuitBreaker) :
  state cb = closed ->
  Z.of_nat (length (records cb)) + 1 < minimumRequests cb ->
  recordFailure now cb =
    cb_with closed (records cb ++ [mkRecord now false]) now (halfOpenSuccesses cb) cb.
Proof. apply recordFailure_reads_below_minimum. Qed.

Lemma recordSuccess_half_open_closes (cb : CircuitBreaker) (now : Z) :
  state cb = half_open -> successThreshold cb <= halfOpenSuccesses cb + 1 ->
  state (recordSuccess now cb) = closed /\ records (recordSuccess now cb) = [].
Proof.
  intros Hs Hle. unfold recordSuccess. simpl. rewrite Hs.
  destruct (Z.leb_spec (successThreshold cb) (halfOpenSuccesses cb + 1)); [|lia].
  unfold transitionTo. simpl. done.
Qed.

Lemma recordSuccess_half_open_below (cb : CircuitBreaker) (now : Z) :
  state cb = half_open -> halfOpenSuccesses cb + 1 < successThreshold cb ->
  state (recordSuccess now cb) = half_open /\
  halfOpenSuccesses (recordSuccess now cb) = halfOpenSuccesses cb + 1 /\
  successThreshold (recordSuccess now cb) = successThreshold cb.
Proof.
  intros Hs Hlt. unfold recordSuccess. simpl. rewrite Hs.
  destruct (Z.leb_spec (successThreshold cb) (halfOpenSuccesses cb + 1)); [lia|].
  done.
Qed.

Lemma recordFailure_half_open (cb : CircuitBreaker) (now : Z) :
  state cb = half_open -> state (recordFailure now cb) = open.
Proof.
  intros Hs. unfold recordFailure, recordFailure_reads. simpl. rewrite Hs.
  unfold transitionTo. simpl. done.
Qed.

(** C7. Scenario 6 with [failureThreshold = 0.5], [minimumRequests = 4],
    [cooldownMs = 200], [successThreshold = 2] and any window: four
    failures recorded on the fresh (closed) breaker open it, and
    [canExecute()] is false while less than 200 ms have passed since the
    last failure; the first [canExecute()] at or after 200 ms returns true
    and leaves the breaker half-open; from there two successes close it and
    clear the samples, one success keeps it half-open, and a failure, first
    or after one success, opens it again. *)
Theorem breaker_opens_then_half_opens (w t1 t2 t3 t4 t t' : Z)
    (Hwindow : 0 <= w) (Hcooling : t - t4 < 200) (Helapsed : 200 <= t' - t4) :
  let cb4 :=
    recordFailure t4 (recordFailure t3 (recordFailure t2
      (recordFailure t1 (scenario_breaker w)))) in
  let cb5 := snd (canExecute t cb4) in
  let cbh := snd (canExecute t' cb5) in
  getState cb4 = open /\
  fst (canExecute t cb4) = false /\ getState cb5 = open /\
  fst (canExecute t' cb5) = true /\ getState cbh = half_open /\
  (forall s1 s2 : Z,
     getState (recordSuccess s2 (recordSuccess s1 cbh)) = closed /\
     records (recordSuccess s2 (recordSuccess s1 cbh)) = []) /\
  (forall s1 : Z, getState (recordSuccess s1 cbh) = half_open) /\
  (forall f : Z, getState (recordFailure f cbh) = open) /\
  (forall s1 f : Z, getState (recordFailure f (recordSuccess s1 cbh)) = open).
Proof.
  intros cb4 cb5 cbh.
  set (cb3 := recordFailure t3 (recordFailure t2 (recordFailure t1 (scenario_breaker w))))
    in cb4.
  assert (H3 : cb3 = cb_with closed [mkRecord t1 false; mkRecord t2 false; mkRecord t3 false]
                             t3 0 (scenario_breaker w)).
  { subst cb3. rewrite (recordFailure_below_minimum t1); [|done|simpl; lia].
    rewrite (recordFailure_below_minimum t2); [|done|simpl; lia].
    rewrite (recordFailure_below_minimum t3); [|done|simpl; lia]. done. }
  destruct (recordFailure_opens t4 cb3) as (Hst & Hlf & Hhos & Hth & Hmin & Hwin & Hcd & Hsucc).
  { by rewrite H3. }
  { by rewrite H3. }
  { rewrite H3. simpl. unfold Qle. simpl. lia. }
  { rewrite H3. simpl. repeat constructor. }
  { rewrite H3. simpl. lia. }
  fold cb4 in Hst, Hlf, Hhos, Hth, Hmin, Hwin, Hcd, Hsucc.
  rewrite H3 in Hhos, Hth, Hmin, Hwin, Hcd, Hsucc. simpl in *.
  clearbody cb4. clear H3 cb3.
  assert (H5 : canExecute t cb4 = (false, pruneOldRecords t cb4)).
  { unfold canExecute. simpl. rewrite Hst, Hcd, Hlf.
    destruct (Z.leb_spec 200 (t - t4)); [lia | done]. }
  assert (Hcb5 : cb5 = pruneOldRecords t cb4) by (subst cb5; by rewrite H5).
  assert (Hh : canExecute t' cb5 =
               (true, transitionTo half_open (pruneOldRecords t' cb5))).
  { unfold canExecute. rewrite Hcb5. simpl. rewrite Hst, Hcd, Hlf.
    destruct (Z.leb_spec 200 (t' - t4)); [done | lia]. }
  assert (Hcbh : cbh = transitionTo half_open (pruneOldRecords t' cb5))
    by (subst cbh; by rewrite Hh).
  assert (Hhalf : state cbh = half_open /\ halfOpenSuccesses cbh = 0 /\
                  successThreshold cbh = 2).
  { rewrite Hcbh, Hcb5. unfold transitionTo. simpl. rewrite Hst. simpl. done. }
  destruct Hhalf as (Hs & Hz & Ht).
  unfold getState. rewrite H5, Hh. simpl.
  split; [done|]. split; [done|]. split; [by rewrite Hcb5|]. split; [done|].
  split; [done|].
  clear Hcbh Hh H5 Hcb5. clearbody cbh. clear cb5.
  assert (Hone : forall s1, state (recordSuccess s1 cbh) = half_open /\
                            halfOpenSuccesses (recordSuccess s1 cbh) = 1 /\
                            successThreshold (recordSuccess s1 cbh) = 2).
  { intros s1. destruct (recordSuccess_half_open_below cbh s1) as (H1 & H2 & H3);
      [exact Hs | rewrite Hz, Ht; lia |].
    rewrite H1, H2, H3, Hz, Ht. done. }
  split; [|split; [|split]].
  - intros s1 s2. destruct (Hone s1) as (Hs1 & Hz1 & Ht1).
    apply recordSuccess_half_open_closes; [exact Hs1|]. rewrite Ht1, Hz1. lia.
  - intros s1. apply Hone.
  - intros f. apply recordFailure_half_open. exact Hs.
  - intros s1 f. destruct (Hone s1) as (Hs1 & _). apply recordFailure_half_open. exact Hs1.
Qed.

(** C7 at scenario 6 with its window of 10 s: failures at 0..3 ms, a probe
    at 100 ms, the next one at 203 ms. *)
Lemma breaker_opens_then_half_opens_witness :
  getState (recordFailure 3 (recordFailure 2 (recordFailure 1
              (recordFailure 0 (scenario_breaker 10000))))) = open.
Proof.
  assert (H0 : 0 <= 10000) by lia.
  assert (H1 : 100 - 3 < 200) by lia.
  assert (H2 : 200 <= 203 - 3) by lia.
  destruct (breaker_opens_then_half_opens 10000 0 1 2 3 100 203 H0 H1 H2) as [H _].
  exact H.
Defined.

(** ** Orchestrator: the scenarios evaluated *)

(** Scenario 1 ends with the result of task 0 recorded as a success and the
    task object marked completed, while [stats().tasks.completed] is 0:
    [stats] counts statuses over the pending queue, which holds no
    completed task. *)
Lemma scenario1_completed_count :
  (r_success <$> getTaskResult 0%nat scenario1) = Some true /\
  (t_status <$> o_heap scenario1 !! 0%nat) = Some completed /\
  st_completed (st_tasks (stats scenario1)) = 0.
Proof. vm_compute. done. Qed.

(** Scenario 2 ends with task 0 failed after one retry, while
    [stats().tasks.failed] is 0. *)
Lemma scenario2_failed_count :
  (t_status <$> o_heap scenario2 !! 0%nat) = Some failed /\
  (t_retries <$> o_heap scenario2 !! 0%nat) = Some 1 /\
  o_events scenario2 !! 3%nat = Some (onTaskFailed 0%nat "boom") /\
  st_failed (st_tasks (stats scenario2)) = 0.
Proof. vm_compute. done. Qed.

(** C1, as stated, fails: after the first failure report of scenario 2
    the task is back in the queue with [retries = 1] and is in the results
    table as well. *)
Lemma retried_task_in_queue_and_results :
  (length (o_heap scenario2_retrying) = 1)%nat /\
  in_queue scenario2_retrying 0%nat /\
  in_results scenario2_retrying 0%nat /\
  ~ exactly_one_location scenario2_retrying 0%nat.
Proof.
  assert (Hq : in_queue scenario2_retrying 0%nat) by (vm_compute; auto).
  assert (Hr : in_results scenario2_retrying 0%nat) by (vm_compute; auto).
  split; [reflexivity|]. split; [done|]. split; [done|].
  unfold exactly_one_location. tauto.
Qed.

(** C6, as stated, fails: after [unregisterWorker("w1")] the task assigned
    to [w1] is still assigned to it, and [w1] is not in the registry. *)
Lemma assigned_to_unregistered_worker :
  exists t, o_heap scenario_unregister !! 0%nat = Some t /\
    t_status t = assigned /\ t_assignedTo t = Some "w1" /\
    ~ registered scenario_unregister "w1" /\
    ~ assignment_consistent scenario_unregister t.
Proof.
  eexists. split; [vm_compute; reflexivity|]. simpl.
  assert (Hn : ~ registered scenario_unregister "w1") by (vm_compute; tauto).
  split; [done|]. split; [done|]. split; [done|].
  unfold assignment_consistent. simpl. intros H.
  destruct H as (w & at_ & Hw & _ & Hreg); [done|]. inversion Hw; subst. done.
Qed.

(** Scenario 3: submitting normal, high, normal, critical (tasks 0..3)
    leaves the queue as critical, high, first normal, second normal. *)
Lemma scenario3_queue_order : taskQueue scenario3 = [3; 1; 0; 2]%nat.
Proof. vm_compute. reflexivity. Qed.

(** Scenario 5: the second tick, 1000 ms after the assignment with a
    100 ms timeout and no retries, fails the task with "Task timed out". *)
Lemma scenario5_times_out :
  (t_status <$> o_heap scenario5 !! 0%nat) = Some failed /\
  (t_error <$> o_heap scenario5 !! 0%nat) = Some (Some "Task timed out") /\
  (r_durationMs <$> getTaskResult 0%nat scenario5) = Some 1000 /\
  taskQueue scenario5 = [] /\ activeTasks scenario5 = [].
Proof. vm_compute. done. Qed.

(** ** Orchestrator: effects of the primitive operations *)

Lemma splice_insert_Permutation {A} (i : nat) (x : A) (l : list A) :
  Permutation (splice_insert i x l) (x :: l).
Proof.
  unfold splice_insert. rewrite <- Permutation_middle. by rewrite take_drop.
Qed.

Lemma splice_insert_In {A} (i : nat) (x y : A) (l : list A) :
  In y (splice_insert i x l) <-> y = x \/ In y l.
Proof.
  rewrite <- !list_elem_of_In. rewrite (splice_insert_Permutation i x l).
  rewrite elem_of_cons. done.
Qed.

Lemma splice_insert_NoDup {A} (i : nat) (x : A) (l : list A) :
  NoDup l -> ~ In x l -> NoDup (splice_insert i x l).
Proof.
  intros Hnd Hx. rewrite (splice_insert_Permutation i x l).
  apply NoDup_cons. by rewrite list_elem_of_In.
Qed.

Lemma indexOf_lookup (x : TaskId) (l : list TaskId) (k i : nat) :
  indexOf x l k = Some i -> (k <= i)%nat /\ l !! (i - k)%nat = Some x.
Proof.
  revert k. induction l as [|y l IH]; intros k; simpl; [done|].
  destruct (Nat.eqb_spec y x) as [->|Hne].
  - intros [= <-]. split; [lia|]. by rewrite Nat.sub_diag.
  - intros Hi. apply IH in Hi as [Hle Hl]. split; [lia|].
    replace (i - k)%nat with (S (i - S k)) by lia. done.
Qed.

Lemma indexOf_None (x : TaskId) (l : list TaskId) (k : nat) :
  indexOf x l k = None -> ~ In x l.
Proof.
  revert k. induction l as [|y l IH]; intros k; simpl; [tauto|].
  destruct (Nat.eqb_spec y x) as [->|Hne]; [done|].
  intros Hi [?|Hin]; [done|]. by eapply IH.
Qed.

Lemma splice_remove_NoDup (x : TaskId) (l : list TaskId) (i : nat) :
  NoDup l -> l !! i = Some x ->
  NoDup (splice_remove i l) /\
  forall y, In y (splice_remove i l) <-> y <> x /\ In y l.
Proof.
  intros Hnd Hl. unfold splice_remove.
  rewrite <- (take_drop_middle l i x Hl) in Hnd.
  apply NoDup_app in Hnd as (Hn1 & Hn2 & Hn3).
  apply NoDup_cons in Hn3 as [Hx Hn3].
  split.
  - apply NoDup_app. split; [done|]. split; [|done].
    intros y Hy Hy'. apply (Hn2 y Hy). by right.
  - intros y. rewrite <- (take_drop_middle l i x Hl) at 3.
    rewrite <- !list_elem_of_In. rewrite !elem_of_app, elem_of_cons.
    split.
    + intros [Hy|Hy]; (split; [|tauto]); intros ->.
      * apply (Hn2 x Hy). by left.
      * done.
    + intros [Hne [Hy|[Hy|Hy]]]; tauto.
Qed.

Lemma mutate_fields (ref : TaskId) (f : Task -> Task) (o : Orchestrator) :
  taskQueue (mutate ref f o) = taskQueue o /\
  activeTasks (mutate ref f o) = activeTasks o /\
  taskResults (mutate ref f o) = taskResults o /\
  o_registry (mutate ref f o) = o_registry o /\
  o_router (mutate ref f o) = o_router o /\
  o_config (mutate ref f o) = o_config o /\
  o_events (mutate ref f o) = o_events o.
Proof. unfold mutate. by destruct (o_heap o !! ref). Qed.

Lemma mutate_heap (ref : TaskId) (f : Task -> Task) (o : Orchestrator) (t : Task) :
  o_heap o !! ref = Some t -> o_heap (mutate ref f o) = <[ref := f t]> (o_heap o).
Proof. intros Hl. unfold mutate. by rewrite Hl. Qed.

Lemma insertByPriority_fields (ref : TaskId) (o : Orchestrator) :
  o_heap (insertByPriority ref o) = o_heap o /\
  activeTasks (insertByPriority ref o) = activeTasks o /\
  taskResults (insertByPriority ref o) = taskResults o /\
  o_registry (insertByPriority ref o) = o_registry o /\
  o_router (insertByPriority ref o) = o_router o /\
  o_config (insertByPriority ref o) = o_config o /\
  o_events (insertByPriority ref o) = o_events o.
Proof. unfold insertByPriority. by destruct (o_heap o !! ref). Qed.

Lemma insertByPriority_queue (ref : TaskId) (o : Orchestrator) (t : Task) :
  o_heap o !! ref = Some t ->
  exists index, taskQueue (insertByPriority ref o) = splice_insert index ref (taskQueue o).
Proof. intros Hl. unfold insertByPriority. rewrite Hl. simpl. eauto. Qed.

Lemma reportTaskResult_unknown (now : Z) (r : TaskResult) (o : Orchestrator) :
  jsmap_get (r_taskId r) (activeTasks o) = None -> reportTaskResult now r o = o.
Proof. intros Hg. unfold reportTaskResult. by rewrite Hg. Qed.

(** The three outcomes of a report for an active task. *)
Lemma reportTaskResult_known (now : Z) (r : TaskResult) (o : Orchestrator)
    (ref : TaskId) (task : Task) :
  jsmap_get (r_taskId r) (activeTasks o) = Some ref ->
  o_heap o !! ref = Some task ->
  let o' := reportTaskResult now r o in
  activeTasks o' = jsmap_delete (r_taskId r) (activeTasks o) /\
  taskResults o' = jsmap_set (r_taskId r) r (taskResults o) /\
  o_registry o' = o_registry o /\ o_router o' = o_router o /\ o_config o' = o_config o /\
  ((r_success r = true /\
    o_heap o' = <[ref := set_completed now (r_result r) task]> (o_heap o) /\
    taskQueue o' = taskQueue o /\
    o_events o' = (o_events o ++ [onTaskCompleted r])%list) \/
   (r_success r = false /\ t_retries task < t_maxRetries task /\
    o_heap o' = <[ref := set_retrying task]> (o_heap o) /\
    (exists index, taskQueue o' = splice_insert index ref (taskQueue o)) /\
    o_events o' = o_events o) \/
   (r_success r = false /\ t_maxRetries task <= t_retries task /\
    o_heap o' = <[ref := set_failed now (r_error r) task]> (o_heap o) /\
    taskQueue o' = taskQueue o /\
    o_events o' =
      (o_events o ++ [onTaskFailed ref (default "Unknown error" (r_error r))])%list)).
Proof.
  intros Hg Hl. unfold reportTaskResult. rewrite Hg. simpl. rewrite Hl.
  set (o1 := with_results _ _).
  assert (Hl1 : o_heap o1 !! ref = Some task) by done.
  destruct (r_success r) eqn:Hs.
  - simpl. rewrite (mutate_heap _ _ _ _ Hl1).
    destruct (mutate_fields ref (set_completed now (r_result r)) o1)
      as (-> & -> & -> & -> & -> & -> & ->).
    repeat split; try done. left. done.
  - destruct (Z.ltb_spec (t_retries task) (t_maxRetries task)) as [Hlt|Hge].
    + set (o2 := mutate ref set_retrying o1).
      assert (Hh2 : o_heap o2 = <[ref := set_retrying task]> (o_heap o)).
      { subst o2. by rewrite (mutate_heap _ _ _ _ Hl1). }
      assert (Hl2 : o_heap o2 !! ref = Some (set_retrying task)).
      { rewrite Hh2. apply list_lookup_insert_eq. by eapply lookup_lt_Some. }
      destruct (insertByPriority_fields ref o2) as (-> & -> & -> & -> & -> & -> & ->).
      destruct (insertByPriority_queue ref o2 _ Hl2) as [index ->].
      destruct (mutate_fields ref set_retrying o1) as (Hq & Ha & Hr & Hreg & Hrt & Hc & He).
      fold o2 in Hq, Ha, Hr, Hreg, Hrt, Hc, He.
      rewrite Hq, Ha, Hr, Hreg, Hrt, Hc, He, Hh2.
      repeat split; try done. right. left. repeat split; try done. by exists index.
    + simpl. rewrite (mutate_heap _ _ _ _ Hl1).
      destruct (mutate_fields ref (set_failed now (r_error r)) o1)
        as (-> & -> & -> & -> & -> & -> & ->).
      repeat split; try done. right. right. done.
Qed.

Lemma reportTaskResult_dangling (now : Z) (r : TaskResult) (o : Orchestrator) (ref : TaskId) :
  jsmap_get (r_taskId r) (activeTasks o) = Some ref ->
  o_heap o !! ref = None ->
  reportTaskResult now r o =
    with_results (jsmap_set (r_taskId r) r (taskResults o))
      (with_active (jsmap_delete (r_taskId r) (activeTasks o)) o).
Proof. intros Hg Hl. unfold reportTaskResult. rewrite Hg. simpl. by rewrite Hl. Qed.

(** What a report does to the task store and to the rest of the state that
    the heap-only invariants read. *)
Lemma reportTaskResult_heap (now : Z) (r : TaskResult) (o : Orchestrator) :
  let o' := reportTaskResult now r o in
  o_registry o' = o_registry o /\ o_config o' = o_config o /\
  forall i t', o_heap o' !! i = Some t' ->
    o_heap o !! i = Some t' \/
    exists t, o_heap o !! i = Some t /\
      (t' = set_completed now (r_result r) t \/
       (t' = set_retrying t /\ t_retries t < t_maxRetries t) \/
       (t' = set_failed now (r_error r) t /\ t_maxRetries t <= t_retries t)).
Proof.
  destruct (jsmap_get (r_taskId r) (activeTasks o)) as [ref|] eqn:Hg.
  2:{ rewrite (reportTaskResult_unknown _ _ _ Hg). simpl. auto. }
  destruct (o_heap o !! ref) as [task|] eqn:Hl.
  2:{ rewrite (reportTaskResult_dangling _ _ _ _ Hg Hl). simpl. auto. }
  destruct (reportTaskResult_known now r o ref task Hg Hl)
    as (_ & _ & Hreg & _ & Hc & Hcases).
  simpl. split; [done|]. split; [done|]. intros i t' Hi.
  assert (Hlt : (ref < length (o_heap o))%nat) by by eapply lookup_lt_Some.
  destruct Hcases as [(_ & Hh & _)|[(_ & Hlt' & Hh & _)|(_ & Hge & Hh & _)]];
    rewrite Hh in Hi;
    (destruct (decide (ref = i)) as [->|Hne];
     [rewrite list_lookup_insert_eq in Hi by done; inversion Hi; subst;
      right; exists task; split; [done|]; auto
     |rewrite list_lookup_insert_ne in Hi by done; by left]).
Qed.

(** ** Orchestrator: the location invariant *)

Lemma Inv_ext (o o' : Orchestrator) :
  o_heap o' = o_heap o -> taskQueue o' = taskQueue o ->
  activeTasks o' = activeTasks o -> taskResults o' = taskResults o ->
  Inv o -> Inv o'.
Proof.
  intros Hh Hq Ha Hr [H1 H2 H3 H4 H5 H6 H7 H8].
  constructor; unfold task_located, in_queue, in_active, in_results in *;
    rewrite ?Hh, ?Hq, ?Ha, ?Hr; assumption.
Qed.

Lemma Inv_new (config : PartialConfig) : Inv (new_Orchestrator config).
Proof.
  constructor; simpl; unfold in_queue, in_active, in_results; simpl;
    try done; try apply NoDup_nil_2.
Qed.

(** A task found in the active table is an assigned task object, keyed by
    its own identifier and absent from the queue. *)
Lemma Inv_active_task (o : Orchestrator) (id ref : TaskId) :
  Inv o -> jsmap_get id (activeTasks o) = Some ref ->
  ref = id /\ in_active o id /\ ~ in_queue o id /\
  exists task, o_heap o !! id = Some task /\ t_status task = assigned /\ t_id task = id.
Proof.
  intros HI Hg.
  assert (Hin : In (id, ref) (activeTasks o)) by by apply jsmap_get_Some_In.
  assert (Hk : in_active o id) by (unfold in_active; by eapply jsmap_get_Some_keys).
  pose proof (inv_active_ref o HI _ _ Hin) as <-.
  destruct (inv_active_live o HI _ Hk) as [task Hl].
  destruct (inv_task o HI _ _ Hl) as [Hid Hloc].
  unfold task_located in Hloc.
  split; [done|]. split; [done|].
  destruct (t_status task) eqn:Hs; try tauto.
  split; [tauto|]. by exists task.
Qed.

(** A queued reference is a pending task object, absent from the active
    table. *)
Lemma Inv_queued_task (o : Orchestrator) (ref : TaskId) :
  Inv o -> in_queue o ref ->
  ~ in_active o ref /\
  exists task, o_heap o !! ref = Some task /\ t_status task = pending /\ t_id task = ref.
Proof.
  intros HI Hq.
  destruct (inv_queue_live o HI _ Hq) as [task Hl].
  destruct (inv_task o HI _ _ Hl) as [Hid Hloc].
  unfold task_located in Hloc.
  destruct (t_status task) eqn:Hs; try tauto.
  split; [tauto|]. by exists task.
Qed.

Lemma task_located_frame (o o' : Orchestrator) (x i : TaskId) (t : Task) :
  i <> x ->
  (forall y, y <> x -> (in_queue o' y <-> in_queue o y)) ->
  (forall y, y <> x -> (in_active o' y <-> in_active o y)) ->
  (forall y, in_results o y -> in_results o' y) ->
  task_located o i t -> task_located o' i t.
Proof.
  intros Hne Hq Ha Hr. unfold task_located.
  specialize (Hq i Hne). specialize (Ha i Hne). specialize (Hr i).
  destruct (t_status t); tauto.
Qed.

Lemma is_Some_lookup_insert (h : list Task) (x i : nat) (t : Task) :
  is_Some (h !! i) -> is_Some (<[x := t]> h !! i).
Proof.
  rewrite !lookup_lt_is_Some. by rewrite length_insert.
Qed.

Lemma Inv_reportTaskResult (now : Z) (r : TaskResult) (o : Orchestrator) :
  Inv o -> Inv (reportTaskResult now r o).
Proof.
  intros HI.
  destruct (jsmap_get (r_taskId r) (activeTasks o)) as [ref|] eqn:Hg.
  2:{ by rewrite (reportTaskResult_unknown _ _ _ Hg). }
  destruct (Inv_active_task o _ _ HI Hg) as (-> & Hact & Hnq & task & Hl & Hst & Hid).
  destruct (reportTaskResult_known now r o _ task Hg Hl) as (Ha & Hr & _ & _ & _ & Hcases).
  set (o' := reportTaskResult now r o) in *. set (id := r_taskId r) in *.
  assert (Hlen : (id < length (o_heap o))%nat) by by eapply lookup_lt_Some.
  assert (HA : forall y, in_active o' y <-> y <> id /\ in_active o y).
  { intros y. unfold in_active. rewrite Ha. apply jsmap_keys_delete, HI. }
  assert (HR : forall y, in_results o' y <-> y = id \/ in_results o y).
  { intros y. unfold in_results. rewrite Hr. apply jsmap_keys_set. }
  assert (exists task', o_heap o' = <[id := task']> (o_heap o) /\ t_id task' = id /\
            task_located o' id task' /\
            (r_success r = true -> t_status task' = completed) /\
            NoDup (taskQueue o') /\
            (forall y, in_queue o' y -> y = id \/ in_queue o y) /\
            (forall y, in_queue o y -> in_queue o' y))
    as (task' & Hh & Hid' & Hloc' & Hsucc & Hnd & HQ1 & HQ2).
  { destruct Hcases as [(Hs & Hh & Hq & _)|[(Hs & _ & Hh & [index Hq] & _)|(Hs & _ & Hh & Hq & _)]];
      eexists; (split; [exact Hh|]); (split; [exact Hid|]); unfold task_located; simpl;
      unfold in_queue in *; rewrite Hq.
    - split; [|split; [done|split; [apply HI|tauto]]].
      split; [done|]. split; [rewrite HA; tauto|]. rewrite HR. tauto.
    - split; [|split; [congruence|split; [apply splice_insert_NoDup; [apply HI|done]|]]].
      + split; [apply splice_insert_In; tauto|]. rewrite HA. tauto.
      + split; intros y; rewrite splice_insert_In; tauto.
    - split; [|split; [congruence|split; [apply HI|tauto]]].
      split; [done|]. split; [rewrite HA; tauto|]. rewrite HR. tauto. }
  constructor.
  - done.
  - rewrite Ha. apply jsmap_NoDup_delete, HI.
  - intros k x Hin. rewrite Ha in Hin. apply jsmap_In_delete in Hin.
    by apply (inv_active_ref o HI).
  - intros i Hi. rewrite Hh. apply is_Some_lookup_insert.
    destruct (HQ1 i Hi) as [->|Hq]; [by exists task | by apply (inv_queue_live o HI)].
  - intros i Hi. rewrite Hh. apply is_Some_lookup_insert.
    apply HA in Hi as [_ Hi]. by apply (inv_active_live o HI).
  - intros i Hi. rewrite Hh. apply is_Some_lookup_insert.
    apply HR in Hi as [->|Hi]; [by exists task | by apply (inv_results_live o HI)].
  - intros i t Hi. rewrite Hh in Hi. destruct (decide (id = i)) as [<-|Hne].
    + rewrite list_lookup_insert_eq in Hi by done. inversion Hi; subst. done.
    + rewrite list_lookup_insert_ne in Hi by done.
      destruct (inv_task o HI _ _ Hi) as [Hti Hloc]. split; [done|].
      apply (task_located_frame o o' id); auto.
      * intros y Hy. split; [|apply HQ2]. intros Hq. destruct (HQ1 y Hq); [done|done].
      * intros y Hy. rewrite HA. tauto.
      * intros y Hy. apply HR. tauto.
  - intros i r0 t Hgr Hi Hs. rewrite Hh in Hi. rewrite Hr in Hgr.
    destruct (decide (id = i)) as [<-|Hne].
    + rewrite list_lookup_insert_eq in Hi by done. inversion Hi; subst.
      rewrite jsmap_get_set_eq in Hgr. inversion Hgr; subst. by apply Hsucc.
    + rewrite list_lookup_insert_ne in Hi by done.
      rewrite jsmap_get_set_ne in Hgr by done.
      by apply (inv_success o HI i r0 t).
Qed.

(** [submitTask] either refuses (queue full) or allocates the next task
    object and inserts its reference into the queue. *)
Lemma submitTask_effect (now : Z) (s : TaskSubmission) (o : Orchestrator) :
  let o' := snd (submitTask now s o) in
  o_registry o' = o_registry o /\ o_config o' = o_config o /\
  activeTasks o' = activeTasks o /\ taskResults o' = taskResults o /\
  (o' = o \/
   exists task index,
     o_heap o' = (o_heap o ++ [task])%list /\
     taskQueue o' = splice_insert index (length (o_heap o)) (taskQueue o) /\
     t_id task = length (o_heap o) /\ t_status task = pending /\
     t_priority task = default normal (s_priority s) /\
     t_retries task = 0 /\
     t_maxRetries task = default (defaultMaxRetries (o_config o)) (s_maxRetries s)).
Proof.
  unfold submitTask.
  destruct (maxQueueSize (o_config o) <=? Z.of_nat (length (taskQueue o))); simpl.
  { repeat split; auto. }
  match goal with |- context [insertByPriority ?n (with_heap (_ ++ [?t])%list o)] =>
    set (task := t); set (o1 := with_heap (o_heap o ++ [task])%list o) end.
  assert (Hl : o_heap o1 !! length (o_heap o) = Some task).
  { simpl. by apply list_lookup_middle. }
  destruct (insertByPriority_fields (length (o_heap o)) o1) as (Hh & -> & -> & -> & _ & -> & _).
  destruct (insertByPriority_queue _ o1 _ Hl) as [index Hq].
  repeat split; try done. right. exists task, index. rewrite Hh, Hq. done.
Qed.

Lemma Inv_submitTask (now : Z) (s : TaskSubmission) (o : Orchestrator) :
  Inv o -> Inv (snd (submitTask now s o)).
Proof.
  intros HI.
  destruct (submitTask_effect now s o) as (_ & _ & Ha & Hr & [->|Hnew]); [done|].
  destruct Hnew as (task & index & Hh & Hq & Hid & Hst & _).
  set (o' := snd (submitTask now s o)) in *. set (new := length (o_heap o)) in *.
  assert (Hfresh : forall i, is_Some (o_heap o !! i) -> i <> new).
  { intros i Hi. apply lookup_lt_is_Some in Hi. subst new. lia. }
  assert (Hnq : ~ in_queue o new).
  { intros H. apply (Hfresh new); [by apply (inv_queue_live o HI) | done]. }
  assert (Hna : ~ in_active o new).
  { intros H. apply (Hfresh new); [by apply (inv_active_live o HI) | done]. }
  assert (HQ : forall y, in_queue o' y <-> y = new \/ in_queue o y).
  { intros y. unfold in_queue. rewrite Hq. apply splice_insert_In. }
  assert (Hlive : forall i, i = new \/ is_Some (o_heap o !! i) -> is_Some (o_heap o' !! i)).
  { intros i Hi. rewrite Hh. apply lookup_lt_is_Some. rewrite length_app. simpl.
    destruct Hi as [->|Hi]; [subst new; lia|]. apply lookup_lt_is_Some in Hi. lia. }
  constructor.
  - rewrite Hq. apply splice_insert_NoDup; [apply HI | done].
  - rewrite Ha. apply HI.
  - rewrite Ha. apply HI.
  - intros i Hi. apply Hlive. apply HQ in Hi as [->|Hi]; [by left|].
    right. by apply (inv_queue_live o HI).
  - intros i Hi. apply Hlive. right. apply (inv_active_live o HI).
    unfold in_active in *. by rewrite <- Ha.
  - intros i Hi. apply Hlive. right. apply (inv_results_live o HI).
    unfold in_results in *. by rewrite <- Hr.
  - intros i t Hi. rewrite Hh in Hi. apply lookup_snoc_Some in Hi as [[Hlt Hi]|[-> <-]].
    + destruct (inv_task o HI _ _ Hi) as [Hti Hloc]. split; [done|].
      apply (task_located_frame o o' new); auto.
      * intros y Hy. rewrite HQ. tauto.
      * intros y Hy. unfold in_active. by rewrite Ha.
      * intros y. unfold in_results. by rewrite Hr.
    + split; [done|]. unfold task_located. rewrite Hst. split; [apply HQ; by left|].
      unfold in_active. by rewrite Ha.
  - intros i r0 t Hg Hi Hs. rewrite Hh in Hi. rewrite Hr in Hg.
    apply lookup_snoc_Some in Hi as [[Hlt Hi]|[-> <-]].
    + by apply (inv_success o HI i r0 t).
    + exfalso. apply (Hfresh (length (o_heap o))); [|done].
      apply (inv_results_live o HI). unfold in_results. by eapply jsmap_get_Some_keys.
Qed.

Lemma sweep_one_cases (now : Z) (o : Orchestrator) (entry : TaskId * TaskId) :
  sweep_one now o entry = o \/
  exists task at_,
    o_heap o !! snd entry = Some task /\ t_assignedAt task = Some at_ /\
    at_ <> 0 /\ t_timeoutMs task < now - at_ /\
    sweep_one now o entry =
      reportTaskResult now (timeout_result now (fst entry) task at_) o.
Proof.
  destruct entry as [taskId ref]. unfold sweep_one. simpl.
  destruct (o_heap o !! ref) as [task|] eqn:Hl; [|by left].
  destruct (t_assignedAt task) as [at_|] eqn:Hat; [|by left].
  destruct (Z.eqb_spec at_ 0) as [|Hnz]; simpl; [by left|].
  destruct (Z.ltb_spec (t_timeoutMs task) (now - at_)); [|by left].
  right. exists task, at_. done.
Qed.

Lemma Inv_sweep_one (now : Z) (o : Orchestrator) (entry : TaskId * TaskId) :
  Inv o -> Inv (sweep_one now o entry).
Proof.
  intros HI. destruct (sweep_one_cases now o entry) as [->|(task & at_ & _ & _ & _ & _ & ->)];
    [done | by apply Inv_reportTaskResult].
Qed.

Lemma Inv_sweep (now : Z) (entries : list (TaskId * TaskId)) (o : Orchestrator) :
  Inv o -> Inv (fold_left (sweep_one now) entries o).
Proof.
  revert o. induction entries as [|e entries IH]; intros o HI; simpl; [done|].
  by apply IH, Inv_sweep_one.
Qed.

Lemma Inv_checkTimeouts (now : Z) (o : Orchestrator) : Inv o -> Inv (checkTimeouts now o).
Proof. apply Inv_sweep. Qed.

(** One routing decision: nothing but the router moves, or the task goes
    from the queue to the active table under the selected worker. *)
Lemma assign_one_effect (now : Z) (u : Q) (o : Orchestrator) (ref : TaskId) (task : Task) :
  o_heap o !! ref = Some task ->
  let o' := assign_one now u o ref in
  o_registry o' = o_registry o /\ o_config o' = o_config o /\
  taskResults o' = taskResults o /\
  ((o_heap o' = o_heap o /\ taskQueue o' = taskQueue o /\
    activeTasks o' = activeTasks o /\ o_events o' = o_events o) \/
   exists a,
     fst (route (o_router o) u task (o_registry o)) = Some a /\
     o_heap o' = <[ref := set_assigned now (a_workerId a) task]> (o_heap o) /\
     taskQueue o' =
       match indexOf ref (taskQueue o) 0 with
       | Some index => splice_remove index (taskQueue o)
       | None => taskQueue o
       end /\
     activeTasks o' = jsmap_set (t_id task) ref (activeTasks o) /\
     o_events o' = (o_events o ++ [onTaskAssigned ref (a_workerId a)])%list).
Proof.
  intros Hl. unfold assign_one. rewrite Hl.
  destruct (route (o_router o) u task (o_registry o)) as [[a|] rt] eqn:Hroute; simpl.
  2:{ repeat split; auto. }
  set (o1 := match indexOf ref (taskQueue o) 0 with
             | Some index => with_queue (splice_remove index (taskQueue o)) (with_router rt o)
             | None => with_router rt o
             end).
  assert (H1 : o_heap o1 = o_heap o /\ activeTasks o1 = activeTasks o /\
               taskResults o1 = taskResults o /\ o_registry o1 = o_registry o /\
               o_config o1 = o_config o /\ o_events o1 = o_events o /\
               taskQueue o1 = match indexOf ref (taskQueue o) 0 with
                              | Some index => splice_remove index (taskQueue o)
                              | None => taskQueue o
                              end).
  { subst o1. by destruct (indexOf ref (taskQueue o) 0). }
  destruct H1 as (Hh1 & Ha1 & Hr1 & Hreg1 & Hc1 & He1 & Hq1).
  assert (Hl1 : o_heap o1 !! ref = Some task) by by rewrite Hh1.
  destruct (mutate_fields ref (set_assigned now (a_workerId a)) o1)
    as (Hq & Ha & Hr & Hreg & _ & Hc & He).
  rewrite Hreg, Hc, Hr, Ha, Hq, He, (mutate_heap _ _ _ _ Hl1).
  rewrite Hreg1, Hc1, Hr1, Ha1, Hq1, He1, Hh1.
  repeat split; try done. right. exists a. done.
Qed.

Lemma assign_one_dangling (now : Z) (u : Q) (o : Orchestrator) (ref : TaskId) :
  o_heap o !! ref = None -> assign_one now u o ref = o.
Proof. intros Hl. unfold assign_one. by rewrite Hl. Qed.

Lemma Inv_assign_one (now : Z) (u : Q) (o : Orchestrator) (ref : TaskId) :
  Inv o -> in_queue o ref ->
  Inv (assign_one now u o ref) /\
  forall y, y <> ref -> in_queue o y -> in_queue (assign_one now u o ref) y.
Proof.
  intros HI Hq.
  destruct (Inv_queued_task o ref HI Hq) as (Hna & task & Hl & Hst & Hid).
  destruct (assign_one_effect now u o ref task Hl) as (_ & _ & Hr & Hcases).
  set (o' := assign_one now u o ref) in *.
  destruct Hcases as [(Hh & Hq' & Ha & _)|(a & _ & Hh & Hq' & Ha & _)].
  { split; [by apply (Inv_ext o)|]. intros y _. unfold in_queue. by rewrite Hq'. }
  destruct (indexOf ref (taskQueue o) 0) as [index|] eqn:Hidx.
  2:{ by apply indexOf_None in Hidx. }
  apply indexOf_lookup in Hidx as [_ Hidx]. rewrite Nat.sub_0_r in Hidx.
  destruct (splice_remove_NoDup ref (taskQueue o) index (inv_queue_nodup o HI) Hidx)
    as [Hnd HQin].
  rewrite <- Hq' in Hnd, HQin. rewrite Hid in Ha.
  assert (Hlen : (ref < length (o_heap o))%nat) by by eapply lookup_lt_Some.
  assert (HQ : forall y, in_queue o' y <-> y <> ref /\ in_queue o y) by apply HQin.
  assert (HA : forall y, in_active o' y <-> y = ref \/ in_active o y).
  { intros y. unfold in_active. rewrite Ha. apply jsmap_keys_set. }
  split; [|intros y Hy Hyq; apply HQ; tauto].
  constructor.
  - done.
  - rewrite Ha. apply jsmap_NoDup_set, HI.
  - intros k x Hin. rewrite Ha in Hin. apply jsmap_In_set in Hin as [[= -> ->]|Hin]; [done|].
    by apply (inv_active_ref o HI).
  - intros i Hi. rewrite Hh. apply is_Some_lookup_insert.
    apply HQ in Hi as [_ Hi]. by apply (inv_queue_live o HI).
  - intros i Hi. rewrite Hh. apply is_Some_lookup_insert.
    apply HA in Hi as [->|Hi]; [by exists task | by apply (inv_active_live o HI)].
  - intros i Hi. rewrite Hh. apply is_Some_lookup_insert.
    apply (inv_results_live o HI). unfold in_results in *. by rewrite <- Hr.
  - intros i t Hi. rewrite Hh in Hi. destruct (decide (ref = i)) as [<-|Hne].
    + rewrite list_lookup_insert_eq in Hi by done. inversion Hi; subst. simpl.
      split; [done|]. unfold task_located. simpl.
      split; [rewrite HQ; tauto|]. split; [apply HA; by left|]. split; by eexists.
    + rewrite list_lookup_insert_ne in Hi by done.
      destruct (inv_task o HI _ _ Hi) as [Hti Hloc]. split; [done|].
      apply (task_located_frame o o' ref); auto.
      * intros y Hy. rewrite HQ. tauto.
      * intros y Hy. rewrite HA. tauto.
      * intros y. unfold in_results. by rewrite Hr.
  - intros i r0 t Hg Hi Hs. rewrite Hh in Hi. rewrite Hr in Hg.
    destruct (decide (ref = i)) as [<-|Hne].
    + pose proof (inv_success o HI ref r0 task Hg Hl Hs). congruence.
    + rewrite list_lookup_insert_ne in Hi by done. by apply (inv_success o HI i r0 t).
Qed.

Lemma Inv_assign_loop (now : Z) (rnd : nat -> Q) (pendingTasks : list TaskId) :
  forall (i : nat) (o : Orchestrator),
  Inv o -> NoDup pendingTasks -> (forall ref, In ref pendingTasks -> in_queue o ref) ->
  Inv (assign_loop now rnd i pendingTasks o).
Proof.
  induction pendingTasks as [|ref rest IH]; intros i o HI Hnd Hq; simpl; [done|].
  apply NoDup_cons in Hnd as [Href Hnd]. rewrite list_elem_of_In in Href.
  destruct (Inv_assign_one now (rnd i) o ref HI) as [HI' Hq']; [apply Hq; by left|].
  apply IH; [done|done|].
  intros y Hy. apply Hq'; [by intros ->|]. apply Hq. by right.
Qed.

Lemma Inv_processQueue (now : Z) (rnd : nat -> Q) (o : Orchestrator) :
  Inv o -> Inv (processQueue now rnd o).
Proof.
  intros HI. unfold processQueue.
  pose proof (Inv_checkTimeouts now o HI) as HI1.
  apply Inv_assign_loop; [done| |].
  - apply NoDup_ListNoDup, List.NoDup_filter, NoDup_ListNoDup, HI1.
  - intros ref Href. apply filter_In in Href. apply Href.
Qed.

Lemma Inv_step (o : Orchestrator) (op : Op) : Inv o -> Inv (step o op).
Proof.
  intros HI. destruct op as [now d|workerId|now p|now s|now r|now rnd|now]; simpl.
  - unfold registerWorker. destruct (register now d (o_registry o)). by apply (Inv_ext o).
  - unfold unregisterWorker. destruct (unregister workerId (o_registry o)) as [[] r'];
      destruct (get workerId (o_registry o)); by apply (Inv_ext o).
  - unfold orchestrator_heartbeat. destruct (heartbeat now p (o_registry o)).
    by apply (Inv_ext o).
  - by apply Inv_submitTask.
  - by apply Inv_reportTaskResult.
  - by apply Inv_processQueue.
  - by apply (Inv_ext o).
Qed.

Lemma Inv_run (ops : list Op) : forall o, Inv o -> Inv (run o ops).
Proof.
  induction ops as [|op ops IH]; intros o HI; simpl; [done|].
  apply IH. by apply Inv_step.
Qed.

(** C1 (amended). After any sequence of operations every task object is
    keyed by its identifier and is in exactly one of three places: the
    pending queue (status [pending]), the active table (status
    [assigned]), or neither of them with an entry in the results table
    (status [completed] or [failed]); nothing else is in the three
    collections. The results table also keeps the last reported result of
    a task that is queued or active, and that result is a failure. *)
Theorem task_location (config : PartialConfig) (ops : list Op) :
  let o := run (new_Orchestrator config) ops in
  (forall id, in_queue o id \/ in_active o id \/ in_results o id ->
     is_Some (o_heap o !! id)) /\
  (forall id t, o_heap o !! id = Some t ->
     t_id t = id /\
     ((in_queue o id /\ ~ in_active o id /\ t_status t = pending) \/
      (~ in_queue o id /\ in_active o id /\ t_status t = assigned) \/
      (~ in_queue o id /\ ~ in_active o id /\ in_results o id /\
       (t_status t = completed \/ t_status t = failed)))) /\
  (forall id r, getTaskResult id o = Some r ->
     in_queue o id \/ in_active o id -> r_success r = false).
Proof.
  intros o. assert (HI : Inv o) by apply Inv_run, Inv_new.
  split; [|split].
  - intros id [H|[H|H]];
      [by apply (inv_queue_live o HI) | by apply (inv_active_live o HI)
      | by apply (inv_results_live o HI)].
  - intros id t Hl. destruct (inv_task o HI _ _ Hl) as [Hid Hloc]. split; [done|].
    unfold task_located in Hloc. destruct (t_status t); tauto.
  - intros id r Hg Hqa. destruct (r_success r) eqn:Hs; [exfalso|done].
    assert (Hres : in_results o id) by (unfold in_results; by eapply jsmap_get_Some_keys).
    destruct (inv_results_live o HI _ Hres) as [t Hl].
    pose proof (inv_success o HI id r t Hg Hl Hs) as Hc.
    destruct (inv_task o HI _ _ Hl) as [_ Hloc]. unfold task_located in Hloc.
    rewrite Hc in Hloc. tauto.
Qed.

(** ** The registry keys workers by their identifier *)

Lemma RegInv_register (now : Z) (d : WorkerDescriptor) (r : WorkerRegistry) :
  RegInv r -> RegInv (snd (register now d r)).
Proof.
  intros HR k w. unfold register.
  destruct (jsmap_get (d_id d) (workers r)); simpl; intros Hin;
    apply jsmap_In_set in Hin as [[= -> ->]|Hin]; try done; by apply HR.
Qed.

Lemma RegInv_unregister (workerId : string) (r : WorkerRegistry) :
  RegInv r -> RegInv (snd (unregister workerId r)).
Proof. intros HR k w Hin. simpl in Hin. apply jsmap_In_delete in Hin. by apply HR. Qed.

Lemma RegInv_updateWorker (k : string) (u : WorkerUpdates) (r r' : WorkerRegistry)
    (w : WorkerInfo) :
  u_id u = None -> RegInv r -> updateWorker k u r = Some (w, r') -> RegInv r'.
Proof.
  intros Hu HR. unfold updateWorker.
  destruct (jsmap_get k (workers r)) as [worker|] eqn:Hg; [|done].
  intros [= <- <-] k' w' Hin. simpl in Hin.
  apply jsmap_In_set in Hin as [[= -> ->]|Hin]; [|by apply HR].
  simpl. rewrite Hu. simpl. apply HR. by apply jsmap_get_Some_In.
Qed.

Lemma RegInv_heartbeat (now : Z) (p : HeartbeatPayload) (r : WorkerRegistry) :
  RegInv r -> RegInv (snd (heartbeat now p r)).
Proof.
  intros HR. unfold heartbeat.
  destruct (updateWorker (hb_workerId p) (heartbeat_updates p now) r) as [[w r']|] eqn:Hu;
    [|done].
  simpl. by eapply RegInv_updateWorker; [| |exact Hu].
Qed.

Lemma RegInv_checkWorkerHealth (now : Z) (r : WorkerRegistry) :
  RegInv r -> RegInv (checkWorkerHealth now r).
Proof.
  unfold checkWorkerHealth.
  generalize (reg_heartbeatIntervalMs r * reg_missedHeartbeatsThreshold r) as maxAge.
  intros maxAge. generalize (workers r) at 1 as entries.
  intros entries. revert r. induction entries as [|[k w] entries IH]; intros r HR; simpl;
    [done|].
  apply IH. destruct (WorkerStatus_eqb (w_status w) offline); [done|].
  destruct (maxAge <? now - w_lastHeartbeat w); [|done].
  destruct (updateWorker k offline_updates r) as [[w' r']|] eqn:Hu; [|done].
  by eapply RegInv_updateWorker; [| |exact Hu].
Qed.

Lemma route_registered (rt : TaskRouter) (u : Q) (task : Task) (r : WorkerRegistry)
    (a : TaskAssignment) :
  RegInv r -> fst (route rt u task r) = Some a -> In (a_workerId a) (jsmap_keys (workers r)).
Proof.
  intros HR Hroute. apply route_Some_eligible in Hroute as (_ & w & Hw & ->).
  apply getEligibleWorkers_available, getAvailable_In in Hw as (Hall & _).
  unfold getAll, jsmap_values in Hall. apply in_map_iff in Hall as ([k w'] & <- & Hin).
  simpl. rewrite (HR _ _ Hin). unfold jsmap_keys. change k with (fst (k, w')).
  by apply in_map.
Qed.

(** ** Properties of every task object, through the task operations *)

Section HeapInvariant.
Variable P : Task -> Prop.
Variable r0 : WorkerRegistry.
Hypothesis P_completed : forall t now res, P t -> P (set_completed now res t).
Hypothesis P_retrying :
  forall t, P t -> t_retries t < t_maxRetries t -> P (set_retrying t).
Hypothesis P_failed :
  forall t now err, P t -> t_maxRetries t <= t_retries t -> P (set_failed now err t).
Hypothesis P_assigned :
  forall t now w, P t -> In w (jsmap_keys (workers r0)) -> P (set_assigned now w t).
Hypothesis r0_keys : RegInv r0.

Lemma heap_all_reportTaskResult (now : Z) (r : TaskResult) (o : Orchestrator) :
  heap_all P o -> heap_all P (reportTaskResult now r o).
Proof.
  intros HP i t' Hi.
  destruct (reportTaskResult_heap now r o) as (_ & _ & Hheap).
  destruct (Hheap i t' Hi) as [Hold|(t & Hold & [->|[[-> Hlt]|[-> Hge]]])]; eauto.
Qed.

Lemma heap_all_sweep (now : Z) (entries : list (TaskId * TaskId)) (o : Orchestrator) :
  heap_all P o -> heap_all P (fold_left (sweep_one now) entries o).
Proof.
  revert o. induction entries as [|e entries IH]; intros o HP; simpl; [done|].
  apply IH. destruct (sweep_one_cases now o e) as [->|(task & at_ & _ & _ & _ & _ & ->)];
    [done | by apply heap_all_reportTaskResult].
Qed.

Lemma heap_all_assign_one (now : Z) (u : Q) (o : Orchestrator) (ref : TaskId) :
  o_registry o = r0 -> heap_all P o -> heap_all P (assign_one now u o ref).
Proof.
  intros Hr HP. destruct (o_heap o !! ref) as [task|] eqn:Hl.
  2:{ by rewrite assign_one_dangling. }
  destruct (assign_one_effect now u o ref task Hl)
    as (_ & _ & _ & [(Hh & _)|(a & Hroute & Hh & _)]); intros i t Hi; rewrite Hh in Hi.
  { by apply (HP i). }
  assert (Hlen : (ref < length (o_heap o))%nat) by by eapply lookup_lt_Some.
  destruct (decide (ref = i)) as [<-|Hne].
  - rewrite list_lookup_insert_eq in Hi by done. injection Hi as <-.
    apply P_assigned; [by apply (HP ref)|]. rewrite <- Hr.
    eapply route_registered; [by rewrite Hr | exact Hroute].
  - rewrite list_lookup_insert_ne in Hi by done. by apply (HP i).
Qed.
End HeapInvariant.

(** The task operations leave the registry and the configuration alone. *)
Lemma sweep_registry_config (now : Z) (entries : list (TaskId * TaskId)) :
  forall o, let o' := fold_left (sweep_one now) entries o in
  o_registry o' = o_registry o /\ o_config o' = o_config o.
Proof.
  induction entries as [|e entries IH]; intros o; simpl; [done|].
  destruct (IH (sweep_one now o e)) as [-> ->].
  destruct (sweep_one_cases now o e) as [->|(task & at_ & _ & _ & _ & _ & ->)]; [done|].
  destruct (reportTaskResult_heap now (timeout_result now (fst e) task at_) o)
    as (-> & -> & _). done.
Qed.

Lemma assign_one_registry_config (now : Z) (u : Q) (o : Orchestrator) (ref : TaskId) :
  o_registry (assign_one now u o ref) = o_registry o /\
  o_config (assign_one now u o ref) = o_config o.
Proof.
  destruct (o_heap o !! ref) as [task|] eqn:Hl.
  - by destruct (assign_one_effect now u o ref task Hl) as (-> & -> & _).
  - by rewrite assign_one_dangling.
Qed.

Lemma assign_loop_registry_config (now : Z) (rnd : nat -> Q) (pendingTasks : list TaskId) :
  forall i o, let o' := assign_loop now rnd i pendingTasks o in
  o_registry o' = o_registry o /\ o_config o' = o_config o.
Proof.
  induction pendingTasks as [|ref rest IH]; intros i o; simpl; [done|].
  destruct (IH (S i) (assign_one now (rnd i) o ref)) as [-> ->].
  apply assign_one_registry_config.
Qed.

Lemma processQueue_registry_config (now : Z) (rnd : nat -> Q) (o : Orchestrator) :
  o_registry (processQueue now rnd o) = o_registry o /\
  o_config (processQueue now rnd o) = o_config o.
Proof.
  unfold processQueue.
  match goal with |- context [assign_loop now rnd 0 ?l ?o1] =>
    destruct (assign_loop_registry_config now rnd l 0%nat o1) as [-> ->] end.
  apply sweep_registry_config.
Qed.

Lemma heap_all_assign_loop (P : Task -> Prop) (r0 : WorkerRegistry) (now : Z)
    (rnd : nat -> Q) (pendingTasks : list TaskId) :
  (forall t now w, P t -> In w (jsmap_keys (workers r0)) -> P (set_assigned now w t)) ->
  RegInv r0 ->
  forall i o, o_registry o = r0 -> heap_all P o ->
  heap_all P (assign_loop now rnd i pendingTasks o).
Proof.
  intros HPa HR. induction pendingTasks as [|ref rest IH]; intros i o Hr HP; simpl; [done|].
  destruct (assign_one_registry_config now (rnd i) o ref) as [Hreg _].
  apply IH; [by rewrite Hreg|].
  by apply (heap_all_assign_one P r0).
Qed.

(** A property of task objects that survives every status change of the
    task operations survives [reportTaskResult] and [processQueue]. *)
Lemma heap_all_task_ops (P : Task -> Prop) (o : Orchestrator) :
  (forall t now res, P t -> P (set_completed now res t)) ->
  (forall t, P t -> t_retries t < t_maxRetries t -> P (set_retrying t)) ->
  (forall t now err, P t -> t_maxRetries t <= t_retries t -> P (set_failed now err t)) ->
  (forall t now w, P t -> In w (jsmap_keys (workers (o_registry o))) ->
                   P (set_assigned now w t)) ->
  RegInv (o_registry o) -> heap_all P o ->
  (forall now r, heap_all P (reportTaskResult now r o)) /\
  (forall now rnd, heap_all P (processQueue now rnd o)).
Proof.
  intros Hc Hr Hf Ha HR HP. split.
  - intros now r. by apply heap_all_reportTaskResult.
  - intros now rnd. unfold processQueue.
    apply (heap_all_assign_loop P (o_registry o)); [done|done| |].
    + apply sweep_registry_config.
    + by apply heap_all_sweep.
Qed.

Lemma step_config (o : Orchestrator) (op : Op) : o_config (step o op) = o_config o.
Proof.
  destruct op as [now d|workerId|now p|now s|now r|now rnd|now]; simpl.
  - unfold registerWorker. by destruct (register now d (o_registry o)).
  - unfold unregisterWorker. destruct (unregister workerId (o_registry o)) as [[] r'];
      by destruct (get workerId (o_registry o)).
  - unfold orchestrator_heartbeat. by destruct (heartbeat now p (o_registry o)).
  - by destruct (submitTask_effect now s o) as (_ & -> & _).
  - by destruct (reportTaskResult_heap now r o) as (_ & -> & _).
  - apply processQueue_registry_config.
  - done.
Qed.

Lemma run_cons (o : Orchestrator) (op : Op) (ops : list Op) :
  run o (op :: ops) = run (step o op) ops.
Proof. reflexivity. Qed.

Lemma run_snoc (o : Orchestrator) (ops : list Op) (op : Op) :
  run o (ops ++ [op]) = step (run o ops) op.
Proof. unfold run. by rewrite fold_left_app. Qed.

Lemma run_config (ops : list Op) : forall o, o_config (run o ops) = o_config o.
Proof.
  induction ops as [|op ops IH]; intros o; [done|].
  rewrite run_cons, IH. apply step_config.
Qed.

Lemma RegInv_step (o : Orchestrator) (op : Op) :
  RegInv (o_registry o) -> RegInv (o_registry (step o op)).
Proof.
  intros HR. destruct op as [now d|workerId|now p|now s|now r|now rnd|now]; simpl.
  - unfold registerWorker. pose proof (RegInv_register now d _ HR) as H.
    by destruct (register now d (o_registry o)).
  - unfold unregisterWorker. pose proof (RegInv_unregister workerId _ HR) as H.
    destruct (unregister workerId (o_registry o)) as [[] r'];
      by destruct (get workerId (o_registry o)).
  - unfold orchestrator_heartbeat. pose proof (RegInv_heartbeat now p _ HR) as H.
    by destruct (heartbeat now p (o_registry o)).
  - by destruct (submitTask_effect now s o) as (-> & _).
  - by destruct (reportTaskResult_heap now r o) as (-> & _).
  - by destruct (processQueue_registry_config now rnd o) as [-> _].
  - by apply RegInv_checkWorkerHealth.
Qed.

Lemma RegInv_run (ops : list Op) :
  forall o, RegInv (o_registry o) -> RegInv (o_registry (run o ops)).
Proof.
  induction ops as [|op ops IH]; intros o HR; [done|].
  rewrite run_cons. apply IH. by apply RegInv_step.
Qed.

(** ** Retry bound *)

Lemma retry_policy_step (o : Orchestrator) (op : Op) :
  RegInv (o_registry o) -> 0 <= defaultMaxRetries (o_config o) -> submission_ok op ->
  heap_all retry_policy o -> heap_all retry_policy (step o op).
Proof.
  intros HR Hdef Hop HP.
  destruct (heap_all_task_ops retry_policy o) as [Hreport Hprocess].
  { intros t now res [Hb _]. split; [done|]. simpl. discriminate. }
  { intros t [[H0 H1] _] Hlt. split; [|simpl; discriminate].
    unfold retry_bound. simpl. lia. }
  { intros t now err [[H0 H1] _] Hge. split; [done|]. simpl. lia. }
  { intros t now w [Hb Hf] _. split; [done|]. simpl. discriminate. }
  { exact HR. }
  { exact HP. }
  destruct op as [now d|workerId|now p|now s|now r|now rnd|now]; simpl.
  - unfold registerWorker. by destruct (register now d (o_registry o)).
  - unfold unregisterWorker. destruct (unregister workerId (o_registry o)) as [[] r'];
      by destruct (get workerId (o_registry o)).
  - unfold orchestrator_heartbeat. by destruct (heartbeat now p (o_registry o)).
  - destruct (submitTask_effect now s o) as (_ & _ & _ & _ & [->|Hnew]); [done|].
    destruct Hnew as (task & index & Hh & _ & _ & Hst & _ & Hret & Hmax).
    intros i t Hi. rewrite Hh in Hi. apply lookup_snoc_Some in Hi as [[_ Hi]|[_ <-]].
    + by apply (HP i).
    + split; [|congruence]. unfold retry_bound. rewrite Hret, Hmax.
      simpl in Hop. destruct (s_maxRetries s); simpl; lia.
  - apply Hreport.
  - apply Hprocess.
  - done.
Qed.

Lemma retry_policy_run (ops : list Op) :
  forall o, RegInv (o_registry o) -> 0 <= defaultMaxRetries (o_config o) ->
  Forall submission_ok ops -> heap_all retry_policy o -> heap_all retry_policy (run o ops).
Proof.
  induction ops as [|op ops IH]; intros o HR Hdef Hops HP; [done|].
  apply Forall_cons in Hops as [Hop Hops]. rewrite run_cons.
  apply IH; [by apply RegInv_step | by rewrite step_config | done
            | by apply retry_policy_step].
Qed.





(** ** Assignment consistency *)

Lemma jsmap_keys_delete_ne {V : Type} (k x : string) (m : list (string * V)) :
  x <> k -> In x (jsmap_keys m) -> In x (jsmap_keys (jsmap_delete k m)).
Proof.
  intros Hne. induction m as [|[k' v'] m IH]; simpl; [done|].
  destruct (decide (k' = k)) as [->|Hne']; simpl; naive_solver.
Qed.

Lemma updateWorker_keys (k : string) (u : WorkerUpdates) (r r' : WorkerRegistry)
    (w : WorkerInfo) (x : string) :
  updateWorker k u r = Some (w, r') ->
  In x (jsmap_keys (workers r)) -> In x (jsmap_keys (workers r')).
Proof.
  unfold updateWorker. destruct (jsmap_get k (workers r)); [|done].
  intros [= <- <-] Hin. simpl. apply jsmap_keys_set. by right.
Qed.

Lemma register_keys (now : Z) (d : WorkerDescriptor) (r : WorkerRegistry) (x : string) :
  In x (jsmap_keys (workers r)) -> In x (jsmap_keys (workers (snd (register now d r)))).
Proof.
  intros Hin. unfold register.
  destruct (jsmap_get (d_id d) (workers r)); simpl; apply jsmap_keys_set; by right.
Qed.

Lemma heartbeat_keys (now : Z) (p : HeartbeatPayload) (r : WorkerRegistry) (x : string) :
  In x (jsmap_keys (workers r)) -> In x (jsmap_keys (workers (snd (heartbeat now p r)))).
Proof.
  intros Hin. unfold heartbeat.
  destruct (updateWorker (hb_workerId p) (heartbeat_updates p now) r) as [[w r']|] eqn:Hu;
    [|done].
  simpl. by eapply updateWorker_keys.
Qed.

Lemma checkWorkerHealth_keys (now : Z) (r : WorkerRegistry) (x : string) :
  In x (jsmap_keys (workers r)) -> In x (jsmap_keys (workers (checkWorkerHealth now r))).
Proof.
  unfold checkWorkerHealth.
  generalize (reg_heartbeatIntervalMs r * reg_missedHeartbeatsThreshold r) as maxAge.
  intros maxAge. generalize (workers r) at 2 as entries.
  intros entries. revert r. induction entries as [|[k w] entries IH]; intros r Hin; simpl;
    [done|].
  apply IH. destruct (WorkerStatus_eqb (w_status w) offline); [done|].
  destruct (maxAge <? now - w_lastHeartbeat w); [|done].
  destruct (updateWorker k offline_updates r) as [[w' r']|] eqn:Hu; [|done].
  by eapply updateWorker_keys.
Qed.

Lemma registered_step (o : Orchestrator) (op : Op) (w : string) :
  registered o w -> op <> OpUnregisterWorker w -> registered (step o op) w.
Proof.
  unfold registered. intros Hreg Hop.
  destruct op as [now d|workerId|now p|now s|now r|now rnd|now]; cbn [step].
  - unfold registerWorker. pose proof (register_keys now d (o_registry o)) as Hk.
    destruct (register now d (o_registry o)) as [w' r']. simpl in *. by apply Hk.
  - assert (Hne : w <> workerId) by (intros ->; done).
    unfold unregisterWorker.
    assert (Hk : In w (jsmap_keys (workers (snd (unregister workerId (o_registry o))))))
      by (simpl; by apply jsmap_keys_delete_ne).
    destruct (unregister workerId (o_registry o)) as [[|] r'];
      by destruct (get workerId (o_registry o)).
  - unfold orchestrator_heartbeat. pose proof (heartbeat_keys now p (o_registry o)) as Hk.
    destruct (heartbeat now p (o_registry o)) as [w' r']. simpl in *. by apply Hk.
  - by destruct (submitTask_effect now s o) as (-> & _).
  - by destruct (reportTaskResult_heap now r o) as (-> & _).
  - by destruct (processQueue_registry_config now rnd o) as [-> _].
  - simpl. by apply checkWorkerHealth_keys.
Qed.

(** A task that is assigned after a step either was the same object before
    the step, or it names a worker that is registered after it. *)
Lemma assigned_step_origin (o : Orchestrator) (op : Op) (id : TaskId) (t : Task) :
  Inv o -> RegInv (o_registry o) ->
  o_heap (step o op) !! id = Some t -> t_status t = assigned ->
  o_heap o !! id = Some t \/
  exists w at_, t_assignedTo t = Some w /\ t_assignedAt t = Some at_ /\
                registered (step o op) w.
Proof.
  intros HI HR Hl Hs.
  set (P := fun t' : Task =>
              t_status t' = assigned ->
              (exists i, o_heap o !! i = Some t') \/
              exists w at_, t_assignedTo t' = Some w /\ t_assignedAt t' = Some at_ /\
                            In w (jsmap_keys (workers (o_registry o)))).
  destruct (heap_all_task_ops P o) as [Hreport Hprocess].
  { intros t' now res _ Hs'. simpl in Hs'. discriminate. }
  { intros t' _ _ Hs'. simpl in Hs'. discriminate. }
  { intros t' now err _ _ Hs'. simpl in Hs'. discriminate. }
  { intros t' now w _ Hw _. right. exists w, now. simpl. auto. }
  { exact HR. }
  { intros i t' Hi _. left. by exists i. }
  assert (Hid : t_id t = id).
  { by destruct (inv_task (step o op) (Inv_step o op HI) _ _ Hl). }
  assert (Hsame : forall i, o_heap o !! i = Some t -> o_heap o !! id = Some t).
  { intros i Hi. destruct (inv_task o HI _ _ Hi) as [Hi' _].
    unfold TaskId in *. by replace id with i by congruence. }
  destruct op as [now d|workerId|now p|now s|now r|now rnd|now]; cbn [step] in *.
  - left. revert Hl. unfold registerWorker. by destruct (register now d (o_registry o)).
  - left. revert Hl. unfold unregisterWorker.
    destruct (unregister workerId (o_registry o)) as [[|] r'];
      by destruct (get workerId (o_registry o)).
  - left. revert Hl. unfold orchestrator_heartbeat.
    by destruct (heartbeat now p (o_registry o)).
  - left. destruct (submitTask_effect now s o) as (_ & _ & _ & _ & [Heq|Hnew]).
    { by rewrite Heq in Hl. }
    destruct Hnew as (task & index & Hh & _ & _ & Hst & _).
    rewrite Hh in Hl. apply lookup_snoc_Some in Hl as [[_ Hl]|[_ <-]]; [done|congruence].
  - destruct (Hreport now r id t Hl Hs) as [[i Hi]|(w & at_ & Hw & Hat & Hreg)].
    + left. by apply (Hsame i).
    + right. exists w, at_. split; [done|]. split; [done|]. unfold registered.
      by destruct (reportTaskResult_heap now r o) as (-> & _).
  - destruct (Hprocess now rnd id t Hl Hs) as [[i Hi]|(w & at_ & Hw & Hat & Hreg)].
    + left. by apply (Hsame i).
    + right. exists w, at_. split; [done|]. split; [done|]. unfold registered.
      by destruct (processQueue_registry_config now rnd o) as [-> _].
  - by left.
Qed.

Lemma assigned_registered_or_unregistered_since (config : PartialConfig) (ops : list Op) :
  forall id t,
  o_heap (run (new_Orchestrator config) ops) !! id = Some t -> t_status t = assigned ->
  exists w at_, t_assignedTo t = Some w /\ t_assignedAt t = Some at_ /\
    (registered (run (new_Orchestrator config) ops) w \/
     unregistered_since config ops id t w).
Proof.
  induction ops as [|op ops IH] using rev_ind; intros id t Hl Hs; [done|].
  rewrite run_snoc in *.
  set (o := run (new_Orchestrator config) ops) in *.
  assert (HI : Inv o) by apply Inv_run, Inv_new.
  assert (HR : RegInv (o_registry o)).
  { apply RegInv_run. intros k w []. }
  destruct (assigned_step_origin o op id t HI HR Hl Hs)
    as [Hold|(w & at_ & Hw & Hat & Hreg)].
  2:{ exists w, at_. auto. }
  destruct (IH id t Hold Hs) as (w & at_ & Hw & Hat & [Hreg|Hsince]).
  - exists w, at_. split; [done|]. split; [done|].
    assert (Hop : op = OpUnregisterWorker w \/ op <> OpUnregisterWorker w).
    { destruct op as [| w' | | | | |]; try (right; discriminate).
      destruct (decide (w' = w)) as [->|Hne]; [by left | right; congruence]. }
    destruct Hop as [->|Hop].
    + right. exists ops, []. done.
    + left. by apply registered_step.
  - exists w, at_. split; [done|]. split; [done|]. right.
    destruct Hsince as (ops1 & ops2 & -> & Hl1 & Hreg1).
    exists ops1, (ops2 ++ [op])%list. split; [|done].
    by rewrite <- app_assoc.
Qed.

(** C6 (amended). After any sequence of operations the active table holds
    exactly the tasks with status [assigned]; each of them has [assignedTo]
    and [assignedAt] set, and [assignedTo] names a worker that is present
    in the registry, unless [unregisterWorker] was called for that worker
    after the task was assigned to it: at a point of the sequence where
    the worker was registered and the task object already was as it is
    now (unregistering a worker leaves the tasks assigned to it as they
    are). *)
Theorem assignment_consistency (config : PartialConfig) (ops : list Op) :
  let o := run (new_Orchestrator config) ops in
  (forall id, in_active o id ->
     exists t, o_heap o !! id = Some t /\ t_status t = assigned) /\
  (forall id t, o_heap o !! id = Some t -> t_status t = assigned ->
     in_active o id /\
     exists w at_, t_assignedTo t = Some w /\ t_assignedAt t = Some at_ /\
       (registered o w \/
        exists ops1 ops2,
          ops = (ops1 ++ OpUnregisterWorker w :: ops2)%list /\
          o_heap (run (new_Orchestrator config) ops1) !! id = Some t /\
          registered (run (new_Orchestrator config) ops1) w)).
Proof.
  intros o. assert (HI : Inv o) by apply Inv_run, Inv_new. split.
  - intros id Hact. destruct (inv_active_live o HI _ Hact) as [t Hl]. exists t.
    split; [done|]. destruct (inv_task o HI _ _ Hl) as [_ Hloc].
    unfold task_located in Hloc. destruct (t_status t); tauto.
  - intros id t Hl Hs. split.
    + destruct (inv_task o HI _ _ Hl) as [_ Hloc]. unfold task_located in Hloc.
      rewrite Hs in Hloc. tauto.
    + apply (assigned_registered_or_unregistered_since config ops id t Hl Hs).
Qed.

(** ** Priority queue order *)

(** The insertion index splits the queue: no entry before it has a
    greater rank than the new task, and the entry at it, if any, has a
    strictly greater rank. *)
Lemma findInsertIndex_split (heap : list Task) (p : Z) (queue : list TaskId) :
  (forall e, In e queue -> is_Some (heap !! e)) ->
  forall i, exists k,
    default (i + length queue)%nat (findInsertIndex heap p queue i) = (i + k)%nat /\
    (k <= length queue)%nat /\
    (forall e te, In e (take k queue) -> heap !! e = Some te ->
                  priorityOrder (t_priority te) <= p) /\
    (forall e te, drop k queue !! 0%nat = Some e -> heap !! e = Some te ->
                  p < priorityOrder (t_priority te)).
Proof.
  induction queue as [|e rest IH]; intros Hlive i; simpl.
  - exists 0%nat. repeat split; try done; lia.
  - destruct (Hlive e) as [te Hte]; [by left|]. rewrite Hte.
    destruct (Z.ltb_spec p (priorityOrder (t_priority te))) as [Hlt|Hge].
    + exists 0%nat. simpl. repeat split; try done; try lia.
      intros e' te' [= <-] Hte'. congruence.
    + destruct (IH (fun e' He' => Hlive e' (or_intror He')) (S i)) as (k & Hk & Hle & Hbefore & Hat).
      exists (S k). simpl. repeat split; try lia.
      * destruct (findInsertIndex heap p rest (S i)); simpl in *; lia.
      * intros e' te' [<-|Hin] Hte'; [congruence | by eapply Hbefore].
      * done.
Qed.

Lemma insertByPriority_position (ref : TaskId) (o : Orchestrator) (task : Task) :
  o_heap o !! ref = Some task ->
  (forall e, in_queue o e -> is_Some (o_heap o !! e)) ->
  exists l1 l2,
    taskQueue o = (l1 ++ l2)%list /\
    taskQueue (insertByPriority ref o) = (l1 ++ ref :: l2)%list /\
    (forall e te, In e l1 -> o_heap o !! e = Some te ->
                  priorityOrder (t_priority te) <= priorityOrder (t_priority task)) /\
    (forall e te, l2 !! 0%nat = Some e -> o_heap o !! e = Some te ->
                  priorityOrder (t_priority task) < priorityOrder (t_priority te)).
Proof.
  intros Hl Hlive. unfold insertByPriority. rewrite Hl. simpl.
  destruct (findInsertIndex_split (o_heap o) (priorityOrder (t_priority task))
              (taskQueue o) Hlive 0) as (k & Hk & Hle & Hbefore & Hat).
  simpl in Hk. rewrite Hk.
  exists (take k (taskQueue o)), (drop k (taskQueue o)).
  split; [by rewrite take_drop|]. split; [done|]. split; done.
Qed.

Lemma queue_before_snoc (heap : list Task) (t : Task) (a b : TaskId) :
  queue_before heap a b -> queue_before (heap ++ [t]) a b.
Proof.
  intros (ta & tb & Ha & Hb & Hab). exists ta, tb.
  split; [by apply lookup_app_l_Some|]. split; [by apply lookup_app_l_Some | done].
Qed.

Lemma queue_before_rank (heap : list Task) (a b : TaskId) (ta tb : Task) :
  queue_before heap a b -> heap !! a = Some ta -> heap !! b = Some tb ->
  priorityOrder (t_priority ta) <= priorityOrder (t_priority tb).
Proof.
  intros (ta' & tb' & Ha & Hb & Hab) Hta Htb.
  assert (ta' = ta) as -> by congruence. assert (tb' = tb) as -> by congruence.
  unfold task_before in Hab. lia.
Qed.

(** Inserting the newest task keeps the queue in (rank, submission) order. *)
Lemma insert_newest_sorted (heap : list Task) (ref : TaskId) (task : Task) (l1 l2 : list TaskId) :
  heap !! ref = Some task ->
  (forall e, In e (l1 ++ l2) -> exists te, heap !! e = Some te /\ (t_id te < t_id task)%nat) ->
  (forall e te, In e l1 -> heap !! e = Some te ->
                priorityOrder (t_priority te) <= priorityOrder (t_priority task)) ->
  (forall e te, l2 !! 0%nat = Some e -> heap !! e = Some te ->
                priorityOrder (t_priority task) < priorityOrder (t_priority te)) ->
  StronglySorted (queue_before heap) (l1 ++ l2) ->
  StronglySorted (queue_before heap) (l1 ++ ref :: l2).
Proof.
  intros Hl Hold Hbefore Hat Hsorted.
  apply StronglySorted_app in Hsorted as (H12 & H1 & H2).
  assert (Hafter : Forall (queue_before heap ref) l2).
  { destruct l2 as [|e0 l2']; [constructor|].
    destruct (Hold e0) as (te0 & Hte0 & _); [apply in_or_app; right; by left|].
    pose proof (Hat e0 te0 eq_refl Hte0) as Hlt.
    apply StronglySorted_cons in H2 as [Hfa _].
    constructor.
    - exists task, te0. unfold task_before. auto.
    - apply List.Forall_forall. intros x Hx.
      destruct (Hold x) as (tx & Htx & _); [apply in_or_app; right; by right|].
      rewrite List.Forall_forall in Hfa.
      pose proof (queue_before_rank heap e0 x te0 tx (Hfa x Hx) Hte0 Htx).
      exists task, tx. unfold task_before. split; [done|]. split; [done|]. lia. }
  apply StronglySorted_app. split; [|split; [done|]].
  - intros x1 x2 Hx1 Hx2. apply elem_of_cons in Hx2 as [->|Hx2]; [|by apply H12].
    apply list_elem_of_In in Hx1.
    destruct (Hold x1) as (t1 & Ht1 & Hid); [apply in_or_app; by left|].
    pose proof (Hbefore x1 t1 Hx1 Ht1). exists t1, task. unfold task_before.
    split; [done|]. split; [done|]. lia.
  - apply StronglySorted_cons. done.
Qed.

(** [submitTask], when it does not refuse, is [insertByPriority] of the
    freshly allocated task object. *)
Lemma submitTask_accepts (now : Z) (s : TaskSubmission) (o : Orchestrator) :
  snd (submitTask now s o) = o \/
  exists task,
    t_id task = length (o_heap o) /\
    t_priority task = default normal (s_priority s) /\
    snd (submitTask now s o) =
      insertByPriority (length (o_heap o)) (with_heap (o_heap o ++ [task]) o).
Proof.
  unfold submitTask.
  destruct (maxQueueSize (o_config o) <=? Z.of_nat (length (taskQueue o))); [by left|].
  right. eexists. split; [|split; [|reflexivity]]; done.
Qed.

Lemma sorted_submitTask (now : Z) (s : TaskSubmission) (o : Orchestrator) :
  Inv o -> StronglySorted (queue_before (o_heap o)) (taskQueue o) ->
  let o' := snd (submitTask now s o) in
  StronglySorted (queue_before (o_heap o')) (taskQueue o') /\
  (o' = o \/
   exists l1 l2 task,
     taskQueue o = (l1 ++ l2)%list /\
     taskQueue o' = (l1 ++ length (o_heap o) :: l2)%list /\
     o_heap o' = (o_heap o ++ [task])%list /\
     t_priority task = default normal (s_priority s) /\
     (forall e te, In e l1 -> o_heap o !! e = Some te ->
                   priorityOrder (t_priority te) <= priorityOrder (t_priority task)) /\
     (forall e te, l2 !! 0%nat = Some e -> o_heap o !! e = Some te ->
                   priorityOrder (t_priority task) < priorityOrder (t_priority te))).
Proof.
  intros HI Hsorted o'.
  destruct (submitTask_accepts now s o) as [Hsame|(task & Hid & Hprio & Heq)]; subst o'.
  { rewrite Hsame. auto. }
  rewrite Heq. set (new := length (o_heap o)) in *.
  set (o1 := with_heap (o_heap o ++ [task]) o).
  assert (Hl : o_heap o1 !! new = Some task) by (simpl; by apply list_lookup_middle).
  assert (Hold : forall e, in_queue o e ->
            exists te, o_heap o !! e = Some te /\ o_heap o1 !! e = Some te /\
                       (t_id te < t_id task)%nat).
  { intros e He. destruct (inv_queue_live o HI _ He) as [te Hte]. exists te.
    split; [done|]. split; [simpl; by apply lookup_app_l_Some|].
    destruct (inv_task o HI _ _ Hte) as [-> _]. rewrite Hid.
    by eapply lookup_lt_Some. }
  destruct (insertByPriority_position new o1 task Hl) as (l1 & l2 & Hq & Hq' & Hbefore & Hat).
  { intros e He. destruct (Hold e He) as (te & _ & Hte & _). by exists te. }
  destruct (insertByPriority_fields new o1) as (Hh & _). rewrite Hh, Hq'. simpl in Hq.
  assert (Hlift : forall e te, In e (l1 ++ l2) -> o_heap o !! e = Some te ->
            o_heap o1 !! e = Some te).
  { intros e te He Hte. simpl. by apply lookup_app_l_Some. }
  split.
  - apply (insert_newest_sorted _ new task); try done.
    + intros e He. rewrite <- Hq in He. destruct (Hold e He) as (te & _ & Hte & Hlt).
      by exists te.
    + rewrite <- Hq. simpl. clear -Hsorted.
      induction Hsorted as [|a l Hs IH Hfa]; constructor; [done|].
      eapply List.Forall_impl; [|exact Hfa]. intros b. apply queue_before_snoc.
  - right. exists l1, l2, task. repeat split; try done.
    + intros e te He Hte. apply (Hbefore e te He). apply Hlift; [|done].
      apply in_or_app. by left.
    + intros e te He Hte. apply (Hat e te He). apply Hlift; [|done].
      apply in_or_app. right. apply list_elem_of_In. by eapply list_elem_of_lookup_2.
Qed.

Lemma sorted_submissions (subs : list (Z * TaskSubmission)) :
  forall o, Inv o -> StronglySorted (queue_before (o_heap o)) (taskQueue o) ->
  StronglySorted (queue_before (o_heap (run o (submit_ops subs))))
                 (taskQueue (run o (submit_ops subs))).
Proof.
  induction subs as [|[now s] subs IH]; intros o HI Hsorted; [done|].
  unfold submit_ops. simpl map. rewrite run_cons. apply IH.
  - by apply (Inv_step o (OpSubmitTask now s)).
  - by apply sorted_submitTask.
Qed.

(** C4. After any sequence of submissions the queue is in (rank,
    submission order) order, the rank being critical 0 < high 1 <
    normal 2 < low 3 and the identifier of a task its position in the
    submission sequence: ranks never decrease along the queue and equal
    ranks are first-in first-out. The next accepted submission goes
    immediately before the first entry of strictly greater rank (after
    every entry of smaller or equal rank). Submitting normal, high, normal,
    critical yields critical, high, first normal, second normal. *)
Theorem priority_queue_order (config : PartialConfig) (subs : list (Z * TaskSubmission)) :
  let o := run (new_Orchestrator config) (submit_ops subs) in
  (forall id t, o_heap o !! id = Some t -> t_id t = id) /\
  StronglySorted (queue_before (o_heap o)) (taskQueue o) /\
  (forall now s,
     let o' := snd (submitTask now s o) in
     o' = o \/
     exists l1 l2 task,
       taskQueue o = (l1 ++ l2)%list /\
       taskQueue o' = (l1 ++ length (o_heap o) :: l2)%list /\
       o_heap o' = (o_heap o ++ [task])%list /\
       t_priority task = default normal (s_priority s) /\
       (forall e te, In e l1 -> o_heap o !! e = Some te ->
                     priorityOrder (t_priority te) <= priorityOrder (t_priority task)) /\
       (forall e te, l2 !! 0%nat = Some e -> o_heap o !! e = Some te ->
                     priorityOrder (t_priority task) < priorityOrder (t_priority te))) /\
  taskQueue scenario3 = [3; 1; 0; 2]%nat.
Proof.
  intros o.
  assert (HI : Inv o) by apply Inv_run, Inv_new.
  assert (Hsorted : StronglySorted (queue_before (o_heap o)) (taskQueue o)).
  { apply sorted_submissions; [apply Inv_new | constructor]. }
  split; [|split; [done|split]].
  - intros id t Hl. by destruct (inv_task o HI _ _ Hl).
  - intros now s. by destruct (sorted_submitTask now s o HI Hsorted).
  - apply scenario3_queue_order.
Qed.

(** ** Timeout sweep *)

(** A report for one task leaves every other task where and as it is. *)
Lemma reportTaskResult_frame (now : Z) (r : TaskResult) (o : Orchestrator) (id : TaskId) :
  Inv o -> r_taskId r <> id ->
  let o' := reportTaskResult now r o in
  o_heap o' !! id = o_heap o !! id /\
  jsmap_get id (activeTasks o') = jsmap_get id (activeTasks o) /\
  jsmap_get id (taskResults o') = jsmap_get id (taskResults o) /\
  (in_queue o' id <-> in_queue o id) /\
  (forall e, In e (o_events o) -> In e (o_events o')).
Proof.
  intros HI Hne.
  destruct (jsmap_get (r_taskId r) (activeTasks o)) as [ref|] eqn:Hg.
  2:{ rewrite (reportTaskResult_unknown _ _ _ Hg). simpl. tauto. }
  destruct (Inv_active_task o _ _ HI Hg) as (-> & _ & _ & task & Hl & _).
  destruct (reportTaskResult_known now r o _ task Hg Hl) as (Ha & Hr & _ & _ & _ & Hcases).
  simpl. rewrite Ha, Hr.
  rewrite jsmap_get_delete_ne by done. rewrite jsmap_get_set_ne by done.
  unfold in_queue.
  destruct Hcases as [(_ & Hh & Hq & He)|[(_ & _ & Hh & [index Hq] & He)|(_ & _ & Hh & Hq & He)]];
    rewrite Hh, Hq, He; rewrite list_lookup_insert_ne by done;
    repeat split; try done; try (intros e Hin; apply in_or_app; by left).
  - rewrite splice_insert_In. intros [?|?]; [congruence | done].
  - rewrite splice_insert_In. auto.
Qed.

Lemma sweep_frame (now : Z) (entries : list (TaskId * TaskId)) (id : TaskId) :
  forall o, Inv o -> (forall e, In e entries -> fst e <> id) ->
  let o' := fold_left (sweep_one now) entries o in
  Inv o' /\
  o_heap o' !! id = o_heap o !! id /\
  jsmap_get id (activeTasks o') = jsmap_get id (activeTasks o) /\
  jsmap_get id (taskResults o') = jsmap_get id (taskResults o) /\
  (in_queue o' id <-> in_queue o id) /\
  (forall e, In e (o_events o) -> In e (o_events o')).
Proof.
  induction entries as [|e entries IH]; intros o HI Hne; simpl; [tauto|].
  assert (Hstep : let o1 := sweep_one now o e in
            Inv o1 /\ o_heap o1 !! id = o_heap o !! id /\
            jsmap_get id (activeTasks o1) = jsmap_get id (activeTasks o) /\
            jsmap_get id (taskResults o1) = jsmap_get id (taskResults o) /\
            (in_queue o1 id <-> in_queue o id) /\
            (forall e, In e (o_events o) -> In e (o_events o1))).
  { split; [by apply Inv_sweep_one|].
    destruct (sweep_one_cases now o e) as [->|(task & at_ & _ & _ & _ & _ & ->)]; [tauto|].
    apply reportTaskResult_frame; [done|]. simpl. apply Hne. by left. }
  destruct Hstep as (HI1 & Hh1 & Ha1 & Hr1 & Hq1 & He1).
  destruct (IH (sweep_one now o e) HI1) as (HI' & Hh & Ha & Hr & Hq & He).
  { intros e' He'. apply Hne. by right. }
  split; [done|]. rewrite Hh, Ha, Hr, Hq. repeat split; try tauto. auto.
Qed.



(** ** Statistics *)

Lemma queuedByStatus_fold (heap : list Task) (queue : list TaskId) :
  (forall ref, In ref queue -> exists t, heap !! ref = Some t /\ t_status t = pending) ->
  forall acc : TaskStatus -> option Z,
  (forall s, s <> pending -> acc s = None) ->
  forall s, s <> pending ->
  fold_left
    (fun acc ref =>
       match heap !! ref with
       | Some t => bump acc (t_status t)
       | None => acc
       end)
    queue acc s = None.
Proof.
  induction queue as [|ref rest IH]; intros Hq acc Hacc s Hs; simpl; [by apply Hacc|].
  apply IH; [intros r Hr; apply Hq; by right| |done].
  destruct (Hq ref) as (t & -> & Hst); [by left|]. rewrite Hst.
  intros s' Hs'. unfold bump. destruct s'; simpl; try done; by apply Hacc.
Qed.

(** C2 (what the code does). [stats().tasks.completed] and
    [stats().tasks.failed] are 0 after every sequence of operations: the
    counts are taken over the pending queue, whose tasks are all
    [pending]. In particular they are 0, not 1, at the end of scenario 1
    (task 0 completed, its result recorded) and of scenario 2 (task 0
    failed after one retry). *)
Theorem stats_completed_failed_are_zero (config : PartialConfig) (ops : list Op) :
  let o := run (new_Orchestrator config) ops in
  (st_completed (st_tasks (stats o)) = 0 /\ st_failed (st_tasks (stats o)) = 0) /\
  ((r_success <$> getTaskResult 0%nat scenario1) = Some true /\
   (t_status <$> o_heap scenario1 !! 0%nat) = Some completed /\
   st_completed (st_tasks (stats scenario1)) = 0) /\
  ((t_status <$> o_heap scenario2 !! 0%nat) = Some failed /\
   st_failed (st_tasks (stats scenario2)) = 0).
Proof.
  intros o. split; [|split].
  - assert (HI : Inv o) by apply Inv_run, Inv_new.
    assert (Hq : forall s, s <> pending -> queuedByStatus o s = None).
    { apply queuedByStatus_fold; [|done].
      intros ref Href. destruct (Inv_queued_task o ref HI Href) as (_ & t & Hl & Hs & _).
      by exists t. }
    unfold stats. cbn [st_tasks st_completed st_failed].
    rewrite (Hq completed), (Hq failed) by discriminate. split; reflexivity.
  - exact scenario1_completed_count.
  - exact (conj (proj1 scenario2_failed_count)
                (proj2 (proj2 (proj2 scenario2_failed_count)))).
Qed.

(* ================================================================== *)
(** * Further properties of the code *)

(** ** WorkerRegistry: membership *)

Lemma jsmap_delete_set_fresh {V : Type} (k : string) (v : V) (m : list (string * V)) :
  jsmap_get k m = None -> jsmap_delete k (jsmap_set k v m) = m.
Proof.
  induction m as [|[k' v'] m IH]; simpl.
  - intros _. by rewrite decide_True.
  - destruct (decide (k' = k)) as [->|Hne]; [done|]. intros Hg. simpl.
    rewrite decide_False by done. f_equal. by apply IH.
Qed.

Lemma jsmap_get_delete_eq {V : Type} (k : string) (m : list (string * V)) :
  NoDup (jsmap_keys m) -> jsmap_get k (jsmap_delete k m) = None.
Proof.
  intros Hnd. apply jsmap_get_None_keys. rewrite (jsmap_keys_delete k m Hnd). tauto.
Qed.

Lemma jsmap_delete_absent {V : Type} (k : string) (m : list (string * V)) :
  jsmap_get k m = None -> jsmap_delete k m = m.
Proof.
  induction m as [|[k' v'] m IH]; simpl; [done|].
  destruct (decide (k' = k)); [done|]. intros Hg. f_equal. by apply IH.
Qed.

Lemma jsmap_keys_set_present {V : Type} (k : string) (v v' : V) (m : list (string * V)) :
  jsmap_get k m = Some v -> jsmap_keys (jsmap_set k v' m) = jsmap_keys m.
Proof.
  induction m as [|[k0 v0] m IH]; simpl; [done|].
  destruct (decide (k0 = k)) as [->|Hne]; simpl; [done|]. intros Hg. f_equal. by apply IH.
Qed.

Lemma jsmap_values_set_fresh {V : Type} (k : string) (v : V) (m : list (string * V)) :
  jsmap_get k m = None -> jsmap_values (jsmap_set k v m) = (jsmap_values m ++ [v])%list.
Proof.
  induction m as [|[k' v'] m IH]; simpl; [done|].
  destruct (decide (k' = k)); [done|]. intros Hg. simpl. f_equal. by apply IH.
Qed.

Lemma set_workers_id (r : WorkerRegistry) : set_workers (workers r) r = r.
Proof. by destruct r. Qed.

Lemma RegWf_step (r : WorkerRegistry) (c : RegistryCall) :
  RegWf r -> RegWf (worker_registry_step r c).
Proof.
  intros [Hnd HR]. destruct c as [now d|workerId|now p|now]; simpl.
  - split; [|by apply RegInv_register]. unfold register.
    destruct (jsmap_get (d_id d) (workers r)); simpl; by apply jsmap_NoDup_set.
  - split; [by apply jsmap_NoDup_delete | by apply (RegInv_unregister workerId)].
  - split; [|by apply RegInv_heartbeat]. unfold heartbeat, updateWorker.
    destruct (jsmap_get (hb_workerId p) (workers r)); simpl; [by apply jsmap_NoDup_set | done].
  - split; [|by apply RegInv_checkWorkerHealth].
    unfold checkWorkerHealth.
    generalize (reg_heartbeatIntervalMs r * reg_missedHeartbeatsThreshold r) as age.
    intros age. generalize (workers r) at 1 as entries. intros entries.
    clear HR. revert r Hnd. induction entries as [|[k w] entries IH]; intros r Hnd; simpl;
      [done|].
    apply IH. destruct (WorkerStatus_eqb (w_status w) offline); [done|].
    destruct (age <? now - w_lastHeartbeat w); [|done].
    unfold updateWorker. destruct (jsmap_get k (workers r)); [|done].
    simpl. by apply jsmap_NoDup_set.
Qed.

Lemma RegWf_calls (calls : list RegistryCall) :
  forall r, RegWf r -> RegWf (fold_left worker_registry_step calls r).
Proof.
  induction calls as [|c calls IH]; intros r Hwf; simpl; [done|].
  apply IH. by apply RegWf_step.
Qed.

(** X1. After any sequence of [register], [unregister], [heartbeat] and
    [checkWorkerHealth] calls on a new registry, no two records share an
    identifier and [get(id)] only ever returns a record whose [id] is
    [id]; [getAll] lists exactly the records that [get] finds. *)
Theorem registry_keyed_by_id (interval threshold : Z) (calls : list RegistryCall) :
  let r := fold_left worker_registry_step calls (new_WorkerRegistry interval threshold) in
  NoDup (map w_id (getAll r)) /\
  (forall id w, get id r = Some w -> w_id w = id) /\
  (forall w, In w (getAll r) <-> get (w_id w) r = Some w).
Proof.
  intros r.
  assert (Hwf : RegWf r).
  { apply RegWf_calls. split; [apply NoDup_nil_2 | intros k w []]. }
  destruct Hwf as [Hnd HR].
  assert (Hids : map w_id (getAll r) = jsmap_keys (workers r)).
  { unfold getAll, jsmap_values, jsmap_keys. rewrite map_map.
    apply map_ext_in. intros [k w] Hin. simpl. by apply HR. }
  split; [by rewrite Hids|]. split.
  - intros id w Hg. apply HR. by apply jsmap_get_Some_In.
  - intros w. unfold getAll, jsmap_values, get. rewrite in_map_iff. split.
    + intros ([k w'] & <- & Hin). simpl. rewrite (HR _ _ Hin). by apply jsmap_In_get.
    + intros Hg. exists (w_id w, w). split; [done|]. by apply jsmap_get_Some_In.
Qed.

(** X2. Registering a worker whose identifier is not in the table and then
    unregistering it gives back the table as it was ([unregister] answers
    [true]); in between, [get] finds the new record, which is [online],
    stamped with the registration time and carries the descriptor. *)
Theorem register_unregister_round_trip (now : Z) (d : WorkerDescriptor) (r : WorkerRegistry)
    (Hfresh : get (d_id d) r = None) :
  let w := fst (register now d r) in
  let r1 := snd (register now d r) in
  get (d_id d) r1 = Some w /\
  w_id w = d_id d /\ w_status w = online /\ w_lastHeartbeat w = now /\
  w_capabilities w = d_capabilities d /\ w_currentLoad w = d_currentLoad d /\
  w_maxLoad w = d_maxLoad d /\
  getAll r1 = (getAll r ++ [w])%list /\
  unregister (d_id d) r1 = (true, r).
Proof.
  unfold get in Hfresh. unfold register. rewrite Hfresh. simpl.
  split; [apply jsmap_get_set_eq|]. repeat split; try done.
  - unfold getAll. simpl. by apply jsmap_values_set_fresh.
  - unfold unregister. simpl. unfold jsmap_has. rewrite jsmap_get_set_eq.
    rewrite jsmap_delete_set_fresh by done. by destruct r.
Qed.

(** X2 on the worker of the scenarios, registered with an empty registry. *)
Lemma register_unregister_round_trip_witness :
  get "w1" (snd (register 1000 (worker_w1 "chat") (new_WorkerRegistry 30000 3)))
    = Some (fst (register 1000 (worker_w1 "chat") (new_WorkerRegistry 30000 3))) /\
  unregister "w1" (snd (register 1000 (worker_w1 "chat") (new_WorkerRegistry 30000 3)))
    = (true, new_WorkerRegistry 30000 3).
Proof.
  destruct (register_unregister_round_trip 1000 (worker_w1 "chat")
              (new_WorkerRegistry 30000 3) eq_refl)
    as (Hget & _ & _ & _ & _ & _ & _ & _ & Hun).
  split; [exact Hget | exact Hun].
Defined.

(** X3. On a registry reached by any sequence of calls, [unregister(id)]
    answers whether [id] was registered; afterwards [get(id)] finds
    nothing, every other worker is found as before, and unregistering an
    unknown identifier leaves the registry as it is. *)
Theorem unregister_removes (interval threshold : Z) (calls : list RegistryCall)
    (workerId : string) :
  let r := fold_left worker_registry_step calls (new_WorkerRegistry interval threshold) in
  let existed := fst (unregister workerId r) in
  let r' := snd (unregister workerId r) in
  (existed = true <-> exists w, get workerId r = Some w) /\
  get workerId r' = None /\
  (forall id, id <> workerId -> get id r' = get id r) /\
  (existed = false -> r' = r).
Proof.
  intros r existed r'.
  assert (Hwf : RegWf r).
  { apply RegWf_calls. split; [apply NoDup_nil_2 | intros k w []]. }
  destruct Hwf as [Hnd _]. subst existed r'. unfold unregister, get, jsmap_has. simpl.
  split; [|split; [|split]].
  - destruct (jsmap_get workerId (workers r)) as [w|]; split; try done; eauto.
    intros [w Hw]. discriminate.
  - by apply jsmap_get_delete_eq.
  - intros id Hne. by apply jsmap_get_delete_ne.
  - destruct (jsmap_get workerId (workers r)) eqn:Hg; [done|]. intros _.
    rewrite jsmap_delete_absent by done. apply set_workers_id.
Qed.

(** X4. A heartbeat for an unknown worker returns nothing and leaves the
    registry unchanged. For a registered worker it returns the record with
    status, load, capacity and capabilities taken from the payload and
    [lastHeartbeat] set to now, its identity, name, endpoint and metadata
    kept; the record is what [get] then finds, at the same place in the
    table, and no other worker changes. *)
Theorem heartbeat_updates_worker (now : Z) (p : HeartbeatPayload) (r : WorkerRegistry) :
  let r' := snd (heartbeat now p r) in
  (get (hb_workerId p) r = None -> heartbeat now p r = (None, r)) /\
  (forall w, get (hb_workerId p) r = Some w ->
     fst (heartbeat now p r) = Some (after_heartbeat now p w) /\
     get (hb_workerId p) r' = Some (after_heartbeat now p w) /\
     jsmap_keys (workers r') = jsmap_keys (workers r)) /\
  (forall id, id <> hb_workerId p -> get id r' = get id r).
Proof.
  unfold heartbeat, updateWorker, get. split; [|split].
  - intros Hg. by rewrite Hg.
  - intros w Hg. rewrite Hg. simpl. split; [done|]. split.
    + apply jsmap_get_set_eq.
    + by eapply jsmap_keys_set_present.
  - intros id Hne. destruct (jsmap_get (hb_workerId p) (workers r)); simpl; [|done].
    by apply jsmap_get_set_ne.
Qed.

(** ** WorkerRegistry: the liveness sweep *)

Lemma jsmap_get_app_fresh {V : Type} (k : string) (v : V) (pre l : list (string * V)) :
  ~ In k (jsmap_keys pre) -> jsmap_get k (pre ++ (k, v) :: l) = Some v.
Proof.
  induction pre as [|[k' v'] pre IH]; simpl; intros Hk.
  - by rewrite decide_True.
  - rewrite decide_False by tauto. apply IH. tauto.
Qed.

Lemma jsmap_set_app_fresh {V : Type} (k : string) (v v' : V) (pre l : list (string * V)) :
  ~ In k (jsmap_keys pre) ->
  jsmap_set k v' (pre ++ (k, v) :: l) = (pre ++ (k, v') :: l)%list.
Proof.
  induction pre as [|[k0 v0] pre IH]; simpl; intros Hk.
  - by rewrite decide_True.
  - rewrite decide_False by tauto. f_equal. apply IH. tauto.
Qed.

Lemma checkWorkerHealth_fold (now age : Z) (l : list (string * WorkerInfo)) :
  forall (pre : list (string * WorkerInfo)) (acc : WorkerRegistry),
  workers acc = (pre ++ l)%list -> NoDup (jsmap_keys (pre ++ l)) ->
  fold_left
    (fun acc e =>
       let '(workerId, worker) := e in
       if WorkerStatus_eqb (w_status worker) offline then acc
       else if age <? now - w_lastHeartbeat worker
            then match updateWorker workerId offline_updates acc with
                 | Some (_, acc') => acc'
                 | None => acc
                 end
            else acc)
    l acc
  = set_workers (pre ++ map (health_mark now age) l) acc.
Proof.
  induction l as [|[k w] l IH]; intros pre acc Hacc Hnd; simpl.
  - rewrite <- Hacc. symmetry. apply set_workers_id.
  - assert (Hk : ~ In k (jsmap_keys pre)).
    { unfold jsmap_keys in Hnd. rewrite map_app in Hnd. simpl in Hnd.
      apply NoDup_app in Hnd as (_ & Hdisj & _). intros Hin.
      apply (Hdisj k); [by apply list_elem_of_In | by left]. }
    assert (Hstep : forall acc' w',
              workers acc' = (pre ++ (k, w') :: l)%list ->
              reg_heartbeatIntervalMs acc' = reg_heartbeatIntervalMs acc ->
              reg_missedHeartbeatsThreshold acc' = reg_missedHeartbeatsThreshold acc ->
              fold_left
                (fun acc e =>
                   let '(workerId, worker) := e in
                   if WorkerStatus_eqb (w_status worker) offline then acc
                   else if age <? now - w_lastHeartbeat worker
                        then match updateWorker workerId offline_updates acc with
                             | Some (_, acc') => acc'
                             | None => acc
                             end
                        else acc)
                l acc'
              = set_workers (pre ++ (k, w') :: map (health_mark now age) l) acc).
    { intros acc' w' Hw Hi Ht.
      rewrite (IH (pre ++ [(k, w')])%list acc').
      - rewrite <- app_assoc. simpl. unfold set_workers. by rewrite Hi, Ht.
      - by rewrite <- app_assoc.
      - rewrite <- app_assoc. simpl. unfold jsmap_keys in *. rewrite !map_app in *.
        simpl in *. done. }
    unfold health_mark at 1. simpl.
    destruct (WorkerStatus_eqb (w_status w) offline); [by apply Hstep|].
    destruct (age <? now - w_lastHeartbeat w); [|by apply Hstep].
    unfold updateWorker. rewrite Hacc, (jsmap_get_app_fresh k w pre l Hk).
    apply Hstep; simpl; [|done|done].
    by apply jsmap_set_app_fresh.
Qed.

Lemma checkWorkerHealth_map (now : Z) (r : WorkerRegistry) :
  NoDup (jsmap_keys (workers r)) ->
  checkWorkerHealth now r = set_workers (map (health_mark now (maxAge r)) (workers r)) r.
Proof.
  intros Hnd. unfold checkWorkerHealth.
  apply (checkWorkerHealth_fold now (maxAge r) (workers r) [] r); done.
Qed.

Lemma health_mark_idempotent (now age : Z) (e : string * WorkerInfo) :
  health_mark now age (health_mark now age e) = health_mark now age e.
Proof.
  destruct e as [k w]. unfold health_mark. simpl.
  destruct (WorkerStatus_eqb (w_status w) offline) eqn:Hoff; simpl; [by rewrite Hoff|].
  destruct (age <? now - w_lastHeartbeat w) eqn:Hage; simpl; [done|].
  by rewrite Hoff, Hage.
Qed.

(** X5. On a registry reached by any sequence of calls, the liveness sweep
    at time [now] turns exactly the workers that are not offline and whose
    last heartbeat is more than [heartbeatInterval * missedThreshold] old
    to [offline], changing nothing else of them, keeps every other record
    and the order of the table; afterwards every worker that is not
    offline has a heartbeat no older than that age, and a second sweep at
    the same time changes nothing. *)
Theorem checkWorkerHealth_marks_stale (interval threshold : Z) (calls : list RegistryCall)
    (now : Z) :
  let r := fold_left worker_registry_step calls (new_WorkerRegistry interval threshold) in
  let r' := checkWorkerHealth now r in
  jsmap_keys (workers r') = jsmap_keys (workers r) /\
  (forall id w, get id r = Some w ->
     get id r' =
       Some (if negb (WorkerStatus_eqb (w_status w) offline)
                && (maxAge r <? now - w_lastHeartbeat w)
             then spread w offline_updates else w)) /\
  (forall id w', get id r' = Some w' -> w_status w' <> offline ->
     now - w_lastHeartbeat w' <= maxAge r) /\
  checkWorkerHealth now r' = r'.
Proof.
  intros r r'.
  assert (Hwf : RegWf r).
  { apply RegWf_calls. split; [apply NoDup_nil_2 | intros k w []]. }
  destruct Hwf as [Hnd _].
  assert (Hr' : r' = set_workers (map (health_mark now (maxAge r)) (workers r)) r)
    by by apply checkWorkerHealth_map.
  assert (Hkeys : jsmap_keys (workers r') = jsmap_keys (workers r)).
  { rewrite Hr'. simpl. unfold jsmap_keys. rewrite map_map. by apply map_ext. }
  assert (Hget : forall id, get id r' =
            (fun w => snd (health_mark now (maxAge r) (id, w))) <$> get id r).
  { intros id. rewrite Hr'. unfold get. simpl. clear.
    induction (workers r) as [|[k w] m IH]; simpl; [done|].
    destruct (decide (k = id)) as [->|Hne]; [done | apply IH]. }
  split; [done|]. split; [|split].
  - intros id w Hg. rewrite Hget, Hg. simpl.
    destruct (WorkerStatus_eqb (w_status w) offline); simpl; [done|].
    by destruct (maxAge r <? now - w_lastHeartbeat w).
  - intros id w' Hg Hoff. rewrite Hget in Hg.
    destruct (get id r) as [w|]; [|done]. simpl in Hg. injection Hg as <-.
    destruct (WorkerStatus_eqb (w_status w) offline) eqn:Hs.
    { exfalso. apply Hoff. by destruct (w_status w). }
    destruct (Z.ltb_spec (maxAge r) (now - w_lastHeartbeat w)); [|done].
    exfalso. by apply Hoff.
  - rewrite checkWorkerHealth_map by by rewrite Hkeys.
    rewrite Hr' at 2. assert (Hage : maxAge r' = maxAge r) by by rewrite Hr'.
    rewrite Hage. rewrite Hr' at 1 2. simpl. unfold set_workers. simpl. f_equal.
    rewrite map_map. apply map_ext. intros e. apply health_mark_idempotent.
Qed.

(** ** WorkerRegistry: statistics *)

Lemma count_status_cons (s : WorkerStatus) (w : WorkerInfo) (ws : list WorkerInfo) :
  count_status s (w :: ws) =
  (if WorkerStatus_eqb (w_status w) s then 1 else 0) + count_status s ws.
Proof.
  unfold count_status. simpl. destruct (WorkerStatus_eqb (w_status w) s); simpl length; lia.
Qed.

Lemma fold_sum_shift (f : WorkerInfo -> Z) (ws : list WorkerInfo) (a : Z) :
  fold_left (fun sum w => sum + f w) ws a = a + fold_left (fun sum w => sum + f w) ws 0.
Proof.
  revert a. induction ws as [|w ws IH]; intros a; simpl; [lia|].
  rewrite (IH (a + f w)), (IH (0 + f w)). lia.
Qed.

(** X6. In [stats()] of any registry the four status counts add up to
    [total], which is the number of workers [getAll] lists; and when no
    worker reports more load than its capacity, [currentLoad] does not
    exceed [totalCapacity]. *)
Theorem registry_stats_partition (r : WorkerRegistry) :
  let s := registry_stats r in
  rs_total s = Z.of_nat (length (getAll r)) /\
  rs_total s = rs_online s + rs_busy s + rs_degraded s + rs_offline s /\
  ((forall w, In w (getAll r) -> w_currentLoad w <= w_maxLoad w) ->
   rs_currentLoad s <= rs_totalCapacity s).
Proof.
  simpl. split; [done|]. split.
  - induction (getAll r) as [|w ws IH]; [done|].
    rewrite !count_status_cons. simpl length. rewrite Nat2Z.inj_succ.
    destruct (w_status w); simpl; lia.
  - induction (getAll r) as [|w ws IH]; [done|]. intros Hle. simpl.
    rewrite (fold_sum_shift w_currentLoad), (fold_sum_shift w_maxLoad).
    pose proof (Hle w (or_introl eq_refl)).
    assert (fold_left (fun sum w => sum + w_currentLoad w) ws 0
            <= fold_left (fun sum w => sum + w_maxLoad w) ws 0).
    { apply IH. intros w' Hw'. apply Hle. by right. }
    lia.
Qed.

(** ** TaskRouter: eligibility and the selection strategies *)

Lemma includes_In (x : string) (l : list string) : includes x l = true <-> In x l.
Proof.
  unfold includes. rewrite existsb_exists. split.
  - intros (y & Hy & Heq). apply String.eqb_eq in Heq. by subst.
  - intros Hin. exists x. split; [done|]. apply String.eqb_refl.
Qed.

Lemma capable_filter (type : string) (w : WorkerInfo) :
  (length (w_capabilities w) =? 0)%nat || includes type (w_capabilities w) = true <->
  accepts type w.
Proof.
  unfold accepts. rewrite orb_true_iff, includes_In, Nat.eqb_eq.
  destruct (w_capabilities w); simpl; split; intros [H|H]; auto; discriminate.
Qed.

(** X7. The eligible workers for a task are available workers; there is an
    eligible worker exactly when there is an available one. For a task
    with a type, when some available worker is a wildcard or lists the
    type, the eligible workers are exactly the available workers that do
    (in table order); when none does, every available worker is eligible. *)
Theorem eligible_workers_characterised (task : Task) (r : WorkerRegistry) :
  let eligible := getEligibleWorkers task r in
  (forall w, In w eligible -> In w (getAvailable r)) /\
  (eligible = [] <-> getAvailable r = []) /\
  (t_type task <> "" ->
   (exists w, In w (getAvailable r) /\ accepts (t_type task) w) ->
   forall w, In w eligible <-> In w (getAvailable r) /\ accepts (t_type task) w) /\
  ((forall w, In w (getAvailable r) -> ~ accepts (t_type task) w) ->
   eligible = getAvailable r).
Proof.
  simpl. unfold getEligibleWorkers.
  set (capable := List.filter _ (getAvailable r)).
  assert (Hcap : forall w, In w capable <-> In w (getAvailable r) /\ accepts (t_type task) w).
  { intros w. subst capable. rewrite filter_In, capable_filter. done. }
  destruct (String.eqb_spec (t_type task) "") as [Hempty|Htype].
  { split; [done|]. split; [done|]. split; [done|]. done. }
  destruct (Nat.ltb_spec 0 (length capable)) as [Hpos|Hzero].
  - split; [intros w Hw; by apply Hcap|]. split; [|split].
    + split; intros Hnil.
      * rewrite Hnil in Hpos. simpl in Hpos. lia.
      * subst capable. rewrite Hnil in Hpos. simpl in Hpos. lia.
    + intros _ _ w. apply Hcap.
    + intros Hnone. destruct capable as [|w0 c] eqn:Hc; [simpl in Hpos; lia|].
      exfalso. assert (Hin : In w0 (w0 :: c)) by by left.
      apply Hcap in Hin as [Hav Hacc]. by apply (Hnone w0).
  - assert (Hnil : capable = []) by (destruct capable; [done | simpl in Hzero; lia]).
    split; [done|]. split; [done|]. split; [|done].
    intros _ (w0 & Hav & Hacc) w. exfalso.
    assert (Hin : In w0 capable) by by apply Hcap. by rewrite Hnil in Hin.
Qed.

Lemma loadRatio_finite (w : WorkerInfo) :
  w_maxLoad w <> 0 -> loadRatio w = Fin (ratio_of w).
Proof.
  intros Hnz. unfold loadRatio, js_div, ratio_of.
  by destruct (Z.eqb_spec (w_maxLoad w) 0).
Qed.

Lemma first_least_loaded_snoc (pre : list WorkerInfo) (best w : WorkerInfo) :
  first_least_loaded pre best ->
  first_least_loaded (pre ++ [w])
    (if Qlt_le_dec (ratio_of w) (ratio_of best) then w else best).
Proof.
  intros (i & Hi & Hmin & Hfirst).
  destruct (Qlt_le_dec (ratio_of w) (ratio_of best)) as [Hlt|Hle].
  - exists (length pre). split; [by apply list_lookup_middle|]. split.
    + intros w' Hw'. apply in_app_or in Hw' as [Hw'|[<-|[]]]; [|apply Qle_refl].
      apply Qlt_le_weak. eapply Qlt_le_trans; [exact Hlt | by apply Hmin].
    + intros j w' Hj Hw'. rewrite lookup_app_l in Hw' by done.
      eapply Qlt_le_trans; [exact Hlt|]. apply Hmin. apply list_elem_of_In.
      by eapply list_elem_of_lookup_2.
  - exists i. split; [by apply lookup_app_l_Some|]. split.
    + intros w' Hw'. apply in_app_or in Hw' as [Hw'|[<-|[]]]; [by apply Hmin | done].
    + intros j w' Hj Hw'. apply (Hfirst j w' Hj).
      rewrite lookup_app_l in Hw'; [done|]. apply lookup_lt_Some in Hi. lia.
Qed.

Lemma least_loaded_fold_first (ws pre : list WorkerInfo) (best : WorkerInfo) :
  (forall w, In w (pre ++ ws) -> w_maxLoad w <> 0) ->
  first_least_loaded pre best ->
  first_least_loaded (pre ++ ws)
    (fold_left
       (fun best worker =>
          let bestRatio := loadRatio best in
          let workerRatio := loadRatio worker in
          if js_lt workerRatio bestRatio then worker else best)
       ws best).
Proof.
  revert pre best. induction ws as [|w ws IH]; intros pre best Hnz Hbest; simpl.
  - by rewrite app_nil_r.
  - assert (Hb : w_maxLoad best <> 0).
    { destruct Hbest as (i & Hi & _). apply Hnz. apply in_or_app. left.
      apply list_elem_of_In. by eapply list_elem_of_lookup_2. }
    assert (Hw : w_maxLoad w <> 0).
    { apply Hnz. apply in_or_app. right. by left. }
    rewrite (loadRatio_finite w Hw), (loadRatio_finite best Hb). simpl.
    replace (pre ++ w :: ws)%list with ((pre ++ [w]) ++ ws)%list
      by (by rewrite <- app_assoc).
    apply IH.
    + intros w' Hw'. apply Hnz. rewrite <- app_assoc in Hw'. done.
    + pose proof (first_least_loaded_snoc pre best w Hbest) as Hs.
      by destruct (Qlt_le_dec (ratio_of w) (ratio_of best)).
Qed.

(** Rounding moves a positive number by at most half a unit in the last
    place. *)
Lemma b64_magnitude_error (x : Q) :
  (0 < x)%Q ->
  (b64_magnitude x - x <= pow2 (b64_exponent x) * (1 # 2))%Q /\
  (x - b64_magnitude x <= pow2 (b64_exponent x) * (1 # 2))%Q.
Proof.
  intros Hx. unfold b64_magnitude. cbv zeta.
  set (qu := pow2 (b64_exponent x)).
  assert (Hq : (0 < qu)%Q) by apply pow2_pos.
  destruct (round_half_even_error (x / qu)) as [H1 H2].
  set (r := inject_Z (round_half_even (x / qu))) in *.
  assert (Hx' : (x == x / qu * qu)%Q).
  { unfold Qdiv. rewrite <- Qmult_assoc, (Qmult_comm (/ qu)), Qmult_inv_r, Qmult_1_r;
      [reflexivity|]. intros H0. rewrite H0 in Hq. by apply Qlt_irrefl in Hq. }
  split.
  - apply Qle_trans with ((r - x / qu) * qu)%Q.
    + apply Qle_lteq. right. rewrite Hx' at 1. ring.
    + rewrite (Qmult_comm qu). apply Qmult_le_compat_r; [done|by apply Qlt_le_weak].
  - apply Qle_trans with ((x / qu - r) * qu)%Q.
    + apply Qle_lteq. right. rewrite Hx' at 1. ring.
    + rewrite (Qmult_comm qu). apply Qmult_le_compat_r; [done|by apply Qlt_le_weak].
Qed.

(** A quotient in [0, 1] is rounded to a double at most [2^-54] away. *)
Lemma b64_ratio_error (x : Q) :
  (0 <= x)%Q -> (x <= 1)%Q ->
  exists q, b64 x = Fin q /\ (x - pow2 (-54) <= q)%Q /\ (q <= x + pow2 (-54))%Q.
Proof.
  intros Hlo Hhi. pose proof (pow2_pos (-54)) as Hp.
  destruct (Q_dec x 0) as [[Hlt|Hgt]|H0]; [lra| |].
  - destruct (Qlt_le_dec x 1) as [Hlt1|Hge1].
    + assert (Hexp : b64_exponent x <= -53).
      { assert (ilog2 x < 0); [|unfold b64_exponent; lia].
        by apply ilog2_lt_pow2. }
      destruct (b64_magnitude_error x Hgt) as [He1 He2].
      assert (Hqu : (pow2 (b64_exponent x) * (1 # 2) <= pow2 (-54))%Q).
      { apply Qle_trans with (pow2 (-53) * (1 # 2))%Q.
        - apply Qmult_le_compat_r; [by apply pow2_le|done].
        - apply Qle_lteq. right. replace (-54) with (-53 + -1) by lia.
          rewrite pow2_add. reflexivity. }
      destruct (b64_unit_interval x Hlo Hhi) as (q & Hq & _).
      exists q. split; [done|].
      rewrite (b64_pos x Hgt) in Hq.
      destruct (Qle_bool (pow2 1024) (b64_magnitude x)); [done|].
      injection Hq as <-. rewrite Qred_correct. split; lra.
    + assert (H1 : (x == 1)%Q) by lra.
      exists 1%Q. split; [by rewrite (b64_comp x 1)|]. split; lra.
  - exists 0%Q. split; [by apply b64_zero|]. split; lra.
Qed.

(** Two different ratios of loads up to [2^26] are at least [2^-52]
    apart. *)
Lemma ratio_gap (a b c d : Z) :
  0 < b <= 2 ^ 26 -> 0 < d <= 2 ^ 26 ->
  (inject_Z a / inject_Z b < inject_Z c / inject_Z d)%Q ->
  (inject_Z a / inject_Z b + pow2 (-52) <= inject_Z c / inject_Z d)%Q.
Proof.
  intros Hb Hd Hlt.
  assert (Hbq : (0 < inject_Z b)%Q) by (apply inject_Z_pos; lia).
  assert (Hdq : (0 < inject_Z d)%Q) by (apply inject_Z_pos; lia).
  assert (Hbnz : ~ (inject_Z b == 0)%Q) by lra.
  assert (Hdnz : ~ (inject_Z d == 0)%Q) by lra.
  assert (Hcross : a * d < c * b).
  { apply Z.nle_gt. intros Hle. apply (Qlt_not_le _ _ Hlt).
    apply Qle_shift_div_r; [done|].
    assert (E : (inject_Z a / inject_Z b * inject_Z d == inject_Z (a * d) / inject_Z b)%Q)
      by (rewrite inject_Z_mult; by field).
    rewrite E. apply Qle_shift_div_l; [done|].
    rewrite <- inject_Z_mult, <- Zle_Qle. lia. }
  assert (Hbd : b * d <= 2 ^ 52) by nia.
  assert (H52 : (pow2 (-52) == / inject_Z (2 ^ 52))%Q) by reflexivity.
  assert (Hpos : (0 < inject_Z (b * d * 2 ^ 52))%Q) by (apply inject_Z_pos; nia).
  assert (El : (inject_Z a / inject_Z b + pow2 (-52)
                == inject_Z (a * d * 2 ^ 52 + b * d) / inject_Z (b * d * 2 ^ 52))%Q).
  { rewrite H52, inject_Z_plus, !inject_Z_mult. field.
    split; [discriminate|by split]. }
  assert (Er : (inject_Z c / inject_Z d
                == inject_Z (c * b * 2 ^ 52) / inject_Z (b * d * 2 ^ 52))%Q).
  { rewrite !inject_Z_mult. field. split; [discriminate|by split]. }
  rewrite El, Er. apply Qdiv_le_compat; [done|]. rewrite <- Zle_Qle. nia.
Qed.

(** For loads up to [2^26] the doubles that the code compares are ordered
    as the exact ratios are. *)
Lemma rounded_ratio_order (a b c d : Z) :
  0 <= a <= b -> 0 < b <= 2 ^ 26 -> 0 <= c <= d -> 0 < d <= 2 ^ 26 ->
  js_lt (b64 (inject_Z a / inject_Z b)) (b64 (inject_Z c / inject_Z d)) =
  js_lt (js_div a b) (js_div c d).
Proof.
  intros Ha Hb Hc Hd.
  assert (Hbq : (0 < inject_Z b)%Q) by (apply inject_Z_pos; lia).
  assert (Hdq : (0 < inject_Z d)%Q) by (apply inject_Z_pos; lia).
  assert (Hunit : forall n m : Z, 0 <= n <= m -> (0 < inject_Z m)%Q ->
            (0 <= inject_Z n / inject_Z m)%Q /\ (inject_Z n / inject_Z m <= 1)%Q).
  { intros n m Hn Hm. split.
    - apply Qle_shift_div_l; [done|]. rewrite Qmult_0_l.
      change 0%Q with (inject_Z 0). rewrite <- Zle_Qle. lia.
    - apply Qle_shift_div_r; [done|]. rewrite Qmult_1_l. rewrite <- Zle_Qle. lia. }
  destruct (Hunit a b Ha Hbq) as [Hx0 Hx1]. destruct (Hunit c d Hc Hdq) as [Hy0 Hy1].
  unfold js_div.
  destruct (Z.eqb_spec b 0) as [|_]; [lia|]. destruct (Z.eqb_spec d 0) as [|_]; [lia|].
  set (x := (inject_Z a / inject_Z b)%Q) in *. set (y := (inject_Z c / inject_Z d)%Q) in *.
  assert (H52 : (pow2 (-52) == pow2 (-54) * 4)%Q) by reflexivity.
  pose proof (pow2_pos (-54)) as Hp.
  destruct (Q_dec x y) as [[Hlt|Hgt]|Heq].
  - pose proof (ratio_gap a b c d Hb Hd Hlt) as Hgap. fold x y in Hgap.
    destruct (b64_ratio_error x Hx0 Hx1) as (p & -> & _ & Hp2).
    destruct (b64_ratio_error y Hy0 Hy1) as (q & -> & Hq1 & _).
    cbn [js_lt]. destruct (Qlt_le_dec p q); [|lra]. destruct (Qlt_le_dec x y); [done|lra].
  - pose proof (ratio_gap c d a b Hd Hb Hgt) as Hgap. fold x y in Hgap.
    destruct (b64_ratio_error x Hx0 Hx1) as (p & -> & Hp1 & _).
    destruct (b64_ratio_error y Hy0 Hy1) as (q & -> & _ & Hq2).
    cbn [js_lt]. destruct (Qlt_le_dec p q); [lra|]. destruct (Qlt_le_dec x y); [lra|done].
  - rewrite (b64_comp x y Heq).
    destruct (b64_ratio_error y Hy0 Hy1) as (q & -> & _).
    cbn [js_lt]. destruct (Qlt_le_dec q q) as [Hqq|_]; [by apply Qlt_irrefl in Hqq|].
    destruct (Qlt_le_dec x y); [lra|done].
Qed.

(** X8. Least-loaded selection over available workers with loads up to
    [2^26] returns the worker with the least [currentLoad / maxLoad], and
    among workers that tie for the least ratio the one that comes first.
    (For such loads the rounding of the quotients to doubles changes no
    comparison.) *)
Theorem selectLeastLoaded_first_minimum (ws : list WorkerInfo)
    (Hnonempty : ws <> [])
    (Hload : forall w, In w ws ->
               0 <= w_currentLoad w < w_maxLoad w /\ w_maxLoad w <= 2 ^ 26) :
  (exists best, selectLeastLoaded ws = Some best /\ first_least_loaded ws best) /\
  (forall w w', In w ws -> In w' ws ->
     js_lt (b64 (ratio_of w)) (b64 (ratio_of w')) = js_lt (loadRatio w) (loadRatio w')).
Proof.
  split.
  - destruct ws as [|w0 ws]; [done|]. eexists. split; [reflexivity|].
    apply (least_loaded_fold_first ws [w0] w0).
    + intros w Hw. specialize (Hload w Hw). lia.
    + exists 0%nat. split; [done|]. split.
      * intros w [<-|[]]. apply Qle_refl.
      * intros j w Hj. lia.
  - intros w w' Hw Hw'. apply Hload in Hw, Hw'.
    unfold ratio_of, loadRatio. apply rounded_ratio_order; lia.
Qed.

(** X8 on three workers with the ratios 1/2, 0/2 and 0/4: the selection
    is the first of the two idle ones. *)
Lemma selectLeastLoaded_first_minimum_witness :
  exists best,
    selectLeastLoaded
      [mkWorkerInfo "w1" "W1" "h1" online 0 [] 1 2 None;
       mkWorkerInfo "w2" "W2" "h2" online 0 [] 0 2 None;
       mkWorkerInfo "w3" "W3" "h3" online 0 [] 0 4 None] = Some best /\
    first_least_loaded
      [mkWorkerInfo "w1" "W1" "h1" online 0 [] 1 2 None;
       mkWorkerInfo "w2" "W2" "h2" online 0 [] 0 2 None;
       mkWorkerInfo "w3" "W3" "h3" online 0 [] 0 4 None] best.
Proof.
  apply (selectLeastLoaded_first_minimum
           [mkWorkerInfo "w1" "W1" "h1" online 0 [] 1 2 None;
            mkWorkerInfo "w2" "W2" "h2" online 0 [] 0 2 None;
            mkWorkerInfo "w3" "W3" "h3" online 0 [] 0 4 None]).
  - discriminate.
  - intros w [<-|[<-|[<-|[]]]]; simpl; lia.
Defined.

(** X9. Under the capability-match strategy, whenever some eligible worker
    lists the task type explicitly, the routed worker is one that lists it
    explicitly: a wildcard worker is chosen only when no eligible worker
    names the type. *)
Theorem capability_match_prefers_explicit (rr : nat) (u : Q) (task : Task)
    (r : WorkerRegistry) (a : TaskAssignment) :
  fst (route (mkRouter capability_match rr) u task r) = Some a ->
  exists w, In w (getEligibleWorkers task r) /\ a_workerId a = w_id w /\
    ((exists w', In w' (getEligibleWorkers task r) /\ In (t_type task) (w_capabilities w')) ->
     In (t_type task) (w_capabilities w)).
Proof.
  unfold route. set (ws := getEligibleWorkers task r).
  destruct (length ws =? 0)%nat eqn:Hlen; [done|].
  unfold selectWorker. rewrite Hlen. simpl.
  destruct (selectByCapability ws task) as [w|] eqn:Hsel; [|done].
  simpl. intros [= <-]. exists w. unfold selectByCapability in Hsel.
  set (exact := List.filter (fun w => includes (t_type task) (w_capabilities w)) ws) in *.
  destruct (Nat.ltb_spec 0 (length exact)) as [Hpos|Hzero].
  - assert (Hin : In w exact).
    { destruct exact as [|e0 es]; [done|]. injection Hsel as <-.
      apply least_loaded_fold_In. }
    apply filter_In in Hin as [Hin Hinc]. split; [done|]. split; [done|].
    intros _. by apply includes_In.
  - split; [|split; [done|]].
    + destruct ws as [|w0 ws']; [done|]. injection Hsel as <-. apply least_loaded_fold_In.
    + intros (w' & Hw' & Hcap). exfalso.
      assert (Hin : In w' exact) by (apply filter_In; split; [done | by apply includes_In]).
      destruct exact; [done | simpl in Hzero; lia].
Qed.

(** Scenario 4 as an instance of X9: W1 lists "chat", W2 is a wildcard, the
    task type is "code"; the task goes to W2. *)
Lemma capability_match_prefers_explicit_witness :
  exists w,
    In w (getEligibleWorkers
            (mkTask 0%nat "code" "{}" normal pending 0 None None None None None 0 0 1)
            (mkRegistry
               [("w1", mkWorkerInfo "w1" "W1" "h1" online 0 ["chat"] 0 2 None);
                ("w2", mkWorkerInfo "w2" "W2" "h2" online 0 [] 0 2 None)]
               30000 3)) /\
    "w2" = w_id w.
Proof.
  destruct (capability_match_prefers_explicit 0 0
              (mkTask 0%nat "code" "{}" normal pending 0 None None None None None 0 0 1)
              (mkRegistry
                 [("w1", mkWorkerInfo "w1" "W1" "h1" online 0 ["chat"] 0 2 None);
                  ("w2", mkWorkerInfo "w2" "W2" "h2" online 0 [] 0 2 None)]
                 30000 3)
              (mkTaskAssignment 0%nat "w2"))
    as (w & Hin & Hid & _).
  - vm_compute. reflexivity.
  - exists w. split; [exact Hin | exact Hid].
Defined.

Lemma route_round_robin (rr : nat) (u : Q) (task : Task) (r : WorkerRegistry) :
  let eligible := getEligibleWorkers task r in
  let n := length eligible in
  (eligible = [] ->
   route (mkRouter round_robin rr) u task r = (None, mkRouter round_robin rr)) /\
  (eligible <> [] ->
   exists w, eligible !! (rr mod n)%nat = Some w /\
     route (mkRouter round_robin rr) u task r =
       (Some (mkTaskAssignment (t_id task) (w_id w)),
        mkRouter round_robin ((rr + 1) mod n)%nat)).
Proof.
  simpl. unfold route. set (ws := getEligibleWorkers task r). split.
  - intros ->. done.
  - intros Hne. destruct (Nat.eqb_spec (length ws) 0) as [Hz|_]; [by destruct ws|].
    unfold selectWorker. destruct (Nat.eqb_spec (length ws) 0) as [Hz|_]; [by destruct ws|].
    simpl. unfold selectRoundRobin.
    destruct (ws !! (rr mod length ws)%nat) as [w|] eqn:Hw.
    + by exists w.
    + apply lookup_ge_None in Hw.
      assert ((rr mod length ws < length ws)%nat)
        by (apply Nat.mod_upper_bound; by destruct ws).
      lia.
Qed.

(** X10. Under round-robin, successive routing decisions for a task over an
    unchanged registry walk the eligible workers cyclically in table
    order: the [j]-th decision picks the eligible worker at position
    [(index + j) mod n], [n] being the number of eligible workers; with no
    eligible worker every decision is "no assignment". *)
Theorem round_robin_cycles (k : nat) (rnd : nat -> Q) (task : Task) (r : WorkerRegistry) :
  forall (rr i : nat),
  let eligible := getEligibleWorkers task r in
  let n := length eligible in
  let decisions := fst (route_times k (mkRouter round_robin rr) rnd i task r) in
  length decisions = k /\
  (eligible = [] -> forall j, (j < k)%nat -> decisions !! j = Some None) /\
  (eligible <> [] -> forall j, (j < k)%nat ->
     exists w, eligible !! ((rr + j) mod n)%nat = Some w /\
       decisions !! j = Some (Some (mkTaskAssignment (t_id task) (w_id w)))).
Proof.
  induction k as [|k IH]; intros rr i; simpl.
  { split; [done|]. split; intros; lia. }
  destruct (route_round_robin rr (rnd i) task r) as [Hempty Hsome].
  assert (Hdec : getEligibleWorkers task r = [] \/ getEligibleWorkers task r <> []).
  { destruct (getEligibleWorkers task r); [by left | by right]. }
  destruct Hdec as [Hnil|Hne].
  - rewrite (Hempty Hnil). specialize (IH rr (S i)). simpl in IH.
    destruct (route_times k (mkRouter round_robin rr) rnd (S i) task r) as [rest rt2].
    simpl in *. destruct IH as (Hlen & Hnone & _).
    split; [by rewrite Hlen|]. split; [|done].
    intros _ [|j] Hj; simpl; [done|]. apply Hnone; [done | lia].
  - destruct (Hsome Hne) as (w & Hw & Hroute). rewrite Hroute.
    specialize (IH ((rr + 1) mod length (getEligibleWorkers task r))%nat (S i)).
    simpl in IH.
    destruct (route_times k _ rnd (S i) task r) as [rest rt2].
    simpl in *. destruct IH as (Hlen & _ & Hcycle).
    split; [by rewrite Hlen|]. split; [done|].
    intros _ [|j] Hj; simpl.
    + exists w. by rewrite Nat.add_0_r.
    + destruct (Hcycle Hne j) as (w' & Hw' & Hd); [lia|].
      exists w'. split; [|done].
      rewrite Nat.Div0.add_mod_idemp_l in Hw'.
      by replace (rr + S j)%nat with (rr + 1 + j)%nat by lia.
Qed.

(** ** ExponentialBackoff: iteration and totals *)

Lemma calculateDelay_config (b b' : ExponentialBackoff) (u : Q) (n : Z) :
  baseDelayMs b' = baseDelayMs b -> maxDelayMs b' = maxDelayMs b -> jitter b' = jitter b ->
  calculateDelay b' u n = calculateDelay b u n.
Proof. intros Hb Hm Hj. unfold calculateDelay. by rewrite Hb, Hm, Hj. Qed.

(** X11. [k] successive calls of [next()] return the delays of the
    attempts that are left, [calculateDelay(attempt)],
    [calculateDelay(attempt + 1)], ... up to attempt [maxAttempts - 1],
    and [null] from then on; the attempt counter stops at [maxAttempts]
    (it is left alone if it is already there or beyond), and the
    configuration is never changed. *)
Theorem next_yields_remaining_attempts (k : nat) (rnd : nat -> Q) :
  forall (i : nat) (b : ExponentialBackoff),
  let results := fst (next_times k rnd i b) in
  let b' := snd (next_times k rnd i b) in
  length results = k /\
  (forall j, (j < k)%nat ->
     results !! j =
       Some (if attempt b + Z.of_nat j <? maxAttempts b
             then Some (calculateDelay b (rnd (i + j)%nat) (attempt b + Z.of_nat j))
             else None)) /\
  attempt b' = Z.max (attempt b) (Z.min (attempt b + Z.of_nat k) (maxAttempts b)) /\
  baseDelayMs b' = baseDelayMs b /\ maxDelayMs b' = maxDelayMs b /\
  jitter b' = jitter b /\ maxAttempts b' = maxAttempts b.
Proof.
  induction k as [|k IH]; intros i b.
  { simpl. split; [done|]. split; [intros; lia|]. split; [lia | done]. }
  cbn [next_times]. destruct (next b (rnd i)) as [d b1] eqn:Hnext.
  specialize (IH (S i) b1). destruct (next_times k rnd (S i) b1) as [ds b2].
  cbn [fst snd] in *. destruct IH as (Hlen & Hres & Hatt & Hb & Hm & Hj & Hma).
  unfold next in Hnext.
  destruct (Z.leb_spec (maxAttempts b) (attempt b)) as [Hdone|Hmore];
    injection Hnext as <- <-; cbn [attempt baseDelayMs maxDelayMs jitter maxAttempts] in *.
  - split; [simpl; by rewrite Hlen|]. split; [|split; [lia | done]].
    intros j Hlt; rewrite lookup_cons; destruct j as [|j].
    + rewrite Z.add_0_r. by destruct (Z.ltb_spec (attempt b) (maxAttempts b)); [lia|].
    + rewrite (Hres j) by lia.
      destruct (Z.ltb_spec (attempt b + Z.of_nat j) (maxAttempts b)); [lia|].
      by destruct (Z.ltb_spec (attempt b + Z.of_nat (S j)) (maxAttempts b)); [lia|].
  - split; [simpl; by rewrite Hlen|]. split; [|split; [lia | done]].
    intros j Hlt; rewrite lookup_cons; destruct j as [|j].
    + rewrite Z.add_0_r, Nat.add_0_r.
      by destruct (Z.ltb_spec (attempt b) (maxAttempts b)); [|lia].
    + rewrite (Hres j) by lia.
      replace (attempt b + 1 + Z.of_nat j) with (attempt b + Z.of_nat (S j)) by lia.
      replace (S i + j)%nat with (i + S j)%nat by lia.
      destruct (attempt b + Z.of_nat (S j) <? maxAttempts b); [|done].
      by rewrite (calculateDelay_config b).
Qed.

Lemma capped_total_grows (base max : Z) (l : list nat) :
  0 <= base -> 0 <= max -> forall a,
  a <= fold_left (fun total i => total + Z.min max (base * 2 ^ Z.of_nat i)) l a.
Proof.
  intros Hb Hm. induction l as [|i l IH]; intros a; simpl; [done|].
  etrans; [|apply IH]. assert (0 <= base * 2 ^ Z.of_nat i).
  { apply Z.mul_nonneg_nonneg; [done|]. apply Z.pow_nonneg. lia. }
  lia.
Qed.

(** The loop of [calculateTotalBackoffTime] adds integers without
    rounding as long as the sum stays below [2^53]. *)
Lemma total_fold (b : ExponentialBackoff) (rnd : nat -> Q) (l : list nat) :
  (jitter b == 0)%Q -> 0 <= baseDelayMs b -> 0 <= maxDelayMs b ->
  is_double (baseDelayMs b) -> is_double (maxDelayMs b) ->
  (forall i, (0 <= rnd i)%Q /\ (rnd i < 1)%Q) ->
  (forall i, In i l -> baseDelayMs b = 0 -> Z.of_nat i < 1024) ->
  forall a, 0 <= a ->
  fold_left (fun total i => total + Z.min (maxDelayMs b) (baseDelayMs b * 2 ^ Z.of_nat i))
            l a < 2 ^ 53 ->
  fold_left (fun total i => js_add total (calculateDelay b (rnd i) (Z.of_nat i)))
            l (Fin (inject_Z a)) =
  Fin (inject_Z (fold_left (fun total i =>
                   total + Z.min (maxDelayMs b) (baseDelayMs b * 2 ^ Z.of_nat i)) l a)).
Proof.
  intros Hj Hb Hm Hbd Hmd Hrnd. induction l as [|i l IH]; intros Hsmall a Ha Hlt; [done|].
  cbn [fold_left] in *.
  assert (Hd : 0 <= Z.min (maxDelayMs b) (baseDelayMs b * 2 ^ Z.of_nat i)).
  { assert (0 <= baseDelayMs b * 2 ^ Z.of_nat i); [|lia].
    apply Z.mul_nonneg_nonneg; [done|]. apply Z.pow_nonneg. lia. }
  rewrite (calculateDelay_jitter_free b (rnd i) (Z.of_nat i)) by (done || lia).
  assert (Hcase : (baseDelayMs b =? 0) && (1024 <=? Z.of_nat i) = false).
  { destruct (Z.eqb_spec (baseDelayMs b) 0) as [H0|]; [|done].
    assert (Z.of_nat i < 1024) by (apply Hsmall; [by left|done]).
    by destruct (Z.leb_spec 1024 (Z.of_nat i)); [lia|]. }
  rewrite Hcase. cbn [js_add]. rewrite <- inject_Z_plus.
  pose proof (capped_total_grows (baseDelayMs b) (maxDelayMs b) l Hb Hm
                (a + Z.min (maxDelayMs b) (baseDelayMs b * 2 ^ Z.of_nat i))) as Hgrow.
  rewrite (b64_integer (a + Z.min (maxDelayMs b) (baseDelayMs b * 2 ^ Z.of_nat i))) by lia.
  apply IH; [|lia|done]. intros i' Hi'. apply Hsmall. by right.
Qed.

Lemma b64_le_integer (x : Q) (s : Z) :
  (0 <= x)%Q -> (x <= inject_Z s)%Q -> s < 2 ^ 53 ->
  exists q, b64 x = Fin q /\ (0 <= q)%Q /\ (q <= inject_Z s)%Q.
Proof.
  intros Hlo Hhi Hs. destruct (Q_dec x 0) as [[Hlt|Hgt]|H0].
  - lra.
  - assert (Hs53 : (inject_Z s < pow2 53)%Q).
    { rewrite (pow2_Z 53) by lia. by rewrite <- Zlt_Qlt. }
    assert (Hm : (b64_magnitude x <= inject_Z s)%Q).
    { apply (b64_magnitude_le x (inject_Z s) s 0); [done|done| |].
      - change (pow2 0) with 1%Q. ring.
      - assert (ilog2 x < 53); [|unfold b64_exponent; lia].
        apply ilog2_lt_pow2; [done|]. by eapply Qle_lt_trans. }
    pose proof (b64_magnitude_nonneg x Hgt) as Hnn.
    assert (Hmax : (pow2 53 < pow2 1024)%Q) by (apply pow2_lt; lia).
    rewrite (b64_pos x Hgt).
    destruct (Qle_bool (pow2 1024) (b64_magnitude x)) eqn:Hle.
    { apply Qle_bool_iff in Hle. lra. }
    eexists. split; [reflexivity|]. rewrite Qred_correct. by split.
  - rewrite (b64_zero x H0). exists 0%Q. split; [done|]. split; [lra|]. by rewrite <- H0.
Qed.

Lemma b64_ge_integer (x : Q) (s : Z) :
  (inject_Z s <= x)%Q -> (x <= pow2 54)%Q -> 0 <= s < 2 ^ 53 ->
  exists q, b64 x = Fin q /\ (inject_Z s <= q)%Q.
Proof.
  intros Hlo Hhi Hs.
  assert (Hs0 : (0 <= inject_Z s)%Q).
  { change 0%Q with (inject_Z 0). rewrite <- Zle_Qle. lia. }
  destruct (Q_dec x 0) as [[Hlt|Hgt]|H0].
  - lra.
  - assert (Hfin : (b64_magnitude x <= pow2 54)%Q).
    { apply b64_magnitude_le_pow2; [done|done|lia]. }
    assert (Hmax : (pow2 54 < pow2 1024)%Q) by (apply pow2_lt; lia).
    assert (Hm : (inject_Z s <= b64_magnitude x)%Q).
    { destruct (Qlt_le_dec x (pow2 53)) as [Hsmall|Hbig].
      - apply (b64_magnitude_ge x (inject_Z s) s 0); [done|done| |].
        + change (pow2 0) with 1%Q. ring.
        + assert (ilog2 x < 53); [|unfold b64_exponent; lia].
          by apply ilog2_lt_pow2.
      - apply Qle_trans with (pow2 53).
        + rewrite (pow2_Z 53) by lia. rewrite <- Zle_Qle. lia.
        + apply b64_magnitude_ge_pow2; [done|lia]. }
    rewrite (b64_pos x Hgt).
    destruct (Qle_bool (pow2 1024) (b64_magnitude x)) eqn:Hle.
    { apply Qle_bool_iff in Hle. lra. }
    eexists. split; [reflexivity|]. by rewrite Qred_correct.
  - rewrite (b64_zero x H0). exists 0%Q. split; [done|]. by rewrite <- H0.
Qed.

Lemma Math_round_le (q : Q) (s : Z) :
  (q <= inject_Z s)%Q -> exists lo, Math_round (Fin q) = Fin (inject_Z lo) /\ lo <= s.
Proof.
  intros Hle. eexists. split; [reflexivity|].
  assert (Hf : Qfloor (inject_Z s + (1 # 2)) = s).
  { pose proof (Math_round_integer s) as Hr. unfold Math_round in Hr.
    injection Hr as Hr. exact Hr. }
  rewrite <- Hf at 1. apply Qfloor_resp_le. lra.
Qed.

Lemma Math_round_ge (q : Q) (s : Z) :
  (inject_Z s <= q)%Q -> exists hi, Math_round (Fin q) = Fin (inject_Z hi) /\ s <= hi.
Proof.
  intros Hle. eexists. split; [reflexivity|].
  assert (Hf : Qfloor (inject_Z s + (1 # 2)) = s).
  { pose proof (Math_round_integer s) as Hr. unfold Math_round in Hr.
    injection Hr as Hr. exact Hr. }
  rewrite <- Hf at 1. apply Qfloor_resp_le. lra.
Qed.

(** X13. [calculateTotalBackoffTime(attempts, options)] forces the jitter
    to 0 for the sum. With integer delays (a non-negative [baseDelayMs],
    and at most 1024 attempts if it is 0, since [0 * 2^1024] is [NaN]), a
    jitter option in [0, 1], [Math.random()] in [0, 1) and a sum of the
    capped delays [min(maxDelayMs, baseDelayMs * 2^i)], [i < attempts],
    below [2^53], the reported [expected] is exactly that sum, and the
    reported [min] and [max] are integers that bracket it. *)
Theorem total_backoff_time (attempts : Z) (options : BackoffOptions) (rnd : nat -> Q)
    (Hbase : 0 <= default DEFAULT_BASE_DELAY (opt_baseDelayMs options))
    (Hzero : default DEFAULT_BASE_DELAY (opt_baseDelayMs options) = 0 -> attempts <= 1024)
    (Hmax : 0 <= default DEFAULT_MAX_DELAY (opt_maxDelayMs options))
    (Hbase_double : is_double (default DEFAULT_BASE_DELAY (opt_baseDelayMs options)))
    (Hmax_double : is_double (default DEFAULT_MAX_DELAY (opt_maxDelayMs options)))
    (Hjitter : (0 <= default DEFAULT_JITTER (opt_jitter options))%Q /\
               (default DEFAULT_JITTER (opt_jitter options) <= 1)%Q)
    (Hrandom : forall i, (0 <= rnd i)%Q /\ (rnd i < 1)%Q)
    (Hexact : capped_delays_total (default DEFAULT_BASE_DELAY (opt_baseDelayMs options))
                (default DEFAULT_MAX_DELAY (opt_maxDelayMs options)) attempts < 2 ^ 53) :
  let total := capped_delays_total (default DEFAULT_BASE_DELAY (opt_baseDelayMs options))
                 (default DEFAULT_MAX_DELAY (opt_maxDelayMs options)) attempts in
  let t := calculateTotalBackoffTime attempts options rnd in
  bt_expected t = Fin (inject_Z total) /\
  exists lo hi, bt_min t = Fin (inject_Z lo) /\ bt_max t = Fin (inject_Z hi) /\
                lo <= total <= hi.
Proof.
  intros total t. subst t. unfold calculateTotalBackoffTime. cbv zeta.
  cbn [bt_expected bt_min bt_max].
  set (b := new_ExponentialBackoff _).
  set (base := default DEFAULT_BASE_DELAY (opt_baseDelayMs options)) in *.
  set (max := default DEFAULT_MAX_DELAY (opt_maxDelayMs options)) in *.
  set (j := default DEFAULT_JITTER (opt_jitter options)) in *.
  destruct Hjitter as [Hj0 Hj1].
  assert (Hfold :
    fold_left (fun total i => js_add total (calculateDelay b (rnd i) (Z.of_nat i)))
              (seq 0 (Z.to_nat attempts)) (Fin (inject_Z 0)) = Fin (inject_Z total)).
  { apply (total_fold b rnd (seq 0 (Z.to_nat attempts))); try done.
    intros i Hi H0. apply in_seq in Hi. specialize (Hzero H0). lia. }
  change (Fin 0) with (Fin (inject_Z 0)). rewrite Hfold. clear Hfold.
  assert (Ht0 : 0 <= total).
  { apply (capped_total_grows base max (seq 0 (Z.to_nat attempts)) Hbase Hmax 0). }
  assert (Htq : (0 <= inject_Z total)%Q).
  { change 0%Q with (inject_Z 0). by rewrite <- Zle_Qle. }
  split; [done|].
  destruct (b64_unit_interval (1 + - j)) as (f & Hf & Hf0 & Hf1); [lra|lra|].
  destruct (b64_bounded (1 + j) 1) as (g & Hg & _ & Hg2).
  { change (pow2 1) with 2%Q. lra. }
  { change (pow2 1) with 2%Q. lra. }
  { lia. }
  change (pow2 1) with 2%Q in Hg2.
  destruct (b64_ge_integer (1 + j) 1) as (g' & Hg' & Hg1).
  { change (inject_Z 1) with 1%Q. lra. }
  { apply Qle_trans with 2%Q; [lra|]. change 2%Q with (pow2 1). apply pow2_le. lia. }
  { lia. }
  rewrite Hg in Hg'. injection Hg' as <-. change (inject_Z 1) with 1%Q in Hg1.
  unfold js_sub, js_neg, js_add. rewrite Hf, Hg. unfold js_mul.
  assert (Hlow : (inject_Z total * f <= inject_Z total)%Q).
  { rewrite <- (Qmult_1_r (inject_Z total)) at 2.
    rewrite !(Qmult_comm (inject_Z total)). by apply Qmult_le_compat_r. }
  assert (Hlow0 : (0 <= inject_Z total * f)%Q) by by apply Qmult_le_0_compat.
  assert (Hhigh : (inject_Z total <= inject_Z total * g)%Q).
  { rewrite <- (Qmult_1_r (inject_Z total)) at 1.
    rewrite !(Qmult_comm (inject_Z total)). by apply Qmult_le_compat_r. }
  assert (Hhigh2 : (inject_Z total * g <= pow2 54)%Q).
  { apply Qle_trans with (inject_Z total * 2)%Q.
    - rewrite !(Qmult_comm (inject_Z total)). by apply Qmult_le_compat_r.
    - rewrite (pow2_Z 54) by lia. change 2%Q with (inject_Z 2).
      rewrite <- inject_Z_mult, <- Zle_Qle. lia. }
  destruct (b64_le_integer (inject_Z total * f) total Hlow0 Hlow Hexact) as (p & -> & _ & Hp).
  destruct (b64_ge_integer (inject_Z total * g) total Hhigh Hhigh2) as (q & -> & Hq); [lia|].
  destruct (Math_round_le p total Hp) as (lo & -> & Hlo).
  destruct (Math_round_ge q total Hq) as (hi & -> & Hhi).
  exists lo, hi. done.
Qed.

(** X13 at the default options, three attempts: 1000 + 2000 + 4000, with
    the jitter 0.1 the bounds are 6300 and 7700. *)
Lemma total_backoff_time_witness :
  bt_expected (calculateTotalBackoffTime 3 (mkBackoffOptions None None None None) no_random)
    = Fin 7000 /\
  exists lo hi,
    bt_min (calculateTotalBackoffTime 3 (mkBackoffOptions None None None None) no_random)
      = Fin (inject_Z lo) /\
    bt_max (calculateTotalBackoffTime 3 (mkBackoffOptions None None None None) no_random)
      = Fin (inject_Z hi) /\
    lo <= 7000 <= hi.
Proof.
  apply (total_backoff_time 3 (mkBackoffOptions None None None None) no_random).
  - simpl. unfold DEFAULT_BASE_DELAY. lia.
  - simpl. unfold DEFAULT_BASE_DELAY. lia.
  - simpl. unfold DEFAULT_MAX_DELAY. lia.
  - vm_compute. reflexivity.
  - vm_compute. reflexivity.
  - split; vm_compute; discriminate.
  - intros i. split; [discriminate | reflexivity].
  - vm_compute. reflexivity.
Defined.

(** ** [withRetry] *)

Lemma withRetry_loop_settles {T E : Type} (fn : nat -> Settled T E)
    (shouldRetry : E -> bool) (rnd : nat -> Q) (b0 : ExponentialBackoff) :
  forall (fuel calls : nat) (backoff : ExponentialBackoff) (notices : list (RetryNotice E)),
  baseDelayMs backoff = baseDelayMs b0 -> maxDelayMs backoff = maxDelayMs b0 ->
  jitter backoff = jitter b0 -> maxAttempts backoff = maxAttempts b0 ->
  attempt backoff = Z.of_nat calls ->
  length notices = calls ->
  (Z.to_nat (maxAttempts b0 - Z.of_nat calls) < fuel)%nat ->
  exists run last,
    withRetry_loop fuel fn shouldRetry rnd calls backoff notices = Some run /\
    rr_calls run = S last /\ (calls <= last)%nat /\
    rr_settled run = fn last /\
    length (rr_notices run) = last /\
    (forall i, (i < calls)%nat -> rr_notices run !! i = notices !! i) /\
    (forall i, (calls <= i < last)%nat ->
       exists e, fn i = Rejected e /\ shouldRetry e = true /\
         Z.of_nat i < maxAttempts b0 /\
         rr_notices run !! i =
           Some (mkRetryNotice (Z.of_nat i + 1)
                   (calculateDelay b0 (rnd i) (Z.of_nat i)) e)) /\
    (forall e, fn last = Rejected e ->
       shouldRetry e = false \/ maxAttempts b0 <= Z.of_nat last).
Proof.
  induction fuel as [|fuel IH]; intros calls backoff notices Hb Hm Hj Hma Hatt Hlen Hfuel;
    [lia|].
  simpl.
  assert (Hstop : forall s, s = fn calls ->
            (forall e, fn calls = Rejected e ->
               shouldRetry e = false \/ maxAttempts b0 <= Z.of_nat calls) ->
            exists run last,
              Some (mkRetryRun s (S calls) notices) = Some run /\
              rr_calls run = S last /\ (calls <= last)%nat /\
              rr_settled run = fn last /\
              length (rr_notices run) = last /\
              (forall i, (i < calls)%nat -> rr_notices run !! i = notices !! i) /\
              (forall i, (calls <= i < last)%nat ->
                 exists e, fn i = Rejected e /\ shouldRetry e = true /\
                   Z.of_nat i < maxAttempts b0 /\
                   rr_notices run !! i =
                     Some (mkRetryNotice (Z.of_nat i + 1)
                             (calculateDelay b0 (rnd i) (Z.of_nat i)) e)) /\
              (forall e, fn last = Rejected e ->
                 shouldRetry e = false \/ maxAttempts b0 <= Z.of_nat last)).
  { intros s Hs Hfinal. exists (mkRetryRun s (S calls) notices), calls. simpl.
    repeat split; try done. intros i Hi. lia. }
  destruct (fn calls) as [v|e] eqn:Hfn.
  - apply Hstop; [done|]. intros e He. discriminate.
  - destruct (shouldRetry e) eqn:Hretry; simpl.
    2:{ apply Hstop; [done|]. intros e' [= <-]. by left. }
    unfold next. rewrite Hma, Hatt.
    destruct (Z.leb_spec (maxAttempts b0) (Z.of_nat calls)) as [Hdone|Hmore].
    { apply Hstop; [done|]. intros e' _. by right. }
    match goal with |- context [withRetry_loop fuel fn shouldRetry rnd (S calls) ?b1 ?ns] =>
      destruct (IH (S calls) b1 ns) as (run & last & Hrun & Hcalls & Hle & Hset & Hnl & Hpre & Hmid & Hfin)
    end; simpl; try done.
    { lia. }
    { rewrite length_app. simpl. lia. }
    { lia. }
    exists run, last. split; [done|]. split; [done|]. split; [lia|]. split; [done|].
    split; [done|]. split; [|split; [|done]].
    + intros i Hi. rewrite Hpre by lia. apply lookup_app_l. lia.
    + intros i Hi. destruct (decide (i = calls)) as [->|Hne]; [|apply Hmid; lia].
      exists e. split; [done|]. split; [done|]. split; [done|].
      rewrite Hpre by lia. rewrite lookup_app_r by lia.
      rewrite Hlen, Nat.sub_diag. simpl. unfold getAttempt. simpl.
      by rewrite (calculateDelay_config b0 backoff).
Qed.

(** X14. [withRetry] settles after at most [maxAttempts + 1] invocations
    of the operation ([maxAttempts + 1] iterations of its loop always
    suffice). It settles as the last invocation did; every earlier
    invocation was rejected with an error that [shouldRetry] accepted and
    was followed by exactly one [onRetry(i + 1, calculateDelay(i), error)];
    and a rejection is final only when [shouldRetry] refuses the error or
    [maxAttempts] retries have been used. *)
Theorem withRetry_settles {T E : Type} (fn : nat -> Settled T E) (options : BackoffOptions)
    (shouldRetry : option (E -> bool)) (rnd : nat -> Q) :
  let b0 := new_ExponentialBackoff options in
  let retriable := default (fun _ => true) shouldRetry in
  exists run last,
    withRetry (S (Z.to_nat (maxAttempts b0))) fn options shouldRetry rnd = Some run /\
    rr_calls run = S last /\
    Z.of_nat last <= Z.max 0 (maxAttempts b0) /\
    rr_settled run = fn last /\
    length (rr_notices run) = last /\
    (forall i, (i < last)%nat ->
       exists e, fn i = Rejected e /\ retriable e = true /\
         rr_notices run !! i =
           Some (mkRetryNotice (Z.of_nat i + 1)
                   (calculateDelay b0 (rnd i) (Z.of_nat i)) e)) /\
    (forall e, fn last = Rejected e ->
       retriable e = false \/ maxAttempts b0 <= Z.of_nat last).
Proof.
  intros b0 retriable. unfold withRetry.
  destruct (withRetry_loop_settles fn retriable rnd b0
              (S (Z.to_nat (maxAttempts b0))) 0 b0 [])
    as (run & last & Hrun & Hcalls & _ & Hset & Hnl & _ & Hmid & Hfin); try done.
  { rewrite Z.sub_0_r. lia. }
  exists run, last. split; [done|]. split; [done|]. split; [|split; [done|]].
  - destruct last as [|l]; [lia|].
    destruct (Hmid l) as (e & _ & _ & Hlt & _); lia.
  - split; [done|]. split; [|done].
    intros i Hi. destruct (Hmid i) as (e & He & Hr & _ & Hn); [lia|]. by exists e.
Qed.

(** ** CircuitBreaker: transitions, statistics, registry *)

Lemma pruneOldRecords_fields (now : Z) (cb : CircuitBreaker) :
  state (pruneOldRecords now cb) = state cb /\
  lastFailure (pruneOldRecords now cb) = lastFailure cb /\
  halfOpenSuccesses (pruneOldRecords now cb) = halfOpenSuccesses cb /\
  failureThreshold (pruneOldRecords now cb) = failureThreshold cb /\
  minimumRequests (pruneOldRecords now cb) = minimumRequests cb /\
  windowMs (pruneOldRecords now cb) = windowMs cb /\
  cooldownMs (pruneOldRecords now cb) = cooldownMs cb /\
  successThreshold (pruneOldRecords now cb) = successThreshold cb.
Proof. done. Qed.

(** X15. The transition table of the breaker. [canExecute] refuses exactly
    when it leaves the breaker open, and moves an open breaker to
    half-open (restarting the probe count) exactly when [cooldownMs] has
    passed since the last failure; it changes the state in no other case.
    [recordSuccess] changes the state only from half-open to closed, when
    the probe count reaches [successThreshold], and then clears the
    samples. [recordFailure] stamps [lastFailure], keeps an open breaker
    open, opens a half-open one, and opens a closed one only once
    [minimumRequests] samples are recorded. *)
Theorem breaker_transition_table (cb : CircuitBreaker) (now : Z) :
  ((fst (canExecute now cb) = false <-> state (snd (canExecute now cb)) = open) /\
   (state (snd (canExecute now cb)) = state cb \/
    (state cb = open /\ state (snd (canExecute now cb)) = half_open /\
     halfOpenSuccesses (snd (canExecute now cb)) = 0)) /\
   (state cb = open ->
    (fst (canExecute now cb) = true <-> cooldownMs cb <= now - lastFailure cb))) /\
  (state (recordSuccess now cb) = state cb \/
   (state cb = half_open /\ successThreshold cb <= halfOpenSuccesses cb + 1 /\
    state (recordSuccess now cb) = closed /\ records (recordSuccess now cb) = [])) /\
  (lastFailure (recordFailure now cb) = now /\
   (state cb = open -> state (recordFailure now cb) = open) /\
   (state cb = half_open -> state (recordFailure now cb) = open) /\
   (state cb = closed -> state (recordFailure now cb) = open ->
    minimumRequests cb <= Z.of_nat (length (records cb)) + 1)).
Proof.
  destruct cb as [st rs lf hos th mn w cd su]. simpl. split; [|split].
  - unfold canExecute, pruneOldRecords, transitionTo, cb_with. simpl.
    destruct st; simpl.
    + split; [done|]. split; [by left | done].
    + destruct (Z.leb_spec cd (now - lf)) as [Hc|Hc]; simpl.
      * split; [done|]. split; [by right | done].
      * split; [done|]. split; [by left|]. intros _. split; [done | lia].
    + split; [done|]. split; [by left | done].
  - unfold recordSuccess, transitionTo, cb_with. simpl. destruct st; simpl; auto.
    destruct (Z.leb_spec su (hos + 1)); simpl; [right | left]; done.
  - unfold recordFailure, recordFailure_reads, transitionTo, cb_with. simpl.
    destruct st; simpl.
    + unfold evaluateState. simpl. rewrite length_app. simpl.
      destruct (Z.ltb_spec (Z.of_nat (length rs + 1)) mn) as [Hlt|Hge]; simpl.
      * repeat split; try done.
      * unfold getFailureRate, pruneOldRecords, cb_with. simpl.
        destruct (length _ =? 0)%nat; simpl;
          match goal with
          | |- context [js_ge ?a ?b] => destruct (js_ge a b)
          | |- context [Qle_bool ?a ?b] => destruct (Qle_bool a b)
          end;
          unfold transitionTo; simpl; repeat split; try done; intros; lia.
    + repeat split; try done.
    + repeat split; try done.
Qed.

Lemma filter_filter_same {A} (f : A -> bool) (l : list A) :
  List.filter f (List.filter f l) = List.filter f l.
Proof.
  induction l as [|x l IH]; simpl; [done|].
  destruct (f x) eqn:Hf; simpl; [by rewrite Hf, IH | done].
Qed.

Lemma filter_partition_length {A} (f : A -> bool) (l : list A) :
  (length l = length (List.filter (fun x => negb (f x)) l) + length (List.filter f l))%nat.
Proof.
  induction l as [|x l IH]; simpl; [done|]. destruct (f x); simpl; lia.
Qed.

Lemma filter_length_le {A} (f : A -> bool) (l : list A) :
  (length (List.filter f l) <= length l)%nat.
Proof. induction l as [|x l IH]; simpl; [done|]. destruct (f x); simpl; lia. Qed.

Lemma failure_quotient_unit (f n : nat) :
  (f <= n)%nat -> (0 < n)%nat ->
  exists q, b64 (inject_Z (Z.of_nat f) / inject_Z (Z.of_nat n)) = Fin q /\
            (0 <= q)%Q /\ (q <= 1)%Q.
Proof.
  intros Hle Hn.
  assert (Hpos : (0 < inject_Z (Z.of_nat n))%Q) by (apply inject_Z_pos; lia).
  apply b64_unit_interval.
  - apply Qle_shift_div_l; [done|]. rewrite Qmult_0_l.
    change 0%Q with (inject_Z 0). rewrite <- Zle_Qle. lia.
  - apply Qle_shift_div_r; [done|]. rewrite Qmult_1_l. rewrite <- Zle_Qle. lia.
Qed.

(** X16. [getStats()] reads the clock twice. It reports as [failures] and
    [successes] the counts over the samples inside the window at the first
    read, as [totalRequests] the number of those still inside the window
    at the second read (so [totalRequests <= failures + successes], with
    equality when the clock has not moved), as [failureRate] a double
    between 0 and 1 (the rounded quotient of the failures by the samples
    left after the second pruning, 0 if none is left), and the state it
    found; it keeps exactly the samples that are inside both windows. *)
Theorem getStats_consistent (now later : Z) (cb : CircuitBreaker) :
  let s := fst (getStats now later cb) in
  let cb' := snd (getStats now later cb) in
  let kept := List.filter (fun r => later - windowMs cb <=? timestamp r)
                (List.filter (fun r => now - windowMs cb <=? timestamp r) (records cb)) in
  cs_failures s + cs_successes s =
    Z.of_nat (length (List.filter (fun r => now - windowMs cb <=? timestamp r)
                                  (records cb))) /\
  cs_totalRequests s = Z.of_nat (length kept) /\
  cs_totalRequests s <= cs_failures s + cs_successes s /\
  (later = now -> cs_totalRequests s = cs_failures s + cs_successes s) /\
  cs_failureRate s =
    (if cs_totalRequests s =? 0 then Fin 0
     else b64 (inject_Z (Z.of_nat (length (List.filter (fun r => negb (success r)) kept)))
               / inject_Z (cs_totalRequests s))) /\
  (exists q, cs_failureRate s = Fin q /\ (0 <= q)%Q /\ (q <= 1)%Q) /\
  cs_state s = state cb /\
  records cb' = kept.
Proof.
  intros s cb' kept. subst s cb'. unfold getStats, getFailureRate, pruneOldRecords.
  cbn [records windowMs state cb_with].
  set (rs := List.filter (fun r => now - windowMs cb <=? timestamp r) (records cb)) in *.
  fold kept.
  pose proof (filter_partition_length (fun r => success r) rs) as Hpart.
  cbv beta in Hpart.
  pose proof (filter_length_le (fun r => later - windowMs cb <=? timestamp r) rs) as Hkept.
  fold kept in Hkept.
  assert (Hsame : later = now -> kept = rs).
  { intros ->. subst kept rs. apply filter_filter_same. }
  destruct (Nat.eqb_spec (length kept) 0) as [Hz|Hnz];
    cbn [fst snd cs_failures cs_successes cs_totalRequests cs_failureRate cs_state
         records state cb_with].
  - rewrite Hz. cbn [Z.of_nat Z.eqb].
    split; [lia|]. split; [done|]. split; [lia|].
    split; [intros He; pose proof (f_equal length (Hsame He)); lia|].
    split; [done|]. split; [|done].
    exists 0%Q. split; [done|]. split; [apply Qle_refl | unfold Qle; simpl; lia].
  - split; [lia|]. split; [done|]. split; [lia|].
    split; [intros He; pose proof (f_equal length (Hsame He)); lia|].
    split; [by destruct (Z.eqb_spec (Z.of_nat (length kept)) 0); [lia|]|].
    split; [|done].
    apply failure_quotient_unit; [apply filter_length_le | lia].
Qed.

Lemma recordFailure_reads_keeps (pushed failed pruned : Z) (cb : CircuitBreaker) :
  failureThreshold (recordFailure_reads pushed failed pruned cb) = failureThreshold cb /\
  minimumRequests (recordFailure_reads pushed failed pruned cb) = minimumRequests cb /\
  windowMs (recordFailure_reads pushed failed pruned cb) = windowMs cb /\
  (state cb = open -> state (recordFailure_reads pushed failed pruned cb) = open).
Proof.
  destruct cb as [st rs lf hos th mn w cd su].
  unfold recordFailure_reads, transitionTo, cb_with. simpl. destruct st; simpl; try done.
  unfold evaluateState. simpl.
  destruct (Z.of_nat (length (rs ++ [mkRecord pushed false])) <? mn); simpl; [done|].
  unfold getFailureRate, pruneOldRecords, cb_with. simpl.
  destruct (length _ =? 0)%nat; simpl;
    match goal with
    | |- context [js_ge ?a ?b] => destruct (js_ge a b)
    | |- context [Qle_bool ?a ?b] => destruct (Qle_bool a b)
    end; done.
Qed.

Lemma failures_keep_open (reads : list FailureReads) :
  forall cb, state cb = open -> state (recordFailures reads cb) = open.
Proof.
  induction reads as [|r reads IH]; intros cb Hs; simpl; [done|].
  apply IH. by apply recordFailure_reads_keeps.
Qed.

Lemma failures_from_closed (reads : list FailureReads) :
  forall cb,
  state cb = closed ->
  Forall (fun r => fr_pruned r - windowMs cb <= fr_pushed r) reads ->
  (failureThreshold cb <= 1)%Q ->
  Forall (fun r => success r = false) (records cb) ->
  Z.of_nat (length (records cb)) < Z.max 1 (minimumRequests cb) ->
  state (recordFailures reads cb) =
    if Z.max 1 (minimumRequests cb) <=? Z.of_nat (length (records cb) + length reads)
    then open else closed.
Proof.
  induction reads as [|r reads IH]; intros cb Hs Hw Hth Hall Hlen; simpl.
  - rewrite Nat.add_0_r. by destruct (Z.leb_spec (Z.max 1 (minimumRequests cb))
                                        (Z.of_nat (length (records cb)))); [lia|].
  - inversion Hw as [|r' reads' Hr Hw']; subst.
    destruct (Z.ltb_spec (Z.of_nat (length (records cb)) + 1) (minimumRequests cb))
      as [Hbelow|Hreach].
    + rewrite (recordFailure_reads_below_minimum _ _ _ cb Hs Hbelow).
      rewrite IH; simpl; try done.
      * rewrite length_app. simpl.
        by replace (length (records cb) + 1 + length reads)%nat
          with (length (records cb) + S (length reads))%nat by lia.
      * apply Forall_app. split; [done|]. by constructor.
      * rewrite length_app. simpl. lia.
    + destruct (recordFailure_reads_opens (fr_pushed r) (fr_failed r) (fr_pruned r)
                  cb Hs Hr Hth Hall) as (Hopen & _); [lia|].
      rewrite failures_keep_open by done.
      by destruct (Z.leb_spec (Z.max 1 (minimumRequests cb))
                     (Z.of_nat (length (records cb) + S (length reads)))); [|lia].
Qed.

(** X17. [recordFailure()] reads the clock three times. On a new breaker
    with [failureThreshold <= 1], a run of failures with no success in
    between, in each of which the new sample is still inside the window
    when the records are pruned (the last read minus [windowMs] is not
    after the first read), opens the breaker at the failure number
    [max(1, minimumRequests)] and not before, and further failures keep it
    open. *)
Theorem consecutive_failures_open (options : CircuitBreakerOptions)
    (reads : list FailureReads)
    (Hwindow : Forall (fun r => fr_pruned r - windowMs (CircuitBreaker_of_options options)
                                  <= fr_pushed r) reads)
    (Hthreshold : (failureThreshold (CircuitBreaker_of_options options) <= 1)%Q) :
  let cb := recordFailures reads (CircuitBreaker_of_options options) in
  getState cb =
    if Z.max 1 (minimumRequests (CircuitBreaker_of_options options))
       <=? Z.of_nat (length reads)
    then open else closed.
Proof.
  simpl. unfold getState. rewrite failures_from_closed; try done.
  simpl. lia.
Qed.

(** X17 at the default options, the clock advancing between the reads:
    four failures leave the breaker closed, the fifth opens it. *)
Lemma consecutive_failures_open_witness :
  getState (recordFailures
              [mkFailureReads 1 1 2; mkFailureReads 3 4 4; mkFailureReads 5 5 5;
               mkFailureReads 6 7 8]
              (CircuitBreaker_of_options (mkBreakerOptions None None None None None)))
    = closed /\
  getState (recordFailures
              [mkFailureReads 1 1 2; mkFailureReads 3 4 4; mkFailureReads 5 5 5;
               mkFailureReads 6 7 8; mkFailureReads 9 9 10]
              (CircuitBreaker_of_options (mkBreakerOptions None None None None None)))
    = open.
Proof.
  assert (Ht : (failureThreshold (CircuitBreaker_of_options
                                    (mkBreakerOptions None None None None None)) <= 1)%Q)
    by (simpl; unfold Qle; simpl; lia).
  split.
  - apply (consecutive_failures_open (mkBreakerOptions None None None None None)
             [mkFailureReads 1 1 2; mkFailureReads 3 4 4; mkFailureReads 5 5 5;
              mkFailureReads 6 7 8]); [|exact Ht].
    repeat constructor; simpl; lia.
  - apply (consecutive_failures_open (mkBreakerOptions None None None None None)
             [mkFailureReads 1 1 2; mkFailureReads 3 4 4; mkFailureReads 5 5 5;
              mkFailureReads 6 7 8; mkFailureReads 9 9 10]); [|exact Ht].
    repeat constructor; simpl; lia.
Defined.

Lemma registry_step_get (reg : CircuitBreakerRegistry) (id a : string) (c : BreakerCall) :
  cbr_options (registry_step reg (id, c)) = cbr_options reg /\
  jsmap_get a (breakers (registry_step reg (id, c))) =
    if decide (id = a)
    then Some (breaker_step
                 (default (CircuitBreaker_of_options (cbr_options reg))
                          (jsmap_get id (breakers reg))) c)
    else jsmap_get a (breakers reg).
Proof.
  assert (Hget : forall f : CircuitBreaker -> CircuitBreaker,
            let '(breaker, reg1) := cbr_get id reg in
            cbr_options reg1 = cbr_options reg /\
            breaker = default (CircuitBreaker_of_options (cbr_options reg))
                              (jsmap_get id (breakers reg)) /\
            jsmap_get a (jsmap_set id (f breaker) (breakers reg1)) =
              if decide (id = a) then Some (f breaker) else jsmap_get a (breakers reg)).
  { intros f. unfold cbr_get. destruct (jsmap_get id (breakers reg)) as [b|] eqn:Hg; simpl.
    - split; [done|]. split; [done|]. destruct (decide (id = a)) as [->|Hne].
      + apply jsmap_get_set_eq.
      + by apply jsmap_get_set_ne.
    - split; [done|]. split; [done|]. destruct (decide (id = a)) as [->|Hne].
      + apply jsmap_get_set_eq.
      + rewrite !jsmap_get_set_ne by done. done. }
  unfold registry_step. simpl.
  destruct c as [now|now|now|]; simpl.
  - unfold isAvailable. specialize (Hget (fun b => snd (canExecute now b))).
    destruct (cbr_get id reg) as [b reg1]. destruct Hget as (Ho & Hb & Hg).
    subst b. cbn beta in Hg.
    destruct (canExecute now _) as [ok b'] eqn:Hc. by cbn [snd fst cbr_with breakers cbr_options] in *.
  - unfold cbr_recordSuccess. specialize (Hget (recordSuccess now)).
    destruct (cbr_get id reg) as [b reg1]. destruct Hget as (Ho & Hb & Hg).
    simpl. by rewrite <- Hb.
  - unfold cbr_recordFailure. specialize (Hget (recordFailure now)).
    destruct (cbr_get id reg) as [b reg1]. destruct Hget as (Ho & Hb & Hg).
    simpl. by rewrite <- Hb.
  - unfold cbr_reset. specialize (Hget breaker_reset).
    destruct (cbr_get id reg) as [b reg1]. destruct Hget as (Ho & Hb & Hg).
    simpl. by rewrite <- Hb.
Qed.

Lemma registry_calls_get (a : string) (calls : list (string * BreakerCall)) :
  forall reg,
  jsmap_get a (breakers (fold_left registry_step calls reg)) =
    match calls_for a calls with
    | [] => jsmap_get a (breakers reg)
    | cs => Some (fold_left breaker_step cs
                    (default (CircuitBreaker_of_options (cbr_options reg))
                             (jsmap_get a (breakers reg))))
    end.
Proof.
  induction calls as [|[id c] calls IH]; intros reg; [done|].
  cbn [fold_left]. rewrite IH.
  destruct (registry_step_get reg id a c) as [Ho Hg]. rewrite Ho, Hg.
  unfold calls_for. cbn [List.filter fst].
  destruct (String.eqb_spec id a) as [->|Hne].
  - rewrite decide_True by done. cbn [map snd fold_left default].
    by destruct (map snd (List.filter _ calls)).
  - by rewrite decide_False by done.
Qed.

(** X18. The registry of breakers keeps one breaker per worker and the
    breakers do not interfere: after any sequence of [isAvailable],
    [recordSuccess], [recordFailure] and [reset] calls on a new registry,
    a worker never named has no breaker, and the breaker of a named worker
    is the one a new breaker reaches under that worker's own calls, in
    their order. *)
Theorem breaker_registry_isolates_workers (options : CircuitBreakerOptions)
    (calls : list (string * BreakerCall)) (workerId : string) :
  let reg := fold_left registry_step calls (mkBreakerRegistry [] options) in
  jsmap_get workerId (breakers reg) =
    match calls_for workerId calls with
    | [] => None
    | cs => Some (fold_left breaker_step cs (CircuitBreaker_of_options options))
    end.
Proof. simpl. by rewrite registry_calls_get. Qed.

Lemma breaker_reset_fields (cb : CircuitBreaker) :
  state (breaker_reset cb) = closed /\ records (breaker_reset cb) = [] /\
  halfOpenSuccesses (breaker_reset cb) = 0.
Proof.
  destruct cb as [st rs lf hos th mn w cd su].
  unfold breaker_reset, transitionTo, cb_with. simpl. by destruct st.
Qed.

(** X19. [reset()] closes a breaker from any state and empties its samples
    and its probe count. After [resetAll()] on the registry no circuit is
    reported open, the same workers have breakers, and [isAvailable] is
    true for every worker, known or not. *)
Theorem resetAll_closes_every_circuit (reg : CircuitBreakerRegistry) (cb : CircuitBreaker) :
  (getState (breaker_reset cb) = closed /\ records (breaker_reset cb) = [] /\
   halfOpenSuccesses (breaker_reset cb) = 0) /\
  getOpenCircuits (resetAll reg) = [] /\
  jsmap_keys (breakers (resetAll reg)) = jsmap_keys (breakers reg) /\
  (forall now workerId, fst (isAvailable now workerId (resetAll reg)) = true).
Proof.
  split; [apply breaker_reset_fields|]. split; [|split].
  - unfold getOpenCircuits, resetAll. simpl.
    induction (breakers reg) as [|[k b] m IH]; simpl; [done|].
    destruct (breaker_reset_fields b) as (Hs & _). unfold getState. by rewrite Hs.
  - unfold resetAll, jsmap_keys. simpl. rewrite map_map. done.
  - intros now workerId. unfold isAvailable, cbr_get.
    assert (Hclosed : forall b, jsmap_get workerId (breakers (resetAll reg)) = Some b ->
              state b = closed).
    { unfold resetAll. simpl. intros b.
      induction (breakers reg) as [|[k b0] m IH]; simpl; [done|].
      destruct (decide (k = workerId)); [|done].
      intros [= <-]. apply breaker_reset_fields. }
    destruct (jsmap_get workerId (breakers (resetAll reg))) as [b|] eqn:Hg.
    + specialize (Hclosed b eq_refl). unfold canExecute. simpl. by rewrite Hclosed.
    + done.
Qed.

(** ** Orchestrator: lookups, reports, finished tasks *)

Lemma find_queued (heap : list Task) (id : TaskId) (q : list TaskId) :
  (forall ref, In ref q -> exists t, heap !! ref = Some t /\ t_id t = ref) ->
  (In id q ->
   List.find (fun t => (t_id t =? id)%nat) (omap (fun ref => heap !! ref) q) = heap !! id) /\
  (~ In id q ->
   List.find (fun t => (t_id t =? id)%nat) (omap (fun ref => heap !! ref) q) = None).
Proof.
  induction q as [|ref q IH]; intros Hq; [by split|].
  destruct (Hq ref (or_introl eq_refl)) as (t & Hl & Hid).
  destruct IH as [IH1 IH2]; [intros x Hx; apply Hq; by right|].
  cbn [omap list_omap]. rewrite Hl. cbn [List.find].
  destruct (Nat.eqb_spec (t_id t) id) as [He|Hne].
  - split; [intros _; congruence|]. intros Hn. exfalso. apply Hn. left. congruence.
  - split.
    + intros [->|Hin]; [congruence | by apply IH1].
    + intros Hn. apply IH2. intros Hin. apply Hn. by right.
Qed.

Lemma active_lookup (o : Orchestrator) (id : TaskId) :
  Inv o -> in_active o id -> jsmap_get id (activeTasks o) = Some id.
Proof.
  intros HI Hin.
  destruct (jsmap_get id (activeTasks o)) as [ref|] eqn:Hg.
  - by destruct (Inv_active_task o id ref HI Hg) as [-> _].
  - apply jsmap_get_None_keys in Hg. by destruct Hg.
Qed.

(** [getTask] on a state that satisfies the location invariant. *)
Lemma getTask_Inv (o : Orchestrator) (id : TaskId) :
  Inv o ->
  getTask id o =
    match o_heap o !! id with
    | Some t => if is_open t then Some t else None
    | None => None
    end.
Proof.
  intros HI. unfold getTask.
  assert (Hq : forall ref, In ref (taskQueue o) ->
            exists t, o_heap o !! ref = Some t /\ t_id t = ref).
  { intros ref Hin. destruct (Inv_queued_task o ref HI Hin) as (_ & t & Hl & _ & Hid).
    by exists t. }
  destruct (find_queued (o_heap o) id (taskQueue o) Hq) as [Hfound Hmissing].
  destruct (o_heap o !! id) as [t|] eqn:Hl.
  - destruct (inv_task o HI _ _ Hl) as [Hid Hloc]. unfold task_located in Hloc.
    unfold is_open. destruct (t_status t) eqn:Hs.
    + destruct Hloc as [Hinq Hna]. apply jsmap_get_None_keys in Hna. rewrite Hna.
      by apply Hfound.
    + destruct Hloc as (Hnq & Hina & _). rewrite (active_lookup o id HI Hina). done.
    + done.
    + destruct Hloc as (Hnq & Hna & _). apply jsmap_get_None_keys in Hna. rewrite Hna.
      by apply Hmissing.
    + destruct Hloc as (Hnq & Hna & _). apply jsmap_get_None_keys in Hna. rewrite Hna.
      by apply Hmissing.
    + done.
  - assert (Hna : ~ in_active o id).
    { intros Hin. destruct (inv_active_live o HI _ Hin) as [t Ht]. congruence. }
    assert (Hnq : ~ in_queue o id).
    { intros Hin. destruct (inv_queue_live o HI _ Hin) as [t Ht]. congruence. }
    apply jsmap_get_None_keys in Hna. rewrite Hna. by apply Hmissing.
Qed.

Lemma Inv_reachable (config : PartialConfig) (ops : list Op) :
  Inv (run (new_Orchestrator config) ops).
Proof. apply Inv_run, Inv_new. Qed.

(** X20. In every reachable state [getTask(id)] finds exactly the tasks
    that are pending or assigned, and returns the task object itself. A
    task that is completed or failed is no longer found by [getTask], but
    [getTaskResult] has a result for it; an identifier that was never
    issued has neither. *)
Theorem getTask_finds_open_tasks (config : PartialConfig) (ops : list Op) (id : TaskId) :
  let o := run (new_Orchestrator config) ops in
  (forall t, getTask id o = Some t <->
     o_heap o !! id = Some t /\ (t_status t = pending \/ t_status t = assigned)) /\
  (forall t, o_heap o !! id = Some t -> is_terminal t ->
     getTask id o = None /\ exists r, getTaskResult id o = Some r) /\
  (o_heap o !! id = None -> getTask id o = None /\ getTaskResult id o = None).
Proof.
  intros o. assert (HI : Inv o) by apply Inv_reachable.
  rewrite (getTask_Inv o id HI). split; [|split].
  - intros t. destruct (o_heap o !! id) as [t0|] eqn:Hl.
    + destruct (inv_task o HI _ _ Hl) as [_ Hloc]. unfold task_located in Hloc.
      unfold is_open. destruct (t_status t0) eqn:Hs; try done.
      * split; [intros [= <-]; auto | intros [[= <-] _]; done].
      * split; [intros [= <-]; auto | intros [[= <-] _]; done].
      * split; [done | intros [[= <-] [H|H]]; congruence].
      * split; [done | intros [[= <-] [H|H]]; congruence].
    + split; [done | by intros [? _]].
  - intros t Hl [Hs|Hs]; rewrite Hl; unfold is_open; rewrite Hs;
      (split; [done|]); destruct (inv_task o HI _ _ Hl) as [_ Hloc];
      unfold task_located in Hloc; rewrite Hs in Hloc; destruct Hloc as (_ & _ & Hr);
      unfold in_results in Hr; unfold getTaskResult;
      (destruct (jsmap_get id (taskResults o)) as [r|] eqn:Hg; [by exists r|]);
      apply jsmap_get_None_keys in Hg; by destruct Hg.
  - intros Hl. rewrite Hl. split; [done|]. unfold getTaskResult.
    destruct (jsmap_get id (taskResults o)) as [r|] eqn:Hg; [|done].
    apply jsmap_get_Some_keys in Hg. destruct (inv_results_live o HI id Hg) as [t Ht].
    congruence.
Qed.

Lemma splice_insert_length {A : Type} (i : nat) (x : A) (l : list A) :
  length (splice_insert i x l) = S (length l).
Proof.
  unfold splice_insert. rewrite length_app, length_cons, length_take, length_drop. lia.
Qed.

(** X21. In every reachable state [submitTask] either throws "Task queue is
    full", exactly when the queue holds [maxQueueSize] tasks or more, and
    then changes nothing; or it returns a new pending task with no retries,
    the submitted priority (default [normal]), retry budget and timeout
    (defaults from the configuration), under an identifier that named no
    task before. The queue grows by one, [getTask] finds the returned task
    under its identifier, it has no result yet, and the lookups of every
    other identifier are as before. *)
Theorem submitTask_then_getTask (config : PartialConfig) (ops : list Op)
    (now : Z) (s : TaskSubmission) :
  let o := run (new_Orchestrator config) ops in
  let o' := snd (submitTask now s o) in
  match fst (submitTask now s o) with
  | inl e =>
      e = "Task queue is full" /\
      maxQueueSize (o_config o) <= Z.of_nat (length (taskQueue o)) /\ o' = o
  | inr task =>
      Z.of_nat (length (taskQueue o)) < maxQueueSize (o_config o) /\
      t_status task = pending /\ t_retries task = 0 /\ t_createdAt task = now /\
      t_priority task = default normal (s_priority s) /\
      t_maxRetries task = default (defaultMaxRetries (o_config o)) (s_maxRetries s) /\
      t_timeoutMs task = default (defaultTaskTimeoutMs (o_config o)) (s_timeoutMs s) /\
      o_heap o !! t_id task = None /\
      getTask (t_id task) o' = Some task /\
      getTaskResult (t_id task) o' = None /\
      length (taskQueue o') = S (length (taskQueue o)) /\
      (forall id, id <> t_id task ->
         getTask id o' = getTask id o /\ getTaskResult id o' = getTaskResult id o)
  end.
Proof.
  intros o o'. assert (HI : Inv o) by apply Inv_reachable.
  assert (HI' : Inv o') by apply Inv_submitTask, HI.
  subst o'. revert HI'. unfold submitTask.
  destruct (Z.leb_spec (maxQueueSize (o_config o)) (Z.of_nat (length (taskQueue o))))
    as [Hfull|Hroom]; cbn [fst snd]; intros HI'; [done|].
  match type of HI' with Inv (insertByPriority _ (with_heap (_ ++ [?t]) _)) =>
    set (task := t) in * end.
  set (o1 := with_heap (o_heap o ++ [task]) o) in *.
  change (t_id task) with (length (o_heap o)) in *.
  set (o' := insertByPriority (length (o_heap o)) o1) in *.
  destruct (insertByPriority_fields (length (o_heap o)) o1) as (Hh & Ha & Hr & _).
  fold o' in Hh, Ha, Hr.
  assert (Hheap : o_heap o' = (o_heap o ++ [task])%list) by done.
  assert (Hnew : o_heap o' !! length (o_heap o) = Some task).
  { rewrite Hheap. by apply list_lookup_middle. }
  assert (Hfresh : o_heap o !! length (o_heap o) = None) by by apply lookup_ge_None_2.
  assert (Hres : forall id, getTaskResult id o' = getTaskResult id o).
  { intros id. unfold getTaskResult. by rewrite Hr. }
  do 8 (split; [done|]). split; [|split; [|split]].
  - rewrite (getTask_Inv o' _ HI'). unfold TaskId in *. by rewrite Hnew.
  - rewrite Hres. unfold getTaskResult.
    destruct (jsmap_get (length (o_heap o)) (taskResults o)) as [r|] eqn:Hg; [|done].
    apply jsmap_get_Some_keys in Hg. destruct (inv_results_live o HI _ Hg) as [t Ht].
    unfold TaskId in *. congruence.
  - assert (Hl1 : o_heap o1 !! length (o_heap o) = Some task)
      by by apply list_lookup_middle.
    destruct (insertByPriority_queue _ o1 _ Hl1) as [index Hq]. fold o' in Hq.
    rewrite Hq. apply splice_insert_length.
  - intros id Hne. split; [|apply Hres].
    rewrite (getTask_Inv o' _ HI'), (getTask_Inv o _ HI), Hheap. unfold TaskId in *.
    destruct (decide (id < length (o_heap o))%nat) as [Hlt|Hge].
    + by rewrite lookup_app_l.
    + rewrite (lookup_ge_None_2 (o_heap o) id) by lia.
      rewrite lookup_ge_None_2; [done|]. rewrite length_app. simpl. lia.
Qed.

Lemma jsmap_get_delete_same {K V : Type} `{EqDecision K} (k : K) (m : list (K * V)) :
  NoDup (jsmap_keys m) -> jsmap_get k (jsmap_delete k m) = None.
Proof.
  intros Hnd. apply jsmap_get_None_keys. rewrite (jsmap_keys_delete k m Hnd). tauto.
Qed.

(** The task store after a report for the active task [id]. *)
Lemma reportTaskResult_assigned (now : Z) (r : TaskResult) (o : Orchestrator) (t : Task) :
  Inv o -> o_heap o !! r_taskId r = Some t -> t_status t = assigned ->
  let o1 := reportTaskResult now r o in
  o_heap o1 = <[r_taskId r := reported now r t]> (o_heap o) /\
  activeTasks o1 = jsmap_delete (r_taskId r) (activeTasks o) /\
  taskResults o1 = jsmap_set (r_taskId r) r (taskResults o).
Proof.
  intros HI Hl Hs.
  destruct (inv_task o HI _ _ Hl) as [_ Hloc]. unfold task_located in Hloc.
  rewrite Hs in Hloc. destruct Hloc as (_ & Hina & _).
  pose proof (active_lookup o _ HI Hina) as Hg.
  destruct (reportTaskResult_known now r o _ t Hg Hl) as (Ha & Hr & _ & _ & _ & Hcases).
  simpl. split; [|by split].
  destruct Hcases as [(Hsuc & -> & _)|[(Hsuc & Hlt & -> & _)|(Hsuc & Hge & -> & _)]];
    f_equal; unfold reported; rewrite Hsuc; [done| |].
  - by destruct (Z.ltb_spec (t_retries t) (t_maxRetries t)); [|lia].
  - by destruct (Z.ltb_spec (t_retries t) (t_maxRetries t)); [lia|].
Qed.

(** X22. In every reachable state a reported result is accepted only for a
    task that is assigned; for any other identifier (queued, finished or
    never issued) the report changes nothing. An accepted report is stored
    as the task's result and completes the task, requeues it with one more
    retry, or fails it; afterwards [getTask] finds the task only in the
    requeued case, no other task and no other result has changed, and a
    second report for the same task is dropped. *)
Theorem report_accepted_once (config : PartialConfig) (ops : list Op)
    (now : Z) (r : TaskResult) :
  let o := run (new_Orchestrator config) ops in
  let o1 := reportTaskResult now r o in
  ((forall t, o_heap o !! r_taskId r = Some t -> t_status t <> assigned) -> o1 = o) /\
  (forall t, o_heap o !! r_taskId r = Some t -> t_status t = assigned ->
     o_heap o1 !! r_taskId r = Some (reported now r t) /\
     getTaskResult (r_taskId r) o1 = Some r /\
     getTask (r_taskId r) o1 =
       (if r_success r then None
        else if t_retries t <? t_maxRetries t then Some (set_retrying t) else None)) /\
  (forall id, id <> r_taskId r ->
     o_heap o1 !! id = o_heap o !! id /\
     getTaskResult id o1 = getTaskResult id o /\
     getTask id o1 = getTask id o) /\
  (forall now' r', r_taskId r' = r_taskId r -> reportTaskResult now' r' o1 = o1).
Proof.
  intros o o1. assert (HI : Inv o) by apply Inv_reachable.
  assert (HI1 : Inv o1) by apply Inv_reportTaskResult, HI.
  split; [|split; [|split]].
  - intros Hno. apply reportTaskResult_unknown.
    destruct (jsmap_get (r_taskId r) (activeTasks o)) as [ref|] eqn:Hg; [|done].
    destruct (Inv_active_task o _ _ HI Hg) as (_ & _ & _ & t & Hl & Hs & _).
    by destruct (Hno t Hl).
  - intros t Hl Hs.
    destruct (reportTaskResult_assigned now r o t HI Hl Hs) as (Hh & _ & Hr).
    fold o1 in Hh, Hr.
    assert (Hnew : o_heap o1 !! r_taskId r = Some (reported now r t)).
    { rewrite Hh. apply list_lookup_insert_eq. by eapply lookup_lt_Some. }
    split; [done|]. split.
    + unfold getTaskResult. rewrite Hr. apply jsmap_get_set_eq.
    + rewrite (getTask_Inv o1 _ HI1), Hnew. unfold reported, is_open.
      destruct (r_success r); [done|].
      by destruct (t_retries t <? t_maxRetries t).
  - intros id Hne.
    destruct (reportTaskResult_frame now r o id HI) as (Hh & _ & Hr & _); [done|].
    fold o1 in Hh, Hr. split; [done|]. split; [done|].
    by rewrite (getTask_Inv o1 _ HI1), (getTask_Inv o _ HI), Hh.
  - intros now' r' Hsame. apply reportTaskResult_unknown. rewrite Hsame.
    destruct (jsmap_get (r_taskId r) (activeTasks o)) as [ref|] eqn:Hg.
    + destruct (Inv_active_task o _ _ HI Hg) as (_ & _ & _ & t & Hl & Hs & _).
      destruct (reportTaskResult_assigned now r o t HI Hl Hs) as (_ & Ha & _).
      fold o1 in Ha. rewrite Ha. apply jsmap_get_delete_same, HI.
    + subst o1. by rewrite (reportTaskResult_unknown _ _ _ Hg).
Qed.

Lemma assign_loop_frame (now : Z) (rnd : nat -> Q) (refs : list TaskId) (id : TaskId) :
  forall i o, ~ In id refs ->
  let o' := assign_loop now rnd i refs o in
  o_heap o' !! id = o_heap o !! id /\ taskResults o' = taskResults o.
Proof.
  induction refs as [|ref refs IH]; intros i o Hnin; [done|].
  cbn [assign_loop].
  destruct (IH (S i) (assign_one now (rnd i) o ref)) as [Hh Hr];
    [intros Hin; apply Hnin; by right|].
  cbn zeta in Hh, Hr. rewrite Hh, Hr.
  destruct (o_heap o !! ref) as [task|] eqn:Hl.
  - destruct (assign_one_effect now (rnd i) o ref task Hl) as (_ & _ & Hres & Hcases).
    split; [|done].
    destruct Hcases as [(-> & _)|(a & _ & -> & _)]; [done|].
    apply list_lookup_insert_ne. intros ->. apply Hnin. by left.
  - by rewrite (assign_one_dangling _ _ _ _ Hl).
Qed.

(** No operation touches a finished task or its result. *)
Lemma terminal_step (o : Orchestrator) (op : Op) (id : TaskId) (t : Task) :
  Inv o -> o_heap o !! id = Some t -> is_terminal t ->
  o_heap (step o op) !! id = Some t /\
  jsmap_get id (taskResults (step o op)) = jsmap_get id (taskResults o).
Proof.
  intros HI Hl Hterm.
  assert (Hout : ~ in_queue o id /\ ~ in_active o id).
  { destruct (inv_task o HI _ _ Hl) as [_ Hloc]. unfold task_located in Hloc.
    destruct Hterm as [Hs|Hs]; rewrite Hs in Hloc; tauto. }
  destruct Hout as [Hnq Hna].
  destruct op as [now d|workerId|now p|now s|now r|now rnd|now]; cbn [step].
  - unfold registerWorker. by destruct (register now d (o_registry o)).
  - unfold unregisterWorker.
    destruct (unregister workerId (o_registry o)) as [[|] r1];
      by destruct (get workerId (o_registry o)).
  - unfold orchestrator_heartbeat. by destruct (heartbeat now p (o_registry o)).
  - destruct (submitTask_effect now s o) as (_ & _ & _ & Hr & Hcases).
    cbn zeta in Hr, Hcases. rewrite Hr. split; [|done].
    destruct Hcases as [->|(task & index & -> & _)]; [done|].
    rewrite lookup_app_l; [done|]. by eapply lookup_lt_Some.
  - destruct (decide (r_taskId r = id)) as [Heq|Hne].
    + rewrite reportTaskResult_unknown; [done|].
      rewrite Heq. by apply jsmap_get_None_keys.
    + destruct (reportTaskResult_frame now r o id HI Hne) as (Hh & _ & Hr & _).
      cbn zeta in Hh, Hr. by rewrite Hh, Hr.
  - unfold processQueue.
    destruct (sweep_frame now (activeTasks o) id o HI) as (HI1 & Hh & _ & Hr & Hq & _).
    { intros [k ref] Hin Hk. simpl in Hk. subst k. apply Hna.
      unfold in_active, jsmap_keys. change id with (fst (id, ref)). by apply in_map. }
    fold (checkTimeouts now o) in HI1, Hh, Hr, Hq. cbn zeta in Hh, Hr, Hq.
    set (o1 := checkTimeouts now o) in *.
    destruct (assign_loop_frame now rnd (List.filter (is_pending o1) (taskQueue o1)) id
                0%nat o1) as [Hh2 Hr2].
    { rewrite filter_In. intros [Hin _]. apply Hnq. by apply Hq. }
    cbn zeta in Hh2, Hr2. by rewrite Hh2, Hr2, Hh, Hr.
  - done.
Qed.

Lemma terminal_run (ops : list Op) (id : TaskId) (t : Task) :
  forall o, Inv o -> o_heap o !! id = Some t -> is_terminal t ->
  o_heap (run o ops) !! id = Some t /\
  jsmap_get id (taskResults (run o ops)) = jsmap_get id (taskResults o).
Proof.
  induction ops as [|op ops IH]; intros o HI Hl Hterm; [done|].
  rewrite run_cons.
  destruct (terminal_step o op id t HI Hl Hterm) as [Hl1 Hr1].
  destruct (IH (step o op) (Inv_step o op HI) Hl1 Hterm) as [Hl2 Hr2].
  by rewrite Hl2, Hr2, Hr1.
Qed.

(** X23. A finished task is final: once a task is completed or failed in a
    reachable state, no further sequence of operations changes the task
    object or its stored result, and the task never returns to the queue
    or to the active table ([getTask] no longer finds it). *)
Theorem finished_tasks_are_final (config : PartialConfig) (ops ops' : list Op)
    (id : TaskId) (t : Task)
    (Hfound : o_heap (run (new_Orchestrator config) ops) !! id = Some t)
    (Hfinished : is_terminal t) :
  let o := run (new_Orchestrator config) ops in
  let o' := run o ops' in
  o_heap o' !! id = Some t /\
  getTaskResult id o' = getTaskResult id o /\
  getTask id o' = None /\
  ~ in_queue o' id /\ ~ in_active o' id.
Proof.
  intros o o'. assert (HI : Inv o) by apply Inv_reachable.
  assert (HI' : Inv o') by apply Inv_run, HI.
  destruct (terminal_run ops' id t o HI Hfound Hfinished) as [Hl Hr].
  fold o' in Hl, Hr. split; [done|]. split; [done|].
  split.
  - rewrite (getTask_Inv o' id HI'), Hl. unfold is_open.
    by destruct Hfinished as [-> | ->].
  - destruct (inv_task o' HI' _ _ Hl) as [_ Hloc]. unfold task_located in Hloc.
    destruct Hfinished as [Hs|Hs]; rewrite Hs in Hloc; tauto.
Qed.

(** X23 on the happy path: the completed task survives a late failure
    report, a new submission and another tick. *)
Lemma finished_tasks_are_final_witness :
  o_heap (run (run (new_Orchestrator (config_with 5000 0))
                   [ OpRegisterWorker 1000 (worker_w1 "chat");
                     OpSubmitTask 1001 (submission "chat" None);
                     OpProcessQueue 2000 no_random;
                     OpReportTaskResult 2042
                       (mkTaskResult 0%nat "w1" true (Some "ok") None 42) ])
              [ OpReportTaskResult 2050 boom;
                OpSubmitTask 2060 (submission "chat" None);
                OpProcessQueue 3000 no_random ]) !! 0%nat =
  Some (set_completed 2042 (Some "ok") (set_assigned 2000 "w1" chat_task)).
Proof.
  refine (proj1 (finished_tasks_are_final (config_with 5000 0)
           [ OpRegisterWorker 1000 (worker_w1 "chat");
             OpSubmitTask 1001 (submission "chat" None);
             OpProcessQueue 2000 no_random;
             OpReportTaskResult 2042
               (mkTaskResult 0%nat "w1" true (Some "ok") None 42) ]
           [ OpReportTaskResult 2050 boom;
             OpSubmitTask 2060 (submission "chat" None);
             OpProcessQueue 3000 no_random ]
           0%nat
           (set_completed 2042 (Some "ok") (set_assigned 2000 "w1" chat_task))
           _ _)).
  - vm_compute. reflexivity.
  - left. reflexivity.
Defined.

(** ** Orchestrator: what one tick assigns *)










(** ** Orchestrator: task objects over time, and the order of the queue *)

Lemma later_of_refl (t : Task) : later_of t t.
Proof. unfold later_of. do 7 (split; [done|]). lia. Qed.

Lemma later_of_trans (t1 t2 t3 : Task) : later_of t1 t2 -> later_of t2 t3 -> later_of t1 t3.
Proof.
  unfold later_of.
  intros (H1 & H2 & H3 & H4 & H5 & H6 & H7 & H8) (G1 & G2 & G3 & G4 & G5 & G6 & G7 & G8).
  do 7 (split; [congruence|]). lia.
Qed.

Lemma heap_extends_refl (h : list Task) : heap_extends h h.
Proof. intros i t Hl. exists t. split; [done | apply later_of_refl]. Qed.

Lemma heap_extends_trans (h1 h2 h3 : list Task) :
  heap_extends h1 h2 -> heap_extends h2 h3 -> heap_extends h1 h3.
Proof.
  intros H12 H23 i t Hl. destruct (H12 i t Hl) as (t2 & Hl2 & Hlater2).
  destruct (H23 i t2 Hl2) as (t3 & Hl3 & Hlater3).
  exists t3. split; [done | by eapply later_of_trans].
Qed.

Lemma heap_extends_insert (h : list Task) (ref : TaskId) (t t' : Task) :
  h !! ref = Some t -> later_of t t' -> heap_extends h (<[ref := t']> h).
Proof.
  intros Hl Hlater i ti Hi. destruct (decide (ref = i)) as [->|Hne].
  - exists t'. split; [apply list_lookup_insert_eq; by eapply lookup_lt_Some|].
    unfold TaskId in *. congruence.
  - exists ti. split; [by rewrite list_lookup_insert_ne | apply later_of_refl].
Qed.

Lemma heap_extends_app (h : list Task) (t : Task) : heap_extends h (h ++ [t]).
Proof.
  intros i ti Hi. exists ti. split; [by apply lookup_app_l_Some | apply later_of_refl].
Qed.

Lemma later_of_updates (t : Task) (now : Z) (res : option Json) (err : option string)
    (w : string) :
  later_of t (set_completed now res t) /\ later_of t (set_retrying t) /\
  later_of t (set_failed now err t) /\ later_of t (set_assigned now w t).
Proof.
  unfold later_of. simpl.
  split; [|split; [|split]]; do 7 (split; [done|]); lia.
Qed.

Lemma heap_extends_reportTaskResult (now : Z) (r : TaskResult) (o : Orchestrator) :
  heap_extends (o_heap o) (o_heap (reportTaskResult now r o)).
Proof.
  destruct (jsmap_get (r_taskId r) (activeTasks o)) as [ref|] eqn:Hg.
  2:{ rewrite (reportTaskResult_unknown _ _ _ Hg). apply heap_extends_refl. }
  destruct (o_heap o !! ref) as [task|] eqn:Hl.
  2:{ rewrite (reportTaskResult_dangling _ _ _ _ Hg Hl). apply heap_extends_refl. }
  destruct (reportTaskResult_known now r o ref task Hg Hl) as (_ & _ & _ & _ & _ & Hcases).
  cbn zeta in Hcases.
  destruct (later_of_updates task now (r_result r) (r_error r) "") as (Hc & Hr & Hf & _).
  destruct Hcases as [(_ & -> & _)|[(_ & _ & -> & _)|(_ & _ & -> & _)]];
    by apply (heap_extends_insert _ _ task).
Qed.

Lemma heap_extends_sweep (now : Z) (entries : list (TaskId * TaskId)) :
  forall o, heap_extends (o_heap o) (o_heap (fold_left (sweep_one now) entries o)).
Proof.
  induction entries as [|e entries IH]; intros o; [apply heap_extends_refl|].
  cbn [fold_left]. eapply heap_extends_trans; [|apply IH].
  destruct (sweep_one_cases now o e) as [->|(task & at_ & _ & _ & _ & _ & ->)];
    [apply heap_extends_refl | apply heap_extends_reportTaskResult].
Qed.

Lemma heap_extends_assign_one (now : Z) (u : Q) (o : Orchestrator) (ref : TaskId) :
  heap_extends (o_heap o) (o_heap (assign_one now u o ref)).
Proof.
  destruct (o_heap o !! ref) as [task|] eqn:Hl.
  2:{ rewrite (assign_one_dangling _ _ _ _ Hl). apply heap_extends_refl. }
  destruct (assign_one_effect now u o ref task Hl) as (_ & _ & _ & Hcases).
  cbn zeta in Hcases.
  destruct Hcases as [(-> & _)|(a & _ & -> & _)]; [apply heap_extends_refl|].
  apply (heap_extends_insert _ _ task); [done|].
  by destruct (later_of_updates task now None None (a_workerId a)) as (_ & _ & _ & Ha).
Qed.

Lemma heap_extends_assign_loop (now : Z) (rnd : nat -> Q) (refs : list TaskId) :
  forall i o, heap_extends (o_heap o) (o_heap (assign_loop now rnd i refs o)).
Proof.
  induction refs as [|ref refs IH]; intros i o; [apply heap_extends_refl|].
  cbn [assign_loop]. eapply heap_extends_trans; [|apply IH].
  apply heap_extends_assign_one.
Qed.

Lemma heap_extends_step (o : Orchestrator) (op : Op) :
  heap_extends (o_heap o) (o_heap (step o op)).
Proof.
  destruct op as [now d|workerId|now p|now s|now r|now rnd|now]; cbn [step].
  - unfold registerWorker. destruct (register now d (o_registry o)).
    apply heap_extends_refl.
  - unfold unregisterWorker.
    destruct (unregister workerId (o_registry o)) as [[|] r1];
      destruct (get workerId (o_registry o)); apply heap_extends_refl.
  - unfold orchestrator_heartbeat. destruct (heartbeat now p (o_registry o)).
    apply heap_extends_refl.
  - destruct (submitTask_effect now s o) as (_ & _ & _ & _ & Hcases).
    cbn zeta in Hcases.
    destruct Hcases as [->|(task & index & -> & _)];
      [apply heap_extends_refl | apply heap_extends_app].
  - apply heap_extends_reportTaskResult.
  - unfold processQueue. eapply heap_extends_trans; [|apply heap_extends_assign_loop].
    apply heap_extends_sweep.
  - apply heap_extends_refl.
Qed.

Lemma heap_extends_run (ops : list Op) :
  forall o, heap_extends (o_heap o) (o_heap (run o ops)).
Proof.
  induction ops as [|op ops IH]; intros o; [apply heap_extends_refl|].
  rewrite run_cons. eapply heap_extends_trans; [apply heap_extends_step | apply IH].
Qed.

(** X25. A task object is never dropped and what was submitted is never
    rewritten: from any state and through any sequence of operations, a
    task keeps its identifier, type, payload, priority, creation time,
    retry budget and timeout, and its retry count never goes down. *)
Theorem task_data_is_kept (o : Orchestrator) (ops : list Op) (id : TaskId) (t : Task)
    (Hfound : o_heap o !! id = Some t) :
  exists t',
    o_heap (run o ops) !! id = Some t' /\
    t_id t' = t_id t /\ t_type t' = t_type t /\ t_payload t' = t_payload t /\
    t_priority t' = t_priority t /\ t_createdAt t' = t_createdAt t /\
    t_maxRetries t' = t_maxRetries t /\ t_timeoutMs t' = t_timeoutMs t /\
    t_retries t <= t_retries t'.
Proof. exact (heap_extends_run ops o id t Hfound). Qed.

(** X25 on scenario 2: the task assigned in the first tick, after the
    failure report, the second tick and the second failure report. *)
Lemma task_data_is_kept_witness :
  exists t',
    o_heap (run (run (new_Orchestrator (config_with 60000 1))
                     [ OpRegisterWorker 1000 (worker_w1 "code");
                       OpSubmitTask 1001 (submission "code" None) ])
                [ OpProcessQueue 2000 no_random;
                  OpReportTaskResult 2010 boom;
                  OpProcessQueue 3000 no_random;
                  OpReportTaskResult 3010 boom ]) !! 0%nat = Some t' /\
    t_type t' = "code" /\ t_priority t' = normal /\ 0 <= t_retries t'.
Proof.
  destruct (task_data_is_kept
              (run (new_Orchestrator (config_with 60000 1))
                   [ OpRegisterWorker 1000 (worker_w1 "code");
                     OpSubmitTask 1001 (submission "code" None) ])
              [ OpProcessQueue 2000 no_random;
                OpReportTaskResult 2010 boom;
                OpProcessQueue 3000 no_random;
                OpReportTaskResult 3010 boom ]
              0%nat
              (mkTask 0%nat "code" "{}" normal pending 1001 None None None None None 0 1 60000)
              eq_refl)
    as (t' & Hl & _ & Htype & _ & Hprio & _ & _ & _ & Hretries).
  exists t'. split; [exact Hl|]. split; [exact Htype|]. split; [exact Hprio | exact Hretries].
Defined.

Lemma rank_sorted_later (h h' : list Task) (l : list TaskId) :
  heap_extends h h' -> (forall e, In e l -> is_Some (h !! e)) ->
  StronglySorted (rank_le h) l -> StronglySorted (rank_le h') l.
Proof.
  intros Hext Hlive Hsorted.
  assert (Hback : forall e t', In e l -> h' !! e = Some t' ->
            exists t, h !! e = Some t /\ t_priority t' = t_priority t).
  { intros e t' He Hl'. destruct (Hlive e He) as [t Ht].
    destruct (Hext e t Ht) as (t2 & Ht2 & Hlater). exists t. split; [done|].
    unfold TaskId in *. assert (t2 = t') by congruence. subst t2. apply Hlater. }
  clear Hext Hlive.
  induction Hsorted as [|a l Hs IH Hfa]; constructor.
  - apply IH. intros e t' He. apply Hback. by right.
  - rewrite List.Forall_forall in *. intros b Hb ta' tb' Hta' Htb'.
    destruct (Hback a ta') as (ta & Hta & ->); [by left|done|].
    destruct (Hback b tb') as (tb & Htb & ->); [by right|done|].
    by apply (Hfa b Hb).
Qed.

Lemma insert_rank_sorted (heap : list Task) (ref : TaskId) (task : Task)
    (l1 l2 : list TaskId) :
  heap !! ref = Some task ->
  (forall e, In e (l1 ++ l2) -> is_Some (heap !! e)) ->
  (forall e te, In e l1 -> heap !! e = Some te ->
                priorityOrder (t_priority te) <= priorityOrder (t_priority task)) ->
  (forall e te, l2 !! 0%nat = Some e -> heap !! e = Some te ->
                priorityOrder (t_priority task) < priorityOrder (t_priority te)) ->
  StronglySorted (rank_le heap) (l1 ++ l2) ->
  StronglySorted (rank_le heap) (l1 ++ ref :: l2).
Proof.
  intros Hl Hlive Hbefore Hat Hsorted.
  apply StronglySorted_app in Hsorted as (H12 & H1 & H2).
  assert (Hafter : Forall (rank_le heap ref) l2).
  { destruct l2 as [|e0 l2']; [constructor|].
    destruct (Hlive e0) as [te0 Hte0]; [apply in_or_app; right; by left|].
    pose proof (Hat e0 te0 eq_refl Hte0) as Hlt.
    apply StronglySorted_cons in H2 as [Hfa _].
    constructor.
    - intros ta tb Hta Htb. unfold TaskId in *.
      assert (ta = task) by congruence. assert (tb = te0) by congruence. subst. lia.
    - apply List.Forall_forall. intros x Hx ta tb Hta Htb.
      rewrite List.Forall_forall in Hfa.
      pose proof (Hfa x Hx te0 tb Hte0 Htb). unfold TaskId in *.
      assert (ta = task) by congruence. subst. lia. }
  apply StronglySorted_app. split; [|split; [done|]].
  - intros x1 x2 Hx1 Hx2. apply elem_of_cons in Hx2 as [->|Hx2]; [|by apply H12].
    apply list_elem_of_In in Hx1. intros ta tb Hta Htb.
    pose proof (Hbefore x1 ta Hx1 Hta). unfold TaskId in *.
    assert (tb = task) by congruence. by subst.
  - apply StronglySorted_cons. done.
Qed.

Lemma splice_remove_sorted {A : Type} (R : A -> A -> Prop) (index : nat) (l : list A) :
  StronglySorted R l -> StronglySorted R (splice_remove index l).
Proof.
  intros Hs. unfold splice_remove.
  rewrite <- (take_drop index l) in Hs.
  apply StronglySorted_app in Hs as (H12 & H1 & H2).
  apply StronglySorted_app. split; [|split; [done|]].
  - intros x1 x2 Hx1 Hx2. apply H12; [done|].
    rewrite <- (take_drop 1 (drop index l)), drop_drop, Nat.add_1_r.
    apply elem_of_app. by right.
  - rewrite <- (take_drop 1 (drop index l)), drop_drop, Nat.add_1_r in H2.
    by apply StronglySorted_app in H2 as (_ & _ & H2).
Qed.

Lemma RankSorted_insertByPriority (ref : TaskId) (o : Orchestrator) (task : Task) :
  o_heap o !! ref = Some task ->
  (forall e, in_queue o e -> is_Some (o_heap o !! e)) ->
  RankSorted o -> RankSorted (insertByPriority ref o).
Proof.
  intros Hl Hlive Hsorted. unfold RankSorted in *.
  destruct (insertByPriority_position ref o task Hl Hlive)
    as (l1 & l2 & Hq & Hq' & Hbefore & Hat).
  destruct (insertByPriority_fields ref o) as (Hh & _). rewrite Hh, Hq'.
  rewrite Hq in Hsorted. apply (insert_rank_sorted _ _ task); try done.
  intros e He. apply Hlive. unfold in_queue. by rewrite Hq.
Qed.

(** A report for an active task whose retry budget is not used up. *)
Lemma reportTaskResult_retry (now : Z) (r : TaskResult) (o : Orchestrator)
    (ref : TaskId) (task : Task) :
  jsmap_get (r_taskId r) (activeTasks o) = Some ref ->
  o_heap o !! ref = Some task ->
  r_success r = false -> t_retries task < t_maxRetries task ->
  reportTaskResult now r o =
    insertByPriority ref
      (mutate ref set_retrying
         (with_results (jsmap_set (r_taskId r) r (taskResults o))
            (with_active (jsmap_delete (r_taskId r) (activeTasks o)) o))).
Proof.
  intros Hg Hl Hs Hlt. unfold reportTaskResult. rewrite Hg. cbn zeta.
  cbn [o_heap with_results with_active]. rewrite Hl, Hs.
  by destruct (Z.ltb_spec (t_retries task) (t_maxRetries task)); [|lia].
Qed.

Lemma RankSorted_reportTaskResult (now : Z) (r : TaskResult) (o : Orchestrator) :
  Inv o -> RankSorted o -> RankSorted (reportTaskResult now r o).
Proof.
  intros HI Hsorted.
  destruct (jsmap_get (r_taskId r) (activeTasks o)) as [ref|] eqn:Hg.
  2:{ by rewrite (reportTaskResult_unknown _ _ _ Hg). }
  destruct (Inv_active_task o _ _ HI Hg) as (-> & _ & Hnq & task & Hl & _ & _).
  pose proof (heap_extends_reportTaskResult now r o) as Hext.
  assert (Hlive : forall e, In e (taskQueue o) -> is_Some (o_heap o !! e))
    by apply (inv_queue_live o HI).
  destruct (reportTaskResult_known now r o _ task Hg Hl) as (_ & _ & _ & _ & _ & Hcases).
  cbn zeta in Hcases.
  destruct Hcases as [(_ & _ & Hq & _)|[(Hs & Hlt & Hh & _)|(_ & _ & _ & Hq & _)]].
  - unfold RankSorted. rewrite Hq. by apply (rank_sorted_later (o_heap o)).
  - rewrite (reportTaskResult_retry now r o _ task Hg Hl Hs Hlt) in *.
    set (o1 := with_results _ _) in *.
    assert (Hl1 : o_heap o1 !! r_taskId r = Some task) by done.
    destruct (mutate_fields (r_taskId r) set_retrying o1) as (Hq2 & _).
    pose proof (mutate_heap _ set_retrying o1 _ Hl1) as Hh2.
    set (o2 := mutate (r_taskId r) set_retrying o1) in *.
    assert (Hlen : (r_taskId r < length (o_heap o))%nat) by by eapply lookup_lt_Some.
    apply (RankSorted_insertByPriority _ o2 (set_retrying task)).
    + rewrite Hh2. by apply list_lookup_insert_eq.
    + intros e He. unfold in_queue in He. rewrite Hq2 in He. rewrite Hh2.
      apply is_Some_lookup_insert. by apply Hlive.
    + unfold RankSorted. rewrite Hq2, Hh2. apply (rank_sorted_later (o_heap o)); try done.
      apply (heap_extends_insert _ _ task); [done|].
      by destruct (later_of_updates task now None None "") as (_ & Hr & _).
  - unfold RankSorted. rewrite Hq. by apply (rank_sorted_later (o_heap o)).
Qed.

Lemma RankSorted_sweep (now : Z) (entries : list (TaskId * TaskId)) :
  forall o, Inv o -> RankSorted o -> RankSorted (fold_left (sweep_one now) entries o).
Proof.
  induction entries as [|e entries IH]; intros o HI Hsorted; [done|].
  cbn [fold_left]. apply IH; [by apply Inv_sweep_one|].
  destruct (sweep_one_cases now o e) as [->|(task & at_ & _ & _ & _ & _ & ->)];
    [done | by apply RankSorted_reportTaskResult].
Qed.

Lemma RankSorted_assign_one (now : Z) (u : Q) (o : Orchestrator) (ref : TaskId) :
  Inv o -> RankSorted o -> RankSorted (assign_one now u o ref).
Proof.
  intros HI Hsorted.
  pose proof (heap_extends_assign_one now u o ref) as Hext.
  destruct (o_heap o !! ref) as [task|] eqn:Hl.
  2:{ by rewrite (assign_one_dangling _ _ _ _ Hl). }
  destruct (assign_one_effect now u o ref task Hl) as (_ & _ & _ & Hcases).
  cbn zeta in Hcases. unfold RankSorted in *.
  destruct Hcases as [(-> & -> & _)|(a & _ & _ & Hq & _)]; [done|].
  rewrite Hq. destruct (indexOf ref (taskQueue o) 0) as [index|].
  - apply splice_remove_sorted. apply (rank_sorted_later (o_heap o)); try done.
    apply (inv_queue_live o HI).
  - apply (rank_sorted_later (o_heap o)); try done. apply (inv_queue_live o HI).
Qed.

Lemma RankSorted_assign_loop (now : Z) (rnd : nat -> Q) (refs : list TaskId) :
  forall i o, Inv o -> NoDup refs -> (forall ref, In ref refs -> in_queue o ref) ->
  RankSorted o -> RankSorted (assign_loop now rnd i refs o).
Proof.
  induction refs as [|ref refs IH]; intros i o HI Hnd Hin Hsorted; [done|].
  cbn [assign_loop]. apply NoDup_cons in Hnd as [Hnin Hnd].
  rewrite list_elem_of_In in Hnin.
  destruct (Inv_assign_one now (rnd i) o ref HI) as [HI1 Hkeep]; [apply Hin; by left|].
  apply IH; try done.
  - intros y Hy. apply Hkeep; [intros ->; done | apply Hin; by right].
  - by apply RankSorted_assign_one.
Qed.

Lemma RankSorted_step (o : Orchestrator) (op : Op) :
  Inv o -> RankSorted o -> RankSorted (step o op).
Proof.
  intros HI Hsorted.
  destruct op as [now d|workerId|now p|now s|now r|now rnd|now]; cbn [step].
  - unfold registerWorker. by destruct (register now d (o_registry o)).
  - unfold unregisterWorker.
    destruct (unregister workerId (o_registry o)) as [[|] r1];
      by destruct (get workerId (o_registry o)).
  - unfold orchestrator_heartbeat. by destruct (heartbeat now p (o_registry o)).
  - destruct (submitTask_accepts now s o) as [->|(task & Hid & _ & ->)]; [done|].
    set (o1 := with_heap (o_heap o ++ [task]) o).
    assert (Hlive1 : forall e, in_queue o1 e -> is_Some (o_heap o1 !! e)).
    { intros e He. destruct (inv_queue_live o HI e He) as [te Hte]. exists te.
      by apply lookup_app_l_Some. }
    apply (RankSorted_insertByPriority _ o1 task); [by apply list_lookup_middle|done|].
    unfold RankSorted. apply (rank_sorted_later (o_heap o)); try done.
    + apply heap_extends_app.
    + apply (inv_queue_live o HI).
  - by apply RankSorted_reportTaskResult.
  - unfold processQueue.
    pose proof (Inv_checkTimeouts now o HI) as HI1.
    pose proof (RankSorted_sweep now (activeTasks o) o HI Hsorted) as Hs1.
    fold (checkTimeouts now o) in Hs1. set (o1 := checkTimeouts now o) in *.
    apply RankSorted_assign_loop; try done.
    + apply NoDup_ListNoDup, List.NoDup_filter, NoDup_ListNoDup, HI1.
    + intros ref Href. apply filter_In in Href. apply Href.
  - done.
Qed.

Lemma RankSorted_run (ops : list Op) :
  forall o, Inv o -> RankSorted o -> RankSorted (run o ops).
Proof.
  induction ops as [|op ops IH]; intros o HI Hsorted; [done|].
  rewrite run_cons. apply IH; [by apply Inv_step | by apply RankSorted_step].
Qed.

(** X26. In every reachable state the queue is ordered by rank: a task is
    never queued behind a task of a lower priority ([critical] before
    [high] before [normal] before [low]), whatever mix of submissions,
    retries, timeouts and assignments produced the queue. *)
Theorem queue_is_rank_sorted (config : PartialConfig) (ops : list Op) :
  let o := run (new_Orchestrator config) ops in
  forall i j a b ta tb,
    (i < j)%nat ->
    taskQueue o !! i = Some a -> taskQueue o !! j = Some b ->
    o_heap o !! a = Some ta -> o_heap o !! b = Some tb ->
    priorityOrder (t_priority ta) <= priorityOrder (t_priority tb).
Proof.
  intros o i j a b ta tb Hij Hi Hj Hta Htb.
  assert (Hsorted : RankSorted o).
  { apply RankSorted_run; [apply Inv_new | constructor]. }
  unfold RankSorted in Hsorted.
  rewrite <- (take_drop_middle _ _ _ Hi) in Hsorted, Hj.
  apply StronglySorted_app in Hsorted as (_ & _ & Hs).
  apply StronglySorted_cons in Hs as [Hfa _].
  rewrite Forall_forall in Hfa.
  rewrite lookup_app_r in Hj by (rewrite length_take; lia).
  rewrite length_take_le in Hj by (apply Nat.lt_le_incl; by eapply lookup_lt_Some).
  destruct (j - i)%nat as [|k] eqn:Hk; [lia|]. cbn in Hj.
  apply list_elem_of_lookup_2 in Hj. by apply (Hfa b Hj ta tb).
Qed.

(** X26 on scenario 3: the critical task submitted last is queued ahead
    of the high one. *)
Lemma queue_is_rank_sorted_witness :
  priorityOrder
    (t_priority (mkTask 3%nat "t" "{}" critical pending 4 None None None None None 0 2 60000))
  <= priorityOrder
       (t_priority (mkTask 1%nat "t" "{}" high pending 2 None None None None None 0 2 60000)).
Proof.
  refine (queue_is_rank_sorted (config_with 60000 2)
            [ OpSubmitTask 1 (submission "t" (Some normal));
              OpSubmitTask 2 (submission "t" (Some high));
              OpSubmitTask 3 (submission "t" (Some normal));
              OpSubmitTask 4 (submission "t" (Some critical)) ]
            0%nat 1%nat 3%nat 1%nat
            (mkTask 3%nat "t" "{}" critical pending 4 None None None None None 0 2 60000)
            (mkTask 1%nat "t" "{}" high pending 2 None None None None None 0 2 60000)
            _ _ _ _ _).
  - lia.
  - vm_compute. reflexivity.
  - vm_compute. reflexivity.
  - vm_compute. reflexivity.
  - vm_compute. reflexivity.
Defined.

(** ** Orchestrator: what [stats] counts *)

Lemma count_by_index (P : Task -> bool) (h : list Task) :
  length (List.filter (fun i => match h !! i with Some t => P t | None => false end)
                      (seq 0 (length h))) =
  length (List.filter P h).
Proof.
  induction h as [|x h IH] using rev_ind; [done|].
  rewrite length_app. cbn [length]. rewrite Nat.add_1_r, seq_S. cbn [Nat.add].
  rewrite !List.filter_app, !length_app. f_equal.
  - rewrite <- IH. f_equal. apply List.filter_ext_in. intros i Hi. apply in_seq in Hi.
    rewrite lookup_app_l by lia. done.
  - cbn [List.filter]. rewrite list_lookup_middle by done. by destruct (P x).
Qed.

Lemma length_by_index (P : Task -> bool) (h : list Task) (l : list TaskId) :
  NoDup l ->
  (forall i, In i l <-> exists t, h !! i = Some t /\ P t = true) ->
  length l = length (List.filter P h).
Proof.
  intros Hnd Hiff. unfold TaskId in *. rewrite <- count_by_index. apply Permutation_length.
  apply NoDup_Permutation; [done| |].
  - apply NoDup_ListNoDup, List.NoDup_filter, List.seq_NoDup.
  - intros i. rewrite !list_elem_of_In, filter_In, in_seq, Hiff. split.
    + intros (t & Ht & HP). rewrite Ht. split; [|done].
      apply lookup_lt_Some in Ht. lia.
    + intros [_ HP]. destruct (h !! i) as [t|]; [by exists t | done].
Qed.

Lemma status_partition (h : list Task) :
  Forall (fun t => t_status t <> running /\ t_status t <> timeout) h ->
  Z.of_nat (length h) =
    count_tasks pending h + count_tasks assigned h +
    count_tasks completed h + count_tasks failed h.
Proof.
  unfold count_tasks. induction 1 as [|t h [Hr Ht] _ IH]; [done|].
  cbn [length List.filter]. destruct (t_status t); cbn [TaskStatus_eqb length]; try done; lia.
Qed.

(** X27. In every reachable state, [stats()] reports as [queued] the
    number of pending tasks and as [active] the number of assigned tasks,
    and every task ever accepted is pending, assigned, completed or
    failed: the number of tasks issued is [queued] plus [active] plus the
    completed and the failed ones. *)
Theorem stats_counts_open_tasks (config : PartialConfig) (ops : list Op) :
  let o := run (new_Orchestrator config) ops in
  let s := st_tasks (stats o) in
  queued s = count_tasks pending (o_heap o) /\
  active s = count_tasks assigned (o_heap o) /\
  Z.of_nat (length (o_heap o)) =
    queued s + active s + count_tasks completed (o_heap o) + count_tasks failed (o_heap o).
Proof.
  intros o s. assert (HI : Inv o) by apply Inv_reachable.
  assert (Hq : queued s = count_tasks pending (o_heap o)).
  { subst s. unfold stats, count_tasks. cbn [st_tasks queued]. f_equal.
    apply length_by_index; [apply HI|]. intros i. split.
    - intros Hin. destruct (Inv_queued_task o i HI Hin) as (_ & t & Hl & Hs & _).
      exists t. by rewrite Hs.
    - intros (t & Hl & Hs). destruct (inv_task o HI _ _ Hl) as [_ Hloc].
      unfold task_located in Hloc. destruct (t_status t); try done. apply Hloc. }
  assert (Ha : active s = count_tasks assigned (o_heap o)).
  { subst s. unfold stats, count_tasks. cbn [st_tasks active]. f_equal.
    rewrite <- (length_map fst (activeTasks o)).
    apply length_by_index; [apply HI|]. intros i. split.
    - intros Hin. pose proof (active_lookup o i HI Hin) as Hg.
      destruct (Inv_active_task o _ _ HI Hg) as (_ & _ & _ & t & Hl & Hs & _).
      exists t. by rewrite Hs.
    - intros (t & Hl & Hs). destruct (inv_task o HI _ _ Hl) as [_ Hloc].
      unfold task_located in Hloc. destruct (t_status t); try done. apply Hloc. }
  split; [done|]. split; [done|]. rewrite Hq, Ha.
  apply status_partition. apply Forall_forall. intros t Ht.
  apply list_elem_of_lookup_1 in Ht as [i Hl].
  destruct (inv_task o HI _ _ Hl) as [_ Hloc]. unfold task_located in Hloc.
  by destruct (t_status t).
Qed.

(** ** Orchestrator: notifications of finished tasks *)

Lemma count_tasks_insert (s : TaskStatus) (h : list Task) (ref : nat) (t t' : Task) :
  h !! ref = Some t ->
  count_tasks s (<[ref := t']> h) =
    count_tasks s h - (if TaskStatus_eqb (t_status t) s then 1 else 0)
                    + (if TaskStatus_eqb (t_status t') s then 1 else 0).
Proof.
  intros Hl. unfold count_tasks.
  pose proof (take_drop_middle h ref t Hl) as Hmid.
  rewrite insert_take_drop by by eapply lookup_lt_Some.
  set (l1 := take ref h) in *. set (l2 := drop (S ref) h) in *. clearbody l1 l2.
  rewrite <- Hmid, !List.filter_app, !length_app. cbn [List.filter].
  destruct (TaskStatus_eqb (t_status t) s), (TaskStatus_eqb (t_status t') s);
    cbn [length]; lia.
Qed.

Lemma count_tasks_app (s : TaskStatus) (h : list Task) (t : Task) :
  count_tasks s (h ++ [t]) =
    count_tasks s h + (if TaskStatus_eqb (t_status t) s then 1 else 0).
Proof.
  unfold count_tasks. rewrite List.filter_app, length_app. cbn [List.filter].
  destruct (TaskStatus_eqb (t_status t) s); cbn [length]; lia.
Qed.

Lemma EvInv_ext (o o' : Orchestrator) :
  o_heap o' = o_heap o -> o_events o' = o_events o -> EvInv o -> EvInv o'.
Proof. unfold EvInv. by intros -> ->. Qed.

(** The task object [ref], not finished so far, is replaced by [t'] and
    [evs] is emitted: nothing, an assignment, or the notification that
    matches the new status. *)
Lemma EvInv_update (o o' : Orchestrator) (ref : TaskId) (t t' : Task) (evs : list Event) :
  EvInv o -> o_heap o !! ref = Some t ->
  t_status t = pending \/ t_status t = assigned ->
  o_heap o' = <[ref := t']> (o_heap o) ->
  o_events o' = (o_events o ++ evs)%list ->
  ((evs = [] \/ exists w, evs = [onTaskAssigned ref w]) /\
   (t_status t' = pending \/ t_status t' = assigned)) \/
  (exists r, evs = [onTaskCompleted r] /\ r_taskId r = ref /\ t_status t' = completed) \/
  (exists err, evs = [onTaskFailed ref err] /\ t_status t' = failed) ->
  EvInv o'.
Proof.
  intros (Hc & Hf & Hce & Hfe & Hcc & Hff) Hl Hopen Hh He Hcases. unfold EvInv.
  rewrite Hh, He, !List.filter_app, !length_app, !Nat2Z.inj_add, Hc, Hf.
  rewrite !(count_tasks_insert _ _ _ t t' Hl).
  assert (Hlen : (ref < length (o_heap o))%nat) by by eapply lookup_lt_Some.
  assert (Hold : forall i ti, i <> ref -> o_heap o !! i = Some ti ->
            <[ref := t']> (o_heap o) !! i = Some ti).
  { intros i ti Hne Hi. by rewrite list_lookup_insert_ne. }
  assert (Hnc : forall r, In (onTaskCompleted r) (o_events o) -> r_taskId r <> ref).
  { intros r Hin Heq. destruct (Hce r Hin) as (t0 & Ht0 & Hs0). unfold TaskId in *.
    assert (t0 = t) by congruence. subst t0. destruct Hopen; congruence. }
  assert (Hnf : forall id err, In (onTaskFailed id err) (o_events o) -> id <> ref).
  { intros id err Hin Heq. destruct (Hfe id err Hin) as (t0 & Ht0 & Hs0). unfold TaskId in *.
    assert (t0 = t) by congruence. subst t0. destruct Hopen; congruence. }
  assert (Hst : TaskStatus_eqb (t_status t) completed = false /\
                TaskStatus_eqb (t_status t) failed = false)
    by (destruct Hopen as [-> | ->]; done).
  destruct Hst as [-> ->].
  assert (Hkeepc : forall r, In (onTaskCompleted r) (o_events o) ->
            exists t0, <[ref := t']> (o_heap o) !! r_taskId r = Some t0 /\
                       t_status t0 = completed).
  { intros r Hin. destruct (Hce r Hin) as (t0 & Ht0 & Hs0). exists t0.
    split; [apply Hold; [by apply Hnc|done] | done]. }
  assert (Hkeepf : forall id err, In (onTaskFailed id err) (o_events o) ->
            exists t0, <[ref := t']> (o_heap o) !! id = Some t0 /\ t_status t0 = failed).
  { intros id err Hin. destruct (Hfe id err Hin) as (t0 & Ht0 & Hs0). exists t0.
    split; [apply Hold; [by eapply Hnf|done] | done]. }
  assert (Hnew : <[ref := t']> (o_heap o) !! ref = Some t')
    by by apply list_lookup_insert_eq.
  assert (Hback : forall id ti, <[ref := t']> (o_heap o) !! id = Some ti ->
            (id = ref /\ ti = t') \/ (id <> ref /\ o_heap o !! id = Some ti)).
  { intros id ti Hi. destruct (decide (id = ref)) as [->|Hne].
    - left. unfold TaskId in *. split; [done | congruence].
    - right. split; [done|]. by rewrite list_lookup_insert_ne in Hi. }
  assert (Hcc' : forall id ti, id <> ref -> o_heap o !! id = Some ti ->
            t_status ti = completed ->
            exists r, In (onTaskCompleted r) (o_events o ++ evs) /\ r_taskId r = id).
  { intros id ti _ Hi Hs. destruct (Hcc id ti Hi Hs) as (r & Hin & Hr).
    exists r. split; [apply in_or_app; by left | done]. }
  assert (Hff' : forall id ti, id <> ref -> o_heap o !! id = Some ti ->
            t_status ti = failed ->
            exists err, In (onTaskFailed id err) (o_events o ++ evs)).
  { intros id ti _ Hi Hs. destruct (Hff id ti Hi Hs) as (err & Hin).
    exists err. apply in_or_app. by left. }
  destruct Hcases as [[Hevs Hs']|[(r & -> & Hr & Hs')|(err & -> & Hs')]].
  - assert (Hs2 : TaskStatus_eqb (t_status t') completed = false /\
                  TaskStatus_eqb (t_status t') failed = false)
      by (destruct Hs' as [-> | ->]; done).
    destruct Hs2 as [-> ->].
    assert (Hfil : List.filter is_completed_event evs = [] /\
                   List.filter is_failed_event evs = [] /\
                   (forall r, ~ In (onTaskCompleted r) evs) /\
                   (forall id err, ~ In (onTaskFailed id err) evs)).
    { destruct Hevs as [->|[w ->]]; (split; [done|]); (split; [done|]); split;
        intros; simpl; intros Hx; repeat destruct Hx as [Hx|Hx]; done. }
    destruct Hfil as (-> & -> & Hn1 & Hn2). cbn [length].
    split; [lia|]. split; [lia|]. split; [|split; [|split]].
    + intros r Hin. apply in_app_or in Hin as [Hin|Hin]; [by apply Hkeepc|].
      by destruct (Hn1 r).
    + intros id err Hin. apply in_app_or in Hin as [Hin|Hin]; [by eapply Hkeepf|].
      by destruct (Hn2 id err).
    + intros id ti Hi Hs. destruct (Hback id ti Hi) as [[-> ->]|[Hne Hi']];
        [destruct Hs'; congruence | by eapply Hcc'].
    + intros id ti Hi Hs. destruct (Hback id ti Hi) as [[-> ->]|[Hne Hi']];
        [destruct Hs'; congruence | by eapply Hff'].
  - rewrite Hs'. cbn [List.filter is_completed_event is_failed_event length TaskStatus_eqb].
    split; [lia|]. split; [lia|]. split; [|split; [|split]].
    + intros r0 Hin. apply in_app_or in Hin as [Hin|[[= <-]|[]]]; [by apply Hkeepc|].
      exists t'. by rewrite Hr.
    + intros id err Hin. apply in_app_or in Hin as [Hin|[?|[]]]; [by eapply Hkeepf|done].
    + intros id ti Hi Hs. destruct (Hback id ti Hi) as [[-> ->]|[Hne Hi']];
        [|by eapply Hcc'].
      exists r. split; [apply in_or_app; right; by left | done].
    + intros id ti Hi Hs. destruct (Hback id ti Hi) as [[-> ->]|[Hne Hi']];
        [congruence | by eapply Hff'].
  - rewrite Hs'. cbn [List.filter is_completed_event is_failed_event length TaskStatus_eqb].
    split; [lia|]. split; [lia|]. split; [|split; [|split]].
    + intros r0 Hin. apply in_app_or in Hin as [Hin|[?|[]]]; [by apply Hkeepc|done].
    + intros id err0 Hin. apply in_app_or in Hin as [Hin|[[= <- <-]|[]]];
        [by eapply Hkeepf|]. by exists t'.
    + intros id ti Hi Hs. destruct (Hback id ti Hi) as [[-> ->]|[Hne Hi']];
        [congruence | by eapply Hcc'].
    + intros id ti Hi Hs. destruct (Hback id ti Hi) as [[-> ->]|[Hne Hi']];
        [|by eapply Hff'].
      exists err. apply in_or_app. right. by left.
Qed.

Lemma EvInv_reportTaskResult (now : Z) (r : TaskResult) (o : Orchestrator) :
  Inv o -> EvInv o -> EvInv (reportTaskResult now r o).
Proof.
  intros HI HE.
  destruct (jsmap_get (r_taskId r) (activeTasks o)) as [ref|] eqn:Hg.
  2:{ by rewrite (reportTaskResult_unknown _ _ _ Hg). }
  destruct (Inv_active_task o _ _ HI Hg) as (-> & _ & _ & task & Hl & Hs & _).
  destruct (reportTaskResult_known now r o _ task Hg Hl) as (_ & _ & _ & _ & _ & Hcases).
  cbn zeta in Hcases.
  destruct Hcases as [(_ & Hh & _ & He)|[(_ & _ & Hh & _ & He)|(_ & _ & Hh & _ & He)]].
  - eapply (EvInv_update o) with (t := task) (evs := [onTaskCompleted r]);
      [exact HE | exact Hl | by right | exact Hh | exact He |].
    right. left. by exists r.
  - eapply (EvInv_update o) with (t := task) (evs := []);
      [exact HE | exact Hl | by right | exact Hh | by rewrite app_nil_r |].
    left. split; [by left | by left].
  - eapply (EvInv_update o) with (t := task)
      (evs := [onTaskFailed (r_taskId r) (default "Unknown error" (r_error r))]);
      [exact HE | exact Hl | by right | exact Hh | exact He |].
    right. right. by eexists.
Qed.

Lemma EvInv_sweep (now : Z) (entries : list (TaskId * TaskId)) :
  forall o, Inv o -> EvInv o -> EvInv (fold_left (sweep_one now) entries o).
Proof.
  induction entries as [|e entries IH]; intros o HI HE; [done|].
  cbn [fold_left]. apply IH; [by apply Inv_sweep_one|].
  destruct (sweep_one_cases now o e) as [->|(task & at_ & _ & _ & _ & _ & ->)];
    [done | by apply EvInv_reportTaskResult].
Qed.

Lemma EvInv_assign_one (now : Z) (u : Q) (o : Orchestrator) (ref : TaskId) :
  Inv o -> in_queue o ref -> EvInv o -> EvInv (assign_one now u o ref).
Proof.
  intros HI Hq HE.
  destruct (Inv_queued_task o ref HI Hq) as (_ & task & Hl & Hs & _).
  destruct (assign_one_effect now u o ref task Hl) as (_ & _ & _ & Hcases).
  cbn zeta in Hcases.
  destruct Hcases as [(Hh & _ & _ & He)|(a & _ & Hh & _ & _ & He)].
  - by apply (EvInv_ext o).
  - eapply (EvInv_update o) with (t := task) (evs := [onTaskAssigned ref (a_workerId a)]);
      [exact HE | exact Hl | by left | exact Hh | exact He |].
    left. split; [right; by eexists | by right].
Qed.

Lemma EvInv_assign_loop (now : Z) (rnd : nat -> Q) (refs : list TaskId) :
  forall i o, Inv o -> NoDup refs -> (forall ref, In ref refs -> in_queue o ref) ->
  EvInv o -> EvInv (assign_loop now rnd i refs o).
Proof.
  induction refs as [|ref refs IH]; intros i o HI Hnd Hin HE; [done|].
  cbn [assign_loop]. apply NoDup_cons in Hnd as [Hnin Hnd].
  rewrite list_elem_of_In in Hnin.
  destruct (Inv_assign_one now (rnd i) o ref HI) as [HI1 Hkeep]; [apply Hin; by left|].
  apply IH; try done.
  - intros y Hy. apply Hkeep; [intros ->; done | apply Hin; by right].
  - apply EvInv_assign_one; [done| |done]. apply Hin. by left.
Qed.

Lemma EvInv_emit_worker (o : Orchestrator) (e : Event) :
  is_completed_event e = false -> is_failed_event e = false ->
  EvInv o -> EvInv (emit e o).
Proof.
  intros H1 H2 (Hc & Hf & Hce & Hfe & Hcc & Hff). unfold EvInv.
  cbn [emit o_events o_heap].
  rewrite !List.filter_app, !length_app. cbn [List.filter]. rewrite H1, H2.
  cbn [length]. rewrite !Nat.add_0_r.
  split; [done|]. split; [done|]. split; [|split; [|split]].
  - intros r Hin. apply in_app_or in Hin as [Hin|[->|[]]]; [by apply Hce|done].
  - intros id err Hin. apply in_app_or in Hin as [Hin|[->|[]]]; [by eapply Hfe|done].
  - intros id t Hi Hs. destruct (Hcc id t Hi Hs) as (r & Hin & Hr).
    exists r. split; [apply in_or_app; by left | done].
  - intros id t Hi Hs. destruct (Hff id t Hi Hs) as (err & Hin).
    exists err. apply in_or_app. by left.
Qed.

Lemma EvInv_step (o : Orchestrator) (op : Op) : Inv o -> EvInv o -> EvInv (step o op).
Proof.
  intros HI HE.
  destruct op as [now d|workerId|now p|now s|now r|now rnd|now]; cbn [step].
  - unfold registerWorker. destruct (register now d (o_registry o)) as [w r1].
    cbn [snd]. apply EvInv_emit_worker; [done | done | by apply (EvInv_ext o)].
  - unfold unregisterWorker.
    destruct (unregister workerId (o_registry o)) as [[|] r1];
      destruct (get workerId (o_registry o)); cbn [snd];
      try (by apply (EvInv_ext o)).
    apply EvInv_emit_worker; [done | done | by apply (EvInv_ext o)].
  - unfold orchestrator_heartbeat. destruct (heartbeat now p (o_registry o)).
    by apply (EvInv_ext o).
  - unfold submitTask.
    destruct (maxQueueSize (o_config o) <=? Z.of_nat (length (taskQueue o))); [done|].
    cbn [snd].
    match goal with |- EvInv (insertByPriority _ (with_heap (_ ++ [?t]) _)) =>
      set (task := t) end.
    assert (Hpending : t_status task = pending) by done.
    change (t_id task) with (length (o_heap o)). clearbody task.
    destruct (insertByPriority_fields (length (o_heap o))
                (with_heap (o_heap o ++ [task]) o)) as (Hh & _ & _ & _ & _ & _ & He).
    destruct HE as (Hc & Hf & Hce & Hfe & Hcc & Hff). unfold EvInv. rewrite Hh, He.
    cbn [o_heap o_events with_heap].
    rewrite !count_tasks_app, Hpending. cbn [TaskStatus_eqb].
    assert (Hback : forall id ti, (o_heap o ++ [task])%list !! id = Some ti ->
              t_status ti <> pending -> o_heap o !! id = Some ti).
    { intros id ti Hi Hs. apply lookup_app_Some in Hi as [Hi|[_ Hi]]; [done|].
      apply list_lookup_singleton_Some in Hi as [_ <-]. done. }
    split; [lia|]. split; [lia|]. split; [|split; [|split]].
    + intros r Hin. destruct (Hce r Hin) as (t0 & Ht0 & Hs0). exists t0.
      split; [by apply lookup_app_l_Some | done].
    + intros id err Hin. destruct (Hfe id err Hin) as (t0 & Ht0 & Hs0). exists t0.
      split; [by apply lookup_app_l_Some | done].
    + intros id ti Hi Hs. apply (Hcc id ti); [|done]. apply Hback; [done|congruence].
    + intros id ti Hi Hs. apply (Hff id ti); [|done]. apply Hback; [done|congruence].
  - by apply EvInv_reportTaskResult.
  - unfold processQueue.
    pose proof (Inv_checkTimeouts now o HI) as HI1.
    pose proof (EvInv_sweep now (activeTasks o) o HI HE) as HE1.
    fold (checkTimeouts now o) in HE1. set (o1 := checkTimeouts now o) in *.
    apply EvInv_assign_loop; try done.
    + apply NoDup_ListNoDup, List.NoDup_filter, NoDup_ListNoDup, HI1.
    + intros ref Href. apply filter_In in Href. apply Href.
  - by apply (EvInv_ext o).
Qed.

Lemma EvInv_new (config : PartialConfig) : EvInv (new_Orchestrator config).
Proof. unfold EvInv. cbn. repeat split; done. Qed.

Lemma EvInv_run (ops : list Op) : forall o, Inv o -> EvInv o -> EvInv (run o ops).
Proof.
  induction ops as [|op ops IH]; intros o HI HE; [done|].
  rewrite run_cons. apply IH; [by apply Inv_step | by apply EvInv_step].
Qed.

(** X28. Finished tasks and their notifications correspond in every
    reachable state: [onTaskCompleted] has been called as many times as
    there are completed tasks and [onTaskFailed] as many times as there
    are failed tasks; every such call names a task that is completed
    (failed), and every completed (failed) task has been notified. So each
    task is notified exactly once, when it finishes, and a task that is
    retried is not notified. *)
Theorem finished_tasks_are_notified (config : PartialConfig) (ops : list Op) :
  let o := run (new_Orchestrator config) ops in
  Z.of_nat (length (List.filter is_completed_event (o_events o)))
    = count_tasks completed (o_heap o) /\
  Z.of_nat (length (List.filter is_failed_event (o_events o)))
    = count_tasks failed (o_heap o) /\
  (forall r, In (onTaskCompleted r) (o_events o) ->
     exists t, o_heap o !! r_taskId r = Some t /\ t_status t = completed) /\
  (forall id err, In (onTaskFailed id err) (o_events o) ->
     exists t, o_heap o !! id = Some t /\ t_status t = failed) /\
  (forall id t, o_heap o !! id = Some t -> t_status t = completed ->
     exists r, In (onTaskCompleted r) (o_events o) /\ r_taskId r = id) /\
  (forall id t, o_heap o !! id = Some t -> t_status t = failed ->
     exists err, In (onTaskFailed id err) (o_events o)).
Proof. intros o. apply EvInv_run; [apply Inv_new | apply EvInv_new]. Qed.

(** ** WorkerHealthTracker: up time *)

Lemma accounted_step (clock : Z) (t : Health.WorkerHealthTracker) (c : Health.Call)
    (cs : list Health.Call) (now : Z) :
  Health.accounted clock t -> Health.clock_monotone clock (c :: cs) now ->
  exists clock', Health.accounted clock' (Health.step t c) /\
                 Health.clock_monotone clock' cs now.
Proof.
  unfold Health.accounted. intros (Hs & Hd & Hdown) Hclock.
  destruct c as [n n' d| |n|n|n]; cbn [Health.clock_monotone] in Hclock; cbn [Health.step].
  - destruct Hclock as (H1 & H2 & Hrest). exists n'. split; [|done].
    unfold Health.recordSuccess, Health.pruneLatencies. cbn.
    split; [lia|]. split; [done|]. destruct (Health.lastDownStart t); lia.
  - exists clock. split; [|done]. unfold Health.recordFailure. cbn. done.
  - destruct Hclock as (H1 & Hrest). exists n. split; [|done].
    unfold Health.markDown. destruct (Health.lastDownStart t) as [down|] eqn:Hl; cbn.
    + rewrite Hl. split; [lia|]. split; [done|]. lia.
    + split; [lia|]. split; [done|]. lia.
  - destruct Hclock as (H1 & Hrest). exists n. split; [|done].
    unfold Health.markUp. destruct (Health.lastDownStart t) as [down|] eqn:Hl; cbn.
    + split; [lia|]. split; lia.
    + rewrite Hl. split; [lia|]. split; [done|]. lia.
  - destruct Hclock as (H1 & Hrest). exists n. split; [|done].
    unfold Health.reset. cbn. lia.
Qed.

Lemma accounted_calls (calls : list Health.Call) (now : Z) :
  forall clock t,
  Health.accounted clock t -> Health.clock_monotone clock calls now ->
  exists clock', clock' <= now /\ Health.accounted clock' (fold_left Health.step calls t).
Proof.
  induction calls as [|c cs IH]; intros clock t Hacc Hclock.
  - exists clock. by split.
  - destruct (accounted_step clock t c cs now Hacc Hclock) as (clock' & Hacc' & Hclock').
    cbn [fold_left]. by apply (IH clock').
Qed.

(** X29. Up-time accounting of the health tracker. If the clock never runs
    backwards, then after any sequence of [recordSuccess], [recordFailure],
    [markDown], [markUp] and [reset] calls, [getMetrics] reports
    [totalMs] as the time since construction or the last reset, and an
    [uptimeMs] between 0 and [totalMs]: down time, including a down period
    that is still open, is never counted twice and never exceeds the life
    of the tracker. *)
Theorem tracker_uptime_within_total (id : string) (window : option Z) (t0 : Z)
    (calls : list Health.Call) (now currentLoad maxLoad : Z)
    (Hclock : Health.clock_monotone t0 calls now) :
  let t := fold_left Health.step calls (Health.new_WorkerHealthTracker id window t0) in
  let m := Health.getMetrics now currentLoad maxLoad t in
  Health.m_totalMs m = now - Health.startTime t /\
  0 <= Health.m_uptimeMs m <= Health.m_totalMs m /\
  (Health.lastDownStart t = None ->
   Health.m_uptimeMs m = Health.m_totalMs m - Health.downtime t).
Proof.
  intros t m.
  assert (H0 : Health.accounted t0 (Health.new_WorkerHealthTracker id window t0)).
  { unfold Health.accounted. cbn. lia. }
  destruct (accounted_calls calls now t0 _ H0 Hclock) as (clock & Hle & Hs & Hd & Hdown).
  fold t in Hs, Hd, Hdown. subst m. unfold Health.getMetrics. cbn.
  split; [done|]. split.
  - destruct (Health.lastDownStart t) as [down|]; [|lia].
    destruct (Z.eqb_spec down 0); lia.
  - intros ->. lia.
Qed.

(** X29 on a tracker that was down from 2000 to 2500 and is down again
    since 4000: at 5000 it has been up for 2500 of 4000 ms. *)
Lemma tracker_uptime_within_total_witness :
  0 <= Health.m_uptimeMs
         (Health.getMetrics 5000 0 1
            (fold_left Health.step
               [ Health.TrackDown 2000; Health.TrackUp 2500;
                 Health.TrackSuccess 3000 3000 42; Health.TrackDown 4000 ]
               (Health.new_WorkerHealthTracker "w1" None 1000)))
    <= Health.m_totalMs
         (Health.getMetrics 5000 0 1
            (fold_left Health.step
               [ Health.TrackDown 2000; Health.TrackUp 2500;
                 Health.TrackSuccess 3000 3000 42; Health.TrackDown 4000 ]
               (Health.new_WorkerHealthTracker "w1" None 1000))).
Proof.
  destruct (tracker_uptime_within_total "w1" None 1000
              [ Health.TrackDown 2000; Health.TrackUp 2500;
                Health.TrackSuccess 3000 3000 42; Health.TrackDown 4000 ]
              5000 0 1) as (_ & Hbounds & _).
  - cbn. lia.
  - exact Hbounds.
Defined.

(** ** Orchestrator: how often a task is assigned *)

Lemma assignments_of_app (id : TaskId) (evs evs' : list Event) :
  assignments_of id (evs ++ evs') = assignments_of id evs + assignments_of id evs'.
Proof. unfold assignments_of. rewrite List.filter_app, length_app. lia. Qed.

Lemma AsgInv_ext (o o' : Orchestrator) :
  o_heap o' = o_heap o -> o_events o' = o_events o -> AsgInv o -> AsgInv o'.
Proof. unfold AsgInv. by intros -> ->. Qed.

(** The task object [ref] is replaced by [t'] and [evs] is emitted. *)
Lemma AsgInv_update (o o' : Orchestrator) (ref : TaskId) (t t' : Task) (evs : list Event) :
  AsgInv o -> o_heap o !! ref = Some t ->
  o_heap o' = <[ref := t']> (o_heap o) ->
  o_events o' = (o_events o ++ evs)%list ->
  attempts_made t' = attempts_made t + assignments_of ref evs ->
  (forall id, id <> ref -> assignments_of id evs = 0) ->
  AsgInv o'.
Proof.
  intros HA Hl Hh He Hnew Hother id. rewrite Hh, He, assignments_of_app, (HA id).
  assert (Hlen : (ref < length (o_heap o))%nat) by by eapply lookup_lt_Some.
  destruct (decide (id = ref)) as [->|Hne].
  - rewrite list_lookup_insert_eq by done. unfold TaskId in *. rewrite Hl.
    symmetry. exact Hnew.
  - rewrite list_lookup_insert_ne by done. rewrite (Hother id Hne). apply Z.add_0_r.
Qed.

Lemma AsgInv_reportTaskResult (now : Z) (r : TaskResult) (o : Orchestrator) :
  Inv o -> AsgInv o -> AsgInv (reportTaskResult now r o).
Proof.
  intros HI HA.
  destruct (jsmap_get (r_taskId r) (activeTasks o)) as [ref|] eqn:Hg.
  2:{ by rewrite (reportTaskResult_unknown _ _ _ Hg). }
  destruct (Inv_active_task o _ _ HI Hg) as (-> & _ & _ & task & Hl & Hs & _).
  destruct (reportTaskResult_known now r o _ task Hg Hl) as (_ & _ & _ & _ & _ & Hcases).
  cbn zeta in Hcases.
  destruct Hcases as [(_ & Hh & _ & He)|[(_ & _ & Hh & _ & He)|(_ & _ & Hh & _ & He)]].
  - eapply (AsgInv_update o) with (t := task) (evs := [onTaskCompleted r]);
      [exact HA | exact Hl | exact Hh | exact He | | done].
    unfold attempts_made, assignments_of. cbn. rewrite Hs. cbn. lia.
  - eapply (AsgInv_update o) with (t := task) (evs := []);
      [exact HA | exact Hl | exact Hh | by rewrite app_nil_r | | done].
    unfold attempts_made, assignments_of. cbn. rewrite Hs. cbn. lia.
  - eapply (AsgInv_update o) with (t := task)
      (evs := [onTaskFailed (r_taskId r) (default "Unknown error" (r_error r))]);
      [exact HA | exact Hl | exact Hh | exact He | | done].
    unfold attempts_made, assignments_of. cbn. rewrite Hs. cbn. lia.
Qed.

Lemma AsgInv_sweep (now : Z) (entries : list (TaskId * TaskId)) :
  forall o, Inv o -> AsgInv o -> AsgInv (fold_left (sweep_one now) entries o).
Proof.
  induction entries as [|e entries IH]; intros o HI HA; [done|].
  cbn [fold_left]. apply IH; [by apply Inv_sweep_one|].
  destruct (sweep_one_cases now o e) as [->|(task & at_ & _ & _ & _ & _ & ->)];
    [done | by apply AsgInv_reportTaskResult].
Qed.

Lemma AsgInv_assign_one (now : Z) (u : Q) (o : Orchestrator) (ref : TaskId) :
  Inv o -> in_queue o ref -> AsgInv o -> AsgInv (assign_one now u o ref).
Proof.
  intros HI Hq HA.
  destruct (Inv_queued_task o ref HI Hq) as (_ & task & Hl & Hs & _).
  destruct (assign_one_effect now u o ref task Hl) as (_ & _ & _ & Hcases).
  cbn zeta in Hcases.
  destruct Hcases as [(Hh & _ & _ & He)|(a & _ & Hh & _ & _ & He)].
  - by apply (AsgInv_ext o).
  - eapply (AsgInv_update o) with (t := task) (evs := [onTaskAssigned ref (a_workerId a)]);
      [exact HA | exact Hl | exact Hh | exact He | |].
    + unfold attempts_made, assignments_of. cbn. rewrite Hs, Nat.eqb_refl. cbn. lia.
    + intros id Hne. unfold assignments_of. cbn.
      destruct (Nat.eqb_spec ref id); [congruence | done].
Qed.

Lemma AsgInv_assign_loop (now : Z) (rnd : nat -> Q) (refs : list TaskId) :
  forall i o, Inv o -> NoDup refs -> (forall ref, In ref refs -> in_queue o ref) ->
  AsgInv o -> AsgInv (assign_loop now rnd i refs o).
Proof.
  induction refs as [|ref refs IH]; intros i o HI Hnd Hin HA; [done|].
  cbn [assign_loop]. apply NoDup_cons in Hnd as [Hnin Hnd].
  rewrite list_elem_of_In in Hnin.
  destruct (Inv_assign_one now (rnd i) o ref HI) as [HI1 Hkeep]; [apply Hin; by left|].
  apply IH; try done.
  - intros y Hy. apply Hkeep; [intros ->; done | apply Hin; by right].
  - apply AsgInv_assign_one; [done| |done]. apply Hin. by left.
Qed.

Lemma AsgInv_emit_worker (o : Orchestrator) (e : Event) :
  (forall id, is_assignment_of id e = false) -> AsgInv o -> AsgInv (emit e o).
Proof.
  intros He HA id. cbn [emit o_events o_heap]. rewrite assignments_of_app, (HA id).
  unfold assignments_of at 1. cbn [List.filter]. rewrite He. cbn. lia.
Qed.

Lemma AsgInv_step (o : Orchestrator) (op : Op) : Inv o -> AsgInv o -> AsgInv (step o op).
Proof.
  intros HI HA.
  destruct op as [now d|workerId|now p|now s|now r|now rnd|now]; cbn [step].
  - unfold registerWorker. destruct (register now d (o_registry o)) as [w r1].
    cbn [snd]. apply AsgInv_emit_worker; [done | by apply (AsgInv_ext o)].
  - unfold unregisterWorker.
    destruct (unregister workerId (o_registry o)) as [[|] r1];
      destruct (get workerId (o_registry o)); cbn [snd];
      try (by apply (AsgInv_ext o)).
    apply AsgInv_emit_worker; [done | by apply (AsgInv_ext o)].
  - unfold orchestrator_heartbeat. destruct (heartbeat now p (o_registry o)).
    by apply (AsgInv_ext o).
  - unfold submitTask.
    destruct (maxQueueSize (o_config o) <=? Z.of_nat (length (taskQueue o))); [done|].
    cbn [snd].
    match goal with |- AsgInv (insertByPriority _ (with_heap (_ ++ [?t]) _)) =>
      set (task := t) end.
    assert (Hnew : attempts_made task = 0) by done.
    change (t_id task) with (length (o_heap o)). clearbody task.
    destruct (insertByPriority_fields (length (o_heap o))
                (with_heap (o_heap o ++ [task]) o)) as (Hh & _ & _ & _ & _ & _ & He).
    intros id. rewrite Hh, He. cbn [o_heap o_events with_heap]. rewrite (HA id).
    unfold TaskId in *.
    destruct (lt_eq_lt_dec id (length (o_heap o))) as [[Hlt| ->]|Hgt].
    + by rewrite lookup_app_l.
    + rewrite list_lookup_middle by done. by rewrite lookup_ge_None_2.
    + rewrite (lookup_ge_None_2 (o_heap o)) by lia.
      rewrite lookup_ge_None_2; [done|]. rewrite length_app. cbn. lia.
  - by apply AsgInv_reportTaskResult.
  - unfold processQueue.
    pose proof (Inv_checkTimeouts now o HI) as HI1.
    pose proof (AsgInv_sweep now (activeTasks o) o HI HA) as HA1.
    fold (checkTimeouts now o) in HA1. set (o1 := checkTimeouts now o) in *.
    apply AsgInv_assign_loop; try done.
    + apply NoDup_ListNoDup, List.NoDup_filter, NoDup_ListNoDup, HI1.
    + intros ref Href. apply filter_In in Href. apply Href.
  - by apply (AsgInv_ext o).
Qed.

Lemma AsgInv_run (ops : list Op) : forall o, Inv o -> AsgInv o -> AsgInv (run o ops).
Proof.
  induction ops as [|op ops IH]; intros o HI HA; [done|].
  rewrite run_cons. apply IH; [by apply Inv_step | by apply AsgInv_step].
Qed.

(** X30. A task is handed to a worker at most [maxRetries + 1] times. In
    every reachable state the number of [onTaskAssigned] notifications for
    a task is its retry count while it waits in the queue, and its retry
    count plus one once it is assigned, completed or failed; with a
    non-negative default and submitted retry budgets that is at most
    [maxRetries + 1], and a task that failed was assigned exactly
    [maxRetries + 1] times. An identifier that names no task was never
    assigned. *)
Theorem assignments_bounded_by_retries (config : PartialConfig) (ops : list Op)
    (Hdefault : 0 <= defaultMaxRetries (o_config (new_Orchestrator config)))
    (Hsubmissions : Forall submission_ok ops) :
  let o := run (new_Orchestrator config) ops in
  (forall id t, o_heap o !! id = Some t ->
     assignments_of id (o_events o) =
       t_retries t + (if TaskStatus_eqb (t_status t) pending then 0 else 1) /\
     assignments_of id (o_events o) <= t_maxRetries t + 1 /\
     (t_status t = failed -> assignments_of id (o_events o) = t_maxRetries t + 1)) /\
  (forall id, o_heap o !! id = None -> assignments_of id (o_events o) = 0).
Proof.
  intros o.
  assert (HA : AsgInv o).
  { apply AsgInv_run; [apply Inv_new|]. intros id. cbn. done. }
  split.
  - intros id t Hl. pose proof (HA id) as Hcount. rewrite Hl in Hcount.
    unfold attempts_made in Hcount.
    assert (Hpol : retry_policy t).
    { apply (retry_policy_run ops (new_Orchestrator config)) with (i := id); try done.
      intros k w []. }
    destruct Hpol as [Hbound Hfailed]. unfold retry_bound in Hbound.
    split; [done|]. split.
    + rewrite Hcount. destruct (TaskStatus_eqb (t_status t) pending); lia.
    + intros Hs. rewrite Hcount, Hs, (Hfailed Hs). cbn. lia.
  - intros id Hl. pose proof (HA id) as Hcount. by rewrite Hl in Hcount.
Qed.

(** X30 on scenario 2 (retry budget 1): the task was assigned twice. *)
Lemma assignments_bounded_by_retries_witness :
  assignments_of 0%nat
    (o_events (run (new_Orchestrator (config_with 60000 1)) scenario2_ops)) = 2.
Proof.
  assert (Hd : 0 <= defaultMaxRetries (o_config (new_Orchestrator (config_with 60000 1)))).
  { simpl. lia. }
  assert (Hs : Forall submission_ok scenario2_ops).
  { unfold scenario2_ops. repeat constructor. }
  destruct (assignments_bounded_by_retries (config_with 60000 1) scenario2_ops Hd Hs)
    as [Hcount _].
  destruct (o_heap (run (new_Orchestrator (config_with 60000 1)) scenario2_ops) !! 0%nat)
    as [t|] eqn:Hl.
  - destruct (Hcount 0%nat t Hl) as (_ & _ & Hfailed).
    assert (Hst : t_status t = failed /\ t_maxRetries t = 1).
    { pose proof Hl as Hl'. vm_compute in Hl'. injection Hl' as <-. split; reflexivity. }
    destruct Hst as [Hst Hmax]. rewrite (Hfailed Hst), Hmax. reflexivity.
  - vm_compute in Hl. discriminate.
Defined.
